(** * Sorting visualizer: step traces, move validation and the game session

    A shallow embedding of the step-generation engines (bubble, selection,
    insertion, merge, quick and heap sort), of their [validateMove] and of the
    [GameManager] session, followed by the properties of the specification.

    Conventions of the embedding.
    - A JavaScript array of integers is a [list Z]; positions are [Z], since
      the engines compute with [n - 1], [j--] and the like and may name the
      position [-1].  Reading outside the array gives [undefined], rendered
      [None].  The numbers of the arrays are integers, on which the
      comparisons of JavaScript are those of [Z].
    - An engine run threads the working array and the [steps] buffer; it is
      written in a state monad whose failure marks the border of what is
      modelled: a read whose value is used in a comparison or stored while
      being [undefined], a write that would leave a hole in the array, or
      recursion deeper than the recursion budget.  The theorems show that
      no run ever reaches that border.
    - The session and its engine share one [steps] array; [validateMove],
      which sorts the indices of a stored step in place, returns the array
      along with its verdict.
    - [Date.now()] and the array drawn by [generateArray] (which calls
      [Math.random]) are arguments of the functions that use them.
    - Counts, scores, lengths and clock readings are integers, [Z]: up to
      2^53 the arithmetic of the language on them is exact.  A quotient is
      the binary64 number nearest to the exact one ([Binary64]), and so are
      the products and differences made of one.  Where rounding changes
      nothing the rational is used as it is: the products of the points and
      the multipliers and the halves and quarters of the sizes are binary64
      numbers ([points_product_exact], [size_quotients_exact]), and the
      quotient of [calculateGrade] reaches a threshold of the table exactly
      when the exact one does ([grade_quotient_test]).
    - The array of the session, [currentArray], is the one array that a
      caller can leave with undefined cells; it is a [list (option Z)]. *)

From Stdlib Require Import ZArith List Lia Bool String Ascii.
From Stdlib Require Import Permutation Sorted QArith Qround Qpower DecimalString.
From Stdlib Require Import DecimalPos DecimalZ.
Import ListNotations.
Local Open Scope string_scope.
Local Open Scope Z_scope.

(** ** JavaScript arrays *)

Definition len {A} (a : list A) : Z := Z.of_nat (List.length a).

(** [a[i]]: [None] is [undefined]. *)
Definition js_get {A} (a : list A) (i : Z) : option A :=
  if i <? 0 then None else nth_error a (Z.to_nat i).

Fixpoint upd {A} (a : list A) (k : nat) (v : A) : list A :=
  match a, k with
  | [], _ => []
  | _ :: t, O => v :: t
  | x :: t, S k' => x :: upd t k' v
  end.

(** [a[i] = v]: inside the array the cell is replaced, at [a.length] the array
    grows by one cell; any other position is outside the model. *)
Definition js_set {A} (a : list A) (i : Z) (v : A) : option (list A) :=
  if (0 <=? i) && (i <? len a) then Some (upd a (Z.to_nat i) v)
  else if i =? len a then Some (a ++ [v])%list
  else None.

(** [a.slice(lo, hi)] for [0 <= lo]. *)
Definition slice {A} (a : list A) (lo hi : Z) : list A :=
  firstn (Z.to_nat (hi - lo)) (skipn (Z.to_nat lo) a).

(** Strict equality [===] of two possibly undefined numbers. *)
Definition strict_eq (x y : option Z) : bool :=
  match x, y with
  | Some a, Some b => a =? b
  | None, None => true
  | _, _ => false
  end.

(** Template-literal rendering of a number. *)
Definition show_Z (z : Z) : string := NilZero.string_of_int (Z.to_int z).

Definition show (v : option Z) : string :=
  match v with Some z => show_Z z | None => "undefined" end.

(** [xs.join(', ')] *)
Fixpoint join (xs : list Z) : string :=
  match xs with
  | [] => ""
  | [x] => show_Z x
  | x :: t => show_Z x ++ ", " ++ join t
  end.

(** ** Steps *)

Inductive StepType :=
  COMPARE | SWAP | DIVIDE | MERGE | SORTED | SELECT | INSERT | PIVOT.

Definition StepType_eqb (a b : StepType) : bool :=
  match a, b with
  | COMPARE, COMPARE | SWAP, SWAP | DIVIDE, DIVIDE | MERGE, MERGE
  | SORTED, SORTED | SELECT, SELECT | INSERT, INSERT | PIVOT, PIVOT => true
  | _, _ => false
  end.

Definition StepType_name (t : StepType) : string :=
  match t with
  | COMPARE => "compare" | SWAP => "swap" | DIVIDE => "divide"
  | MERGE => "merge" | SORTED => "sorted" | SELECT => "select"
  | INSERT => "insert" | PIVOT => "pivot"
  end.

Record Step := mkStep {
  type : StepType;
  indices : list Z;
  values : list (option Z);
  arrayState : list Z;
  description : string;
  isUserAction : bool
}.

(** [SortingAlgorithm.createStep] *)
Definition createStep (ty : StepType) (idx : list Z) (state : list Z)
    (desc : string) (isUser : bool) : Step :=
  {| type := ty;
     indices := idx;
     values := map (fun i => js_get state i) idx;
     arrayState := state;
     description := desc;
     isUserAction := isUser |}.

(** [SortingAlgorithm.getUserActionCount] and [getOptimalSwapCount], on the
    [steps] buffer of the engine. *)
Definition getUserActionCount (steps : list Step) : Z :=
  len (filter (fun s => isUserAction s) steps).

Definition getOptimalSwapCount (steps : list Step) : Z :=
  len (filter (fun s => StepType_eqb (type s) SWAP) steps).

(** ** The monad of an engine run *)

Record EngineState := mkSt { arr : list Z; steps : list Step }.

Definition M (A : Type) : Type := EngineState -> option (A * EngineState).

Definition ret {A} (x : A) : M A := fun s => Some (x, s).

Definition bind {A B} (m : M A) (k : A -> M B) : M B :=
  fun s => match m s with
           | Some (x, s') => k x s'
           | None => None
           end.

Notation "x <- m ;; k" := (bind m (fun x => k))
  (at level 61, m at next level, right associativity).
Notation "m ;; k" := (bind m (fun _ => k))
  (at level 61, right associativity).

Definition outside {A} : M A := fun _ => None.

Definition getArr : M (list Z) := fun s => Some (arr s, s).
Definition getSteps : M (list Step) := fun s => Some (steps s, s).

(** [arr[i]] where the value is computed with. *)
Definition readA (i : Z) : M Z :=
  fun s => match js_get (arr s) i with
           | Some v => Some (v, s)
           | None => None
           end.

(** [arr[i] = v] *)
Definition writeA (i v : Z) : M unit :=
  fun s => match js_set (arr s) i v with
           | Some a => Some (tt, mkSt a (steps s))
           | None => None
           end.

(** [[arr[i], arr[j]] = [arr[j], arr[i]]] *)
Definition swapA (i j : Z) : M unit :=
  x <- readA j ;; y <- readA i ;; writeA i x ;; writeA j y.

(** [this.steps.push(this.createStep(ty, idx, arr, desc, isUser))]; the
    description is a template over the array as it stands at the call. *)
Definition emit (ty : StepType) (idx : list Z) (desc : list Z -> string)
    (isUser : bool) : M unit :=
  fun s => Some (tt, mkSt (arr s)
                       (steps s ++ [createStep ty idx (arr s) (desc (arr s)) isUser])%list).

(** [for (let i = lo; i < hi; i++) acc = body(i, acc)] with [hi] fixed. *)
Fixpoint for_count {T} (cnt : nat) (i : Z) (body : Z -> T -> M T) (acc : T) : M T :=
  match cnt with
  | O => ret acc
  | S c => acc' <- body i acc ;; for_count c (i + 1) body acc'
  end.

Definition for_up {T} (lo hi : Z) (body : Z -> T -> M T) (acc : T) : M T :=
  for_count (Z.to_nat (hi - lo)) lo body acc.

(** [for (let i = hi; i >= lo; i--) body(i)] *)
Fixpoint for_count_down (cnt : nat) (i : Z) (body : Z -> M unit) : M unit :=
  match cnt with
  | O => ret tt
  | S c => body i ;; for_count_down c (i - 1) body
  end.

Definition for_down (hi lo : Z) (body : Z -> M unit) : M unit :=
  for_count_down (Z.to_nat (hi - lo + 1)) hi body.

(** A run starts from [this.reset()] and a copy of the input. *)
Definition run (m : M unit) (inputArray : list Z) : option (list Step) :=
  match m (mkSt inputArray []) with
  | Some (_, s) => Some (steps s)
  | None => None
  end.

(** ** Bubble sort *)

Module BubbleSort.

Definition pass (n i : Z) : M bool :=
  for_up 0 (n - i - 1) (fun j swapped =>
    emit COMPARE [j; j + 1]
      (fun a => "Comparing " ++ show (js_get a j) ++ " and " ++ show (js_get a (j + 1)))
      false ;;
    x <- readA j ;;
    y <- readA (j + 1) ;;
    if x >? y then
      emit SWAP [j; j + 1]
        (fun a => "Swap " ++ show (js_get a j) ++ " and " ++ show (js_get a (j + 1))
                  ++ " because " ++ show (js_get a j) ++ " > " ++ show (js_get a (j + 1)))
        true ;;
      swapA j (j + 1) ;;
      ret true
    else ret swapped) false.

(** The outer loop; [cnt] counts the passes that are left. *)
Fixpoint passes (cnt : nat) (n i : Z) : M unit :=
  match cnt with
  | O => ret tt
  | S c =>
      swapped <- pass n i ;;
      emit SORTED [n - i - 1]
        (fun a => "Element " ++ show (js_get a (n - i - 1))
                  ++ " is now in its final sorted position")
        false ;;
      if negb swapped then
        for_up 0 (n - i - 1) (fun k _ =>
          emit SORTED [k]
            (fun a => "Element " ++ show (js_get a k) ++ " is in its final sorted position")
            false) tt
      else passes c n (i + 1)
  end.

Definition generateSteps (inputArray : list Z) : option (list Step) :=
  run (let n := len inputArray in
       passes (Z.to_nat (n - 1)) n 0 ;;
       st <- getSteps ;;
       match last (map Some st) None with
       | Some final =>
           if negb (strict_eq (js_get (indices final) 0) (Some 0)) then
             emit SORTED [0]
               (fun a => "Element " ++ show (js_get a 0) ++ " is in its final sorted position")
               false
           else ret tt
       | None => ret tt
       end) inputArray.

End BubbleSort.

(** ** Selection sort *)

Module SelectionSort.

Definition findMin (n i : Z) : M Z :=
  for_up (i + 1) n (fun j minIndex =>
    emit COMPARE [minIndex; j]
      (fun a => "Comparing current minimum " ++ show (js_get a minIndex)
                ++ " with " ++ show (js_get a j))
      false ;;
    x <- readA j ;;
    y <- readA minIndex ;;
    if x <? y then
      emit SELECT [j]
        (fun a => "Found new minimum: " ++ show (js_get a j)
                  ++ " at position " ++ show_Z j)
        false ;;
      ret j
    else ret minIndex) i.

Definition generateSteps (inputArray : list Z) : option (list Step) :=
  run (let n := len inputArray in
       for_up 0 (n - 1) (fun i _ =>
         emit SELECT [i]
           (fun a => "Looking for minimum element starting from position "
                     ++ show_Z i ++ " (value: " ++ show (js_get a i) ++ ")")
           false ;;
         minIndex <- findMin n i ;;
         (if negb (minIndex =? i) then
            emit SWAP [i; minIndex]
              (fun a => "Swap " ++ show (js_get a i) ++ " at position " ++ show_Z i
                        ++ " with minimum " ++ show (js_get a minIndex)
                        ++ " at position " ++ show_Z minIndex)
              true ;;
            swapA i minIndex
          else ret tt) ;;
         emit SORTED [i]
           (fun a => "Element " ++ show (js_get a i)
                     ++ " is now in its final sorted position at index " ++ show_Z i)
           false) tt ;;
       emit SORTED [n - 1]
         (fun a => "Element " ++ show (js_get a (n - 1))
                   ++ " is now in its final sorted position")
         false) inputArray.

End SelectionSort.

(** ** Insertion sort *)

Module InsertionSort.

(** [while (j >= 0 && arr[j] > key)]; the loop runs on [k = j + 1], which
    counts the cells before the key, and returns the final [j]. *)
Fixpoint shift (k : nat) (key : Z) : M Z :=
  match k with
  | O => ret (-1)
  | S k' =>
      let j := Z.of_nat k' in
      x <- readA j ;;
      if x >? key then
        emit COMPARE [j; j + 1]
          (fun a => "Comparing " ++ show (js_get a j) ++ " with " ++ show_Z key ++ ": "
                    ++ show (js_get a j) ++ " > " ++ show_Z key ++ ", need to shift")
          false ;;
        emit SWAP [j; j + 1]
          (fun a => "Move " ++ show (js_get a j)
                    ++ " one position to the right (swap positions "
                    ++ show_Z j ++ " and " ++ show_Z (j + 1) ++ ")")
          true ;;
        y <- readA j ;;
        writeA (j + 1) y ;;
        writeA j key ;;
        shift k' key
      else ret j
  end.

Definition generateSteps (inputArray : list Z) : option (list Step) :=
  run (let n := len inputArray in
       emit SORTED [0]
         (fun a => "First element " ++ show (js_get a 0)
                   ++ " is our initial sorted portion")
         false ;;
       for_up 1 n (fun i _ =>
         key <- readA i ;;
         emit SELECT [i]
           (fun a => "Inserting " ++ show_Z key ++ " into the sorted portion [0.."
                     ++ show_Z (i - 1) ++ "]")
           false ;;
         j <- shift (Z.to_nat i) key ;;
         (if j =? i - 1 then
            emit COMPARE [j; i]
              (fun a => "Comparing " ++ show (js_get a j) ++ " with " ++ show_Z key ++ ": "
                        ++ show (js_get a j) ++ " ≤ " ++ show_Z key ++ ", no shift needed")
              false
          else ret tt) ;;
         emit INSERT [j + 1]
           (fun a => show_Z key ++ " is now in its correct position in the sorted portion")
           false) tt ;;
       for_up 0 n (fun i _ =>
         emit SORTED [i]
           (fun a => "Element " ++ show (js_get a i) ++ " is in its final position")
           false) tt) inputArray.

End InsertionSort.

(** ** Merge sort *)

Module MergeSort.

(** The temporary arrays [L] and [R] of [merge] are local values. *)
Definition setL (l : list Z) (i v : Z) : M (list Z) :=
  match js_set l i v with
  | Some l' => ret l'
  | None => outside
  end.

Definition getL (l : list Z) (i : Z) : M Z :=
  match js_get l i with
  | Some v => ret v
  | None => outside
  end.

(** [while (i < n1 && j < n2)]; [cnt] bounds the iterations that are left,
    [(n1 - i) + (n2 - j)]. *)
Fixpoint mergeLoop (cnt : nat) (L R : list Z) (left mid n1 n2 : Z)
    (i j k : Z) : M (Z * Z * Z) :=
  if (i <? n1) && (j <? n2) then
    match cnt with
    | O => outside
    | S c =>
        x <- getL L i ;;
        y <- getL R j ;;
        emit COMPARE [left + i; mid + 1 + j]
          (fun _ => "Comparing " ++ show_Z x ++ " and " ++ show_Z y)
          false ;;
        if x <=? y then
          emit SELECT [k]
            (fun _ => "Place " ++ show_Z x ++ " at position " ++ show_Z k
                      ++ " (smaller/equal from left subarray)")
            true ;;
          writeA k x ;;
          mergeLoop c L R left mid n1 n2 (i + 1) j (k + 1)
        else
          emit SELECT [k]
            (fun _ => "Place " ++ show_Z y ++ " at position " ++ show_Z k
                      ++ " (smaller from right subarray)")
            true ;;
          writeA k y ;;
          mergeLoop c L R left mid n1 n2 i (j + 1) (k + 1)
    end
  else ret (i, j, k).

(** [while (i < n) { ...; i++; k++ }] for the rest of [T]. *)
Definition copyRest (T : list Z) (i n k : Z) : M Z :=
  for_up i n (fun i k =>
    x <- getL T i ;;
    emit SELECT [k]
      (fun _ => "Place remaining " ++ show_Z x ++ " at position " ++ show_Z k)
      true ;;
    writeA k x ;;
    ret (k + 1)) k.

Definition merge (left mid right : Z) : M unit :=
  let n1 := mid - left + 1 in
  let n2 := right - mid in
  L <- for_up 0 n1 (fun i L => x <- readA (left + i) ;; setL L i x) [] ;;
  R <- for_up 0 n2 (fun j R => x <- readA (mid + 1 + j) ;; setL R j x) [] ;;
  emit MERGE [left; right]
    (fun _ => "Merging [" ++ join L ++ "] and [" ++ join R ++ "]")
    false ;;
  ijk <- mergeLoop (Z.to_nat (n1 + n2)) L R left mid n1 n2 0 0 left ;;
  let '(i, j, k) := ijk in
  k <- copyRest L i n1 k ;;
  _ <- copyRest R j n2 k ;;
  ret tt.

(** [fuel] is the recursion budget. *)
Fixpoint mergeSortRecursive (fuel : nat) (left right : Z) : M unit :=
  match fuel with
  | O => outside
  | S f =>
      if left >=? right then ret tt
      else
        let mid := left + (right - left) / 2 in
        emit DIVIDE [left; right]
          (fun a => "Divide: [" ++ join (slice a left (mid + 1)) ++ "] and ["
                    ++ join (slice a (mid + 1) (right + 1)) ++ "]")
          false ;;
        mergeSortRecursive f left mid ;;
        mergeSortRecursive f (mid + 1) right ;;
        merge left mid right
  end.

Definition generateSteps (inputArray : list Z) : option (list Step) :=
  run (let n := len inputArray in
       mergeSortRecursive (S (List.length inputArray)) 0 (n - 1) ;;
       workingArray <- getArr ;;
       for_up 0 (len workingArray) (fun i _ =>
         emit SORTED [i] (fun _ => "Array is completely sorted") false) tt)
      inputArray.

End MergeSort.

(** ** Quick sort *)

Module QuickSort.

Definition partition (low high : Z) : M Z :=
  pivot <- readA high ;;
  emit PIVOT [high]
    (fun _ => "Selected pivot: " ++ show_Z pivot ++ " (last element)")
    false ;;
  i <- for_up low high (fun j i =>
    emit COMPARE [j; high]
      (fun a => "Comparing " ++ show (js_get a j) ++ " with pivot " ++ show_Z pivot)
      false ;;
    x <- readA j ;;
    if x <? pivot then
      let i := i + 1 in
      if negb (i =? j) then
        emit SWAP [i; j]
          (fun a => show (js_get a j) ++ " < " ++ show_Z pivot ++ ": Swap "
                    ++ show (js_get a i) ++ " and " ++ show (js_get a j)
                    ++ " to move smaller element left")
          true ;;
        swapA i j ;;
        ret i
      else
        emit SELECT [i]
          (fun a => show (js_get a i) ++ " < " ++ show_Z pivot
                    ++ ": Element already in correct position")
          false ;;
        ret i
    else ret i) (low - 1) ;;
  let pivotFinalPos := i + 1 in
  (if negb (pivotFinalPos =? high) then
     emit SWAP [pivotFinalPos; high]
       (fun a => "Move pivot " ++ show_Z pivot
                 ++ " to its final position by swapping with "
                 ++ show (js_get a pivotFinalPos))
       true ;;
     swapA pivotFinalPos high
   else ret tt) ;;
  ret pivotFinalPos.

(** [fuel] is the recursion budget. *)
Fixpoint quickSortRecursive (fuel : nat) (low high : Z) : M unit :=
  match fuel with
  | O => outside
  | S f =>
      if low >=? high then
        if low =? high then
          emit SORTED [low]
            (fun a => "Single element " ++ show (js_get a low) ++ " is sorted")
            false
        else ret tt
      else
        emit DIVIDE [low; high]
          (fun _ => "Sorting subarray from index " ++ show_Z low ++ " to " ++ show_Z high)
          false ;;
        pivotIndex <- partition low high ;;
        emit SORTED [pivotIndex]
          (fun a => "Pivot " ++ show (js_get a pivotIndex) ++ " is now in its final position")
          false ;;
        quickSortRecursive f low (pivotIndex - 1) ;;
        quickSortRecursive f (pivotIndex + 1) high
  end.

Definition generateSteps (inputArray : list Z) : option (list Step) :=
  run (let n := len inputArray in
       quickSortRecursive (S (List.length inputArray)) 0 (n - 1) ;;
       arr <- getArr ;;
       for_up 0 (len arr) (fun i _ =>
         emit SORTED [i] (fun _ => "Array is completely sorted") false) tt)
      inputArray.

End QuickSort.

(** ** Heap sort *)

Module HeapSort.

(** [fuel] is the recursion budget. *)
Fixpoint heapify (fuel : nat) (n i : Z) : M unit :=
  match fuel with
  | O => outside
  | S f =>
      let left := 2 * i + 1 in
      let right := 2 * i + 2 in
      largest <-
        (if left <? n then
           emit COMPARE [i; left]
             (fun a => "Comparing " ++ show (js_get a i) ++ " with left child "
                       ++ show (js_get a left))
             false ;;
           x <- readA left ;;
           y <- readA i ;;
           ret (if x >? y then left else i)
         else ret i) ;;
      largest <-
        (if right <? n then
           emit COMPARE [largest; right]
             (fun a => "Comparing " ++ show (js_get a largest) ++ " with right child "
                       ++ show (js_get a right))
             false ;;
           x <- readA right ;;
           y <- readA largest ;;
           ret (if x >? y then right else largest)
         else ret largest) ;;
      if negb (largest =? i) then
        emit SWAP [i; largest]
          (fun a => "Swap " ++ show (js_get a i) ++ " with larger child "
                    ++ show (js_get a largest) ++ " to maintain heap property")
          true ;;
        swapA i largest ;;
        heapify f n largest
      else ret tt
  end.

Definition generateSteps (inputArray : list Z) : option (list Step) :=
  run (let n := len inputArray in
       let fuel := S (List.length inputArray) in
       emit DIVIDE [] (fun _ => "Building max heap from array") false ;;
       for_down (n / 2 - 1) 0 (fun i => heapify fuel n i) ;;
       for_down (n - 1) 1 (fun i =>
         emit SWAP [0; i]
           (fun a => "Swap root " ++ show (js_get a 0) ++ " with last unsorted element "
                     ++ show (js_get a i))
           true ;;
         swapA 0 i ;;
         emit SORTED [i]
           (fun a => show (js_get a i) ++ " is now in its final position")
           false ;;
         heapify fuel i 0) ;;
       emit SORTED [0]
         (fun a => show (js_get a 0) ++ " is in its final position. Array is sorted!")
         false) inputArray.

End HeapSort.

(** ** The six engines behind one interface *)

Inductive Algorithm := bubble | selection | insertion | merge | quick | heap.

Definition generateSteps (e : Algorithm) (inputArray : list Z) : option (list Step) :=
  match e with
  | bubble => BubbleSort.generateSteps inputArray
  | selection => SelectionSort.generateSteps inputArray
  | insertion => InsertionSort.generateSteps inputArray
  | merge => MergeSort.generateSteps inputArray
  | quick => QuickSort.generateSteps inputArray
  | heap => HeapSort.generateSteps inputArray
  end.

(** ** Move validation *)

(** A user action: [{type, indices}] for a swap, [{type, value}] for a
    selection. *)
Record UserAction := mkAction {
  atype : string;
  aindices : list Z;
  avalue : option Z
}.

Record Validation := mkValidation { valid : bool; message : string }.

(** [xs.sort((a, b) => a - b)] *)
Fixpoint insert_asc (x : Z) (l : list Z) : list Z :=
  match l with
  | [] => [x]
  | y :: t => if x <=? y then x :: l else y :: insert_asc x t
  end.

Fixpoint sort_asc (l : list Z) : list Z :=
  match l with
  | [] => []
  | x :: t => insert_asc x (sort_asc t)
  end.

Definition set_indices (s : Step) (idx : list Z) : Step :=
  {| type := type s; indices := idx; values := values s;
     arrayState := arrayState s; description := description s;
     isUserAction := isUserAction s |}.

(** The [validateMove] of the five swap engines, which differ in the two
    final messages only.  [step.indices.sort(...)] sorts the stored step in
    place, so the buffer is returned along with the verdict. *)
Definition validateSwapMove (okMessage wrongMessage : string)
    (steps : list Step) (stepIndex : Z) (userAction : UserAction)
    : Validation * list Step :=
  match js_get steps stepIndex with
  | None => (mkValidation false "Invalid step index", steps)
  | Some step =>
      if negb (isUserAction step) then
        (mkValidation false "No user action required at this step", steps)
      else if negb (String.eqb (atype userAction) "swap") then
        (mkValidation false "Expected a swap action", steps)
      else
        let expectedIndices := sort_asc (indices step) in
        let steps' := upd steps (Z.to_nat stepIndex) (set_indices step expectedIndices) in
        let userIndices := sort_asc (aindices userAction) in
        if strict_eq (js_get expectedIndices 0) (js_get userIndices 0)
           && strict_eq (js_get expectedIndices 1) (js_get userIndices 1)
        then (mkValidation true okMessage, steps')
        else (mkValidation false wrongMessage, steps')
  end.

(** [MergeSort.validateMove] *)
Definition validateSelectMove (steps : list Step) (stepIndex : Z)
    (userAction : UserAction) : Validation * list Step :=
  match js_get steps stepIndex with
  | None => (mkValidation false "Invalid step index", steps)
  | Some step =>
      if negb (isUserAction step) then
        (mkValidation false "No user action required at this step", steps)
      else if negb (String.eqb (atype userAction) "select") then
        (mkValidation false "Expected a selection action", steps)
      else
        let expectedValue := match values step with v :: _ => v | [] => None end in
        if strict_eq (avalue userAction) expectedValue then
          (mkValidation true "Correct! You selected the right element for the merge.", steps)
        else
          (mkValidation false
             "Incorrect. In Merge Sort, always pick the smaller element from the two sorted subarrays.",
           steps)
  end.

Definition validateMove (e : Algorithm) : list Step -> Z -> UserAction -> Validation * list Step :=
  match e with
  | bubble =>
      validateSwapMove "Correct swap!"
        "Incorrect. In Bubble Sort, we compare adjacent elements and swap if the left is greater than the right."
  | selection =>
      validateSwapMove "Correct! You swapped the minimum element to its correct position."
        "Incorrect. In Selection Sort, swap the minimum element from the unsorted portion with the first unsorted position."
  | insertion =>
      validateSwapMove "Correct! You shifted the element to make room for insertion."
        "Incorrect. In Insertion Sort, shift larger elements to the right to make room for the current element."
  | merge => validateSelectMove
  | quick =>
      validateSwapMove "Correct! You performed the right partition swap."
        "Incorrect. In Quick Sort partitioning, swap elements to ensure smaller values are left of the pivot."
  | heap =>
      validateSwapMove "Correct! Heap property maintained."
        "Incorrect. In Heap Sort, swap to maintain the max-heap property."
  end.

(** ** Scoring policy *)

Inductive Difficulty := easy | medium | hard | expert.

(** [Math.round] on a rational. *)
Definition Math_round (x : Q) : Z := Qfloor (x + (1 # 2))%Q.

(** ** Numbers that are not integers *)

(** A quotient, and a product or a difference that has a quotient in it, is
    a binary64 number: the exact result rounded to the nearest number of 53
    significant bits, to the one with an even last bit if two are equally
    near.  A finite number is the rational that it stands for.  The range
    of the exponent is not modelled: the clock readings, counts and scores
    of a game are far inside it. *)
Module Binary64.

(** [2 ^ e], for any integer [e]. *)
Definition pow2 (e : Z) : Q := (2 ^ e)%Q.

(** The binary exponent of a positive number, [floor (log2 q)]. *)
Definition exponent (q : Q) : Z :=
  let e := Z.log2 (Qnum q) - Z.log2 (Zpos (Qden q)) in
  if Qle_bool (pow2 e) q then e else e - 1.

(** The nearest integer, the even one of two that are equally near. *)
Definition nearest_even (q : Q) : Z :=
  let k := Qfloor q in
  match (q - inject_Z k ?= 1 # 2)%Q with
  | Lt => k
  | Gt => k + 1
  | Eq => if Z.even k then k else k + 1
  end.

(** A positive number, rounded to 53 significant bits. *)
Definition round_pos (q : Q) : Q :=
  let e := exponent q - 52 in
  (inject_Z (nearest_even (q / pow2 e)) * pow2 e)%Q.

Definition round (q : Q) : Q :=
  match Qnum q with
  | 0 => 0%Q
  | Zpos _ => round_pos q
  | Zneg _ => (- round_pos (- q))%Q
  end.

(** [x * y] and [x - y] *)
Definition mul (x y : Q) : Q := round (x * y).
Definition sub (x y : Q) : Q := round (x - y).

(** What a division gives. *)
Inductive Number := Finite (q : Q) | PlusInfinity | MinusInfinity | NaN.

(** [x / y]; the divisors of the code are sums, counts and lengths, whose
    zero is the positive one. *)
Definition div (x y : Q) : Number :=
  if Qeq_bool y 0 then
    if Qeq_bool x 0 then NaN
    else if Qle_bool 0 x then PlusInfinity else MinusInfinity
  else Finite (round (x / y)).

(** [a === q], [a >= q] and [a < q] for a finite [q]; every comparison with
    [NaN] is false. *)
Definition eq (a : Number) (q : Q) : bool :=
  match a with
  | Finite x => Qeq_bool x q
  | PlusInfinity | MinusInfinity | NaN => false
  end.

Definition ge (a : Number) (q : Q) : bool :=
  match a with
  | Finite x => Qle_bool q x
  | PlusInfinity => true
  | MinusInfinity | NaN => false
  end.

Definition lt (a : Number) (q : Q) : bool :=
  match a with
  | Finite x => negb (Qle_bool q x)
  | MinusInfinity => true
  | PlusInfinity | NaN => false
  end.

End Binary64.

Module ScoringSystem.

Definition correctSwap : Z := 100.
Definition incorrectSwap : Z := -50.
Definition streakBonus : Z := 50.
Definition streakThreshold : Z := 5.

Definition difficultyMultipliers (d : Difficulty) : Q :=
  match d with
  | easy => 1 | medium => 3 # 2 | hard => 2 | expert => 3
  end%Q.

(** The [totalPoints] of [calculateCorrectMoveScore]. *)
Definition calculateCorrectMoveScore (difficulty : Difficulty) (currentStreak : Z) : Z :=
  let multiplier := difficultyMultipliers difficulty in
  let basePoints := correctSwap in
  let bonus := if currentStreak >=? streakThreshold then streakBonus else 0 in
  Math_round (inject_Z (basePoints + bonus) * multiplier)%Q.

Definition calculateIncorrectMovePenalty : Z := incorrectSwap.

End ScoringSystem.

(** ** The game session *)

Module GameManager.

(** [this.difficulties] *)
Definition size (d : Difficulty) : Z :=
  match d with easy => 5 | medium => 8 | hard => 12 | expert => 16 end.

Definition bonus (d : Difficulty) : Q :=
  match d with
  | easy => 1 | medium => 3 # 2 | hard => 2 | expert => 3
  end%Q.

Inductive InputType := random | reversed | nearlySorted | duplicates.

(** The fields of a [GameManager].  [steps] is the very array that the
    engine returned and keeps as its own [steps]: the session and the
    engine share it, and [validateMove] works on it.  [currentArray] is the
    one array of the program that a caller can leave with cells that hold
    [undefined] (see [exchangeCells]): such a cell is [None]. *)
Record t := mk {
  currentAlgorithm : option Algorithm;
  currentArray : list (option Z);
  originalArray : list Z;
  steps : list Step;
  currentStepIndex : Z;
  score : Z;
  correctMoves : Z;
  incorrectMoves : Z;
  streak : Z;
  maxStreak : Z;
  startTime : option Z;
  endTime : option Z;
  difficulty : Difficulty;
  inputType : InputType;
  isGameActive : bool;
  isGameComplete : bool
}.

Definition reset : t :=
  {| currentAlgorithm := None; currentArray := []; originalArray := [];
     steps := []; currentStepIndex := 0; score := 0; correctMoves := 0;
     incorrectMoves := 0; streak := 0; maxStreak := 0; startTime := None;
     endTime := None; difficulty := easy; inputType := random;
     isGameActive := false; isGameComplete := false |}.

Definition with_cursor (g : t) (a : list (option Z)) (i : Z) : t :=
  {| currentAlgorithm := currentAlgorithm g; currentArray := a;
     originalArray := originalArray g; steps := steps g;
     currentStepIndex := i; score := score g;
     correctMoves := correctMoves g; incorrectMoves := incorrectMoves g;
     streak := streak g; maxStreak := maxStreak g; startTime := startTime g;
     endTime := endTime g; difficulty := difficulty g;
     inputType := inputType g; isGameActive := isGameActive g;
     isGameComplete := isGameComplete g |}.

(** [advanceToNextUserAction]; [cnt] bounds the steps that are left. *)
Fixpoint advance (cnt : nat) (g : t) : t :=
  match cnt with
  | O => g
  | S c =>
      if currentStepIndex g <? len (steps g) then
        match js_get (steps g) (currentStepIndex g) with
        | Some step =>
            if isUserAction step then g
            else advance c (with_cursor g (map Some (arrayState step))
                              (currentStepIndex g + 1))
        | None => g
        end
      else g
  end.

Definition advanceToNextUserAction (g : t) : t :=
  advance (Z.to_nat (len (steps g) - currentStepIndex g)) g.

(** [[a[i], a[j]] = [a[j], a[i]]] on an array of integers, for positions
    inside it, as the random indices are; [None] anywhere else. *)
Definition exchange (a : list Z) (i j : Z) : option (list Z) :=
  match js_get a i, js_get a j with
  | Some x, Some y => Some (upd (upd a (Z.to_nat i) y) (Z.to_nat j) x)
  | _, _ => None
  end.

(** [a[i]] and [a[i] = v] on the array of the session, where [i] comes from
    [const [i, j] = indices] and is [undefined] ([None]) if the indices are
    too few.  A cell read outside the array is [undefined]; a cell written
    past the end makes the array longer, with empty cells in between.  A
    negative or undefined [i] names a property of the array object, which
    is no cell: the cells stay as they are, and the model does not keep
    such a property (no valid move of a game has such an index). *)
Definition readCell (a : list (option Z)) (i : option Z) : option Z :=
  match i with
  | Some i => match js_get a i with Some v => v | None => None end
  | None => None
  end.

Definition writeCell (a : list (option Z)) (i : option Z) (v : option Z)
    : list (option Z) :=
  match i with
  | Some i =>
      if i <? 0 then a
      else if i <? len a then upd a (Z.to_nat i) v
      else (a ++ repeat None (Z.to_nat (i - len a)) ++ [v])%list
  | None => a
  end.

(** [[a[i], a[j]] = [a[j], a[i]]] on the array of the session: the two
    cells are read, then [a[i]] is written, then [a[j]]. *)
Definition exchangeCells (a : list (option Z)) (i j : option Z) : list (option Z) :=
  let x := readCell a j in
  let y := readCell a i in
  writeCell (writeCell a i x) j y.

(** What a valid move does to the session's array: a swap action
    exchanges the cells of its first two indices,
    [const [i, j] = userAction.indices]. *)
Definition applyAction (userAction : UserAction) (a : list (option Z))
    : list (option Z) :=
  if String.eqb (atype userAction) "swap" then
    exchangeCells a (nth_error (aindices userAction) 0)
                    (nth_error (aindices userAction) 1)
  else a.

(** [startGame], given the array that [generateArray] drew and the clock.
    [None] only if the engine run leaves the model. *)
Definition startGame (algorithmKey : Algorithm) (d : Difficulty)
    (it : InputType) (generated : list Z) (now : Z) : option t :=
  match generateSteps algorithmKey generated with
  | None => None
  | Some st =>
      let g := {| currentAlgorithm := Some algorithmKey;
                  currentArray := map Some generated; originalArray := generated;
                  steps := st; currentStepIndex := 0; score := 0;
                  correctMoves := 0; incorrectMoves := 0; streak := 0;
                  maxStreak := 0; startTime := None; endTime := None;
                  difficulty := d; inputType := it;
                  isGameActive := false; isGameComplete := false |} in
      let g := advanceToNextUserAction g in
      Some {| currentAlgorithm := currentAlgorithm g;
              currentArray := currentArray g; originalArray := originalArray g;
              steps := steps g; currentStepIndex := currentStepIndex g;
              score := score g; correctMoves := correctMoves g;
              incorrectMoves := incorrectMoves g; streak := streak g;
              maxStreak := maxStreak g; startTime := Some now;
              endTime := endTime g; difficulty := difficulty g;
              inputType := inputType g; isGameActive := true;
              isGameComplete := false |}
  end.

(** [completeGame] at clock reading [now].  With a clock reading before
    the start and no step at all, the quotient of the times is infinite,
    and so is the score of the code: no game gets there, since no array of
    a game is empty, and the score is left as it is. *)
Definition completeGame (now : Z) (g : t) : t :=
  let start := match startTime g with Some s => s | None => 0 end in
  let timeTaken := Binary64.round (inject_Z (now - start) / 1000) in
  let optimalTime := inject_Z (len (steps g) * 2) in
  let score1 :=
    if Qlt_le_dec timeTaken optimalTime
    then match Binary64.div timeTaken optimalTime with
         | Binary64.Finite ratio =>
             score g + Math_round (Binary64.mul 200 (Binary64.sub 1 ratio))
         | _ => score g
         end
    else score g in
  let accuracy :=
    Binary64.div (inject_Z (correctMoves g))
                 (inject_Z (correctMoves g + incorrectMoves g)) in
  let score2 :=
    if Binary64.eq accuracy 1 then score1 + 150
    else if Binary64.ge accuracy (Binary64.round (9 # 10)) then score1 + 100
    else score1 in
  {| currentAlgorithm := currentAlgorithm g; currentArray := currentArray g;
     originalArray := originalArray g; steps := steps g;
     currentStepIndex := currentStepIndex g; score := score2;
     correctMoves := correctMoves g; incorrectMoves := incorrectMoves g;
     streak := streak g; maxStreak := maxStreak g; startTime := startTime g;
     endTime := Some now; difficulty := difficulty g;
     inputType := inputType g; isGameActive := false;
     isGameComplete := true |}.

(** [getHint] *)
Fixpoint join_and (xs : list Z) : string :=
  match xs with
  | [] => ""
  | [x] => show_Z x
  | x :: r => show_Z x ++ " and " ++ join_and r
  end.

Definition getHint (g : t) : string :=
  match js_get (steps g) (currentStepIndex g) with
  | None => "No hint available"
  | Some currentStep =>
      match type currentStep with
      | SWAP => "Look for elements at positions " ++ join_and (indices currentStep)
                ++ ". " ++ description currentStep
      | SELECT => "Select the correct element. " ++ description currentStep
      | _ => description currentStep
      end
  end.

(** What [processMove] returns. *)
Record MoveResult := mkResult {
  success : bool;
  rvalid : option bool;
  rmessage : string;
  points : option Z;
  rstreak : option Z;
  rscore : option Z;
  isComplete : option bool;
  hint : option string
}.

Definition refused (msg : string) : MoveResult :=
  mkResult false None msg None None None None None.

(** [processMove(userAction)] at clock reading [now].  The outer [None] is
    the [TypeError] of a session without engine. *)
Definition processMove (now : Z) (userAction : UserAction) (g : t)
    : option (MoveResult * t) :=
  if negb (isGameActive g) || isGameComplete g then
    Some (refused "Game is not active", g)
  else
    match js_get (steps g) (currentStepIndex g) with
    | None => Some (refused "No user action expected", g)
    | Some currentStep =>
        if negb (isUserAction currentStep) then
          Some (refused "No user action expected", g)
        else
          match currentAlgorithm g with
          | None => None
          | Some algo =>
              let '(validation, steps') :=
                validateMove algo (steps g) (currentStepIndex g) userAction in
              if valid validation then
                let correctMoves' := correctMoves g + 1 in
                let streak' := streak g + 1 in
                let maxStreak' := Z.max (maxStreak g) streak' in
                let baseScore := 100 in
                let streakBonus := if streak' >=? 5 then 50 else 0 in
                let difficultyMultiplier := bonus (difficulty g) in
                let pts := Math_round (inject_Z (baseScore + streakBonus)
                                       * difficultyMultiplier)%Q in
                let score' := score g + pts in
                let array' := applyAction userAction (currentArray g) in
                let g1 :=
                  {| currentAlgorithm := currentAlgorithm g;
                     currentArray := array';
                     originalArray := originalArray g; steps := steps';
                     currentStepIndex := currentStepIndex g + 1;
                     score := score'; correctMoves := correctMoves';
                     incorrectMoves := incorrectMoves g;
                     streak := streak'; maxStreak := maxStreak';
                     startTime := startTime g; endTime := endTime g;
                     difficulty := difficulty g; inputType := inputType g;
                     isGameActive := isGameActive g;
                     isGameComplete := isGameComplete g |} in
                let g2 := advanceToNextUserAction g1 in
                let g3 := if currentStepIndex g2 >=? len (steps g2)
                          then completeGame now g2 else g2 in
                Some (mkResult true (Some true) (message validation)
                        (Some pts) (Some (streak g3)) (Some (score g3))
                        (Some (isGameComplete g3)) None, g3)
              else
                let penalty := 50 in
                let g1 :=
                  {| currentAlgorithm := currentAlgorithm g;
                     currentArray := currentArray g;
                     originalArray := originalArray g; steps := steps';
                     currentStepIndex := currentStepIndex g;
                     score := Z.max 0 (score g - penalty);
                     correctMoves := correctMoves g;
                     incorrectMoves := incorrectMoves g + 1;
                     streak := 0; maxStreak := maxStreak g;
                     startTime := startTime g; endTime := endTime g;
                     difficulty := difficulty g; inputType := inputType g;
                     isGameActive := isGameActive g;
                     isGameComplete := isGameComplete g |} in
                Some (mkResult true (Some false) (message validation)
                        (Some (- penalty)) (Some 0) (Some (score g1)) None
                        (Some (getHint g1)), g1)
          end
    end.

(** [skipStep()] at clock reading [now]; the boolean is [success]. *)
Definition skipStep (now : Z) (g : t) : bool * t :=
  if negb (isGameActive g) || isGameComplete g then (false, g)
  else
    let array1 :=
      match js_get (steps g) (currentStepIndex g) with
      | Some currentStep =>
          if isUserAction currentStep then
            (* the exchange is made on the old array, and then the field is
               given a copy of the step's snapshot *)
            let exchanged :=
              if StepType_eqb (type currentStep) SWAP then
                exchangeCells (currentArray g)
                  (nth_error (indices currentStep) 0)
                  (nth_error (indices currentStep) 1)
              else currentArray g in
            let _ := exchanged in
            map Some (arrayState currentStep)
          else currentArray g
      | None => currentArray g
      end in
    let g1 := with_cursor g array1 (currentStepIndex g + 1) in
    let g2 := advanceToNextUserAction g1 in
    let g3 := if currentStepIndex g2 >=? len (steps g2)
              then completeGame now g2 else g2 in
    (true, g3).

End GameManager.

(** * Vocabulary of the specification *)

(** Cells of an array by position, for positions inside the array. *)
Definition zget (a : list Z) (i : Z) : Z := nth (Z.to_nat i) a 0.

Definition zset (a : list Z) (i v : Z) : list Z := upd a (Z.to_nat i) v.

Definition zswap (a : list Z) (i j : Z) : list Z :=
  zset (zset a i (zget a j)) j (zget a i).

(** Ascending order of the cells [lo, hi). *)
Definition sorted_range (a : list Z) (lo hi : Z) : Prop :=
  forall i j, lo <= i -> i <= j -> j < hi -> zget a i <= zget a j.

(** What "the ascending sort of the input" means for an array. *)
Definition is_sort_of (input a : list Z) : Prop :=
  StronglySorted Z.le a /\ Permutation input a.

(** [wp m Q s]: from [s] the computation [m] stays inside the model and ends
    with a result and a state that satisfy [Q]. *)
Definition wp {A} (m : M A) (Q : A -> EngineState -> Prop) (s : EngineState) : Prop :=
  exists x s', m s = Some (x, s') /\ Q x s'.

(** What the event of a step does to the array: a swap step exchanges two
    cells, a user-action select step (merge sort) places a value, any other
    step leaves the array alone. *)
Definition effect (s : Step) (a a' : list Z) : Prop :=
  match type s, isUserAction s, indices s with
  | SWAP, _, [i; j] => a' = zswap a i j
  | SELECT, true, [k] => exists v, a' = zset a k v
  | _, _, _ => a' = a
  end.

(** [linked a0 t a]: the snapshots of [t] start at [a0], each step records
    the array as it is before its own event, and the array after the last
    event is [a]. *)
Fixpoint linked (a0 : list Z) (t : list Step) (a : list Z) : Prop :=
  match t with
  | [] => a0 = a
  | s :: r => arrayState s = a0 /\ exists a1, effect s a0 a1 /\ linked a1 r a
  end.

(** Shape of one step of a trace over an array of [n] cells; [sel] tells
    the merge engine, whose user actions are selections, from the five swap
    engines. *)
Definition wf_step (sel : bool) (n : Z) (s : Step) : Prop :=
  values s = map (fun i => js_get (arrayState s) i) (indices s) /\
  len (arrayState s) = n /\
  (type s = SWAP ->
     sel = false /\ isUserAction s = true /\
     exists i j, indices s = [i; j] /\ 0 <= i < j /\ j < n) /\
  (isUserAction s = true ->
     type s = SWAP \/
     (sel = true /\ type s = SELECT /\ exists k, indices s = [k] /\ 0 <= k < n)).

(** The invariant of an engine run on [input]: the array keeps its length,
    every step has its shape, and the snapshots are linked from the input to
    the working array. *)
Definition TInv (sel : bool) (input : list Z) (s : EngineState) : Prop :=
  len (arr s) = len input /\
  Forall (wf_step sel (len input)) (steps s) /\
  linked input (steps s) (arr s).

(** [within a a' lo hi]: [a'] is [a] rearranged inside [lo, hi). *)
Definition within (a a' : list Z) (lo hi : Z) : Prop :=
  len a' = len a /\
  (forall k, 0 <= k < len a -> ~ (lo <= k < hi) -> zget a' k = zget a k) /\
  (forall P : Z -> Prop,
      (forall k, lo <= k < hi -> P (zget a k)) ->
      forall k, lo <= k < hi -> P (zget a' k)).

(** The last step, if any, is not a user action. *)
Definition quiet_end (t : list Step) : Prop :=
  forall t' x, t = (t' ++ [x])%list -> type x <> SWAP /\ isUserAction x = false.

(** What every engine run is shown to end with: the trace invariant for a
    final array in ascending order, and a last step that is no user action. *)
Definition sorted_trace (sel : bool) (input : list Z) (t : list Step) : Prop :=
  exists final,
    TInv sel input (mkSt final t) /\ sorted_range final 0 (len input) /\ quiet_end t.

(** Insertion sort: the key sits in cell [k]; without that cell, [0 .. i]
    is in order, and the cells after it are greater than the key. *)
Definition key_at (a : list Z) (key k i : Z) : Prop :=
  zget a k = key /\
  sorted_range a 0 k /\ sorted_range a (k + 1) (i + 1) /\
  (forall l, k < l <= i -> key < zget a l) /\
  (forall p q, 0 <= p < k -> k < q <= i -> zget a p <= zget a q).

(** Heap sort: in a heap of [m] cells, cell [k] is not below its children. *)
Definition heap_at (a : list Z) (m k : Z) : Prop :=
  (2 * k + 1 < m -> zget a (2 * k + 1) <= zget a k) /\
  (2 * k + 2 < m -> zget a (2 * k + 2) <= zget a k).

(** [seg_perm a a' lo hi]: the cells [lo, hi) of [a'] hold the values of the
    same cells of [a] in some order; the other cells are the same. *)
Definition seg_perm (a a' : list Z) (lo hi : Z) : Prop :=
  len a' = len a /\
  (forall k, 0 <= k < len a -> ~ (lo <= k < hi) -> zget a' k = zget a k) /\
  Permutation (slice a lo hi) (slice a' lo hi).

(** Merge sort: of the two runs [left .. mid] and [mid + 1 .. right] of [a0],
    [i] cells of the left run and [j] of the right run have been placed in
    the cells [left, k) of [a]. *)
Definition MInv (a0 : list Z) (left mid right : Z) (i j k : Z) (a : list Z) : Prop :=
  0 <= i <= mid - left + 1 /\ 0 <= j <= right - mid /\ k = left + i + j /\
  len a = len a0 /\
  (forall p, 0 <= p < len a0 -> ~ (left <= p <= right) -> zget a p = zget a0 p) /\
  Permutation (slice a0 left (left + i) ++ slice a0 (mid + 1) (mid + 1 + j))
              (slice a left k) /\
  sorted_range a left k /\
  (forall p, left <= p < k ->
     (i < mid - left + 1 -> zget a p <= zget a0 (left + i)) /\
     (j < right - mid -> zget a p <= zget a0 (mid + 1 + j))).

(** What every engine run is shown to end with: the trace invariant for a
    final array that is the input in ascending order. *)
Definition engine_post (sel : bool) (input : list Z) (t : list Step) : Prop :=
  exists final,
    TInv sel input (mkSt final t) /\ sorted_range final 0 (len input) /\
    Permutation input final /\ quiet_end t.

(** The merge engine is the one whose user actions are selections. *)
Definition is_merge (e : Algorithm) : bool :=
  match e with merge => true | _ => false end.

(** What a reader of a trace does with one step: a swap step exchanges the
    two cells it names; a user-action select step (the placement of merge
    sort) writes the value the step records into the cell it names. *)
Definition apply_step (s : Step) (a : list Z) : list Z :=
  match type s, isUserAction s, indices s, values s with
  | SWAP, _, [i; j], _ => zswap a i j
  | SELECT, true, [k], [Some v] => zset a k v
  | _, _, _, _ => a
  end.

(** Applying the steps of a trace in order to a copy of the input. *)
Definition replay (input : list Z) (t : list Step) : list Z :=
  fold_left (fun a s => apply_step s a) t input.

(** The last step of a trace, if it has one. *)
Definition last_step (t : list Step) : option Step := last (map Some t) None.

(** The claim C1 as the specification words it: replaying the swap steps
    and the select placements gives the ascending sort of the input, and so
    does the snapshot of the last step of the trace. *)
Definition C1_as_stated (e : Algorithm) (input : list Z) : Prop :=
  exists t, generateSteps e input = Some t /\
    is_sort_of input (replay input t) /\
    exists s, last_step t = Some s /\ is_sort_of input (arrayState s).


(** The claim C7 as the specification words it. *)
Definition C7_as_stated (e : Algorithm) (input : list Z) : Prop :=
  exists t, generateSteps e input = Some t /\
    Forall (fun s => type s = SORTED /\
                     Forall (fun i => 0 <= i < len input) (indices s)) t /\
    getUserActionCount t = 0 /\ getOptimalSwapCount t = 0.

Module GM := GameManager.

(** The session is in the active state. *)
Definition active (g : GM.t) : Prop :=
  GM.isGameActive g = true /\ GM.isGameComplete g = false.

(** The cursor of the session is at a user-action step. *)
Definition at_user_step (g : GM.t) : Prop :=
  exists step, js_get (GM.steps g) (GM.currentStepIndex g) = Some step /\
               isUserAction step = true.

(** The verdict of the session's engine on an action at the cursor. *)
Definition verdict (g : GM.t) (action : UserAction) (b : bool) : Prop :=
  exists e, GM.currentAlgorithm g = Some e /\
    valid (fst (validateMove e (GM.steps g) (GM.currentStepIndex g) action)) = b.

(** A session whose trace is well formed for its engine and its array, as
    [startGame] leaves it and the moves keep it. *)
Definition session_ok (g : GM.t) : Prop :=
  exists e, GM.currentAlgorithm g = Some e /\
    Forall (wf_step (is_merge e) (len (GM.originalArray g))) (GM.steps g).

(** The sessions of the program: [startGame] makes one, [processMove] and
    [skipStep] take one to the next. *)
Inductive reachable : GM.t -> Prop :=
| reach_start e d it generated now g :
    GM.startGame e d it generated now = Some g -> reachable g
| reach_move now action g r g' :
    reachable g -> GM.processMove now action g = Some (r, g') -> reachable g'
| reach_skip now g :
    reachable g -> reachable (snd (GM.skipStep now g)).

(** The session of a game of heap sort on the easy reversed array, at its
    first user-action step. *)
Definition demo_session : GM.t :=
  Eval vm_compute in
    match GM.startGame heap easy GM.reversed [50; 40; 30; 20; 10] 0 with
    | Some g => g
    | None => GM.reset
    end.

(** The same game after the correct move [swap 0 4], and then after the
    correct move [swap 0 1]: the cursor is at the swap step of the cells 1
    and 3, which the swap step of the cells 0 and 3 follows at once. *)
Definition second_session : GM.t :=
  Eval vm_compute in
    match GM.processMove 1 (mkAction "swap" [0; 4] None) demo_session with
    | Some (_, g1) => g1
    | None => GM.reset
    end.

Definition skip_session : GM.t :=
  Eval vm_compute in
    match GM.processMove 2 (mkAction "swap" [0; 1] None) second_session with
    | Some (_, g2) => g2
    | None => GM.reset
    end.

(** The array and the cursor of the session that a call returns. *)
Definition array_and_cursor {A} (r : option (A * GM.t))
    : option (list (option Z) * Z) :=
  match r with
  | Some (_, g) => Some (GM.currentArray g, GM.currentStepIndex g)
  | None => None
  end.

(** ** The session between the calls *)

(** [SortingAlgorithm.getExpectedAction], on the [steps] buffer of the
    engine; [None] is [null].  The action it returns has no [value]. *)
Definition getExpectedAction (steps : list Step) (stepIndex : Z) : option UserAction :=
  match js_get steps stepIndex with
  | None => None
  | Some step =>
      if negb (isUserAction step) then None
      else Some (mkAction (StepType_name (type step)) (indices step) None)
  end.

(** The move that [App.attemptSwap(i, j)] sends to the session. *)
Definition attemptSwap (now i j : Z) (g : GM.t) : option (GM.MoveResult * GM.t) :=
  GM.processMove now (mkAction "swap" [i; j] None) g.

(** The session right after [processMove] has counted a correct move and
    applied it, before the cursor moves on. *)
Definition after_correct (g : GM.t) (array' : list (option Z)) : GM.t :=
  {| GM.currentAlgorithm := GM.currentAlgorithm g;
     GM.currentArray := array';
     GM.originalArray := GM.originalArray g; GM.steps := GM.steps g;
     GM.currentStepIndex := GM.currentStepIndex g + 1;
     GM.score := GM.score g +
       Math_round (inject_Z (100 + (if GM.streak g + 1 >=? 5 then 50 else 0))
                   * GM.bonus (GM.difficulty g))%Q;
     GM.correctMoves := GM.correctMoves g + 1;
     GM.incorrectMoves := GM.incorrectMoves g;
     GM.streak := GM.streak g + 1;
     GM.maxStreak := Z.max (GM.maxStreak g) (GM.streak g + 1);
     GM.startTime := GM.startTime g; GM.endTime := GM.endTime g;
     GM.difficulty := GM.difficulty g; GM.inputType := GM.inputType g;
     GM.isGameActive := GM.isGameActive g;
     GM.isGameComplete := GM.isGameComplete g |}.

(** The session after an incorrect move. *)
Definition after_incorrect (g : GM.t) : GM.t :=
  {| GM.currentAlgorithm := GM.currentAlgorithm g;
     GM.currentArray := GM.currentArray g;
     GM.originalArray := GM.originalArray g; GM.steps := GM.steps g;
     GM.currentStepIndex := GM.currentStepIndex g;
     GM.score := Z.max 0 (GM.score g - 50);
     GM.correctMoves := GM.correctMoves g;
     GM.incorrectMoves := GM.incorrectMoves g + 1;
     GM.streak := 0; GM.maxStreak := GM.maxStreak g;
     GM.startTime := GM.startTime g; GM.endTime := GM.endTime g;
     GM.difficulty := GM.difficulty g; GM.inputType := GM.inputType g;
     GM.isGameActive := GM.isGameActive g;
     GM.isGameComplete := GM.isGameComplete g |}.

(** The end of [processMove] and of [skipStep]: the cursor moves on to the
    next user action, and the game is completed if there is none. *)
Definition move_on (now : Z) (g1 : GM.t) : GM.t :=
  let g2 := GM.advanceToNextUserAction g1 in
  if GM.currentStepIndex g2 >=? len (GM.steps g2) then GM.completeGame now g2 else g2.

(** The array of a session holds the numbers of [input] in ascending order,
    and no cell with [undefined]. *)
Definition sorted_numbers (input : list Z) (a : list (option Z)) : Prop :=
  exists sorted, a = map Some sorted /\ is_sort_of input sorted.

(** What holds of a session between two calls: it plays the trace of its
    engine on its original array; it is active until it is complete; the
    cursor rests on a user-action step or past the last step, where the
    array is the original one in ascending order; the score and the
    counters are in range. *)
Definition session_inv (g : GM.t) : Prop :=
  (exists e, GM.currentAlgorithm g = Some e /\
             generateSteps e (GM.originalArray g) = Some (GM.steps g)) /\
  GM.isGameActive g = negb (GM.isGameComplete g) /\
  0 <= GM.currentStepIndex g /\
  (forall s, js_get (GM.steps g) (GM.currentStepIndex g) = Some s ->
             isUserAction s = true) /\
  (len (GM.steps g) <= GM.currentStepIndex g ->
     sorted_numbers (GM.originalArray g) (GM.currentArray g)) /\
  (GM.isGameComplete g = true -> len (GM.steps g) <= GM.currentStepIndex g) /\
  0 <= GM.score g /\ 0 <= GM.incorrectMoves g /\
  0 <= GM.streak g <= GM.maxStreak g /\ GM.maxStreak g <= GM.correctMoves g.

(** The sessions of a game that is played by the moves of the interface,
    without skipping a step: started, and then moved by [attemptSwap]. *)
Inductive played : GM.t -> Prop :=
| played_start e d it generated now g :
    GM.startGame e d it generated now = Some g -> played g
| played_move now i j g r g' :
    played g -> attemptSwap now i j g = Some (r, g') -> played g'.

(** The array of the session is the snapshot of the step under the cursor. *)
Definition shows_snapshot (g : GM.t) : Prop :=
  forall s, js_get (GM.steps g) (GM.currentStepIndex g) = Some s ->
            GM.currentArray g = map Some (arrayState s).

(** A game played by the moves of the interface: [attemptSwap(i, j)] one
    after the other. *)
Fixpoint play (now : Z) (moves : list (Z * Z)) (g : GM.t) : option GM.t :=
  match moves with
  | [] => Some g
  | (i, j) :: rest =>
      match attemptSwap now i j g with
      | Some (_, g') => play now rest g'
      | None => None
      end
  end.

(** The swaps that the user-action steps of a trace expect. *)
Definition expected_swaps (t : list Step) : list (Z * Z) :=
  flat_map (fun s => if isUserAction s
                     then match indices s with [i; j] => [(i, j)] | _ => [] end
                     else []) t.

(** The game of [demo_session] played to its end with the expected moves,
    and the same game after a wrong move and three expected ones. *)
Definition won_session : GM.t :=
  Eval vm_compute in
    match play 1000 (expected_swaps (GM.steps demo_session)) demo_session with
    | Some g => g
    | None => GM.reset
    end.

Definition midgame_session : GM.t :=
  Eval vm_compute in
    match play 1000 [(1, 2); (0, 4); (1, 0); (1, 3)] demo_session with
    | Some g => g
    | None => GM.reset
    end.

(** A game of merge sort on the same array, after two moves of the
    interface. *)
Definition merge_session : GM.t :=
  Eval vm_compute in
    match GM.startGame merge easy GM.reversed [50; 40; 30; 20; 10] 0 with
    | Some g => match play 1000 [(0, 1); (3, 4)] g with
                | Some g' => g'
                | None => GM.reset
                end
    | None => GM.reset
    end.

(** ** The arrays of the game *)

(** The source of the random numbers.  The code uses [Math.random()] in
    one way only, as [Math.floor(Math.random() * k)]; [floor_random n k] is
    the value of that expression at the [n]-th call of [Math.random], and
    [drawn] counts the calls made so far. *)
Record Source := mkSource { floor_random : nat -> Z -> Z; drawn : nat }.

(** [Math.floor(Math.random() * k)] *)
Definition random_index (k : Z) (src : Source) : Z * Source :=
  (floor_random src (drawn src) k, mkSource (floor_random src) (S (drawn src))).

(** [Math.random()] is at least 0 and less than 1: the index drawn for a
    positive [k] is one of [0 .. k - 1]. *)
Definition fair (src : Source) : Prop :=
  forall n k, 0 < k -> 0 <= floor_random src n k < k.

(** The loop of [shuffleArray], [for (i = ...; i > 0; i--)], with [i] cells
    still to settle. *)
Fixpoint shuffle_loop (i : nat) (shuffled : list Z) (src : Source)
    : option (list Z * Source) :=
  match i with
  | O => Some (shuffled, src)
  | S i' =>
      let (j, src') := random_index (Z.of_nat i + 1) src in
      match GM.exchange shuffled (Z.of_nat i) j with
      | Some shuffled' => shuffle_loop i' shuffled' src'
      | None => None
      end
  end.

(** [GameManager.shuffleArray]; [None] if an exchange leaves the array. *)
Definition shuffleArray (arr : list Z) (src : Source) : option (list Z * Source) :=
  shuffle_loop (List.length arr - 1) arr src.

(** [for (let i = size; i > 0; i--) arr.push(i * 10)] *)
Fixpoint push_down (i : nat) (arr : list Z) : list Z :=
  match i with
  | O => arr
  | S i' => push_down i' (arr ++ [Z.of_nat i * 10])%list
  end.

(** [for (...; i++) arr.push(f(i))], for [cnt] rounds from [i] on. *)
Fixpoint push_up (cnt : nat) (i : Z) (f : Z -> Z) (arr : list Z) : list Z :=
  match cnt with
  | O => arr
  | S c => push_up c (i + 1) f (arr ++ [f i])%list
  end.

(** The [swapCount] random exchanges of the nearly sorted array. *)
Fixpoint random_swaps (cnt : nat) (size : Z) (arr : list Z) (src : Source)
    : option (list Z * Source) :=
  match cnt with
  | O => Some (arr, src)
  | S c =>
      let (idx1, src1) := random_index size src in
      let (idx2, src2) := random_index size src1 in
      match GM.exchange arr idx1 idx2 with
      | Some arr' => random_swaps c size arr' src2
      | None => None
      end
  end.

(** [for (i < size) arr.push(values[Math.floor(Math.random() * uniqueValues)])];
    [None] if the value pushed is [undefined]. *)
Fixpoint random_picks (cnt : nat) (values : list Z) (uniqueValues : Z)
    (arr : list Z) (src : Source) : option (list Z * Source) :=
  match cnt with
  | O => Some (arr, src)
  | S c =>
      let (k, src') := random_index uniqueValues src in
      match js_get values k with
      | Some v => random_picks c values uniqueValues (arr ++ [v])%list src'
      | None => None
      end
  end.

(** [GameManager.generateArray] *)
Definition generateArray (d : Difficulty) (it : GM.InputType) (src : Source)
    : option (list Z * Source) :=
  let size := GM.size d in
  let maxValue := size * 10 in
  match it with
  | GM.reversed => Some (push_down (Z.to_nat size) [], src)
  | GM.nearlySorted =>
      let arr := push_up (Z.to_nat size) 1 (fun i => i * 10) [] in
      let swapCount := Z.max 1 (Qfloor (inject_Z size / 4)) in
      random_swaps (Z.to_nat swapCount) size arr src
  | GM.duplicates =>
      let uniqueValues := Qceiling (inject_Z size / 2) in
      let values := push_up (Z.to_nat uniqueValues) 0 (fun i => (i + 1) * 10) [] in
      match random_picks (Z.to_nat size) values uniqueValues [] src with
      | Some (arr, src') => shuffleArray arr src'
      | None => None
      end
  | GM.random =>
      let allValues := push_up (Z.to_nat maxValue) 1 (fun i => i) [] in
      match shuffle_loop (List.length allValues - 1) allValues src with
      | Some (allValues', src') => Some (slice allValues' 0 size, src')
      | None => None
      end
  end.

(** [startGame(algorithmKey, difficulty, inputType)] with the array that it
    draws itself. *)
Definition newGame (algorithmKey : Algorithm) (d : Difficulty) (it : GM.InputType)
    (src : Source) (now : Z) : option (GM.t * Source) :=
  match generateArray d it src with
  | Some (generated, src') =>
      match GM.startGame algorithmKey d it generated now with
      | Some g => Some (g, src')
      | None => None
      end
  | None => None
  end.

(** The multiples [10, 20, ..., 10 * n] of 10. *)
Definition tens (n : Z) : list Z :=
  map (fun k => (Z.of_nat k + 1) * 10) (seq 0 (Z.to_nat n)).

(** A source for the examples: the draws go round the indices. *)
Definition round_source : Source :=
  mkSource (fun n k => if 0 <? k then (7 * Z.of_nat n + 3) mod k else 0) 0.

(** ** Merge sort, the pure implementation *)

Module Pure.

(** The first loop of [merge], [while (i < left.length && j < right.length)];
    [fuel] bounds the rounds that are left, and [None] is the border of the
    model: no fuel, or a comparison with [undefined]. *)
Fixpoint merge_while (fuel : nat) (left right result : list Z) (i j : Z)
    : option (list Z * Z * Z) :=
  if (i <? len left) && (j <? len right) then
    match fuel with
    | O => None
    | S f =>
        match js_get left i, js_get right j with
        | Some x, Some y =>
            if x <=? y then merge_while f left right (result ++ [x]) (i + 1) j
            else merge_while f left right (result ++ [y]) i (j + 1)
        | _, _ => None
        end
    end
  else Some (result, i, j).

(** [while (i < a.length) { result.push(a[i]); i++; }] *)
Fixpoint push_rest (fuel : nat) (a result : list Z) (i : Z) : option (list Z) :=
  if i <? len a then
    match fuel with
    | O => None
    | S f =>
        match js_get a i with
        | Some x => push_rest f a (result ++ [x]) (i + 1)
        | None => None
        end
    end
  else Some result.

(** [merge(left, right)] *)
Definition merge (left right : list Z) : option (list Z) :=
  match merge_while (List.length left + List.length right) left right [] 0 0 with
  | Some (result, i, j) =>
      match push_rest (List.length left) left result i with
      | Some result' => push_rest (List.length right) right result' j
      | None => None
      end
  | None => None
  end.

(** [mergeSort(arr)]; [fuel] is the recursion budget. *)
Fixpoint mergeSort_rec (fuel : nat) (arr : list Z) : option (list Z) :=
  if len arr <=? 1 then Some arr
  else
    match fuel with
    | O => None
    | S f =>
        let mid := len arr / 2 in
        let leftHalf := slice arr 0 mid in
        let rightHalf := slice arr mid (len arr) in
        match mergeSort_rec f leftHalf with
        | Some sortedLeft =>
            match mergeSort_rec f rightHalf with
            | Some sortedRight => merge sortedLeft sortedRight
            | None => None
            end
        | None => None
        end
    end.

Definition mergeSort (arr : list Z) : option (list Z) :=
  mergeSort_rec (List.length arr) arr.

(** [mergeInPlace(arr, left, mid, right)] on the array of the state.  The
    temporary arrays, made with [new Array(n)], are filled from cell 0 up;
    the model keeps the cells filled so far, and a negative [n] is outside
    of it. *)
Fixpoint mergeLoop (cnt : nat) (L R : list Z) (n1 n2 : Z) (i j k : Z) : M (Z * Z * Z) :=
  if (i <? n1) && (j <? n2) then
    match cnt with
    | O => outside
    | S c =>
        x <- MergeSort.getL L i ;;
        y <- MergeSort.getL R j ;;
        if x <=? y then
          writeA k x ;;
          mergeLoop c L R n1 n2 (i + 1) j (k + 1)
        else
          writeA k y ;;
          mergeLoop c L R n1 n2 i (j + 1) (k + 1)
    end
  else ret (i, j, k).

Definition copyRest (T : list Z) (i n k : Z) : M Z :=
  for_up i n (fun i k =>
    x <- MergeSort.getL T i ;;
    writeA k x ;;
    ret (k + 1)) k.

Definition mergeInPlace (left mid right : Z) : M unit :=
  let n1 := mid - left + 1 in
  let n2 := right - mid in
  if (n1 <? 0) || (n2 <? 0) then outside
  else
    L <- for_up 0 n1 (fun i L => x <- readA (left + i) ;; MergeSort.setL L i x) [] ;;
    R <- for_up 0 n2 (fun j R => x <- readA (mid + 1 + j) ;; MergeSort.setL R j x) [] ;;
    ijk <- mergeLoop (Z.to_nat (n1 + n2)) L R n1 n2 0 0 left ;;
    let '(i, j, k) := ijk in
    k <- copyRest L i n1 k ;;
    _ <- copyRest R j n2 k ;;
    ret tt.

(** [mergeSortInPlace(arr, left, right)]; [fuel] is the recursion budget. *)
Fixpoint mergeSortInPlace_rec (fuel : nat) (left right : Z) : M unit :=
  if left >=? right then ret tt
  else
    match fuel with
    | O => outside
    | S f =>
        let mid := left + (right - left) / 2 in
        mergeSortInPlace_rec f left mid ;;
        mergeSortInPlace_rec f (mid + 1) right ;;
        mergeInPlace left mid right
    end.

(** [mergeSortInPlace(arr, left, right)] and the array that it leaves;
    [right - left] is budget enough. *)
Definition mergeSortInPlace (arr : list Z) (left right : Z) : option (list Z) :=
  match mergeSortInPlace_rec (Z.to_nat (right - left)) left right (mkSt arr []) with
  | Some (_, mkSt sorted _) => Some sorted
  | None => None
  end.

End Pure.

(** The sorting of [App.runToolSort]: the pure merge sort if merge sort is
    selected, the sort of the language with a numeric comparison for any
    other algorithm. *)
Definition toolSort (selectedAlgorithm : Algorithm) (numbers : list Z) : option (list Z) :=
  match selectedAlgorithm with
  | merge => Pure.mergeSort numbers
  | _ => Some (sort_asc numbers)
  end.

(** ** Helpers *)

(** [arr1.every((val, idx) => val === arr2[idx])], from position [idx] on. *)
Fixpoint every_equal (idx : Z) (arr1 arr2 : list Z) : bool :=
  match arr1 with
  | [] => true
  | val :: rest =>
      if strict_eq (Some val) (js_get arr2 idx) then every_equal (idx + 1) rest arr2
      else false
  end.

(** [arraysEqual(arr1, arr2)] *)
Definition arraysEqual (arr1 arr2 : list Z) : bool :=
  if negb (len arr1 =? len arr2) then false
  else every_equal 0 arr1 arr2.

(** [s.padStart(2, '0')] *)
Definition padStart2 (s : string) : string :=
  match String.length s with
  | O => "00"
  | S O => "0" ++ s
  | _ => s
  end.

(** [formatTime(ms)], for a whole number of milliseconds.  [%] is the
    remainder of the division that truncates. *)
Definition formatTime (ms : Z) : string :=
  let seconds := ms / 1000 in
  let minutes := seconds / 60 in
  let secs := Z.rem seconds 60 in
  show_Z minutes ++ ":" ++ padStart2 (show_Z secs).
(** ** Scoring policy: bonuses, grades and achievements *)

Module Scoring.

Definition perfectGameBonus : Z := 150.
Definition highAccuracyBonus : Z := 100.
Definition fastCompletionBonus : Z := 200.

Record GameStats := mkGameStats {
  correctMoves : Z;
  incorrectMoves : Z;
  timeTaken : Q
}.

Record Bonuses := mkBonuses { perfect : Z; accuracy : Z; speed : Z; total : Z }.

(** [calculateGameBonuses(gameStats)] *)
Definition calculateGameBonuses (gameStats : GameStats) : Bonuses :=
  let perfect :=
    if (incorrectMoves gameStats =? 0) && (correctMoves gameStats >? 0)
    then perfectGameBonus else 0 in
  let accuracy :=
    Binary64.div (inject_Z (correctMoves gameStats))
                 (inject_Z (correctMoves gameStats + incorrectMoves gameStats)) in
  let accuracyBonus :=
    if Binary64.ge accuracy (Binary64.round (9 # 10)) && (perfect =? 0)
    then highAccuracyBonus else 0 in
  let avgTimePerMove :=
    Binary64.div (timeTaken gameStats) (inject_Z (correctMoves gameStats)) in
  let speed := if Binary64.lt avgTimePerMove 2 then fastCompletionBonus else 0 in
  mkBonuses perfect accuracyBonus speed (perfect + accuracyBonus + speed).

Record Grade := mkGrade { min : Z; grade : string; label : string; color : string }.

Definition grades : list Grade :=
  [ mkGrade 1500 "S" "Perfect!" "#fbbf24";
    mkGrade 1200 "A" "Excellent!" "#22c55e";
    mkGrade 900 "B" "Great!" "#3b82f6";
    mkGrade 600 "C" "Good" "#8b5cf6";
    mkGrade 300 "D" "Keep Practicing" "#f97316";
    mkGrade 0 "F" "Try Again" "#ef4444" ].

(** [calculateGrade(score, difficulty)] for a whole score; [None] is a
    difficulty that the table of multipliers does not have. *)
Definition calculateGrade (score : Z) (difficulty : option Difficulty) : Grade :=
  let multiplier :=
    match difficulty with
    | Some d => ScoringSystem.difficultyMultipliers d
    | None => 1%Q
    end in
  let adjustedScore := (inject_Z score / multiplier)%Q in
  match find (fun gradeInfo => Qle_bool (inject_Z (min gradeInfo)) adjustedScore) grades with
  | Some gradeInfo => gradeInfo
  | None => last grades (mkGrade 0 "F" "Try Again" "#ef4444")
  end.

(** The statistics of a player.  [fastestTime] is [None] for [Infinity];
    [algorithmGames] is the object that maps a key to a count, the entry
    that was written last coming first. *)
Record Stats := mkStats {
  gamesCompleted : Z;
  totalScore : Z;
  perfectGames : Z;
  fastestTime : option Q;
  maxStreak : Z;
  algorithmsUsed : list string;
  algorithmGames : list (string * Z);
  hardGamesCompleted : Z;
  expertGamesCompleted : Z
}.

(** [object[key]] *)
Fixpoint lookup (key : string) (object : list (string * Z)) : option Z :=
  match object with
  | [] => None
  | (k, v) :: rest => if String.eqb k key then Some v else lookup key rest
  end.

(** [object[key] || 0] *)
Definition count_of (key : string) (object : list (string * Z)) : Z :=
  match lookup key object with
  | Some v => v
  | None => 0
  end.

(** [set.has(x)] and [array.includes(x)] for strings *)
Definition has (set : list string) (x : string) : bool :=
  existsb (String.eqb x) set.

(** [new Set(array)], as the array of its members in the order in which
    they came in; [members] are those already in. *)
Fixpoint set_of (array members : list string) : list string :=
  match array with
  | [] => members
  | x :: rest =>
      if has members x then set_of rest members
      else set_of rest (members ++ [x])
  end.

(** [new Set(array).size] *)
Definition set_size (array : list string) : Z := len (set_of array []).

Record Achievement := mkAchievement {
  id : string;
  name : string;
  description : string;
  icon : string;
  check : Stats -> bool
}.

(** [this.achievements].  [stats.algorithmsUsed] is the [Set] that
    [endGame] makes of the stored array. *)
Definition achievements : list Achievement :=
  [ mkAchievement "first_sort" "First Sort" "Complete your first sorting game" "🎯"
      (fun stats => gamesCompleted stats >=? 1);
    mkAchievement "perfect_game" "Perfect!" "Complete a game with 100% accuracy" "⭐"
      (fun stats => perfectGames stats >=? 1);
    mkAchievement "speed_demon" "Speed Demon" "Complete a game in under 30 seconds" "⚡"
      (fun stats => match fastestTime stats with
                    | Some t => negb (Qle_bool 30 t)
                    | None => false
                    end);
    mkAchievement "streak_master" "Streak Master" "Achieve a streak of 10 correct moves" "🔥"
      (fun stats => maxStreak stats >=? 10);
    mkAchievement "algorithm_explorer" "Algorithm Explorer" "Try all 5 sorting algorithms" "🔬"
      (fun stats => set_size (algorithmsUsed stats) >=? 5);
    mkAchievement "bubble_master" "Bubble Master" "Complete 5 games with Bubble Sort" "🫧"
      (fun stats => count_of "bubble" (algorithmGames stats) >=? 5);
    mkAchievement "quick_professional" "Quick Professional" "Complete 5 games with Quick Sort" "⚔️"
      (fun stats => count_of "quick" (algorithmGames stats) >=? 5);
    mkAchievement "challenge_accepted" "Challenge Accepted" "Complete a game on Hard difficulty" "💪"
      (fun stats => hardGamesCompleted stats >=? 1);
    mkAchievement "expert_level" "Expert Level" "Complete a game on Expert difficulty" "🏆"
      (fun stats => expertGamesCompleted stats >=? 1);
    mkAchievement "high_scorer" "High Scorer" "Earn a total of 10,000 points" "💯"
      (fun stats => totalScore stats >=? 10000) ].

(** [checkAchievements(stats, earnedAchievements)] *)
Definition checkAchievements (stats : Stats) (earnedAchievements : list string)
    : list Achievement :=
  filter (fun achievement =>
            negb (has earnedAchievements (id achievement)) && check achievement stats)
         achievements.

(** [getAchievementStatus(earnedAchievements)]: each achievement with its
    [unlocked] flag. *)
Definition getAchievementStatus (earnedAchievements : list string)
    : list (Achievement * bool) :=
  map (fun achievement => (achievement, has earnedAchievements (id achievement)))
      achievements.

End Scoring.
(** ** The stored statistics, achievements and high scores *)

(** The [name] of an engine and of a difficulty, as [getResults] reports
    them. *)
Definition algorithm_name (e : Algorithm) : string :=
  match e with
  | bubble => "Bubble Sort" | selection => "Selection Sort"
  | insertion => "Insertion Sort" | merge => "Merge Sort"
  | quick => "Quick Sort" | heap => "Heap Sort"
  end.

Definition difficulty_name (d : Difficulty) : string :=
  match d with
  | easy => "Easy" | medium => "Medium" | hard => "Hard" | expert => "Expert"
  end.

(** [s.toLowerCase()], for a string of ASCII characters. *)
Definition lower (c : ascii) : ascii :=
  let n := nat_of_ascii c in
  if (65 <=? n)%nat && (n <=? 90)%nat then ascii_of_nat (n + 32) else c.

Fixpoint toLowerCase (s : string) : string :=
  match s with
  | EmptyString => EmptyString
  | String c rest => String (lower c) (toLowerCase rest)
  end.

(** [s.replace(' ', '_')]: the first space only. *)
Fixpoint replace_space (s : string) : string :=
  match s with
  | EmptyString => EmptyString
  | String c rest =>
      if Ascii.eqb c " " then String "_" rest else String c (replace_space rest)
  end.

Module Storage.

(** An entry of the high scores: its [score], and the rest of the object. *)
Record HighScore := mkHighScore { score : Z; details : string }.

(** What the local storage holds under the keys [stats], [achievements] and
    [highScores] of the prefix, as [JSON.parse] reads back what the
    functions below have stored; [None] is a key without item.  The
    storage is taken to work: [get] and [set] raise no exception. *)
Record t := mk {
  stats : option Scoring.Stats;
  achievements : option (list string);
  highScores : option (list HighScore)
}.

(** The storage after [clear()]. *)
Definition clear : t := mk None None None.

(** [getStats()] *)
Definition getStats (st : t) : Scoring.Stats :=
  match stats st with
  | Some s => s
  | None => Scoring.mkStats 0 0 0 None 0 [] [] 0 0
  end.

(** The results of a game, as [updateStats] reads them. *)
Record GameResults := mkResults {
  algorithm : string;
  difficulty : string;
  finalScore : Z;
  accuracy : Z;
  timeTaken : Q;
  maxStreak : Z
}.

(** [object[key] = value]: the entry of the key is replaced where it is,
    and a new key comes last. *)
Fixpoint assign (key : string) (value : Z) (object : list (string * Z))
    : list (string * Z) :=
  match object with
  | [] => [(key, value)]
  | (k, v) :: rest =>
      if String.eqb k key then (k, value) :: rest
      else (k, v) :: assign key value rest
  end.

(** [updateStats(gameResults)]: the statistics it returns, and the storage
    that it leaves. *)
Definition updateStats (gameResults : GameResults) (st : t) : Scoring.Stats * t :=
  let stats := getStats st in
  let gamesCompleted := Scoring.gamesCompleted stats + 1 in
  let totalScore := Scoring.totalScore stats + finalScore gameResults in
  let perfectGames :=
    if accuracy gameResults =? 100 then Scoring.perfectGames stats + 1
    else Scoring.perfectGames stats in
  let fastestTime :=
    match Scoring.fastestTime stats with
    | None => Some (timeTaken gameResults)
    | Some t => if Qle_bool t (timeTaken gameResults) then Some t
                else Some (timeTaken gameResults)
    end in
  let maxStreak :=
    if maxStreak gameResults >? Scoring.maxStreak stats then maxStreak gameResults
    else Scoring.maxStreak stats in
  let algorithmsUsed :=
    if Scoring.has (Scoring.algorithmsUsed stats) (algorithm gameResults)
    then Scoring.algorithmsUsed stats
    else (Scoring.algorithmsUsed stats ++ [algorithm gameResults])%list in
  let algoKey := replace_space (toLowerCase (algorithm gameResults)) in
  let algorithmGames :=
    assign algoKey (Scoring.count_of algoKey (Scoring.algorithmGames stats) + 1)
           (Scoring.algorithmGames stats) in
  let hardGamesCompleted :=
    if String.eqb (difficulty gameResults) "Hard"
    then Scoring.hardGamesCompleted stats + 1
    else Scoring.hardGamesCompleted stats in
  let expertGamesCompleted :=
    if String.eqb (difficulty gameResults) "Hard" then Scoring.expertGamesCompleted stats
    else if String.eqb (difficulty gameResults) "Expert"
    then Scoring.expertGamesCompleted stats + 1
    else Scoring.expertGamesCompleted stats in
  let stats' :=
    Scoring.mkStats gamesCompleted totalScore perfectGames fastestTime maxStreak
      algorithmsUsed algorithmGames hardGamesCompleted expertGamesCompleted in
  (stats', mk (Some stats') (achievements st) (highScores st)).

(** [getAchievements()]: the members of the set. *)
Definition getAchievements (st : t) : list string :=
  Scoring.set_of (match achievements st with Some l => l | None => [] end) [].

(** [addAchievements(achievementIds)] *)
Definition addAchievements (achievementIds : list string) (st : t) : t :=
  let current := match achievements st with Some l => l | None => [] end in
  let updated := Scoring.set_of (current ++ achievementIds) [] in
  mk (stats st) (Some updated) (highScores st).

(** [getHighScores()] *)
Definition getHighScores (st : t) : list HighScore :=
  match highScores st with Some l => l | None => [] end.

(** [scores.sort((a, b) => b.score - a.score)]: the sort of the language
    keeps the order of the entries that compare equal. *)
Fixpoint insert_desc (x : HighScore) (l : list HighScore) : list HighScore :=
  match l with
  | [] => [x]
  | y :: rest => if score x <? score y then y :: insert_desc x rest else x :: l
  end.

Fixpoint sort_desc (l : list HighScore) : list HighScore :=
  match l with
  | [] => []
  | x :: rest => insert_desc x (sort_desc rest)
  end.

(** [addHighScore(score)] *)
Definition addHighScore (entry : HighScore) (st : t) : t :=
  let scores := (getHighScores st ++ [entry])%list in
  let scores := sort_desc scores in
  mk (stats st) (achievements st) (Some (firstn 10 scores)).

End Storage.

(** The part of [App.endGame] that awards the achievements: the statistics
    are updated, the achievements that are new are looked up, and stored if
    there are any. *)
Definition awardAchievements (results : Storage.GameResults) (st : Storage.t)
    : list Scoring.Achievement * Storage.t :=
  let (stats, st1) := Storage.updateStats results st in
  let earnedAchievements := Storage.getAchievements st1 in
  let newAchievements := Scoring.checkAchievements stats earnedAchievements in
  if 0 <? len newAchievements
  then (newAchievements,
        Storage.addAchievements (map Scoring.id newAchievements) st1)
  else (newAchievements, st1).

(** The storage of a player: empty at first, then written by the end of
    one game after the other, each of one of the six engines on one of the
    four difficulties, and by [addHighScore]. *)
Inductive stored : Storage.t -> Prop :=
| stored_clear : stored Storage.clear
| stored_game e d finalScore accuracy timeTaken maxStreak st :
    stored st ->
    stored (snd (awardAchievements
                   (Storage.mkResults (algorithm_name e) (difficulty_name d)
                      finalScore accuracy timeTaken maxStreak) st))
| stored_score entry st :
    stored st -> stored (Storage.addHighScore entry st).
(** The storage at a later time: after any number of games and of high
    scores. *)
Inductive follows (st : Storage.t) : Storage.t -> Prop :=
| follows_now : follows st st
| follows_game results st1 :
    follows st st1 -> follows st (snd (awardAchievements results st1))
| follows_score entry st1 :
    follows st st1 -> follows st (Storage.addHighScore entry st1).

(** The sum of the counts of an object. *)
Definition sum_counts (object : list (string * Z)) : Z :=
  fold_right (fun entry acc => snd entry + acc) 0 object.

(** Entries in descending order of their scores. *)
Definition descending (l : list Storage.HighScore) : Prop :=
  StronglySorted (fun a b => Storage.score b <= Storage.score a) l.

(** A storage for the examples: after a perfect game of quick sort on the
    hard difficulty, and a game of bubble sort. *)
Definition sample_storage : Storage.t :=
  Eval vm_compute in
    snd (awardAchievements
           (Storage.mkResults "Bubble Sort" "Easy" 700 80 (45 # 1) 4)
           (snd (awardAchievements
                   (Storage.mkResults "Quick Sort" "Hard" 3200 100 (25 # 1) 12)
                   Storage.clear))).

(** The storage after five games of bubble sort. *)
Definition five_bubble_games : Storage.t :=
  Eval vm_compute in
    Nat.iter 5
      (fun st => snd (awardAchievements
                        (Storage.mkResults "Bubble Sort" "Medium" 900 90 (40 # 1) 6) st))
      Storage.clear.

(** The count of the user-action steps before a position of a trace. *)
Definition user_actions_before (t : list Step) (c : Z) : Z :=
  getUserActionCount (firstn (Z.to_nat c) t).

(** The inversions of an array: the pairs of cells of which the left one
    holds the greater value. *)
Fixpoint inversions (a : list Z) : Z :=
  match a with
  | [] => 0
  | x :: rest => len (filter (fun y => y <? x) rest) + inversions rest
  end.

(** A swap step that exchanges two neighbours of which the left one holds
    the greater value. *)
Definition adjacent_inverted (s : Step) : Prop :=
  type s = SWAP ->
  exists j, indices s = [j; j + 1] /\
            zget (arrayState s) (j + 1) < zget (arrayState s) j.



(** * Properties *)

(** ** Arrays by position *)

Lemma length_upd {A} (a : list A) k v : List.length (upd a k v) = List.length a.
Proof.
  revert k; induction a as [|x a IH]; intros [|k]; simpl; auto.
Qed.

Lemma nth_upd_same {A} (a : list A) k v d :
  (k < List.length a)%nat -> nth k (upd a k v) d = v.
Proof.
  revert k; induction a as [|x a IH]; intros [|k] H; simpl in *; try lia; auto.
  apply IH; lia.
Qed.

Lemma nth_upd_other {A} (a : list A) k k' v d :
  k <> k' -> nth k' (upd a k v) d = nth k' a d.
Proof.
  revert k k'; induction a as [|x a IH]; intros [|k] [|k'] H; simpl; auto; try congruence.
Qed.

Lemma len_nonneg {A} (a : list A) : 0 <= len a.
Proof. unfold len; lia. Qed.

Lemma len_zset a i v : len (zset a i v) = len a.
Proof. unfold len, zset; now rewrite length_upd. Qed.

Lemma len_zswap a i j : len (zswap a i j) = len a.
Proof. unfold zswap; now rewrite !len_zset. Qed.

Lemma zget_zset_same a i v : 0 <= i < len a -> zget (zset a i v) i = v.
Proof. unfold zget, zset, len; intros; apply nth_upd_same; lia. Qed.

Lemma zget_zset_other a i k v : 0 <= i -> 0 <= k -> i <> k -> zget (zset a i v) k = zget a k.
Proof. unfold zget, zset; intros; apply nth_upd_other; lia. Qed.

Lemma zget_zset a i k v :
  0 <= i < len a -> 0 <= k ->
  zget (zset a i v) k = if k =? i then v else zget a k.
Proof.
  intros Hi Hk; destruct (Z.eqb_spec k i) as [->|Hne].
  - now apply zget_zset_same.
  - apply zget_zset_other; lia.
Qed.

Lemma zget_zswap a i j k :
  0 <= i < len a -> 0 <= j < len a -> 0 <= k ->
  zget (zswap a i j) k =
  if k =? j then zget a i else if k =? i then zget a j else zget a k.
Proof.
  intros Hi Hj Hk; unfold zswap.
  rewrite zget_zset by (rewrite ?len_zset; lia).
  destruct (k =? j); auto.
  now rewrite zget_zset by lia.
Qed.

Lemma js_get_in (a : list Z) i : 0 <= i < len a -> js_get a i = Some (zget a i).
Proof.
  unfold js_get, zget, len; intros H.
  destruct (Z.ltb_spec i 0); try lia.
  apply nth_error_nth'; lia.
Qed.

Lemma js_get_Some {A} (a : list A) i v : js_get a i = Some v -> 0 <= i < len a.
Proof.
  unfold js_get, len; destruct (Z.ltb_spec i 0); try discriminate.
  intros H1; assert (Z.to_nat i < List.length a)%nat; [|lia].
  apply nth_error_Some; congruence.
Qed.

Lemma js_set_in (a : list Z) i v : 0 <= i < len a -> js_set a i v = Some (zset a i v).
Proof.
  unfold js_set; intros H.
  destruct (Z.leb_spec 0 i); try lia; destruct (Z.ltb_spec i (len a)); try lia.
  reflexivity.
Qed.

Lemma js_set_end (a : list Z) v : js_set a (len a) v = Some (a ++ [v])%list.
Proof.
  unfold js_set.
  destruct (Z.ltb_spec (len a) (len a)); try lia.
  rewrite andb_false_r, Z.eqb_refl; reflexivity.
Qed.

Lemma upd_nth_id (a : list Z) k : upd a k (nth k a 0) = a.
Proof.
  revert k; induction a as [|x a IH]; intros [|k]; simpl; auto.
  now rewrite IH.
Qed.

Lemma zswap_same a i : zswap a i i = a.
Proof.
  unfold zswap, zset, zget.
  rewrite upd_nth_id.
  apply upd_nth_id.
Qed.

(** Two arrays with the same cells are equal. *)
Lemma zget_ext a b :
  len a = len b -> (forall k, 0 <= k < len a -> zget a k = zget b k) -> a = b.
Proof.
  unfold len, zget; intros Hl H.
  apply nth_ext with (d := 0) (d' := 0); [lia|].
  intros n Hn. specialize (H (Z.of_nat n)). rewrite Nat2Z.id in H. apply H; lia.
Qed.

Lemma zset_zset_swap a i j :
  0 <= i < len a -> 0 <= j < len a -> i <> j ->
  zset (zset a j (zget a i)) i (zget a j) = zswap a i j.
Proof.
  intros Hi Hj Hne. apply zget_ext.
  - now rewrite len_zswap, !len_zset.
  - rewrite !len_zset. intros k Hk.
    rewrite zget_zswap by lia.
    rewrite zget_zset by (rewrite ?len_zset; lia).
    rewrite zget_zset by lia.
    destruct (Z.eqb_spec k i), (Z.eqb_spec k j); auto; lia.
Qed.

Lemma upd_app_l {A} (a b : list A) k v :
  (k < List.length a)%nat -> upd (a ++ b) k v = (upd a k v ++ b)%list.
Proof.
  revert k; induction a as [|x a IH]; intros [|k] H; simpl in *; try lia; auto.
  rewrite IH; auto; lia.
Qed.

Lemma upd_app_r {A} (a b : list A) k v :
  upd (a ++ b) (List.length a + k) v = (a ++ upd b k v)%list.
Proof.
  induction a as [|x a IH]; simpl; auto. now rewrite IH.
Qed.

Lemma split_two (a : list Z) (p q : nat) :
  (p < q)%nat -> (q < List.length a)%nat ->
  exists l1 l2 r2,
    a = (l1 ++ nth p a 0 :: l2 ++ nth q a 0 :: r2)%list /\
    List.length l1 = p /\ List.length l2 = (q - p - 1)%nat.
Proof.
  intros Hpq Hq.
  destruct (nth_split a 0 (n := p)) as (l1 & r1 & E1 & L1); [lia|].
  remember (nth p a 0) as x eqn:Ex.
  assert (Hr : (q - p - 1 < List.length r1)%nat).
  { apply (f_equal (@List.length Z)) in E1. rewrite length_app in E1. simpl in E1. lia. }
  destruct (nth_split r1 0 Hr) as (l2 & r2 & E2 & L2).
  assert (Ej : nth q a 0 = nth (q - p - 1) r1 0).
  { rewrite E1. rewrite app_nth2 by lia.
    rewrite L1. destruct (q - p)%nat as [|m] eqn:Em; [lia|].
    simpl. f_equal. lia. }
  exists l1, l2, r2. rewrite Ej. split; [|split]; auto.
  rewrite <- E2. exact E1.
Qed.

Lemma zswap_perm a i j :
  0 <= i < len a -> 0 <= j < len a -> Permutation a (zswap a i j).
Proof.
  assert (W : forall a i j, 0 <= i < len a -> 0 <= j < len a -> i < j ->
              Permutation a (zswap a i j)).
  { clear. intros a i j Hi Hj Hlt.
    unfold len in *.
    destruct (split_two a (Z.to_nat i) (Z.to_nat j)) as (l1 & l2 & r2 & E & L1 & L2);
      try lia.
    unfold zswap, zset, zget.
    remember (nth (Z.to_nat i) a 0) as x.
    remember (nth (Z.to_nat j) a 0) as y.
    rewrite E.
    replace (Z.to_nat i) with (List.length l1 + 0)%nat by lia.
    rewrite upd_app_r. simpl.
    replace (Z.to_nat j) with (List.length l1 + S (List.length l2 + 0))%nat by lia.
    rewrite upd_app_r. simpl. rewrite upd_app_r. simpl.
    apply Permutation_app_head.
    transitivity (x :: y :: l2 ++ r2)%list.
    + constructor. symmetry. apply Permutation_middle.
    + transitivity (y :: x :: l2 ++ r2)%list; [apply perm_swap|].
      constructor. apply Permutation_middle. }
  intros Hi Hj.
  destruct (Z.lt_trichotomy i j) as [H|[->|H]].
  - now apply W.
  - rewrite zswap_same; apply Permutation_refl.
  - replace (zswap a i j) with (zswap a j i); [now apply W|].
    apply zget_ext; [now rewrite !len_zswap|].
    rewrite len_zswap; intros k Hk. rewrite !zget_zswap by lia.
    destruct (Z.eqb_spec k i), (Z.eqb_spec k j); auto; lia.
Qed.

Lemma sorted_range_all (a : list Z) :
  sorted_range a 0 (len a) -> StronglySorted Z.le a.
Proof.
  induction a as [|x a IH]; intros H; constructor.
  - apply IH. intros i j Hi Hij Hj.
    specialize (H (i + 1) (j + 1)). unfold zget, len in *. simpl length in H.
    replace (Z.to_nat (i + 1)) with (S (Z.to_nat i)) in H by lia.
    replace (Z.to_nat (j + 1)) with (S (Z.to_nat j)) in H by lia.
    simpl in H. apply H; lia.
  - apply Forall_forall. intros y Hy.
    destruct (In_nth _ _ 0 Hy) as (k & Hk & <-).
    specialize (H 0 (Z.of_nat (S k))). unfold zget, len in H. simpl length in H.
    rewrite Nat2Z.id in H. simpl in H. apply H; lia.
Qed.

(** ** Running an engine computation *)

Lemma wp_ret {A} (x : A) Q s : Q x s -> wp (ret x) Q s.
Proof. intros H; exists x, s; auto. Qed.

Lemma wp_bind {A B} (m : M A) (k : A -> M B) Q s :
  wp m (fun x s' => wp (k x) Q s') s -> wp (bind m k) Q s.
Proof.
  intros (x & s' & E & y & s'' & E' & H).
  exists y, s''; split; auto. unfold bind; now rewrite E.
Qed.

Lemma wp_conseq {A} (m : M A) (Q Q' : A -> EngineState -> Prop) s :
  wp m Q s -> (forall x s', Q x s' -> Q' x s') -> wp m Q' s.
Proof. intros (x & s' & E & H) HQ; exists x, s'; auto. Qed.

Lemma wp_emit ty idx d u (Q : unit -> EngineState -> Prop) a st :
  Q tt (mkSt a (st ++ [createStep ty idx a (d a) u])) ->
  wp (emit ty idx d u) Q (mkSt a st).
Proof. intros H; eexists _, _; split; [reflexivity|exact H]. Qed.

Lemma wp_getArr (Q : list Z -> EngineState -> Prop) a st :
  Q a (mkSt a st) -> wp getArr Q (mkSt a st).
Proof. intros H; eexists _, _; split; [reflexivity|exact H]. Qed.

Lemma wp_getSteps (Q : list Step -> EngineState -> Prop) a st :
  Q st (mkSt a st) -> wp getSteps Q (mkSt a st).
Proof. intros H; eexists _, _; split; [reflexivity|exact H]. Qed.

Lemma wp_readA i (Q : Z -> EngineState -> Prop) a st :
  0 <= i < len a -> Q (zget a i) (mkSt a st) -> wp (readA i) Q (mkSt a st).
Proof.
  intros Hi H; exists (zget a i), (mkSt a st); split; auto.
  unfold readA; simpl. now rewrite js_get_in.
Qed.

Lemma wp_writeA i v (Q : unit -> EngineState -> Prop) a st :
  0 <= i < len a -> Q tt (mkSt (zset a i v) st) -> wp (writeA i v) Q (mkSt a st).
Proof.
  intros Hi H; exists tt, (mkSt (zset a i v) st); split; auto.
  unfold writeA; simpl. now rewrite js_set_in.
Qed.

Lemma wp_swapA i j (Q : unit -> EngineState -> Prop) a st :
  0 <= i < len a -> 0 <= j < len a ->
  Q tt (mkSt (zswap a i j) st) -> wp (swapA i j) Q (mkSt a st).
Proof.
  intros Hi Hj H. unfold swapA.
  apply wp_bind, wp_readA; auto.
  apply wp_bind, wp_readA; auto.
  apply wp_bind, wp_writeA; auto.
  apply wp_writeA; [now rewrite len_zset|exact H].
Qed.

Lemma wp_for_count {T} (I : Z -> T -> EngineState -> Prop) (body : Z -> T -> M T) :
  forall cnt i acc s,
    I i acc s ->
    (forall j acc s, i <= j < i + Z.of_nat cnt -> I j acc s ->
                     wp (body j acc) (fun acc' s' => I (j + 1) acc' s') s) ->
    wp (for_count cnt i body acc) (fun acc' s' => I (i + Z.of_nat cnt) acc' s') s.
Proof.
  induction cnt as [|cnt IH]; intros i acc s HI Hbody; cbn [for_count].
  - apply wp_ret. now replace (i + Z.of_nat 0) with i by lia.
  - apply wp_bind.
    eapply wp_conseq; [apply Hbody; [lia|exact HI]|].
    intros acc' s' HI'. simpl in HI'.
    replace (i + Z.of_nat (S cnt)) with ((i + 1) + Z.of_nat cnt) by lia.
    apply IH; auto.
    intros j acc0 s0 Hj; apply Hbody; lia.
Qed.

Lemma wp_for_up {T} (I : Z -> T -> EngineState -> Prop) lo hi (body : Z -> T -> M T) acc s :
  lo <= hi ->
  I lo acc s ->
  (forall j acc s, lo <= j < hi -> I j acc s ->
                   wp (body j acc) (fun acc' s' => I (j + 1) acc' s') s) ->
  wp (for_up lo hi body acc) (fun acc' s' => I hi acc' s') s.
Proof.
  intros Hle HI Hbody. unfold for_up.
  eapply wp_conseq.
  - apply (wp_for_count I body (Z.to_nat (hi - lo)) lo acc s HI).
    intros j acc0 s0 Hj; apply Hbody; lia.
  - intros acc' s' H. simpl in H.
    now replace (lo + Z.of_nat (Z.to_nat (hi - lo))) with hi in H by lia.
Qed.

Lemma wp_for_up_none {T} lo hi (body : Z -> T -> M T) acc (Q : T -> EngineState -> Prop) s :
  hi <= lo -> Q acc s -> wp (for_up lo hi body acc) Q s.
Proof.
  intros Hle HQ. unfold for_up.
  replace (Z.to_nat (hi - lo)) with O by lia. now apply wp_ret.
Qed.

Lemma wp_for_count_down (I : Z -> EngineState -> Prop) (body : Z -> M unit) :
  forall cnt i s,
    I i s ->
    (forall j s, i - Z.of_nat cnt < j <= i -> I j s ->
                 wp (body j) (fun _ s' => I (j - 1) s') s) ->
    wp (for_count_down cnt i body) (fun _ s' => I (i - Z.of_nat cnt) s') s.
Proof.
  induction cnt as [|cnt IH]; intros i s HI Hbody; cbn [for_count_down].
  - apply wp_ret. now replace (i - Z.of_nat 0) with i by lia.
  - apply wp_bind.
    eapply wp_conseq; [apply Hbody; [lia|exact HI]|].
    intros [] s' HI'. simpl in HI'.
    replace (i - Z.of_nat (S cnt)) with ((i - 1) - Z.of_nat cnt) by lia.
    apply IH; auto.
    intros j s0 Hj; apply Hbody; lia.
Qed.

(** [for (i = hi; i >= lo; i--)] with invariant [I i] before the round of
    [i]; the loop ends with [I (lo - 1)]. *)
Lemma wp_for_down (I : Z -> EngineState -> Prop) hi lo (body : Z -> M unit) s :
  lo - 1 <= hi ->
  I hi s ->
  (forall j s, lo <= j <= hi -> I j s -> wp (body j) (fun _ s' => I (j - 1) s') s) ->
  wp (for_down hi lo body) (fun _ s' => I (lo - 1) s') s.
Proof.
  intros Hle HI Hbody. unfold for_down.
  eapply wp_conseq.
  - apply (wp_for_count_down I body (Z.to_nat (hi - lo + 1)) hi s HI).
    intros j s0 Hj; apply Hbody; lia.
  - intros [] s' H. simpl in H.
    now replace (hi - Z.of_nat (Z.to_nat (hi - lo + 1))) with (lo - 1) in H by lia.
Qed.

Lemma wp_for_down_none hi lo (body : Z -> M unit) (Q : unit -> EngineState -> Prop) s :
  hi < lo -> Q tt s -> wp (for_down hi lo body) Q s.
Proof.
  intros Hle HQ. unfold for_down.
  replace (Z.to_nat (hi - lo + 1)) with O by lia. now apply wp_ret.
Qed.

Lemma wp_run m input Q :
  wp m (fun _ s => Q (steps s)) (mkSt input []) ->
  exists t, run m input = Some t /\ Q t.
Proof.
  intros ([] & s' & E & H). exists (steps s'); split; auto.
  unfold run; now rewrite E.
Qed.

(** ** The invariant of a trace under construction *)

Lemma linked_snoc a0 t a s a' :
  linked a0 t a -> arrayState s = a -> effect s a a' -> linked a0 (t ++ [s]) a'.
Proof.
  revert a0; induction t as [|x t IH]; intros a0 H Hs He; simpl in *.
  - subst. split; auto. exists a'; auto.
  - destruct H as (Hx & a1 & Hex & Hl). split; auto.
    exists a1; split; auto.
Qed.

Lemma linked_app_inv a0 t1 t2 a :
  linked a0 (t1 ++ t2) a -> exists a1, linked a0 t1 a1 /\ linked a1 t2 a.
Proof.
  revert a0; induction t1 as [|x t1 IH]; intros a0 H; simpl in *.
  - exists a0; auto.
  - destruct H as (Hx & a1 & He & Hl).
    destruct (IH _ Hl) as (a2 & H1 & H2).
    exists a2; split; auto. split; auto. exists a1; auto.
Qed.

Lemma TInv_init sel input : TInv sel input (mkSt input []).
Proof. split; [|split]; simpl; auto. Qed.

Lemma TInv_emit sel input a st ty idx d :
  TInv sel input (mkSt a st) -> ty <> SWAP ->
  TInv sel input (mkSt a (st ++ [createStep ty idx a d false])).
Proof.
  intros (Hl & Hw & Hk) Hty; simpl in *. split; [|split]; simpl; auto.
  - apply Forall_app; split; auto. constructor; auto.
    split; [|split; [|split]]; simpl; auto; try congruence.
  - eapply linked_snoc; eauto.
    unfold effect; simpl. destruct ty; try congruence; auto.
Qed.

Lemma TInv_swap input a st i j d :
  TInv false input (mkSt a st) -> 0 <= i < j -> j < len a ->
  TInv false input (mkSt (zswap a i j) (st ++ [createStep SWAP [i; j] a d true])).
Proof.
  intros (Hl & Hw & Hk) Hi Hj; simpl in *. split; [|split]; simpl; auto.
  - now rewrite len_zswap.
  - apply Forall_app; split; auto. constructor; auto.
    split; [|split; [|split]]; simpl; auto.
    intros _; split; [|split]; auto.
    exists i, j; split; auto; lia.
  - eapply linked_snoc; eauto. reflexivity.
Qed.

Lemma TInv_select input a st k v d :
  TInv true input (mkSt a st) -> 0 <= k < len a ->
  TInv true input (mkSt (zset a k v) (st ++ [createStep SELECT [k] a d true])).
Proof.
  intros (Hl & Hw & Hk) Hi; simpl in *. split; [|split]; simpl; auto.
  - now rewrite len_zset.
  - apply Forall_app; split; auto. constructor; auto.
    split; [|split; [|split]]; simpl; auto; try congruence.
    intros _. right. split; [|split]; auto. exists k; split; auto; lia.
  - eapply linked_snoc; eauto. simpl. exists v; reflexivity.
Qed.

(** In a trace of a swap engine the events are exchanges inside the array,
    so the array stays a permutation of the input. *)
Lemma linked_perm n t : forall a0 a,
  Forall (wf_step false n) t -> len a0 = n -> linked a0 t a ->
  Permutation a0 a /\ len a = n.
Proof.
  induction t as [|s t IH]; intros a0 a Hw Hn Hl; simpl in *.
  - subst; split; auto.
  - destruct Hl as (Hs & a1 & He & Hl).
    inversion Hw as [|? ? (H1 & H2 & H3 & H4) Hw']; subst.
    assert (Permutation (arrayState s) a1 /\ len a1 = len (arrayState s)) as (P1 & L1).
    { unfold effect in He.
      destruct (type s) eqn:Ety;
        try (subst a1; split; [apply Permutation_refl|reflexivity]).
      - destruct H3 as (_ & _ & i & j & Ei & Hi & Hj); auto.
        rewrite Ei in He. subst a1. split; [|apply len_zswap].
        apply zswap_perm; lia.
      - destruct (isUserAction s) eqn:Eu;
          try (subst a1; split; [apply Permutation_refl|reflexivity]).
        destruct H4 as [H4|(H4 & _)]; auto; congruence. }
    destruct (IH a1 a Hw') as (P2 & L2); auto; try congruence.
    split; auto. etransitivity; eauto.
Qed.

Lemma TInv_perm input s : TInv false input s -> Permutation input (arr s).
Proof.
  intros (Hl & Hw & Hk). eapply linked_perm; eauto.
Qed.

(** A step that is no swap and no user action leaves the array as its
    snapshot shows it. *)
Lemma linked_last a0 t s a :
  linked a0 (t ++ [s]) a -> type s <> SWAP -> isUserAction s = false ->
  arrayState s = a.
Proof.
  intros H Hty Hu. apply linked_app_inv in H. destruct H as (a1 & _ & H).
  simpl in H. destruct H as (Hs & a2 & He & <-).
  unfold effect in He. rewrite Hu in He.
  destruct (type s); try congruence; destruct (indices s) as [|? [|? [|]]]; congruence.
Qed.

Lemma within_refl a lo hi : within a a lo hi.
Proof. split; [|split]; auto. Qed.

Lemma within_trans a b c lo hi : within a b lo hi -> within b c lo hi -> within a c lo hi.
Proof.
  intros (L1 & O1 & C1) (L2 & O2 & C2). split; [|split].
  - congruence.
  - intros k Hk Hn. rewrite O2, O1; auto. lia.
  - intros P HP. apply C2, C1, HP.
Qed.

Lemma within_zswap a i j lo hi :
  0 <= i < len a -> 0 <= j < len a -> lo <= i < hi -> lo <= j < hi ->
  within a (zswap a i j) lo hi.
Proof.
  intros Hi Hj Hi' Hj'. split; [|split].
  - apply len_zswap.
  - intros k Hk Hn. rewrite zget_zswap by lia.
    destruct (Z.eqb_spec k j); [lia|]. destruct (Z.eqb_spec k i); [lia|]. reflexivity.
  - intros P HP k Hk.
    destruct (Z_lt_dec k 0) as [Hneg|Hpos].
    + (* positions below 0 read cell 0 *)
      assert (E : forall b, zget b k = zget b 0).
      { intros b; unfold zget. now replace (Z.to_nat k) with (Z.to_nat 0) by lia. }
      rewrite E. rewrite zget_zswap by lia.
      destruct (Z.eqb_spec 0 j); [apply HP; lia|].
      destruct (Z.eqb_spec 0 i); [apply HP; lia|].
      rewrite <- E. apply HP; lia.
    + rewrite zget_zswap by lia.
      destruct (Z.eqb_spec k j); [apply HP; lia|].
      destruct (Z.eqb_spec k i); [apply HP; lia|].
      apply HP; lia.
Qed.

Lemma within_mono a a' lo hi lo' hi' :
  within a a' lo hi -> 0 <= lo' <= lo -> hi <= hi' <= len a ->
  within a a' lo' hi'.
Proof.
  intros (L & O & C) Hlo Hhi. split; [|split]; auto.
  - intros k Hk Hn. apply O; auto; lia.
  - intros P HP k Hk.
    destruct (Z_lt_dec k lo); [rewrite O by lia; apply HP; lia|].
    destruct (Z_le_dec hi k); [rewrite O by lia; apply HP; lia|].
    apply C; [|lia]. intros; apply HP; lia.
Qed.

Lemma quiet_end_nil : quiet_end [].
Proof. intros [|] x H; discriminate. Qed.

Lemma quiet_end_snoc st ty idx a d :
  ty <> SWAP -> quiet_end (st ++ [createStep ty idx a d false]).
Proof.
  intros Hty t' x H. apply app_inj_tail in H. destruct H as (_ & <-). auto.
Qed.

(** A loop that only marks cells as sorted. *)
Lemma wp_mark_loop sel input lo hi (d : Z -> list Z -> string) a st :
  TInv sel input (mkSt a st) -> quiet_end st ->
  wp (for_up lo hi (fun i (_ : unit) => emit SORTED [i] (d i) false) tt)
     (fun _ s' => TInv sel input s' /\ arr s' = a /\ quiet_end (steps s'))
     (mkSt a st).
Proof.
  intros HT HQ. destruct (Z_le_dec lo hi) as [Hle|Hgt].
  - eapply wp_conseq.
    + apply (wp_for_up (fun _ _ s' => TInv sel input s' /\ arr s' = a /\ quiet_end (steps s'))); auto.
      intros j [] [a' st'] Hj (HT' & Ha & HQ'). simpl in *. subst a'.
      apply wp_emit. split; [|split]; simpl; auto.
      * apply TInv_emit; auto. discriminate.
      * apply quiet_end_snoc. discriminate.
    + auto.
  - apply wp_for_up_none; [lia|]. auto.
Qed.

(** ** Bubble sort sorts *)

Section BubbleProof.

Variable input : list Z.
Let n := len input.

Lemma bubble_pass_spec i a st :
  TInv false input (mkSt a st) -> 0 <= i -> i < n - 1 ->
  wp (BubbleSort.pass n i)
     (fun swapped s' =>
        TInv false input s' /\ within a (arr s') 0 (n - i) /\
        (forall k, 0 <= k <= n - i - 1 -> zget (arr s') k <= zget (arr s') (n - i - 1)) /\
        (swapped = false -> sorted_range (arr s') 0 (n - i)))
     (mkSt a st).
Proof.
  intros HT Hi0 Hi1. unfold BubbleSort.pass.
  assert (Hn : len a = n) by (destruct HT as (H & _); exact H).
  eapply wp_conseq.
  - apply (wp_for_up (fun j swapped s' =>
             TInv false input s' /\ within a (arr s') 0 (n - i) /\
             (forall k, 0 <= k <= j -> zget (arr s') k <= zget (arr s') j) /\
             (swapped = false -> sorted_range (arr s') 0 (j + 1)))); [lia| |].
    + split; [|split; [|split]]; simpl; auto using within_refl.
      * intros k Hk. replace k with 0 by lia. lia.
      * intros _ p q Hp Hpq Hq. replace p with q by lia. lia.
    + intros j swapped [a' st'] Hj (HT' & HW & Hmax & Hs). simpl in *.
      assert (Hn' : len a' = n) by (destruct HW; congruence).
      apply wp_bind, wp_emit.
      apply wp_bind, wp_readA; [lia|].
      apply wp_bind, wp_readA; [lia|].
      destruct (Z.gtb_spec (zget a' j) (zget a' (j + 1))) as [Hgt|Hle].
      * apply wp_bind, wp_emit. apply wp_bind, wp_swapA; [lia|lia|].
        apply wp_ret. split; [|split; [|split]]; simpl.
        -- apply TInv_swap; [|lia|lia]. apply TInv_emit; auto. discriminate.
        -- eapply within_trans; [exact HW|]. apply within_zswap; lia.
        -- intros k Hk. rewrite !zget_zswap by lia.
           rewrite Z.eqb_refl.
           destruct (Z.eqb_spec k (j + 1)); [lia|].
           destruct (Z.eqb_spec k j); [lia|]. apply Hmax; lia.
        -- discriminate.
      * apply wp_ret. split; [|split; [|split]]; simpl.
        -- apply TInv_emit; auto. discriminate.
        -- exact HW.
        -- intros k Hk. destruct (Z.eq_dec k (j + 1)) as [->|Hne]; [lia|].
           specialize (Hmax k). lia.
        -- intros Hsw p q Hp Hpq Hq.
           destruct (Z.eq_dec q (j + 1)) as [->|Hne].
           ++ destruct (Z.eq_dec p (j + 1)) as [->|Hne']; [lia|].
              specialize (Hmax p). lia.
           ++ apply Hs; auto; lia.
  - intros swapped s' (HT' & HW & Hmax & Hs). simpl.
    split; [|split; [|split]]; auto.
    intros Hsw. replace (n - i) with (n - i - 1 + 1) by lia. auto.
Qed.

Lemma bubble_passes_spec : forall cnt i a st,
  TInv false input (mkSt a st) -> quiet_end st ->
  0 <= i -> cnt = Z.to_nat (n - 1 - i) ->
  sorted_range a (n - i) n ->
  (forall k l, 0 <= k < n - i -> n - i <= l < n -> zget a k <= zget a l) ->
  wp (BubbleSort.passes cnt n i)
     (fun _ s' => TInv false input s' /\ sorted_range (arr s') 0 n /\ quiet_end (steps s'))
     (mkSt a st).
Proof.
  induction cnt as [|cnt IH]; intros i a st HT HQ Hi Hcnt Hsuf Hcross;
    cbn [BubbleSort.passes].
  - apply wp_ret. split; [|split]; simpl; auto.
    intros p q Hp Hpq Hq.
    destruct (Z_le_dec (n - i) p); [apply Hsuf; lia|].
    destruct (Z_le_dec (n - i) q); [apply Hcross; lia|].
    replace p with q by lia. lia.
  - assert (Hn : len a = n) by (destruct HT as (H & _); exact H).
    apply wp_bind. eapply wp_conseq; [apply bubble_pass_spec; auto; lia|].
    intros swapped [a1 st1] (HT1 & HW & Hmax & Hs). simpl in *.
    destruct HW as (HL & HO & HC).
    assert (Hcross1 : forall k l, 0 <= k < n - i -> n - i <= l < n -> zget a1 k <= zget a1 l).
    { intros k l Hk Hl. rewrite (HO l) by lia.
      apply (HC (fun v => v <= zget a l)); [|lia]. intros; apply Hcross; lia. }
    assert (Hsuf1 : sorted_range a1 (n - i) n).
    { intros p q Hp Hpq Hq. rewrite (HO p), (HO q) by lia. apply Hsuf; lia. }
    apply wp_bind, wp_emit.
    assert (HT2 : forall d, TInv false input
               (mkSt a1 (st1 ++ [createStep SORTED [n - i - 1] a1 d false]))).
    { intros d; apply TInv_emit; auto. discriminate. }
    destruct swapped; cbn [negb].
    + apply IH; auto; try lia.
      * apply quiet_end_snoc; discriminate.
      * intros p q Hp Hpq Hq.
        destruct (Z.eq_dec p (n - (i + 1))) as [->|Hne].
        -- destruct (Z.eq_dec q (n - (i + 1))) as [->|Hne']; [lia|].
           apply Hcross1; lia.
        -- apply Hsuf1; lia.
      * intros k l Hk Hl.
        destruct (Z.eq_dec l (n - i - 1)) as [->|Hne]; [apply Hmax; lia|].
        apply Hcross1; lia.
    + eapply wp_conseq.
      * apply (wp_mark_loop false input); auto. apply quiet_end_snoc; discriminate.
      * intros [] s' (HT' & Ha & HQ'). split; [|split]; auto. rewrite Ha.
        intros p q Hp Hpq Hq.
        destruct (Z_le_dec (n - i) p); [apply Hsuf1; lia|].
        destruct (Z_le_dec (n - i) q); [apply Hcross1; lia|].
        apply Hs; auto; lia.
Qed.

End BubbleProof.

Lemma bubble_generateSteps_ok input :
  exists t, BubbleSort.generateSteps input = Some t /\ sorted_trace false input t.
Proof.
  unfold BubbleSort.generateSteps. apply wp_run. cbv zeta.
  apply wp_bind. eapply wp_conseq.
  - apply (bubble_passes_spec input (Z.to_nat (len input - 1)) 0 input []).
    + apply TInv_init.
    + apply quiet_end_nil.
    + lia.
    + f_equal; lia.
    + intros p q Hp Hpq Hq; lia.
    + intros k l Hk Hl; lia.
  - intros [] [a st] (HT & Hs & HQ). simpl in *.
    apply wp_bind, wp_getSteps.
    destruct (last (map Some st) None) as [final|].
    + destruct (negb (strict_eq (js_get (indices final) 0) (Some 0))).
      * apply wp_emit. simpl. exists a. split; [|split]; auto.
        -- apply TInv_emit; auto. discriminate.
        -- apply quiet_end_snoc; discriminate.
      * apply wp_ret. simpl. exists a; auto.
    + apply wp_ret. simpl. exists a; auto.
Qed.

(** ** Selection sort sorts *)

Section SelectionProof.

Variable input : list Z.
Let n := len input.

Lemma selection_findMin_spec i a st :
  TInv false input (mkSt a st) -> 0 <= i < n ->
  wp (SelectionSort.findMin n i)
     (fun m s' =>
        TInv false input s' /\ arr s' = a /\ i <= m < n /\
        (forall k, i <= k < n -> zget a m <= zget a k))
     (mkSt a st).
Proof.
  intros HT Hi. unfold SelectionSort.findMin.
  assert (Hn : len a = n) by (destruct HT as (H & _); exact H).
  eapply wp_conseq.
  - apply (wp_for_up (fun j m s' =>
             TInv false input s' /\ arr s' = a /\ i <= m < j /\
             (forall k, i <= k < j -> zget a m <= zget a k))); [lia| |].
    + split; [|split; [|split]]; simpl; auto; try lia.
      intros k Hk. replace k with i by lia. lia.
    + intros j m [a' st'] Hj (HT' & Ha & Hm & Hmin). simpl in *. subst a'.
      apply wp_bind, wp_emit.
      apply wp_bind, wp_readA; [lia|].
      apply wp_bind, wp_readA; [lia|].
      destruct (Z.ltb_spec (zget a j) (zget a m)) as [Hlt|Hge].
      * apply wp_bind, wp_emit. apply wp_ret.
        split; [|split; [|split]]; simpl; auto; try lia.
        -- apply TInv_emit; [|discriminate]. apply TInv_emit; auto. discriminate.
        -- intros k Hk. destruct (Z.eq_dec k j) as [->|Hne]; [lia|].
           specialize (Hmin k). lia.
      * apply wp_ret.
        split; [|split; [|split]]; simpl; auto; try lia.
        -- apply TInv_emit; auto. discriminate.
        -- intros k Hk. destruct (Z.eq_dec k j) as [->|Hne]; [lia|].
           apply Hmin; lia.
  - intros m s' (HT' & Ha & Hm & Hmin). simpl. auto.
Qed.

Lemma selection_generateSteps_ok :
  exists t, SelectionSort.generateSteps input = Some t /\ sorted_trace false input t.
Proof.
  unfold SelectionSort.generateSteps. apply wp_run. cbv zeta. fold n.
  set (I := fun (i : Z) (_ : unit) (s : EngineState) =>
              TInv false input s /\ sorted_range (arr s) 0 i /\
              (forall k l, 0 <= k < i -> i <= l < n -> zget (arr s) k <= zget (arr s) l)).
  assert (Hend : forall i a st, I i tt (mkSt a st) -> n - 1 <= i ->
            wp (emit SORTED [n - 1]
                  (fun a0 => "Element " ++ show (js_get a0 (n - 1))
                             ++ " is now in its final sorted position") false)
               (fun _ s => sorted_trace false input (steps s)) (mkSt a st)).
  { intros i a st (HT & Hs & Hc) Hi. simpl in *. apply wp_emit. simpl.
    exists a. split; [|split].
    - apply TInv_emit; auto. discriminate.
    - intros p q Hp Hpq Hq. fold n in Hq.
      destruct (Z_le_dec i q); [|apply Hs; lia].
      destruct (Z_le_dec i p); [|apply Hc; lia].
      replace p with q by lia. lia.
    - apply quiet_end_snoc; discriminate. }
  apply wp_bind.
  destruct (Z_le_dec 0 (n - 1)) as [Hle|Hgt].
  - eapply wp_conseq.
    + apply (wp_for_up I); [lia| |].
      * split; [|split]; simpl.
        -- apply TInv_init.
        -- intros p q Hp Hpq Hq; lia.
        -- intros k l Hk Hl; lia.
      * intros i [] [a st] Hi (HT & Hs & Hc). simpl in *.
        assert (Hn : len a = n) by (destruct HT as (H & _); exact H).
        apply wp_bind, wp_emit.
        apply wp_bind. eapply wp_conseq.
        { apply selection_findMin_spec; [|lia]. apply TInv_emit; auto. discriminate. }
        intros m [a' st'] (HT' & Ha & Hm & Hmin). simpl in *. subst a'.
        apply wp_bind.
        destruct (Z.eqb_spec m i) as [->|Hne]; cbn [negb].
        -- apply wp_ret. apply wp_emit. split; [|split]; simpl.
           ++ apply TInv_emit; auto. discriminate.
           ++ intros p q Hp Hpq Hq.
              destruct (Z.eq_dec q i) as [->|Hq'];
                [|apply Hs; lia].
              destruct (Z.eq_dec p i) as [->|Hp']; [lia|]. apply Hc; lia.
           ++ intros k l Hk Hl.
              destruct (Z.eq_dec k i) as [->|Hk']; [apply Hmin; lia|].
              apply Hc; lia.
        -- apply wp_bind, wp_emit. apply wp_swapA; [lia|lia|].
           apply wp_emit. split; [|split]; simpl.
           ++ apply TInv_emit; [|discriminate]. apply TInv_swap; auto; lia.
           ++ intros p q Hp Hpq Hq. rewrite !zget_zswap by lia.
              destruct (Z.eqb_spec p m); [lia|]. destruct (Z.eqb_spec q m); [lia|].
              destruct (Z.eqb_spec q i) as [->|Hq'].
              ** destruct (Z.eqb_spec p i) as [->|Hp']; [lia|]. apply Hc; lia.
              ** destruct (Z.eqb_spec p i); [lia|]. apply Hs; lia.
           ++ intros k l Hk Hl. rewrite !zget_zswap by lia.
              destruct (Z.eqb_spec k m); [lia|]. destruct (Z.eqb_spec l i); [lia|].
              destruct (Z.eqb_spec k i) as [->|Hk'].
              ** destruct (Z.eqb_spec l m); [apply Hmin; lia|]. apply Hmin; lia.
              ** destruct (Z.eqb_spec l m); [apply Hc; lia|]. apply Hc; lia.
    + intros [] [a st] HI. apply (Hend (n - 1)); auto. lia.
  - apply wp_for_up_none; [lia|]. apply (Hend 0); [|lia].
    split; [|split]; simpl.
    + apply TInv_init.
    + intros p q Hp Hpq Hq; lia.
    + intros k l Hk Hl; lia.
Qed.

End SelectionProof.

(** ** Insertion sort sorts *)

Section InsertionProof.

Variable input : list Z.
Let n := len input.

Lemma key_at_sorted a key k i j :
  key_at a key k i -> 0 <= k -> (j = k - 1) ->
  (0 <= j -> zget a j <= key) ->
  sorted_range a 0 (i + 1).
Proof.
  intros (Hk & Hs1 & Hs2 & Hgt & Hc) Hk0 Hj Hle p q Hp Hpq Hq.
  destruct (Z.lt_trichotomy q k) as [H|[->|H]].
  - apply Hs1; lia.
  - destruct (Z.eq_dec p k) as [->|Hne]; [lia|].
    rewrite Hk. transitivity (zget a j); [|lia].
    apply Hs1; lia.
  - destruct (Z.lt_trichotomy p k) as [H'|[->|H']].
    + apply Hc; lia.
    + rewrite Hk. specialize (Hgt q). lia.
    + apply Hs2; lia.
Qed.

Lemma insertion_shift_spec key i : forall k a st,
  TInv false input (mkSt a st) -> Z.of_nat k <= i < n ->
  key_at a key (Z.of_nat k) i ->
  wp (InsertionSort.shift k key)
     (fun j s' =>
        TInv false input s' /\ sorted_range (arr s') 0 (i + 1) /\ -1 <= j < i)
     (mkSt a st).
Proof.
  induction k as [|k IH]; intros a st HT Hk HK; cbn [InsertionSort.shift].
  - apply wp_ret. split; [|split]; simpl; auto; try lia.
    eapply (key_at_sorted a key 0 i (-1)); eauto; lia.
  - assert (Hn : len a = n) by (destruct HT as (H & _); exact H).
    cbv zeta. set (j := Z.of_nat k) in *.
    assert (Ek : Z.of_nat (S k) = j + 1) by lia. rewrite Ek in *.
    apply wp_bind, wp_readA; [lia|].
    destruct (Z.gtb_spec (zget a j) key) as [Hgt|Hle].
    + apply wp_bind, wp_emit. apply wp_bind, wp_emit.
      apply wp_bind, wp_readA; [lia|].
      apply wp_bind, wp_writeA; [lia|].
      apply wp_bind, wp_writeA; [rewrite len_zset; lia|].
      destruct HK as (Hkey & Hs1 & Hs2 & Hg & Hc).
      assert (E : zset (zset a (j + 1) (zget a j)) j key = zswap a j (j + 1)).
      { rewrite <- Hkey. apply zset_zset_swap; lia. }
      rewrite E.
      eapply wp_conseq.
      * apply IH.
        -- apply TInv_swap; [|lia|lia]. apply TInv_emit; auto. discriminate.
        -- lia.
        -- fold j. split; [|split; [|split; [|split]]].
           ++ rewrite zget_zswap by lia.
              destruct (Z.eqb_spec j (j + 1)); [lia|]. now rewrite Z.eqb_refl.
           ++ intros p q Hp Hpq Hq. rewrite !zget_zswap by lia.
              destruct (Z.eqb_spec p (j + 1)); [lia|]. destruct (Z.eqb_spec q (j + 1)); [lia|].
              destruct (Z.eqb_spec p j); [lia|]. destruct (Z.eqb_spec q j); [lia|].
              apply Hs1; lia.
           ++ intros p q Hp Hpq Hq. rewrite !zget_zswap by lia.
              destruct (Z.eqb_spec p j); [lia|]. destruct (Z.eqb_spec q j); [lia|].
              destruct (Z.eqb_spec q (j + 1)) as [->|Hq'].
              ** destruct (Z.eqb_spec p (j + 1)); lia.
              ** destruct (Z.eqb_spec p (j + 1)) as [->|Hp']; [apply Hc; lia|].
                 apply Hs2; lia.
           ++ intros l Hl. rewrite zget_zswap by lia.
              destruct (Z.eqb_spec l (j + 1)); [lia|]. destruct (Z.eqb_spec l j); [lia|].
              apply Hg; lia.
           ++ intros p q Hp Hq. rewrite !zget_zswap by lia.
              destruct (Z.eqb_spec p (j + 1)); [lia|]. destruct (Z.eqb_spec p j); [lia|].
              destruct (Z.eqb_spec q j); [lia|].
              destruct (Z.eqb_spec q (j + 1)); [apply Hs1; lia|]. apply Hc; lia.
      * intros j' s' (HT' & Hs' & Hj'). split; [|split]; auto.
    + apply wp_ret. split; [|split]; simpl; auto; try lia.
      eapply (key_at_sorted a key (j + 1) i j); eauto; lia.
Qed.

Lemma insertion_generateSteps_ok :
  exists t, InsertionSort.generateSteps input = Some t /\ sorted_trace false input t.
Proof.
  unfold InsertionSort.generateSteps. apply wp_run. cbv zeta. fold n.
  apply wp_bind, wp_emit.
  assert (HT0 : forall d, TInv false input (mkSt input ([] ++ [createStep SORTED [0] input d false]))).
  { intros d. apply TInv_emit; [apply TInv_init|discriminate]. }
  assert (Hfin : forall a st, TInv false input (mkSt a st) -> sorted_range a 0 n ->
            quiet_end st ->
            wp (for_up 0 n (fun i (_ : unit) =>
                  emit SORTED [i]
                    (fun a0 => "Element " ++ show (js_get a0 i) ++ " is in its final position")
                    false) tt)
               (fun _ s => sorted_trace false input (steps s)) (mkSt a st)).
  { intros a st HT Hs HQ. eapply wp_conseq.
    - apply (wp_mark_loop false input); eauto.
    - intros [] [a' st'] (HT' & Ha & HQ'). simpl in *. subst a'.
      exists a. auto. }
  apply wp_bind.
  destruct (Z_le_dec 1 n) as [Hle|Hgt].
  - eapply wp_conseq.
    + apply (wp_for_up (fun i (_ : unit) s =>
               TInv false input s /\ sorted_range (arr s) 0 i /\ quiet_end (steps s)));
        [lia| |].
      * split; [|split]; cbn [arr steps].
        -- apply HT0.
        -- intros p q Hp Hpq Hq. replace p with q by lia. lia.
        -- apply quiet_end_snoc; discriminate.
      * intros i [] [a st] Hi (HT & Hs & HQ). cbn [arr steps] in *.
        assert (Hn : len a = n) by (destruct HT as (H & _); exact H).
        apply wp_bind, wp_readA; [lia|].
        apply wp_bind, wp_emit.
        apply wp_bind. eapply wp_conseq.
        { apply (insertion_shift_spec (zget a i) i (Z.to_nat i)).
          - apply TInv_emit; auto. discriminate.
          - lia.
          - replace (Z.of_nat (Z.to_nat i)) with i by lia.
            split; [|split; [|split; [|split]]]; auto.
            + intros p q Hp Hpq Hq; lia.
            + intros l Hl; lia.
            + intros p q Hp Hq; lia. }
        intros j [a' st'] (HT' & Hs' & Hj). simpl in *.
        apply wp_bind.
        destruct (j =? i - 1).
        -- apply wp_emit. apply wp_emit. split; [|split]; simpl; auto.
           ++ apply TInv_emit; [|discriminate]. apply TInv_emit; auto. discriminate.
           ++ apply quiet_end_snoc; discriminate.
        -- apply wp_ret. apply wp_emit. split; [|split]; simpl; auto.
           ++ apply TInv_emit; auto. discriminate.
           ++ apply quiet_end_snoc; discriminate.
    + intros [] [a st] (HT & Hs & HQ). simpl in *. apply Hfin; auto.
  - apply wp_for_up_none; [lia|]. apply Hfin; auto.
    + intros p q Hp Hpq Hq; lia.
    + apply quiet_end_snoc; discriminate.
Qed.

End InsertionProof.

(** ** Quick sort sorts *)

Section QuickProof.

Variable input : list Z.
Let n := len input.

Lemma quick_partition_spec low high a st :
  TInv false input (mkSt a st) -> 0 <= low < high -> high < n ->
  wp (QuickSort.partition low high)
     (fun p s' =>
        TInv false input s' /\ low <= p <= high /\
        within a (arr s') low (high + 1) /\
        (forall k, low <= k < p -> zget (arr s') k < zget (arr s') p) /\
        (forall k, p < k <= high -> zget (arr s') p <= zget (arr s') k))
     (mkSt a st).
Proof.
  intros HT Hlow Hhigh. unfold QuickSort.partition.
  assert (Hn : len a = n) by (destruct HT as (H & _); exact H).
  apply wp_bind, wp_readA; [lia|].
  set (pivot := zget a high).
  apply wp_bind, wp_emit.
  apply wp_bind. eapply wp_conseq.
  - apply (wp_for_up (fun j i s' =>
             TInv false input s' /\ within a (arr s') low (high + 1) /\
             low - 1 <= i < j /\ zget (arr s') high = pivot /\
             (forall k, low <= k <= i -> zget (arr s') k < pivot) /\
             (forall k, i < k < j -> pivot <= zget (arr s') k))); [lia| |].
    + split; [|split; [|split; [|split; [|split]]]]; cbn [arr steps];
        auto using within_refl; try lia.
      apply TInv_emit; auto. discriminate.
    + intros j i [a' st'] Hj (HT' & HW & Hi & Hp & Hlt & Hge). cbn [arr steps] in *.
      assert (Hn' : len a' = n) by (destruct HW; congruence).
      apply wp_bind, wp_emit.
      apply wp_bind, wp_readA; [lia|].
      destruct (Z.ltb_spec (zget a' j) pivot) as [Hx|Hx]; cbv zeta.
      * destruct (Z.eqb_spec (i + 1) j) as [E|E]; cbn [negb].
        -- apply wp_bind, wp_emit. apply wp_ret.
           split; [|split; [|split; [|split; [|split]]]]; cbn [arr steps]; auto; try lia.
           ++ apply TInv_emit; [|discriminate]. apply TInv_emit; auto. discriminate.
           ++ intros k Hk. destruct (Z.eq_dec k j) as [->|Hne]; [lia|]. apply Hlt; lia.
        -- apply wp_bind, wp_emit. apply wp_bind, wp_swapA; [lia|lia|]. apply wp_ret.
           split; [|split; [|split; [|split; [|split]]]]; cbn [arr steps]; try lia.
           ++ apply TInv_swap; [|lia|lia]. apply TInv_emit; auto. discriminate.
           ++ eapply within_trans; [exact HW|]. apply within_zswap; lia.
           ++ rewrite zget_zswap by lia.
              destruct (Z.eqb_spec high j); [lia|]. destruct (Z.eqb_spec high (i + 1)); [lia|].
              exact Hp.
           ++ intros k Hk. rewrite zget_zswap by lia.
              destruct (Z.eqb_spec k j); [lia|].
              destruct (Z.eqb_spec k (i + 1)); [lia|]. apply Hlt; lia.
           ++ intros k Hk. rewrite zget_zswap by lia.
              destruct (Z.eqb_spec k j); [apply Hge; lia|].
              destruct (Z.eqb_spec k (i + 1)); [lia|]. apply Hge; lia.
      * apply wp_ret.
        split; [|split; [|split; [|split; [|split]]]]; cbn [arr steps]; auto; try lia.
        -- apply TInv_emit; auto. discriminate.
        -- intros k Hk. destruct (Z.eq_dec k j) as [->|Hne]; [lia|]. apply Hge; lia.
  - intros i [a' st'] (HT' & HW & Hi & Hp & Hlt & Hge). cbn [arr steps] in *.
    assert (Hn' : len a' = n) by (destruct HW; congruence).
    cbv zeta. apply wp_bind.
    destruct (Z.eqb_spec (i + 1) high) as [E|E]; cbn [negb].
    + apply wp_ret. apply wp_ret.
      split; [|split; [|split; [|split]]]; cbn [arr steps]; auto; try lia.
      intros k Hk. rewrite E, Hp. apply Hlt; lia.
    + apply wp_bind, wp_emit. apply wp_swapA; [lia|lia|]. apply wp_ret.
      split; [|split; [|split; [|split]]]; cbn [arr steps]; try lia.
      * apply TInv_swap; auto; lia.
      * eapply within_trans; [exact HW|]. apply within_zswap; lia.
      * intros k Hk. rewrite !zget_zswap by lia.
        destruct (Z.eqb_spec (i + 1) high); [lia|]. rewrite Z.eqb_refl.
        destruct (Z.eqb_spec k high); [lia|]. destruct (Z.eqb_spec k (i + 1)); [lia|].
        rewrite Hp. apply Hlt; lia.
      * intros k Hk. rewrite !zget_zswap by lia.
        destruct (Z.eqb_spec (i + 1) high); [lia|]. rewrite Z.eqb_refl.
        destruct (Z.eqb_spec k high) as [->|Hk'].
        -- rewrite Hp. apply Hge; lia.
        -- destruct (Z.eqb_spec k (i + 1)); [lia|]. rewrite Hp. apply Hge; lia.
Qed.

Lemma quick_rec_spec : forall fuel low high a st,
  TInv false input (mkSt a st) -> quiet_end st ->
  0 <= low -> high < n -> low <= high + 1 ->
  high - low + 1 < Z.of_nat fuel ->
  wp (QuickSort.quickSortRecursive fuel low high)
     (fun _ s' =>
        TInv false input s' /\ within a (arr s') low (high + 1) /\
        sorted_range (arr s') low (high + 1) /\ quiet_end (steps s'))
     (mkSt a st).
Proof.
  induction fuel as [|fuel IH]; intros low high a st HT HQ Hlow Hhigh Hr Hf; [lia|].
  cbn [QuickSort.quickSortRecursive].
  assert (Hn : len a = n) by (destruct HT as (H & _); exact H).
  destruct (Z.geb_spec low high) as [Hge|Hlt].
  - assert (Hs : sorted_range a low (high + 1)).
    { intros p q Hp Hpq Hq. replace p with q by lia. lia. }
    destruct (Z.eqb_spec low high).
    + apply wp_emit. split; [|split; [|split]]; cbn [arr steps]; auto using within_refl.
      * apply TInv_emit; auto. discriminate.
      * apply quiet_end_snoc; discriminate.
    + apply wp_ret. split; [|split; [|split]]; cbn [arr steps]; auto using within_refl.
  - apply wp_bind, wp_emit.
    apply wp_bind. eapply wp_conseq.
    { apply quick_partition_spec; [|lia|lia]. apply TInv_emit; auto. discriminate. }
    intros p [a1 st1] (HT1 & Hp & HW1 & Hl1 & Hr1). cbn [arr steps] in *.
    assert (Hn1 : len a1 = n) by (destruct HW1; congruence).
    apply wp_bind, wp_emit.
    apply wp_bind. eapply wp_conseq.
    { apply (IH low (p - 1)); try lia.
      - apply TInv_emit; [exact HT1|discriminate].
      - apply quiet_end_snoc; discriminate. }
    intros [] [a2 st2] (HT2 & HW2 & Hs2 & HQ2). cbn [arr steps] in *.
    replace (p - 1 + 1) with p in * by lia.
    assert (Hn2 : len a2 = n) by (destruct HW2; congruence).
    eapply wp_conseq.
    { apply (IH (p + 1) high); auto; lia. }
    intros [] [a3 st3] (HT3 & HW3 & Hs3 & HQ3). cbn [arr steps] in *.
    split; [|split; [|split]]; auto.
    + eapply within_trans; [exact HW1|].
      eapply within_trans.
      * apply (within_mono a1 a2 low p low (high + 1)); auto; lia.
      * apply (within_mono a2 a3 (p + 1) (high + 1) low (high + 1)); auto; lia.
    + destruct HW2 as (L2 & O2 & C2). destruct HW3 as (L3 & O3 & C3).
      assert (Ep : zget a3 p = zget a1 p) by (rewrite O3, O2; auto; lia).
      assert (Hleft : forall k, low <= k < p -> zget a3 k < zget a1 p).
      { intros k Hk. rewrite O3 by lia.
        apply (C2 (fun v => v < zget a1 p)); auto. }
      assert (Hright : forall k, p < k <= high -> zget a1 p <= zget a3 k).
      { intros k Hk. apply (C3 (fun v => zget a1 p <= v)); [|lia].
        intros k' Hk'. rewrite O2 by lia. apply Hr1; lia. }
      intros x y Hx Hxy Hy.
      destruct (Z.lt_trichotomy y p) as [H|[->|H]].
      * rewrite (O3 x), (O3 y) by lia. apply Hs2; lia.
      * destruct (Z.eq_dec x p) as [->|Hne]; [lia|].
        rewrite Ep. specialize (Hleft x). lia.
      * destruct (Z.lt_trichotomy x p) as [H'|[->|H']].
        -- specialize (Hleft x). specialize (Hright y). lia.
        -- rewrite Ep. apply Hright; lia.
        -- apply Hs3; lia.
Qed.

Lemma quick_generateSteps_ok :
  exists t, QuickSort.generateSteps input = Some t /\ sorted_trace false input t.
Proof.
  unfold QuickSort.generateSteps. apply wp_run. cbv zeta. fold n.
  apply wp_bind. eapply wp_conseq.
  - apply (quick_rec_spec (S (List.length input)) 0 (n - 1) input []);
      auto using TInv_init, quiet_end_nil; try lia.
    + unfold n; pose proof (len_nonneg input); lia.
    + unfold n, len; lia.
  - intros [] [a st] (HT & HW & Hs & HQ). cbn [arr steps] in *.
    apply wp_bind, wp_getArr.
    eapply wp_conseq.
    + apply (wp_mark_loop false input); eauto.
    + intros [] [a' st'] (HT' & Ha & HQ'). cbn [arr steps] in *. subst a'.
      exists a. split; [|split]; auto.
      now replace (n - 1 + 1) with n in Hs by lia.
Qed.

End QuickProof.

(** ** Heap sort sorts *)

Section HeapProof.

Variable input : list Z.
Let n := len input.

Lemma heap_root_max a m :
  (forall k, 0 <= k < m -> heap_at a m k) ->
  forall k, 0 <= k < m -> zget a k <= zget a 0.
Proof.
  intros H.
  assert (W : forall b : nat, forall k, 0 <= k < m -> k < Z.of_nat b -> zget a k <= zget a 0).
  { induction b as [|b IH]; intros k Hk Hb; [lia|].
    destruct (Z.eq_dec k 0) as [->|Hne]; [lia|].
    assert (Hp : exists p, 0 <= p < k /\ (k = 2 * p + 1 \/ k = 2 * p + 2)).
    { exists ((k - 1) / 2).
      pose proof (Z.div_mod (k - 1) 2 ltac:(lia)).
      pose proof (Z.mod_pos_bound (k - 1) 2 ltac:(lia)). lia. }
    destruct Hp as (p & Hp & Hk').
    transitivity (zget a p); [|apply IH; lia].
    destruct (H p ltac:(lia)) as (H1 & H2).
    destruct Hk' as [->| ->]; [apply H1|apply H2]; lia. }
  intros k Hk. apply (W (Z.to_nat (k + 1))); lia.
Qed.

Lemma heap_heapify_spec m lo : forall fuel i a st,
  TInv false input (mkSt a st) ->
  0 <= lo <= i -> i < m <= n -> m - i <= Z.of_nat fuel ->
  (forall k, lo <= k < m -> k <> i -> heap_at a m k) ->
  (forall p c, lo <= p -> i = 2 * p + 1 \/ i = 2 * p + 2 ->
               c = 2 * i + 1 \/ c = 2 * i + 2 -> c < m -> zget a c <= zget a p) ->
  wp (HeapSort.heapify fuel m i)
     (fun _ s' =>
        TInv false input s' /\ within a (arr s') i m /\
        (forall k, lo <= k < m -> heap_at (arr s') m k))
     (mkSt a st).
Proof.
  induction fuel as [|fuel IH]; intros i a st HT Hlo Hm Hf Hheap Hpar; [lia|].
  cbn [HeapSort.heapify]. cbv zeta.
  assert (Hn : len a = n) by (destruct HT as (H & _); exact H).
  apply wp_bind.
  apply (wp_conseq _ (fun l s' =>
           TInv false input s' /\ arr s' = a /\
           (l = i \/ (l = 2 * i + 1 /\ l < m)) /\
           zget a i <= zget a l /\
           (l <> i -> zget a i < zget a l) /\
           (2 * i + 1 < m -> zget a (2 * i + 1) <= zget a l))).
  { destruct (Z.ltb_spec (2 * i + 1) m) as [Hl|Hl].
    - apply wp_bind, wp_emit.
      apply wp_bind, wp_readA; [lia|]. apply wp_bind, wp_readA; [lia|].
      apply wp_ret. cbn [arr steps].
      split; [apply TInv_emit; [auto|discriminate]|]. split; [reflexivity|].
      destruct (Z.gtb_spec (zget a (2 * i + 1)) (zget a i)); lia.
    - apply wp_ret. cbn [arr steps].
      split; [auto|]. split; [reflexivity|]. lia. }
  intros l1 [a' st1] (HT1 & Ha & Hl1 & Hge1 & Hstr1 & Hleft). cbn [arr steps] in *. subst a'.
  apply wp_bind.
  apply (wp_conseq _ (fun l s' =>
           TInv false input s' /\ arr s' = a /\
           (l = i \/ ((l = 2 * i + 1 \/ l = 2 * i + 2) /\ l < m)) /\
           zget a i <= zget a l /\
           (l <> i -> zget a i < zget a l) /\
           (2 * i + 1 < m -> zget a (2 * i + 1) <= zget a l) /\
           (2 * i + 2 < m -> zget a (2 * i + 2) <= zget a l))).
  { destruct (Z.ltb_spec (2 * i + 2) m) as [Hr|Hr].
    - apply wp_bind, wp_emit.
      apply wp_bind, wp_readA; [lia|]. apply wp_bind, wp_readA; [lia|].
      apply wp_ret. cbn [arr steps].
      split; [apply TInv_emit; [auto|discriminate]|]. split; [reflexivity|].
      destruct (Z.gtb_spec (zget a (2 * i + 2)) (zget a l1)).
      + split; [right; lia|]. split; [lia|]. split; [lia|]. split; lia.
      + split; [destruct Hl1; [left|right]; lia|]. split; [lia|].
        split; [auto|]. split; [auto|lia].
    - apply wp_ret. cbn [arr steps].
      split; [auto|]. split; [reflexivity|].
      split; [destruct Hl1; [left|right]; lia|]. split; [lia|].
      split; [auto|]. split; [auto|lia]. }
  intros l [a' st2] (HT2 & Ha & Hl & Hge & Hstr & Hleft2 & Hright2).
  cbn [arr steps] in *. subst a'.
  destruct (Z.eqb_spec l i) as [->|Hne]; cbn [negb].
  - apply wp_ret. cbn [arr steps]. split; [auto|]. split; [apply within_refl|].
    intros k Hk. destruct (Z.eq_dec k i) as [->|Hki]; [split; auto|].
    apply Hheap; auto.
  - destruct Hl as [Hl|(Hl & Hlm)]; [lia|].
    apply wp_bind, wp_emit. apply wp_bind, wp_swapA; [lia|lia|].
    assert (Hz : forall k, 0 <= k ->
              zget (zswap a i l) k =
              if k =? l then zget a i else if k =? i then zget a l else zget a k).
    { intros k Hk. apply zget_zswap; lia. }
    eapply wp_conseq.
    + apply (IH l); try lia.
      * apply TInv_swap; [exact HT2|lia|lia].
      * intros k Hk Hkl. unfold heap_at. rewrite !Hz by lia.
        destruct (Z.eq_dec k i) as [->|Hki].
        -- rewrite Z.eqb_refl.
           destruct (Z.eqb_spec i l); [lia|].
           destruct (Z.eqb_spec (2 * i + 1) i); [lia|].
           destruct (Z.eqb_spec (2 * i + 2) i); [lia|].
           destruct (Z.eqb_spec (2 * i + 1) l), (Z.eqb_spec (2 * i + 2) l); split; lia.
        -- destruct (Hheap k ltac:(lia) Hki) as (H1 & H2).
           destruct (Z.eqb_spec k l); [lia|]. destruct (Z.eqb_spec k i); [lia|].
           destruct (Z.eqb_spec (2 * k + 1) l); [lia|].
           destruct (Z.eqb_spec (2 * k + 2) l); [lia|].
           destruct (Z.eqb_spec (2 * k + 1) i) as [E1|E1];
             destruct (Z.eqb_spec (2 * k + 2) i) as [E2|E2]; try lia; split; auto.
           ++ intros _.
              assert (zget a l <= zget a k); [|lia].
              apply (Hpar k l); lia.
           ++ intros _.
              assert (zget a l <= zget a k); [|lia].
              apply (Hpar k l); lia.
      * intros p c Hp Hpl Hc Hcm. rewrite !Hz by lia.
        assert (p = i) by lia. subst p.
        destruct (Z.eqb_spec c l); [lia|]. destruct (Z.eqb_spec c i); [lia|].
        destruct (Z.eqb_spec i l); [lia|]. rewrite Z.eqb_refl.
        destruct (Hheap l ltac:(lia) ltac:(lia)) as (H1 & H2).
        destruct Hc as [->| ->]; [apply H1|apply H2]; lia.
    + intros [] [a' st'] (HT' & HW & Hh). cbn [arr steps] in *.
      split; [auto|]. split; [|auto].
      eapply within_trans.
      * apply (within_zswap a i l i m); lia.
      * apply (within_mono _ _ l m i m); auto.
        -- lia.
        -- rewrite len_zswap; lia.
Qed.

Lemma heap_generateSteps_ok :
  exists t, HeapSort.generateSteps input = Some t /\ sorted_trace false input t.
Proof.
  unfold HeapSort.generateSteps. apply wp_run. cbv zeta. fold n.
  set (fuel := S (List.length input)).
  assert (Hfuel : n < Z.of_nat fuel) by (unfold n, len, fuel; lia).
  assert (Hn0 : 0 <= n) by apply len_nonneg.
  apply wp_bind, wp_emit.
  apply wp_bind. eapply wp_conseq.
  { apply (wp_for_down (fun i s =>
             TInv false input s /\ (forall k, i < k < n -> heap_at (arr s) n k))).
    - pose proof (Z.div_mod n 2 ltac:(lia)).
      pose proof (Z.mod_pos_bound n 2 ltac:(lia)). lia.
    - cbn [arr steps]. split.
      + apply TInv_emit; [apply TInv_init|discriminate].
      + intros k Hk.
        pose proof (Z.div_mod n 2 ltac:(lia)).
        pose proof (Z.mod_pos_bound n 2 ltac:(lia)).
        split; intros; lia.
    - intros j [a st] Hj (HT & Hh). cbn [arr steps] in *.
      pose proof (Z.div_mod n 2 ltac:(lia)).
      pose proof (Z.mod_pos_bound n 2 ltac:(lia)).
      eapply wp_conseq.
      + apply (heap_heapify_spec n j fuel j a st); auto; try lia.
        intros k Hk Hne. apply Hh; lia.
      + intros [] [a' st'] (HT' & HW & Hh'). cbn [arr steps] in *.
        split; auto. intros k Hk. apply Hh'; lia. }
  intros [] [a st] (HT & Hh). cbn [arr steps] in *.
  replace (0 - 1) with (-1) in Hh by lia.
  assert (Hn : len a = n) by (destruct HT as (H & _); exact H).
  assert (Hfin : forall a st, TInv false input (mkSt a st) -> sorted_range a 0 n ->
            wp (emit SORTED [0]
                  (fun a0 => show (js_get a0 0) ++ " is in its final position. Array is sorted!")
                  false)
               (fun _ s => sorted_trace false input (steps s)) (mkSt a st)).
  { intros a0 st0 HT0 Hs0. apply wp_emit. cbn [arr steps]. exists a0.
    split; [|split]; auto.
    - apply TInv_emit; auto; discriminate.
    - apply quiet_end_snoc; discriminate. }
  apply wp_bind.
  destruct (Z_le_dec 1 n) as [Hge|Hlt].
  - eapply wp_conseq.
    { apply (wp_for_down (fun i s =>
               TInv false input s /\
               (forall k, 0 <= k < i + 1 -> heap_at (arr s) (i + 1) k) /\
               sorted_range (arr s) (i + 1) n /\
               (forall k l, 0 <= k <= i -> i < l < n -> zget (arr s) k <= zget (arr s) l))).
      - lia.
      - cbn [arr steps]. split; [auto|]. split; [|split].
        + intros k Hk. replace (n - 1 + 1) with n by lia. apply Hh; lia.
        + intros p q Hp Hpq Hq; lia.
        + intros k l Hk Hl; lia.
      - intros i [a0 st0] Hi (HT0 & Hh0 & Hs0 & Hc0). cbn [arr steps] in *.
        assert (Hn0' : len a0 = n) by (destruct HT0 as (H & _); exact H).
        pose proof (heap_root_max a0 (i + 1) Hh0) as Hmax.
        apply wp_bind, wp_emit. apply wp_bind, wp_swapA; [lia|lia|].
        apply wp_bind, wp_emit.
        assert (Hz : forall k, 0 <= k ->
                  zget (zswap a0 0 i) k =
                  if k =? i then zget a0 0 else if k =? 0 then zget a0 i else zget a0 k).
        { intros k Hk. apply zget_zswap; lia. }
        eapply wp_conseq.
        + apply (heap_heapify_spec i 0 fuel 0); [|lia|lia|lia| |intros p c Hp Hpc; lia].
          * apply TInv_emit; [|discriminate]. apply TInv_swap; [exact HT0|lia|lia].
          * intros k Hk Hne. destruct (Hh0 k ltac:(lia)) as (H1 & H2).
            unfold heap_at. rewrite !Hz by lia.
            destruct (Z.eqb_spec k i); [lia|]. destruct (Z.eqb_spec k 0); [lia|].
            destruct (Z.eqb_spec (2 * k + 1) 0); [lia|].
            destruct (Z.eqb_spec (2 * k + 2) 0); [lia|].
            destruct (Z.eqb_spec (2 * k + 1) i), (Z.eqb_spec (2 * k + 2) i);
              split; intros; try lia; auto; try (apply H1; lia); try (apply H2; lia).
        + intros [] [a1 st1] (HT1 & (L1 & O1 & C1) & Hh1). cbn [arr steps] in *.
          rewrite len_zswap in *.
          replace (i - 1 + 1) with i by lia.
          assert (Ei : zget a1 i = zget a0 0).
          { rewrite O1 by lia. rewrite Hz by lia. now rewrite Z.eqb_refl. }
          assert (Eout : forall l, i < l < n -> zget a1 l = zget a0 l).
          { intros l Hl. rewrite O1 by lia. rewrite Hz by lia.
            destruct (Z.eqb_spec l i); [lia|]. destruct (Z.eqb_spec l 0); [lia|]. auto. }
          assert (Hin : forall P : Z -> Prop, (forall k, 0 <= k <= i -> P (zget a0 k)) ->
                        forall k, 0 <= k < i -> P (zget a1 k)).
          { intros P HP. apply C1. intros k Hk. rewrite Hz by lia.
            destruct (Z.eqb_spec k i); [lia|].
            destruct (Z.eqb_spec k 0); apply HP; lia. }
          split; [auto|]. split; [|split].
          * intros k Hk. apply Hh1; lia.
          * intros p q Hp Hpq Hq.
            destruct (Z.eq_dec p i) as [->|Hpi].
            -- destruct (Z.eq_dec q i) as [->|Hqi]; [lia|].
               rewrite Ei, Eout by lia. apply Hc0; lia.
            -- rewrite !Eout by lia. apply Hs0; lia.
          * intros k l Hk Hl.
            destruct (Z.eq_dec l i) as [->|Hli].
            -- rewrite Ei. apply (Hin (fun v => v <= zget a0 0)); [|lia].
               intros k' Hk'. apply Hmax; lia.
            -- rewrite (Eout l) by lia.
               apply (Hin (fun v => v <= zget a0 l)); [|lia].
               intros k' Hk'. apply Hc0; lia. }
    intros [] [a0 st0] (HT0 & _ & Hs0 & Hc0). cbn [arr steps] in *.
    replace (1 - 1 + 1) with 1 in * by lia. replace (1 - 1) with 0 in * by lia.
    apply Hfin; auto.
    intros p q Hp Hpq Hq.
    destruct (Z.eq_dec p 0) as [->|Hp0]; [|apply Hs0; lia].
    destruct (Z.eq_dec q 0) as [->|Hq0]; [lia|]. apply Hc0; lia.
  - apply wp_for_down_none; [lia|]. apply Hfin; auto.
    intros p q Hp Hpq Hq; lia.
Qed.

End HeapProof.

(** ** Slices *)

Lemma len_app (a b : list Z) : len (a ++ b) = len a + len b.
Proof. unfold len; rewrite length_app; lia. Qed.

Lemma zget_app_l (a b : list Z) k : 0 <= k < len a -> zget (a ++ b) k = zget a k.
Proof. unfold zget, len; intros; apply app_nth1; lia. Qed.

Lemma zget_app_r (a b : list Z) k : len a <= k -> zget (a ++ b) k = zget b (k - len a).
Proof.
  unfold zget, len; intros. rewrite app_nth2 by lia. f_equal; lia.
Qed.

Lemma len_slice (a : list Z) lo hi :
  0 <= lo <= hi -> hi <= len a -> len (slice a lo hi) = hi - lo.
Proof.
  unfold len, slice; intros. rewrite length_firstn, length_skipn; lia.
Qed.

Lemma zget_slice (a : list Z) lo hi k :
  0 <= lo -> 0 <= k < hi - lo -> zget (slice a lo hi) k = zget a (lo + k).
Proof.
  unfold zget, slice; intros. rewrite nth_firstn, nth_skipn.
  destruct (Nat.ltb_spec (Z.to_nat k) (Z.to_nat (hi - lo))); [|lia].
  f_equal; lia.
Qed.

Lemma slice_snoc (a : list Z) lo hi :
  0 <= lo <= hi -> hi < len a ->
  slice a lo (hi + 1) = (slice a lo hi ++ [zget a hi])%list.
Proof.
  intros H1 H2. apply zget_ext.
  - rewrite len_app, !len_slice by lia. unfold len; simpl; lia.
  - rewrite len_slice by lia. intros k Hk.
    rewrite zget_slice by lia.
    destruct (Z_lt_dec k (hi - lo)).
    + rewrite zget_app_l by (rewrite len_slice; lia). now rewrite zget_slice by lia.
    + rewrite zget_app_r by (rewrite len_slice; lia). rewrite len_slice by lia.
      replace (k - (hi - lo)) with 0 by lia. replace (lo + k) with hi by lia. reflexivity.
Qed.

Lemma slice_app (a : list Z) lo mid hi :
  0 <= lo <= mid -> mid <= hi <= len a ->
  slice a lo hi = (slice a lo mid ++ slice a mid hi)%list.
Proof.
  intros H1 H2. apply zget_ext.
  - rewrite len_app, !len_slice by lia. lia.
  - rewrite len_slice by lia. intros k Hk.
    rewrite zget_slice by lia.
    destruct (Z_lt_dec k (mid - lo)).
    + rewrite zget_app_l by (rewrite len_slice; lia). now rewrite zget_slice by lia.
    + rewrite zget_app_r by (rewrite len_slice; lia). rewrite len_slice by lia.
      rewrite zget_slice by lia. f_equal; lia.
Qed.

Lemma slice_full (a : list Z) : slice a 0 (len a) = a.
Proof.
  unfold slice, len. simpl. rewrite Z.sub_0_r, Nat2Z.id. apply firstn_all.
Qed.

Lemma slice_ext (a b : list Z) lo hi :
  len a = len b -> 0 <= lo <= hi -> hi <= len a ->
  (forall k, lo <= k < hi -> zget a k = zget b k) ->
  slice a lo hi = slice b lo hi.
Proof.
  intros Hl H1 H2 H. apply zget_ext.
  - rewrite !len_slice by lia. reflexivity.
  - rewrite len_slice by lia. intros k Hk. rewrite !zget_slice by lia. apply H; lia.
Qed.

Lemma slice_zset_snoc (a : list Z) lo k x :
  0 <= lo <= k -> k < len a ->
  slice (zset a k x) lo (k + 1) = (slice a lo k ++ [x])%list.
Proof.
  intros H1 H2. rewrite slice_snoc by (rewrite ?len_zset; lia).
  rewrite zget_zset_same by lia. f_equal.
  apply slice_ext; rewrite ?len_zset; try lia.
  intros p Hp. apply zget_zset_other; lia.
Qed.

Lemma seg_perm_refl a lo hi : seg_perm a a lo hi.
Proof. split; [|split]; auto. Qed.

Lemma seg_perm_trans a b c lo hi :
  seg_perm a b lo hi -> seg_perm b c lo hi -> seg_perm a c lo hi.
Proof.
  intros (L1 & O1 & P1) (L2 & O2 & P2). split; [|split].
  - congruence.
  - intros k Hk Hn. rewrite O2, O1; auto. lia.
  - etransitivity; eauto.
Qed.

Lemma seg_perm_mono a a' lo hi lo' hi' :
  seg_perm a a' lo hi -> 0 <= lo' <= lo -> lo <= hi -> hi <= hi' <= len a ->
  seg_perm a a' lo' hi'.
Proof.
  intros (L & O & P) Hlo Hmid Hhi. split; [|split]; auto.
  - intros k Hk Hn. apply O; auto; lia.
  - rewrite (slice_app a lo' lo hi'), (slice_app a lo hi hi') by lia.
    rewrite (slice_app a' lo' lo hi'), (slice_app a' lo hi hi') by lia.
    rewrite (slice_ext a' a lo' lo), (slice_ext a' a hi hi'); try lia.
    + apply Permutation_app_head, Permutation_app_tail, P.
    + intros k Hk. apply O; lia.
    + intros k Hk. apply O; lia.
Qed.

Lemma seg_perm_all a a' : seg_perm a a' 0 (len a) -> Permutation a a'.
Proof.
  intros (L & _ & P). rewrite <- L in P at 2. now rewrite !slice_full in P.
Qed.

Lemma seg_perm_sorted_outside a a' lo hi lo' hi' :
  seg_perm a a' lo hi -> 0 <= lo' -> hi' <= len a ->
  (hi' <= lo \/ hi <= lo') ->
  sorted_range a lo' hi' -> sorted_range a' lo' hi'.
Proof.
  intros (L & O & P) H0 H1 Hd Hs p q Hp Hpq Hq.
  rewrite (O p), (O q) by lia. apply Hs; lia.
Qed.

(** ** Merge sort sorts *)

Section MergeInvariant.

(* The array [a0] as [merge] finds it: two runs in ascending order. *)
Variables (a0 : list Z) (left mid right : Z).
Hypothesis Hrange : 0 <= left <= mid /\ mid < right /\ right < len a0.
Hypothesis HsortL : sorted_range a0 left (mid + 1).
Hypothesis HsortR : sorted_range a0 (mid + 1) (right + 1).

Lemma MInv_init : MInv a0 left mid right 0 0 left a0.
Proof.
  unfold MInv. replace (left + 0 + 0) with left by lia.
  split; [lia|]. split; [lia|]. split; [lia|]. split; [reflexivity|]. split; [auto|].
  split; [|split].
  - unfold slice. rewrite !Z.add_0_r, !Z.sub_diag. simpl. constructor.
  - intros p q Hp Hpq Hq; lia.
  - intros p Hp; lia.
Qed.

Lemma perm_snoc_l (u v w : list Z) x :
  Permutation (u ++ v) w -> Permutation ((u ++ [x]) ++ v) (w ++ [x]).
Proof.
  intros H. transitivity ((u ++ v) ++ [x])%list.
  - rewrite <- !app_assoc. apply Permutation_app_head, Permutation_app_comm.
  - now apply Permutation_app_tail.
Qed.

Lemma perm_snoc_r (u v w : list Z) x :
  Permutation (u ++ v) w -> Permutation (u ++ v ++ [x]) (w ++ [x]).
Proof.
  intros H. rewrite app_assoc. now apply Permutation_app_tail.
Qed.

Lemma MInv_takeL i j k a :
  MInv a0 left mid right i j k a -> i < mid - left + 1 ->
  (j < right - mid -> zget a0 (left + i) <= zget a0 (mid + 1 + j)) ->
  MInv a0 left mid right (i + 1) j (k + 1) (zset a k (zget a0 (left + i))).
Proof.
  intros (Hi & Hj & Hk & Hl & Ho & Hp & Hs & Hb) Hlt Hle.
  set (x := zget a0 (left + i)).
  assert (Hz : forall p, 0 <= p -> zget (zset a k x) p = if p =? k then x else zget a p).
  { intros p Hp0. apply zget_zset; lia. }
  unfold MInv.
  split; [lia|]. split; [lia|]. split; [lia|]. split; [now rewrite len_zset|].
  split; [|split; [|split]].
  - intros p Hp0 Hn. rewrite Hz by lia. destruct (Z.eqb_spec p k); [lia|]. apply Ho; lia.
  - rewrite slice_zset_snoc by lia.
    replace (left + (i + 1)) with (left + i + 1) by lia.
    rewrite slice_snoc by lia. now apply perm_snoc_l.
  - intros p q Hp0 Hpq Hq. rewrite !Hz by lia.
    destruct (Z.eqb_spec p k), (Z.eqb_spec q k); try lia.
    + apply Hb; lia.
    + apply Hs; lia.
  - intros p Hp0. rewrite Hz by lia. split; intros Hc.
    + assert (x <= zget a0 (left + (i + 1))) by (apply HsortL; lia).
      destruct (Z.eqb_spec p k); [lia|]. destruct (Hb p) as (H1 & _); [lia|]. fold x in H1. lia.
    + destruct (Z.eqb_spec p k); [auto|]. apply Hb; lia.
Qed.

Lemma MInv_takeR i j k a :
  MInv a0 left mid right i j k a -> j < right - mid ->
  (i < mid - left + 1 -> zget a0 (mid + 1 + j) <= zget a0 (left + i)) ->
  MInv a0 left mid right i (j + 1) (k + 1) (zset a k (zget a0 (mid + 1 + j))).
Proof.
  intros (Hi & Hj & Hk & Hl & Ho & Hp & Hs & Hb) Hlt Hle.
  set (x := zget a0 (mid + 1 + j)).
  assert (Hz : forall p, 0 <= p -> zget (zset a k x) p = if p =? k then x else zget a p).
  { intros p Hp0. apply zget_zset; lia. }
  unfold MInv.
  split; [lia|]. split; [lia|]. split; [lia|]. split; [now rewrite len_zset|].
  split; [|split; [|split]].
  - intros p Hp0 Hn. rewrite Hz by lia. destruct (Z.eqb_spec p k); [lia|]. apply Ho; lia.
  - rewrite slice_zset_snoc by lia.
    replace (mid + 1 + (j + 1)) with (mid + 1 + j + 1) by lia.
    rewrite (slice_snoc a0 (mid + 1)) by lia. now apply perm_snoc_r.
  - intros p q Hp0 Hpq Hq. rewrite !Hz by lia.
    destruct (Z.eqb_spec p k), (Z.eqb_spec q k); try lia.
    + apply Hb; lia.
    + apply Hs; lia.
  - intros p Hp0. rewrite Hz by lia. split; intros Hc.
    + destruct (Z.eqb_spec p k); [auto|]. apply Hb; lia.
    + assert (x <= zget a0 (mid + 1 + (j + 1))) by (apply HsortR; lia).
      destruct (Z.eqb_spec p k); [lia|]. destruct (Hb p) as (_ & H2); [lia|]. fold x in H2. lia.
Qed.

Lemma MInv_done a :
  MInv a0 left mid right (mid - left + 1) (right - mid) (right + 1) a ->
  seg_perm a0 a left (right + 1) /\ sorted_range a left (right + 1).
Proof.
  intros (Hi & Hj & Hk & Hl & Ho & Hp & Hs & Hb). split; [|auto].
  split; [auto|]. split.
  - intros p Hp0 Hn. apply Ho; lia.
  - replace (left + (mid - left + 1)) with (mid + 1) in Hp by lia.
    replace (mid + 1 + (right - mid)) with (right + 1) in Hp by lia.
    rewrite <- slice_app in Hp by lia. exact Hp.
Qed.

End MergeInvariant.

Lemma wp_setL_end l i x (Q : list Z -> EngineState -> Prop) s :
  i = len l -> Q (l ++ [x])%list s -> wp (MergeSort.setL l i x) Q s.
Proof.
  intros -> H. unfold MergeSort.setL. rewrite js_set_end. now apply wp_ret.
Qed.

Lemma wp_getL l i (Q : Z -> EngineState -> Prop) s :
  0 <= i < len l -> Q (zget l i) s -> wp (MergeSort.getL l i) Q s.
Proof.
  intros Hi H. unfold MergeSort.getL. rewrite js_get_in by auto. now apply wp_ret.
Qed.

Section MergeProof.

Variable input : list Z.
Let n := len input.

(** The loops that fill [L] and [R]. *)
Lemma merge_copy_spec a st base cnt :
  0 <= base -> 0 <= cnt -> base + cnt <= len a ->
  wp (for_up 0 cnt (fun i L => x <- readA (base + i) ;; MergeSort.setL L i x) [])
     (fun L s' => s' = mkSt a st /\ L = slice a base (base + cnt))
     (mkSt a st).
Proof.
  intros Hb Hc Hl.
  apply (wp_for_up (fun i L s' => s' = mkSt a st /\ L = slice a base (base + i))); [lia| |].
  - split; [reflexivity|]. unfold slice. rewrite Z.add_0_r, Z.sub_diag. reflexivity.
  - intros i L s' Hi (-> & ->).
    apply wp_bind, wp_readA; [lia|].
    apply wp_setL_end; [rewrite len_slice; lia|].
    split; [reflexivity|].
    replace (base + (i + 1)) with (base + i + 1) by lia.
    rewrite slice_snoc by lia. reflexivity.
Qed.

Section OneMerge.

Variables (a0 : list Z) (left mid right : Z).
Hypothesis Hlen : len a0 = n.
Hypothesis Hrange : 0 <= left <= mid /\ mid < right /\ right < len a0.
Hypothesis HsortL : sorted_range a0 left (mid + 1).
Hypothesis HsortR : sorted_range a0 (mid + 1) (right + 1).

Let L := slice a0 left (mid + 1).
Let R := slice a0 (mid + 1) (right + 1).
Let n1 := mid - left + 1.
Let n2 := right - mid.

Lemma lenL : len L = n1.
  Proof. unfold L, n1. rewrite len_slice; lia. Qed.

Lemma lenR : len R = n2.
  Proof. unfold R, n2. rewrite len_slice; lia. Qed.

Lemma getL_at i : 0 <= i < n1 -> zget L i = zget a0 (left + i).
  Proof. intros. unfold L. apply zget_slice; unfold n1 in *; lia. Qed.

Lemma getR_at j : 0 <= j < n2 -> zget R j = zget a0 (mid + 1 + j).
  Proof. intros. unfold R. apply zget_slice; unfold n2 in *; lia. Qed.

Lemma merge_loop_spec : forall cnt i j k a st,
    TInv true input (mkSt a st) ->
    MInv a0 left mid right i j k a ->
    (n1 - i) + (n2 - j) <= Z.of_nat cnt ->
    wp (MergeSort.mergeLoop cnt L R left mid n1 n2 i j k)
       (fun r s' =>
          TInv true input s' /\
          MInv a0 left mid right (fst (fst r)) (snd (fst r)) (snd r) (arr s') /\
          (fst (fst r) = n1 \/ snd (fst r) = n2))
       (mkSt a st).
  Proof.
    induction cnt as [|cnt IH]; intros i j k a st HT HM Hcnt;
      cbn [MergeSort.mergeLoop];
      pose proof HM as (Hi & Hj & Hk & Hl & _); fold n1 n2 in Hi, Hj;
      destruct (Z.ltb_spec i n1) as [Hi'|Hi']; destruct (Z.ltb_spec j n2) as [Hj'|Hj'];
      cbn [andb]; try lia;
      try (apply wp_ret; cbn [fst snd arr]; split; [auto|]; split; [auto|]; lia).
    apply wp_bind, wp_getL; [rewrite lenL; lia|].
    apply wp_bind, wp_getL; [rewrite lenR; lia|].
    rewrite getL_at, getR_at by lia.
    apply wp_bind, wp_emit.
    assert (HT1 : forall idx d, TInv true input (mkSt a (st ++ [createStep COMPARE idx a d false]))).
    { intros; apply TInv_emit; [auto|discriminate]. }
    destruct (Z.leb_spec (zget a0 (left + i)) (zget a0 (mid + 1 + j))) as [Hle|Hgt].
    - apply wp_bind, wp_emit. apply wp_bind, wp_writeA; [lia|].
      apply IH; [| |lia].
      + apply TInv_select; [apply HT1|lia].
      + apply MInv_takeL; auto.
    - apply wp_bind, wp_emit. apply wp_bind, wp_writeA; [lia|].
      apply IH; [| |lia].
      + apply TInv_select; [apply HT1|lia].
      + apply MInv_takeR; auto. intros; lia.
  Qed.

Lemma merge_copyRestL_spec i j k a st :
    TInv true input (mkSt a st) ->
    MInv a0 left mid right i j k a -> i = n1 \/ j = n2 ->
    wp (MergeSort.copyRest L i n1 k)
       (fun k' s' => TInv true input s' /\ MInv a0 left mid right n1 j k' (arr s'))
       (mkSt a st).
  Proof.
    intros HT HM Hor. unfold MergeSort.copyRest.
    pose proof HM as (Hi & _). fold n1 in Hi.
    apply (wp_for_up (fun i' k' s' =>
             TInv true input s' /\ MInv a0 left mid right i' j k' (arr s'))); [lia|auto|].
    intros i' k' [a' st'] Hi' (HT' & HM'). cbn [arr steps] in *.
    assert (Hj2 : j = n2) by lia. subst j.
    pose proof HM' as (_ & _ & Hk & Hl & _).
    apply wp_bind, wp_getL; [rewrite lenL; lia|]. rewrite getL_at by lia.
    apply wp_bind, wp_emit. apply wp_bind, wp_writeA; [unfold n1, n2 in *; lia|].
    apply wp_ret. cbn [arr steps]. split.
    - apply TInv_select; [auto|unfold n1, n2 in *; lia].
    - apply MInv_takeL; auto; unfold n1, n2 in *; lia.
  Qed.

Lemma merge_copyRestR_spec j k a st :
    TInv true input (mkSt a st) ->
    MInv a0 left mid right n1 j k a ->
    wp (MergeSort.copyRest R j n2 k)
       (fun k' s' => TInv true input s' /\ MInv a0 left mid right n1 n2 k' (arr s'))
       (mkSt a st).
  Proof.
    intros HT HM. unfold MergeSort.copyRest.
    pose proof HM as (_ & Hj & _). fold n2 in Hj.
    apply (wp_for_up (fun j' k' s' =>
             TInv true input s' /\ MInv a0 left mid right n1 j' k' (arr s'))); [lia|auto|].
    intros j' k' [a' st'] Hj' (HT' & HM'). cbn [arr steps] in *.
    pose proof HM' as (_ & _ & Hk & Hl & _). fold n1 in Hk.
    apply wp_bind, wp_getL; [rewrite lenR; lia|]. rewrite getR_at by lia.
    apply wp_bind, wp_emit. apply wp_bind, wp_writeA; [unfold n1 in *; lia|].
    apply wp_ret. cbn [arr steps]. split.
    - apply TInv_select; [auto|unfold n1 in *; lia].
    - apply MInv_takeR; auto; unfold n1, n2 in *; lia.
  Qed.

Lemma merge_spec st :
    TInv true input (mkSt a0 st) ->
    wp (MergeSort.merge left mid right)
       (fun _ s' =>
          TInv true input s' /\ seg_perm a0 (arr s') left (right + 1) /\
          sorted_range (arr s') left (right + 1))
       (mkSt a0 st).
  Proof.
    intros HT. unfold MergeSort.merge. cbv zeta. fold n1 n2.
    apply wp_bind. eapply wp_conseq.
    { apply (merge_copy_spec a0 st left n1); unfold n1; lia. }
    intros L' s' (-> & ->).
    replace (left + n1) with (mid + 1) by (unfold n1; lia). fold L.
    apply wp_bind. eapply wp_conseq.
    { apply (merge_copy_spec a0 st (mid + 1) n2); unfold n2; lia. }
    intros R' s' (-> & ->).
    replace (mid + 1 + n2) with (right + 1) by (unfold n2; lia). fold R.
    apply wp_bind, wp_emit.
    apply wp_bind. eapply wp_conseq.
    { apply (merge_loop_spec (Z.to_nat (n1 + n2)) 0 0 left).
      - apply TInv_emit; [auto|discriminate].
      - apply MInv_init; auto.
      - unfold n1, n2; lia. }
    intros [[i j] k] [a1 st1] (HT1 & HM1 & Hor). cbn [fst snd arr steps] in *.
    apply wp_bind. eapply wp_conseq.
    { apply (merge_copyRestL_spec i j k); eauto. }
    intros k1 [a2 st2] (HT2 & HM2). cbn [arr steps] in *.
    apply wp_bind. eapply wp_conseq.
    { apply merge_copyRestR_spec; eauto. }
    intros k2 [a3 st3] (HT3 & HM3). cbn [arr steps] in *.
    apply wp_ret. cbn [arr steps].
    pose proof HM3 as (_ & _ & Hk3 & _). unfold n1, n2 in Hk3.
    replace k2 with (right + 1) in HM3 by lia.
    destruct (MInv_done a0 left mid right Hrange a3 HM3) as (HP & HS). auto.
  Qed.

End OneMerge.

End MergeProof.

(** The marking loop at the end of a run, when the steps before it may end
    with a user action. *)
Lemma wp_mark_all sel input lo hi (d : Z -> list Z -> string) a st :
  TInv sel input (mkSt a st) -> (hi <= lo -> quiet_end st) ->
  wp (for_up lo hi (fun i (_ : unit) => emit SORTED [i] (d i) false) tt)
     (fun _ s' => TInv sel input s' /\ arr s' = a /\ quiet_end (steps s'))
     (mkSt a st).
Proof.
  intros HT HQ. destruct (Z_lt_dec lo hi) as [Hlt|Hge].
  - eapply wp_conseq.
    + apply (wp_for_up (fun j _ s' =>
               TInv sel input s' /\ arr s' = a /\ (lo < j -> quiet_end (steps s')))); [lia| |].
      * cbn [arr steps]. split; [auto|]. split; [auto|]. intros; lia.
      * intros j [] [a' st'] Hj (HT' & Ha & HQ'). cbn [arr steps] in *. subst a'.
        apply wp_emit. cbn [arr steps]. split; [|split]; auto.
        -- apply TInv_emit; auto. discriminate.
        -- intros _. apply quiet_end_snoc. discriminate.
    + intros [] s' (HT' & Ha & HQ'). auto.
  - apply wp_for_up_none; [lia|]. cbn [arr steps]. split; [auto|]. split; [auto|].
    apply HQ; lia.
Qed.

Lemma sorted_trace_post input t : sorted_trace false input t -> engine_post false input t.
Proof.
  intros (final & HT & Hs & HQ). exists final. split; [auto|]. split; [auto|].
  split; [|auto]. apply (TInv_perm input _ HT).
Qed.

Lemma merge_rec_spec input : forall fuel left right a st,
  TInv true input (mkSt a st) ->
  0 <= left -> right < len input -> left <= right + 1 ->
  Z.max 0 (right - left) < Z.of_nat fuel ->
  wp (MergeSort.mergeSortRecursive fuel left right)
     (fun _ s' =>
        TInv true input s' /\ seg_perm a (arr s') left (right + 1) /\
        sorted_range (arr s') left (right + 1) /\
        (right <= left -> steps s' = st))
     (mkSt a st).
Proof.
  induction fuel as [|fuel IH]; intros left right a st HT Hl Hr Hlr Hf; [lia|].
  cbn [MergeSort.mergeSortRecursive].
  assert (Hn : len a = len input) by (destruct HT as (H & _); exact H).
  destruct (Z.geb_spec left right) as [Hge|Hlt].
  - apply wp_ret. cbn [arr steps]. split; [auto|]. split; [apply seg_perm_refl|].
    split; [|auto]. intros p q Hp Hpq Hq. replace p with q by lia. lia.
  - cbv zeta.
    pose proof (Z.div_mod (right - left) 2 ltac:(lia)) as Hdm.
    pose proof (Z.mod_pos_bound (right - left) 2 ltac:(lia)) as Hmb.
    set (mid := left + (right - left) / 2) in *.
    assert (Hmid : left <= mid < right) by (unfold mid; lia).
    clearbody mid. clear Hdm Hmb.
    apply wp_bind, wp_emit.
    apply wp_bind. eapply wp_conseq.
    { apply (IH left mid); try lia. apply TInv_emit; [auto|discriminate]. }
    intros [] [a1 st1] (HT1 & HP1 & HS1 & _). cbn [arr steps] in *.
    assert (Hn1 : len a1 = len input) by (destruct HT1 as (H & _); exact H).
    apply wp_bind. eapply wp_conseq.
    { apply (IH (mid + 1) right); auto; lia. }
    intros [] [a2 st2] (HT2 & HP2 & HS2 & _). cbn [arr steps] in *.
    assert (Hn2 : len a2 = len input) by (destruct HT2 as (H & _); exact H).
    eapply wp_conseq.
    { apply (merge_spec input a2 left mid right); auto; try lia.
      apply (seg_perm_sorted_outside a1 a2 (mid + 1) (right + 1)); auto; lia. }
    intros [] [a3 st3] (HT3 & HP3 & HS3). cbn [arr steps] in *.
    split; [auto|]. split; [|split; [auto|intros; lia]].
    eapply seg_perm_trans; [|eapply seg_perm_trans; [|exact HP3]].
    + apply (seg_perm_mono a a1 left (mid + 1)); auto; lia.
    + apply (seg_perm_mono a1 a2 (mid + 1) (right + 1)); auto; lia.
Qed.

Lemma merge_generateSteps_ok input :
  exists t, MergeSort.generateSteps input = Some t /\ engine_post true input t.
Proof.
  unfold MergeSort.generateSteps. apply wp_run. cbv zeta.
  pose proof (len_nonneg input) as Hn0.
  apply wp_bind. eapply wp_conseq.
  - apply (merge_rec_spec input (S (List.length input)) 0 (len input - 1) input []);
      auto using TInv_init; try lia.
    unfold len; lia.
  - intros [] [a st] (HT & HP & HS & Hst). cbn [arr steps] in *.
    replace (len input - 1 + 1) with (len input) in * by lia.
    assert (Hn : len a = len input) by (destruct HT as (H & _); exact H).
    apply wp_bind, wp_getArr.
    eapply wp_conseq.
    + apply (wp_mark_all true input); eauto.
      intros Hle. rewrite Hst by lia. apply quiet_end_nil.
    + intros [] [a' st'] (HT' & Ha & HQ'). cbn [arr steps] in *. subst a'.
      exists a. split; [auto|]. split; [auto|]. split; [|auto].
      now apply seg_perm_all.
Qed.

(** Every engine, on every input, stays inside the model and ends as
    [engine_post] says. *)
Lemma generateSteps_ok e input :
  exists t, generateSteps e input = Some t /\ engine_post (is_merge e) input t.
Proof.
  destruct e; simpl.
  - destruct (bubble_generateSteps_ok input) as (t & E & H); eauto using sorted_trace_post.
  - destruct (selection_generateSteps_ok input) as (t & E & H); eauto using sorted_trace_post.
  - destruct (insertion_generateSteps_ok input) as (t & E & H); eauto using sorted_trace_post.
  - apply merge_generateSteps_ok.
  - destruct (quick_generateSteps_ok input) as (t & E & H); eauto using sorted_trace_post.
  - destruct (heap_generateSteps_ok input) as (t & E & H); eauto using sorted_trace_post.
Qed.

(** ** Replaying a trace *)

Lemma last_step_snoc t s : last_step (t ++ [s]) = Some s.
Proof. unfold last_step. rewrite map_app. simpl. apply last_last. Qed.

Lemma last_step_inv t s : last_step t = Some s -> exists t', t = (t' ++ [s])%list.
Proof.
  destruct t as [|x t0]; [discriminate|].
  destruct (@exists_last _ (x :: t0)) as (t' & y & E); [discriminate|].
  rewrite E, last_step_snoc. intros [= ->]. eauto.
Qed.

(** In the trace of a swap engine, replay follows the working array. *)
Lemma linked_replay n t : forall a0 a,
  Forall (wf_step false n) t -> linked a0 t a -> replay a0 t = a.
Proof.
  induction t as [|s t IH]; intros a0 a Hw Hl; simpl in *; auto.
  destruct Hl as (Hs & a1 & He & Hl).
  inversion Hw as [|? ? (H1 & H2 & H3 & H4) Hw']; subst.
  assert (E : apply_step s (arrayState s) = a1).
  { unfold effect in He. unfold apply_step.
    destruct (type s) eqn:Ety; try congruence.
    - destruct H3 as (_ & _ & i & j & Ei & _); auto. rewrite Ei in *. congruence.
    - destruct (isUserAction s) eqn:Eu.
      + destruct H4 as [H4|(H4 & _)]; auto; congruence.
      + destruct (indices s) as [|? [|? ?]]; congruence. }
  unfold replay in *. rewrite E. apply IH; auto.
Qed.

Lemma engine_post_final e input t :
  engine_post (is_merge e) input t ->
  exists final,
    TInv (is_merge e) input (mkSt final t) /\ is_sort_of input final /\ quiet_end t.
Proof.
  intros (final & HT & Hs & HP & HQ). exists final. split; [auto|]. split; [|auto].
  split; [|auto]. apply sorted_range_all.
  destruct HT as (Hl & _). simpl in Hl. now rewrite Hl.
Qed.

(** ** Claims on the traces *)

(** C9: in every trace of every engine, each step has as many values as
    indices, and its snapshot has the length of the input array. *)
Theorem C9_step_shape (e : Algorithm) (input : list Z) :
  exists t, generateSteps e input = Some t /\
    Forall (fun s => List.length (indices s) = List.length (values s) /\
                     List.length (arrayState s) = List.length input) t.
Proof.
  destruct (generateSteps_ok e input) as (t & E & final & (_ & Hw & _) & _).
  exists t. split; [auto|]. simpl in Hw.
  eapply Forall_impl; [|exact Hw].
  intros s (H1 & H2 & _). split; [now rewrite H1, length_map|]. unfold len in H2. lia.
Qed.

Lemma sort_asc_pair p q : p < q -> sort_asc [p; q] = [p; q].
Proof.
  intros H. simpl. destruct (Z.leb_spec p q); [reflexivity|lia].
Qed.

Lemma set_indices_same s : set_indices s (indices s) = s.
Proof. destruct s; reflexivity. Qed.

Lemma upd_same {A} (l : list A) k x : nth_error l k = Some x -> upd l k x = l.
Proof.
  revert k; induction l as [|y l IH]; intros [|k] H; simpl in *; try discriminate.
  - congruence.
  - now rewrite IH.
Qed.

Lemma js_get_nth_error {A} (l : list A) k x :
  js_get l k = Some x -> nth_error l (Z.to_nat k) = Some x.
Proof. unfold js_get. destruct (k <? 0); [discriminate|auto]. Qed.

Lemma js_get_In {A} (l : list A) k x : js_get l k = Some x -> In x l.
Proof. intros H. eapply nth_error_In, js_get_nth_error, H. Qed.

(** [validateMove] leaves a well-formed buffer as it is. *)
Lemma validateMove_steps e t n k action :
  Forall (wf_step (is_merge e) n) t -> snd (validateMove e t k action) = t.
Proof.
  intros Hw.
  assert (S : forall ok bad, is_merge e = false ->
                snd (validateSwapMove ok bad t k action) = t).
  { intros ok bad He. unfold validateSwapMove.
    destruct (js_get t k) as [step|] eqn:Ek; [|reflexivity].
    destruct (isUserAction step) eqn:Eu; [|reflexivity]. cbn [negb].
    destruct (negb (atype action =? "swap")%string); [reflexivity|].
    assert (Hstep : wf_step (is_merge e) n step).
    { eapply Forall_forall; [exact Hw|]. eapply js_get_In; eauto. }
    destruct Hstep as (_ & _ & H3 & H4). rewrite He in *.
    destruct (H4 Eu) as [Hty|(Hx & _)]; [|discriminate].
    destruct (H3 Hty) as (_ & _ & p & q & Ei & Hp & Hq).
    rewrite Ei, sort_asc_pair by lia. rewrite <- Ei, set_indices_same.
    rewrite (upd_same t _ step) by (eapply js_get_nth_error; eauto).
    destruct (_ && _); reflexivity. }
  destruct e; simpl; try (apply S; reflexivity).
  unfold validateSelectMove.
  destruct (js_get t k) as [step|]; [|reflexivity].
  destruct (negb (isUserAction step)); [reflexivity|].
  destruct (negb (atype action =? "select")%string); [reflexivity|].
  destruct (strict_eq _ _); reflexivity.
Qed.

(** C10: every swap step of every trace names exactly two positions, the
    smaller one first; hence the in-place sort of the step's indices in
    [validateMove] never changes the stored trace. *)
Theorem C10_swap_indices_increasing (e : Algorithm) (input : list Z) :
  exists t, generateSteps e input = Some t /\
    (forall s, In s t -> type s = SWAP ->
       exists i j, indices s = [i; j] /\ i < j) /\
    (forall k action, snd (validateMove e t k action) = t).
Proof.
  destruct (generateSteps_ok e input) as (t & E & final & (_ & Hw & _) & _).
  exists t. split; [auto|]. simpl in Hw. split.
  - intros s Hin Hty.
    destruct (proj1 (Forall_forall _ _) Hw s Hin) as (_ & _ & H3 & _).
    destruct (H3 Hty) as (_ & _ & i & j & Ei & Hi & _). exists i, j. split; [auto|lia].
  - intros k action. eapply validateMove_steps; eauto.
Qed.

Lemma validateSwapMove_pair ok bad t k s p q ty a b v :
  js_get t k = Some s -> isUserAction s = true -> indices s = [p; q] -> p < q ->
  valid (fst (validateSwapMove ok bad t k (mkAction ty [a; b] v))) = true <->
  (ty = "swap" /\ ((a = p /\ b = q) \/ (a = q /\ b = p))).
Proof.
  intros Ek Eu Ei Hpq. unfold validateSwapMove. rewrite Ek, Eu. cbn [negb atype aindices].
  destruct (String.eqb_spec ty "swap") as [->|Hne]; cbn [negb].
  - rewrite Ei, sort_asc_pair by lia.
    assert (Es : sort_asc [a; b] = if a <=? b then [a; b] else [b; a]) by reflexivity.
    rewrite Es.
    destruct (Z.leb_spec a b); cbn [js_get fst valid];
      change (js_get [p; q] 0) with (Some p); change (js_get [p; q] 1) with (Some q).
    + change (js_get [a; b] 0) with (Some a); change (js_get [a; b] 1) with (Some b).
      cbn [strict_eq].
      destruct (Z.eqb_spec p a), (Z.eqb_spec q b); cbn [andb fst valid]; split;
        try discriminate; try (intros (_ & [(? & ?)|(? & ?)]); lia); intros _; split; auto; left; lia.
    + change (js_get [b; a] 0) with (Some b); change (js_get [b; a] 1) with (Some a).
      cbn [strict_eq].
      destruct (Z.eqb_spec p b), (Z.eqb_spec q a); cbn [andb fst valid]; split;
        try discriminate; try (intros (_ & [(? & ?)|(? & ?)]); lia); intros _; split; auto; right; lia.
  - cbn [fst valid]. split; [discriminate|]. intros (H & _); contradiction.
Qed.

(** C8: at a user-action swap step of a swap engine, a move with two indices
    is judged valid exactly when it is a swap whose indices are those of the
    step, in either order. *)
Theorem C8_swap_validation (e : Algorithm) (input : list Z) :
  e <> merge ->
  exists t, generateSteps e input = Some t /\
    forall k s, js_get t k = Some s -> isUserAction s = true -> type s = SWAP ->
      exists p q, indices s = [p; q] /\
        forall ty a b v,
          valid (fst (validateMove e t k (mkAction ty [a; b] v))) = true <->
          (ty = "swap" /\ ((a = p /\ b = q) \/ (a = q /\ b = p))).
Proof.
  intros He.
  destruct (generateSteps_ok e input) as (t & E & final & (_ & Hw & _) & _).
  exists t. split; [auto|]. simpl in Hw.
  intros k s Ek Eu Ety.
  destruct (proj1 (Forall_forall _ _) Hw s (js_get_In _ _ _ Ek)) as (_ & _ & H3 & _).
  destruct (H3 Ety) as (_ & _ & p & q & Ei & Hp & _).
  exists p, q. split; [auto|]. intros ty a b v.
  destruct e; try contradiction; simpl; eapply validateSwapMove_pair; eauto; lia.
Qed.

(** C8 at the bubble trace of [2; 1]. *)
Lemma C8_swap_validation_witness :
  bubble <> merge /\
  exists t, generateSteps bubble [2; 1] = Some t /\
    forall k s, js_get t k = Some s -> isUserAction s = true -> type s = SWAP ->
      exists p q, indices s = [p; q] /\
        forall ty a b v,
          valid (fst (validateMove bubble t k (mkAction ty [a; b] v))) = true <->
          (ty = "swap" /\ ((a = p /\ b = q) \/ (a = q /\ b = p))).
Proof.
  split; [discriminate|]. apply (C8_swap_validation bubble [2; 1]). discriminate.
Defined.

(** C1, counterexample: the bubble trace of a singleton is empty, so it has
    no last step; and the select steps of merge sort record the value that
    was in the cell, so that replaying the trace of [2; 1] leaves [2; 1]. *)
Lemma C1_counterexample :
  ~ C1_as_stated bubble [7] /\ ~ C1_as_stated merge [2; 1].
Proof.
  split.
  - intros (t & E & _ & s & Hs & _).
    vm_compute in E. injection E as <-. discriminate.
  - intros (t & E & ((Hs & _) & _)).
    vm_compute in E. injection E as <-.
    match type of Hs with StronglySorted _ ?r =>
      assert (Er : r = [2; 1]) by (vm_compute; reflexivity); rewrite Er in Hs end.
    inversion Hs as [|? ? _ H]; subst.
    inversion H as [|? ? H1 _]; subst. lia.
Qed.

(** C1, amended: for the five swap engines, replaying the swap steps of the
    trace on the input gives the ascending sort of the input; and for all
    six engines the snapshot of the last step of a trace that has steps is
    the ascending sort of the input, while a trace without steps comes from
    an input that is in ascending order already. *)
Theorem C1_sortedness (e : Algorithm) (input : list Z) :
  exists t, generateSteps e input = Some t /\
    (is_merge e = false -> is_sort_of input (replay input t)) /\
    (forall s, last_step t = Some s -> is_sort_of input (arrayState s)) /\
    (t = [] -> is_sort_of input input).
Proof.
  destruct (generateSteps_ok e input) as (t & E & H).
  destruct (engine_post_final e input t H) as (final & HT & Hs & HQ).
  exists t. split; [auto|]. destruct HT as (_ & Hw & Hl). simpl in Hw, Hl.
  split; [|split].
  - intros He. rewrite He in Hw. now rewrite (linked_replay _ _ _ _ Hw Hl).
  - intros s Hlast. destruct (last_step_inv t s Hlast) as (t' & ->).
    destruct (HQ t' s eq_refl) as (Hty & Hu).
    now rewrite (linked_last _ _ _ _ Hl Hty Hu).
  - intros ->. simpl in Hl. rewrite <- Hl in Hs. exact Hs.
Qed.


Lemma linked_head a0 t a s : linked a0 t a -> nth_error t 0 = Some s -> arrayState s = a0.
Proof.
  destruct t as [|x t]; simpl; [discriminate|]. intros (H & _) [= ->]. exact H.
Qed.

Lemma linked_next : forall t a0 a k s s',
  linked a0 t a -> nth_error t k = Some s -> nth_error t (S k) = Some s' ->
  effect s (arrayState s) (arrayState s').
Proof.
  induction t as [|x t IH]; intros a0 a k s s' Hl Hk Hk'; [destruct k; discriminate|].
  simpl in Hl. destruct Hl as (Hx & a1 & He & Hl).
  destruct k as [|k].
  - simpl in Hk, Hk'. injection Hk as <-.
    rewrite (linked_head _ _ _ _ Hl Hk'). now rewrite Hx.
  - simpl in Hk, Hk'. eapply IH; eauto.
Qed.


Lemma effect_cases sel n s a a' :
  wf_step sel n s -> effect s a a' ->
  (type s = SWAP -> exists i j, indices s = [i; j] /\ a' = zswap a i j) /\
  (type s = SELECT -> isUserAction s = true ->
     exists p v, indices s = [p] /\ a' = zset a p v) /\
  (type s <> SWAP -> isUserAction s = false -> a' = a).
Proof.
  intros (_ & _ & H3 & H4) He. unfold effect in He. split; [|split].
  - intros Hty. destruct (H3 Hty) as (_ & _ & i & j & Ei & _).
    rewrite Hty, Ei in He. eauto.
  - intros Hty Hu. destruct (H4 Hu) as [H|(_ & _ & p & Ei & _)]; [congruence|].
    rewrite Hty, Hu, Ei in He. destruct He as (v & ->). eauto.
  - intros Hty Hu. rewrite Hu in He.
    destruct (type s); try congruence; destruct (indices s) as [|? [|? [|]]]; congruence.
Qed.

Lemma nth_error_last {A} (t : list A) k x :
  nth_error t k = Some x -> nth_error t (S k) = None ->
  exists t', t = (t' ++ [x])%list.
Proof.
  revert k; induction t as [|y t IH]; intros [|k] H1 H2; simpl in *; try discriminate.
  - injection H1 as ->. destruct t; [|discriminate]. exists []. reflexivity.
  - destruct (IH k H1 H2) as (t' & ->). exists (y :: t'). reflexivity.
Qed.

(** ** The insert steps of insertion sort *)



Section InsertionPlaces.

Variable input : list Z.
Let n := len input.





End InsertionPlaces.


(** C7, counterexample: the heap trace of a singleton starts with the
    divide step that announces the heap construction. *)
Lemma C7_counterexample : ~ C7_as_stated heap [5].
Proof.
  intros (t & E & H & _). vm_compute in E. injection E as <-.
  inversion H as [|? ? (Hty & _) _]. discriminate.
Qed.

(** On the empty input selection sort, insertion sort and heap sort record
    a sorted mark all the same: of the cell -1, 0 and 0, which the empty
    array does not have, with [undefined] as the recorded value.  The loop
    bounds keep the other three engines from it. *)
Lemma empty_input_sorted_mark_outside :
  (exists s, generateSteps selection [] = Some [s] /\
             type s = SORTED /\ indices s = [-1] /\ values s = [None]) /\
  (exists s, generateSteps insertion [] = Some [s] /\
             type s = SORTED /\ indices s = [0] /\ values s = [None]) /\
  (exists d s, generateSteps heap [] = Some [d; s] /\
               type s = SORTED /\ indices s = [0] /\ values s = [None]) /\
  generateSteps bubble [] = Some [] /\
  generateSteps merge [] = Some [] /\
  generateSteps quick [] = Some [].
Proof.
  split; [eexists; split; [reflexivity|]; repeat split|].
  split; [eexists; split; [reflexivity|]; repeat split|].
  split; [eexists _, _; split; [reflexivity|]; repeat split|].
  repeat split.
Qed.

(** C7, amended: on an empty or singleton input every engine returns a
    trace without user-action steps and without swap steps
    ([getOptimalSwapCount] is 0), whose steps are sorted marks, but for the
    divide step without indices that is the first step of every heap
    trace; all indices lie inside the array on a singleton, and also on the
    empty input for bubble, merge and quick sort, whose trace is empty
    then. *)
Theorem C7_trivial_traces (e : Algorithm) (input : list Z) :
  (List.length input <= 1)%nat ->
  exists t, generateSteps e input = Some t /\
    (e <> heap ->
       Forall (fun s => type s = SORTED /\ isUserAction s = false) t) /\
    (e = heap ->
       exists d r, t = d :: r /\
         type d = DIVIDE /\ indices d = [] /\ isUserAction d = false /\
         Forall (fun s => type s = SORTED /\ isUserAction s = false) r) /\
    getUserActionCount t = 0 /\ getOptimalSwapCount t = 0 /\
    (input <> [] \/ e = bubble \/ e = merge \/ e = quick ->
     Forall (fun s => Forall (fun i => 0 <= i < len input) (indices s)) t).
Proof.
  intros Hlen.
  destruct input as [|x [|y r]]; [| |simpl in Hlen; lia]; destruct e;
    (eexists; split; [vm_compute; reflexivity|]).
  all: split; [intros He; first [congruence|repeat constructor]|].
  all: split; [intros He;
               first [discriminate
                     |eexists _, _; split; [reflexivity|]; repeat constructor]|].
  all: split; [reflexivity|]; split; [reflexivity|].
  all: intros [Hne|[Hb|[Hb|Hb]]]; try congruence; try discriminate.
  all: repeat constructor; unfold len; simpl; lia.
Qed.

(** C7 at the heap trace of a singleton. *)
Lemma C7_trivial_traces_witness :
  (List.length [5] <= 1)%nat /\
  exists t, generateSteps heap [5] = Some t /\
    (heap <> heap ->
       Forall (fun s => type s = SORTED /\ isUserAction s = false) t) /\
    (heap = heap ->
       exists d r, t = d :: r /\
         type d = DIVIDE /\ indices d = [] /\ isUserAction d = false /\
         Forall (fun s => type s = SORTED /\ isUserAction s = false) r) /\
    getUserActionCount t = 0 /\ getOptimalSwapCount t = 0 /\
    ([5] <> [] \/ heap = bubble \/ heap = merge \/ heap = quick ->
     Forall (fun s => Forall (fun i => 0 <= i < len [5]) (indices s)) t).
Proof.
  split; [simpl; lia|]. apply (C7_trivial_traces heap [5]). simpl; lia.
Defined.

(** C2: on the merge trace of [2; 1], step 3 is the user-action select step
    that places 1 in cell 0 (the next snapshot shows it, and the step's own
    narration says so); yet its recorded value, taken from the array before
    the placement, is 2: [validateMove] rejects the selection of 1 and
    accepts the selection of 2. *)
Theorem C2_merge_select_records_old_value :
  exists t s s',
    generateSteps merge [2; 1] = Some t /\
    js_get t 3 = Some s /\ js_get t 4 = Some s' /\
    type s = SELECT /\ isUserAction s = true /\ indices s = [0] /\
    description s = "Place 1 at position 0 (smaller from right subarray)" /\
    js_get (arrayState s') 0 = Some 1 /\
    values s = [Some 2] /\
    valid (fst (validateMove merge t 3 (mkAction "select" [] (Some 1)))) = false /\
    valid (fst (validateMove merge t 3 (mkAction "select" [] (Some 2)))) = true.
Proof.
  eexists _, _, _. split; [vm_compute; reflexivity|].
  split; [vm_compute; reflexivity|]. split; [vm_compute; reflexivity|].
  repeat split; vm_compute; reflexivity.
Qed.

(** ** Rounding to binary64 *)

Lemma pow2_pos e : (0 < Binary64.pow2 e)%Q.
Proof. apply Qpower_0_lt. reflexivity. Qed.

Lemma pow2_plus a b : (Binary64.pow2 (a + b) == Binary64.pow2 a * Binary64.pow2 b)%Q.
Proof. apply Qpower_plus. discriminate. Qed.

Lemma pow2_le a b : a <= b -> (Binary64.pow2 a <= Binary64.pow2 b)%Q.
Proof. intros H. apply Qpower_le_compat_l; [exact H|discriminate]. Qed.

Lemma pow2_Z e : 0 <= e -> (Binary64.pow2 e == inject_Z (2 ^ e))%Q.
Proof. intros H. unfold Binary64.pow2. now rewrite (Zpower_Qpower 2 e H). Qed.

Lemma exponent_spec q :
  (0 < q)%Q ->
  (Binary64.pow2 (Binary64.exponent q) <= q)%Q /\
  (q < Binary64.pow2 (Binary64.exponent q + 1))%Q.
Proof.
  intros Hq. unfold Binary64.exponent.
  destruct q as [n d]. cbn [Qnum Qden].
  assert (Hn : 0 < n) by (unfold Qlt in Hq; cbn in Hq; lia).
  set (a := Z.log2 n). set (b := Z.log2 (Zpos d)).
  destruct (Z.log2_spec n Hn) as (Ha1 & Ha2). fold a in Ha1, Ha2.
  destruct (Z.log2_spec (Zpos d) eq_refl) as (Hb1 & Hb2). fold b in Hb1, Hb2.
  rewrite <- Z.add_1_r in Ha2, Hb2.
  assert (Ha0 : 0 <= a) by apply Z.log2_nonneg.
  assert (Hb0 : 0 <= b) by apply Z.log2_nonneg.
  (* the quotient lies between 2^(a-b-1) and 2^(a-b+1) *)
  assert (Hlo : (Binary64.pow2 (a - b - 1) <= n # d)%Q).
  { apply (Qmult_le_r _ _ (Binary64.pow2 (b + 1))); [apply pow2_pos|].
    rewrite <- pow2_plus. replace (a - b - 1 + (b + 1)) with a by lia.
    rewrite !pow2_Z by lia. unfold Qle. cbn [Qnum Qden Qmult inject_Z].
    rewrite Pos.mul_1_r, Z.mul_1_r.
    assert (0 < 2 ^ a) by (apply Z.pow_pos_nonneg; lia).
    apply Z.mul_le_mono_nonneg; lia. }
  assert (Hhi : ((n # d) < Binary64.pow2 (a - b + 1))%Q).
  { apply (Qmult_lt_r _ _ (Binary64.pow2 b)); [apply pow2_pos|].
    rewrite <- pow2_plus. replace (a - b + 1 + b) with (a + 1) by lia.
    rewrite !pow2_Z by lia. unfold Qlt. cbn [Qnum Qden Qmult inject_Z].
    rewrite Pos.mul_1_r, Z.mul_1_r.
    assert (0 < 2 ^ b) by (apply Z.pow_pos_nonneg; lia).
    apply Z.le_lt_trans with (n * Z.pos d); [apply Z.mul_le_mono_nonneg_l; lia|].
    apply Z.mul_lt_mono_pos_r; lia. }
  destruct (Qle_bool (Binary64.pow2 (a - b)) (n # d)) eqn:E.
  - apply Qle_bool_iff in E. split; [exact E|exact Hhi].
  - split; [exact Hlo|].
    replace (a - b - 1 + 1) with (a - b) by lia.
    apply Qnot_le_lt. intros H. apply Qle_bool_iff in H. congruence.
Qed.

Lemma nearest_even_Z (k : Z) : Binary64.nearest_even (inject_Z k) = k.
Proof.
  unfold Binary64.nearest_even. rewrite Qfloor_Z.
  assert (E : (inject_Z k - inject_Z k ?= 1 # 2)%Q = Lt).
  { apply Qlt_alt. setoid_replace (inject_Z k - inject_Z k)%Q with 0%Q by ring. reflexivity. }
  now rewrite E.
Qed.

Lemma nearest_even_mono (x y : Q) :
  (x <= y)%Q -> Binary64.nearest_even x <= Binary64.nearest_even y.
Proof.
  intros H. unfold Binary64.nearest_even.
  pose proof (Qfloor_resp_le x y H) as Hk.
  destruct (Z.eq_dec (Qfloor x) (Qfloor y)) as [E|N].
  - rewrite <- E.
    assert (Hf : (x - inject_Z (Qfloor x) <= y - inject_Z (Qfloor x))%Q).
    { apply Qplus_le_compat; [exact H|apply Qle_refl]. }
    destruct (x - inject_Z (Qfloor x) ?= 1 # 2)%Q eqn:E1;
      destruct (y - inject_Z (Qfloor x) ?= 1 # 2)%Q eqn:E2;
      try (destruct (Z.even (Qfloor x)); lia).
    + apply Qeq_alt in E1. apply Qlt_alt in E2. rewrite E1 in Hf.
      exfalso. apply (Qlt_not_le _ _ E2 Hf).
    + apply Qgt_alt in E1. apply Qeq_alt in E2. rewrite E2 in Hf.
      exfalso. apply (Qlt_not_le _ _ E1 Hf).
    + apply Qgt_alt in E1. apply Qlt_alt in E2.
      exfalso. apply (Qlt_not_le _ _ E1). apply Qle_trans with (1 := Hf).
      apply Qlt_le_weak. exact E2.
  - assert (Qfloor x + 1 <= Qfloor y) by lia.
    destruct (x - inject_Z (Qfloor x) ?= 1 # 2)%Q;
      destruct (y - inject_Z (Qfloor y) ?= 1 # 2)%Q;
      try destruct (Z.even (Qfloor x)); try destruct (Z.even (Qfloor y)); lia.
Qed.

(** What [round_pos] does to a positive number: between 2^52 and 2^53 units
    of the last place. *)
Lemma round_pos_units q :
  (0 < q)%Q ->
  2 ^ 52 <= Binary64.nearest_even (q / Binary64.pow2 (Binary64.exponent q - 52)) <= 2 ^ 53.
Proof.
  intros Hq. destruct (exponent_spec q Hq) as (H1 & H2).
  set (e := Binary64.exponent q) in *.
  pose proof (pow2_pos (e - 52)) as Hs.
  split.
  - rewrite <- (nearest_even_Z (2 ^ 52)). apply nearest_even_mono.
    apply Qle_shift_div_l; [exact Hs|].
    rewrite <- pow2_Z by lia. rewrite <- pow2_plus.
    replace (52 + (e - 52)) with e by lia. exact H1.
  - rewrite <- (nearest_even_Z (2 ^ 53)). apply nearest_even_mono.
    apply Qle_shift_div_r; [exact Hs|].
    rewrite <- pow2_Z by lia. rewrite <- pow2_plus.
    replace (53 + (e - 52)) with (e + 1) by lia. apply Qlt_le_weak. exact H2.
Qed.

Lemma exponent_mono q1 q2 :
  (0 < q1)%Q -> (q1 <= q2)%Q -> Binary64.exponent q1 <= Binary64.exponent q2.
Proof.
  intros H1 H.
  assert (H2 : (0 < q2)%Q) by exact (Qlt_le_trans _ _ _ H1 H).
  destruct (exponent_spec q1 H1) as (A1 & _).
  destruct (exponent_spec q2 H2) as (_ & B2).
  destruct (Z_le_gt_dec (Binary64.exponent q1) (Binary64.exponent q2)) as [L|G]; [exact L|].
  exfalso. apply (Qlt_not_le _ _ B2).
  apply Qle_trans with (2 := H). apply Qle_trans with (2 := A1).
  apply pow2_le. lia.
Qed.

Lemma round_pos_mono q1 q2 :
  (0 < q1)%Q -> (q1 <= q2)%Q -> (Binary64.round_pos q1 <= Binary64.round_pos q2)%Q.
Proof.
  intros H1 H.
  assert (H2 : (0 < q2)%Q) by exact (Qlt_le_trans _ _ _ H1 H).
  pose proof (exponent_mono q1 q2 H1 H) as He.
  unfold Binary64.round_pos. cbv zeta.
  destruct (Z.eq_dec (Binary64.exponent q1) (Binary64.exponent q2)) as [E|N].
  - rewrite E. apply Qmult_le_compat_r; [|apply Qlt_le_weak, pow2_pos].
    rewrite <- Zle_Qle. apply nearest_even_mono.
    apply Qmult_le_compat_r; [exact H|].
    apply Qlt_le_weak, Qinv_lt_0_compat, pow2_pos.
  - destruct (round_pos_units q1 H1) as (_ & U1).
    destruct (round_pos_units q2 H2) as (L2 & _).
    apply Qle_trans with (inject_Z (2 ^ 53) * Binary64.pow2 (Binary64.exponent q1 - 52))%Q.
    { apply Qmult_le_compat_r; [|apply Qlt_le_weak, pow2_pos]. now rewrite <- Zle_Qle. }
    apply Qle_trans with (inject_Z (2 ^ 52) * Binary64.pow2 (Binary64.exponent q2 - 52))%Q.
    2:{ apply Qmult_le_compat_r; [|apply Qlt_le_weak, pow2_pos]. now rewrite <- Zle_Qle. }
    rewrite <- !pow2_Z by lia. rewrite <- !pow2_plus. apply pow2_le. lia.
Qed.

Lemma round_pos_pos q : (0 < q)%Q -> (0 < Binary64.round_pos q)%Q.
Proof.
  intros Hq. unfold Binary64.round_pos. cbv zeta.
  destruct (round_pos_units q Hq) as (L & _).
  apply Qmult_lt_0_compat; [|apply pow2_pos].
  change 0%Q with (inject_Z 0). rewrite <- Zlt_Qlt. lia.
Qed.

Lemma Qnum_sign q :
  match Qnum q with
  | 0 => (q == 0)%Q
  | Zpos _ => (0 < q)%Q
  | Zneg _ => (q < 0)%Q
  end.
Proof. destruct q as [[|n|n] d]; unfold Qeq, Qlt; cbn; lia. Qed.

Lemma binary64_round_nonneg q : (0 <= q)%Q -> (0 <= Binary64.round q)%Q.
Proof.
  intros H. unfold Binary64.round. pose proof (Qnum_sign q) as S.
  destruct (Qnum q).
  - apply Qle_refl.
  - apply Qlt_le_weak, round_pos_pos, S.
  - exfalso. apply (Qlt_not_le _ _ S H).
Qed.

Lemma binary64_round_nonpos q : (q <= 0)%Q -> (Binary64.round q <= 0)%Q.
Proof.
  intros H. unfold Binary64.round. pose proof (Qnum_sign q) as S.
  destruct (Qnum q).
  - apply Qle_refl.
  - exfalso. apply (Qlt_not_le _ _ S H).
  - assert (0 < - q)%Q by (apply (Qopp_lt_compat q 0) in S; exact S).
    apply (Qopp_le_compat 0). apply Qlt_le_weak, round_pos_pos. assumption.
Qed.

(** Rounding keeps the order. *)
Lemma binary64_round_mono q1 q2 :
  (q1 <= q2)%Q -> (Binary64.round q1 <= Binary64.round q2)%Q.
Proof.
  intros H.
  destruct (Qlt_le_dec 0 q1) as [P1|N1].
  - assert (P2 : (0 < q2)%Q) by exact (Qlt_le_trans _ _ _ P1 H).
    unfold Binary64.round.
    pose proof (Qnum_sign q1) as S1. pose proof (Qnum_sign q2) as S2.
    destruct (Qnum q1);
      [rewrite S1 in P1; discriminate| |exact (False_ind _ (Qlt_irrefl 0 (Qlt_trans _ _ _ P1 S1)))].
    destruct (Qnum q2);
      [rewrite S2 in P2; discriminate| |exact (False_ind _ (Qlt_irrefl 0 (Qlt_trans _ _ _ P2 S2)))].
    apply round_pos_mono; assumption.
  - destruct (Qlt_le_dec q2 0) as [N2|P2].
    + unfold Binary64.round.
      pose proof (Qnum_sign q1) as S1. pose proof (Qnum_sign q2) as S2.
      assert (N1' : (q1 < 0)%Q) by exact (Qle_lt_trans _ _ _ H N2).
      destruct (Qnum q1);
        [rewrite S1 in N1'; discriminate
        |exact (False_ind _ (Qlt_irrefl 0 (Qlt_trans _ _ _ S1 N1')))|].
      destruct (Qnum q2);
        [rewrite S2 in N2; discriminate
        |exact (False_ind _ (Qlt_irrefl 0 (Qlt_trans _ _ _ S2 N2)))|].
      apply Qopp_le_compat. apply round_pos_mono.
      * apply (Qopp_lt_compat q2 0) in N2. exact N2.
      * apply Qopp_le_compat. exact H.
    + apply Qle_trans with 0%Q; [apply binary64_round_nonpos|apply binary64_round_nonneg]; assumption.
Qed.


(** A number of binary64 bounds what is rounded as it bounds the exact
    result. *)
Lemma binary64_round_le q c :
  (Binary64.round c == c)%Q -> (q <= c)%Q -> (Binary64.round q <= c)%Q.
Proof.
  intros Hc H. rewrite <- Hc. now apply binary64_round_mono.
Qed.

Lemma binary64_round_ge q c :
  (Binary64.round c == c)%Q -> (c <= q)%Q -> (c <= Binary64.round q)%Q.
Proof.
  intros Hc H. rewrite <- Hc. now apply binary64_round_mono.
Qed.

Lemma pow2_lt a b : a < b -> (Binary64.pow2 a < Binary64.pow2 b)%Q.
Proof. intros H. apply Qpower_lt_compat_l; [exact H|reflexivity]. Qed.

Lemma exponent_unique q e :
  (Binary64.pow2 e <= q)%Q -> (q < Binary64.pow2 (e + 1))%Q -> Binary64.exponent q = e.
Proof.
  intros H1 H2.
  assert (Hq : (0 < q)%Q) by exact (Qlt_le_trans _ _ _ (pow2_pos e) H1).
  destruct (exponent_spec q Hq) as (S1 & S2).
  destruct (Z.lt_trichotomy (Binary64.exponent q) e) as [L|[E|G]]; [|exact E|]; exfalso.
  - apply (Qlt_irrefl q). apply Qlt_le_trans with (1 := S2).
    apply Qle_trans with (2 := H1). apply pow2_le. lia.
  - apply (Qlt_irrefl q). apply Qlt_le_trans with (1 := H2).
    apply Qle_trans with (2 := S1). apply pow2_le. lia.
Qed.

Lemma Qfloor_unique (y : Q) (k : Z) :
  (inject_Z k <= y)%Q -> (y < inject_Z (k + 1))%Q -> Qfloor y = k.
Proof.
  intros H1 H2.
  pose proof (Qfloor_le y) as F1. pose proof (Qlt_floor y) as F2.
  assert (A : (inject_Z k < inject_Z (Qfloor y + 1))%Q) by exact (Qle_lt_trans _ _ _ H1 F2).
  assert (B : (inject_Z (Qfloor y) < inject_Z (k + 1))%Q) by exact (Qle_lt_trans _ _ _ F1 H2).
  rewrite <- Zlt_Qlt in A, B. lia.
Qed.

(** A number between a binary64 number of [m] units and the middle of the
    way to the next one is rounded down to it. *)
Lemma binary64_round_down (m e : Z) (q : Q) :
  2 ^ 52 <= m < 2 ^ 53 ->
  (inject_Z m * Binary64.pow2 e <= q)%Q ->
  (q < (inject_Z m + (1 # 2)) * Binary64.pow2 e)%Q ->
  (Binary64.round q == inject_Z m * Binary64.pow2 e)%Q.
Proof.
  intros Hm H1 H2. pose proof (pow2_pos e) as Hs.
  assert (Hq : (0 < q)%Q).
  { apply Qlt_le_trans with (2 := H1). apply Qmult_lt_0_compat; [|exact Hs].
    change 0%Q with (inject_Z 0). rewrite <- Zlt_Qlt. lia. }
  assert (He : Binary64.exponent q = e + 52).
  { apply exponent_unique.
    - apply Qle_trans with (2 := H1). rewrite Z.add_comm, pow2_plus.
      rewrite (pow2_Z 52) by lia.
      apply Qmult_le_compat_r; [|apply Qlt_le_weak, Hs]. rewrite <- Zle_Qle. lia.
    - apply Qlt_le_trans with (1 := H2).
      replace (e + 52 + 1) with (53 + e) by lia. rewrite pow2_plus.
      rewrite (pow2_Z 53) by lia.
      apply Qmult_le_compat_r; [|apply Qlt_le_weak, Hs].
      unfold Qle. cbn [Qnum Qden Qplus inject_Z]. lia. }
  unfold Binary64.round. pose proof (Qnum_sign q) as S.
  destruct (Qnum q);
    [rewrite S in Hq; discriminate| |exact (False_ind _ (Qlt_irrefl 0 (Qlt_trans _ _ _ Hq S)))].
  unfold Binary64.round_pos. cbv zeta. rewrite He.
  replace (e + 52 - 52) with e by lia.
  assert (Y1 : (inject_Z m <= q / Binary64.pow2 e)%Q)
    by (apply Qle_shift_div_l; [exact Hs|exact H1]).
  assert (Y2 : (q / Binary64.pow2 e < inject_Z m + (1 # 2))%Q)
    by (apply Qlt_shift_div_r; [exact Hs|exact H2]).
  assert (Hf : Qfloor (q / Binary64.pow2 e) = m).
  { apply Qfloor_unique; [exact Y1|].
    apply Qlt_le_trans with (1 := Y2). rewrite inject_Z_plus.
    apply Qplus_le_r. discriminate. }
  unfold Binary64.nearest_even. rewrite Hf.
  assert (Ec : (q / Binary64.pow2 e - inject_Z m ?= 1 # 2)%Q = Lt).
  { apply Qlt_alt. apply (Qplus_lt_l _ _ (inject_Z m)).
    setoid_replace (q / Binary64.pow2 e - inject_Z m + inject_Z m)%Q
      with (q / Binary64.pow2 e)%Q by ring.
    rewrite (Qplus_comm (1 # 2)). exact Y2. }
  rewrite Ec. reflexivity.
Qed.

Lemma Math_round_nonneg (x : Q) : (0 <= x)%Q -> 0 <= Math_round x.
Proof.
  intros H. unfold Math_round.
  change 0 with (Qfloor 0). apply Qfloor_resp_le.
  rewrite <- (Qplus_0_r 0). apply Qplus_le_compat; [exact H|discriminate].
Qed.

Lemma Math_round_le (x : Q) (n : Z) : (x <= inject_Z n)%Q -> Math_round x <= n.
Proof.
  intros H. unfold Math_round.
  pose proof (Qfloor_le (x + (1 # 2))) as Hf.
  assert (Hlt : (inject_Z (Qfloor (x + (1 # 2))) < inject_Z (n + 1))%Q).
  { eapply Qle_lt_trans; [exact Hf|]. rewrite inject_Z_plus.
    eapply Qle_lt_trans; [apply Qplus_le_l; exact H|].
    apply Qplus_lt_r. reflexivity. }
  rewrite <- Zlt_Qlt in Hlt. lia.
Qed.

Lemma Qeq_bool_inject_Z (z : Z) : Qeq_bool (inject_Z z) 0 = (z =? 0).
Proof.
  unfold Qeq_bool, inject_Z. cbn. rewrite Z.mul_1_r.
  destruct z; reflexivity.
Qed.

(** The bonus for the time is not negative, and at most 200 if the time is
    not negative. *)
Lemma timeBonus_bounds (timeTaken ratio : Q) (steps : Z) :
  0 <= steps -> (timeTaken < inject_Z steps)%Q ->
  Binary64.div timeTaken (inject_Z steps) = Binary64.Finite ratio ->
  0 <= Math_round (Binary64.mul 200 (Binary64.sub 1 ratio)) /\
  ((0 <= timeTaken)%Q ->
   Math_round (Binary64.mul 200 (Binary64.sub 1 ratio)) <= 200).
Proof.
  intros H0 Hlt. unfold Binary64.div.
  destruct (Qeq_bool (inject_Z steps) 0) eqn:E0.
  { destruct (Qeq_bool timeTaken 0); [discriminate|].
    destruct (Qle_bool 0 timeTaken); discriminate. }
  intros [= <-].
  assert (Hp : (0 < inject_Z steps)%Q).
  { rewrite Qeq_bool_inject_Z in E0. apply Z.eqb_neq in E0.
    change 0%Q with (inject_Z 0). rewrite <- Zlt_Qlt. lia. }
  split.
  - apply Math_round_nonneg. apply binary64_round_nonneg.
    apply Qmult_le_0_compat; [discriminate|].
    apply binary64_round_nonneg.
    assert (Hr : (Binary64.round (timeTaken / inject_Z steps) <= 1)%Q).
    { apply binary64_round_le; [vm_compute; reflexivity|].
      apply Qle_shift_div_r; [exact Hp|]. rewrite Qmult_1_l. apply Qlt_le_weak, Hlt. }
    unfold Qminus. rewrite <- (Qplus_opp_r (Binary64.round (timeTaken / inject_Z steps))).
    apply Qplus_le_compat; [exact Hr|apply Qle_refl].
  - intros Ht. apply Math_round_le. apply binary64_round_le; [vm_compute; reflexivity|].
    change (inject_Z 200) with (200 * 1)%Q.
    apply Qmult_le_l; [reflexivity|].
    apply binary64_round_le; [vm_compute; reflexivity|].
    rewrite <- (Qplus_0_r 1) at 2. unfold Qminus. apply Qplus_le_r.
    apply (Qopp_le_compat 0). apply binary64_round_nonneg.
    apply Qle_shift_div_l; [exact Hp|]. now rewrite Qmult_0_l.
Qed.

(** When two counts give the quotient 1, and when nine tenths. *)
Lemma accuracy_tests (c i : Z) :
  0 <= c -> 0 <= i ->
  let accuracy := Binary64.div (inject_Z c) (inject_Z (c + i)) in
  (i = 0 -> 0 < c -> Binary64.eq accuracy 1 = true) /\
  (c < (2 ^ 54 - 1) * i -> Binary64.eq accuracy 1 = false) /\
  (0 < c + i -> 9 * (c + i) <= 10 * c ->
   Binary64.ge accuracy (Binary64.round (9 # 10)) = true) /\
  (10 * c < 9 * (c + i) -> c + i <= 2 ^ 50 ->
   Binary64.ge accuracy (Binary64.round (9 # 10)) = false) /\
  (c = 0 -> Binary64.eq accuracy 1 = false /\
            Binary64.ge accuracy (Binary64.round (9 # 10)) = false).
Proof.
  intros Hc Hi. cbv zeta. unfold Binary64.div. rewrite !Qeq_bool_inject_Z.
  destruct (Z.eqb_spec (c + i) 0) as [E0|N0].
  { assert (c = 0 /\ i = 0) as (-> & ->) by lia. cbn.
    repeat split; intros; try lia; reflexivity. }
  assert (Hp : (0 < inject_Z (c + i))%Q)
    by (change 0%Q with (inject_Z 0); rewrite <- Zlt_Qlt; lia).
  cbn [Binary64.eq Binary64.ge].
  set (q := (inject_Z c / inject_Z (c + i))%Q).
  assert (Hle : forall n d : positive, c * Zpos d <= Zpos n * (c + i) -> (q <= Zpos n # d)%Q).
  { intros n d H. apply Qle_shift_div_r; [exact Hp|].
    unfold Qle. cbn [Qnum Qden Qmult inject_Z]. lia. }
  assert (Hge : forall n d : positive, Zpos n * (c + i) <= c * Zpos d -> (Zpos n # d <= q)%Q).
  { intros n d H. apply Qle_shift_div_l; [exact Hp|].
    unfold Qle. cbn [Qnum Qden Qmult inject_Z]. lia. }
  split; [|split; [|split; [|split]]].
  - intros -> Hc0. apply Qeq_bool_iff. apply Qle_antisym.
    + apply binary64_round_le; [vm_compute; reflexivity|]. apply (Hle 1%positive 1%positive). lia.
    + apply binary64_round_ge; [vm_compute; reflexivity|]. apply (Hge 1%positive 1%positive). lia.
  - intros Hlt. apply not_true_is_false. intros E. apply Qeq_bool_iff in E.
    assert (Hr : (Binary64.round q <= 9007199254740991 # 9007199254740992)%Q).
    { destruct (Qlt_le_dec (9007199254740991 # 9007199254740992) q) as [Hb|Hs].
      - rewrite (binary64_round_down 9007199254740991 (-53) q).
        + vm_compute. discriminate.
        + lia.
        + apply Qlt_le_weak. revert Hb. apply Qle_lt_trans. vm_compute. discriminate.
        + apply Qlt_shift_div_r; [exact Hp|].
          setoid_replace ((inject_Z 9007199254740991 + (1 # 2)) * Binary64.pow2 (-53))%Q
            with (18014398509481983 # 18014398509481984)%Q by (vm_compute; reflexivity).
          unfold Qlt. cbn [Qnum Qden Qmult inject_Z].
          change (2 ^ 54) with 18014398509481984 in Hlt. lia.
      - apply binary64_round_le; [vm_compute; reflexivity|exact Hs]. }
    rewrite E in Hr. revert Hr. vm_compute. intros H. apply H. reflexivity.
  - intros _ H. apply Qle_bool_iff. apply binary64_round_mono.
    apply (Hge 9%positive 10%positive). lia.
  - intros H Hb. apply not_true_is_false. intros E. apply Qle_bool_iff in E.
    assert (Hr : (Binary64.round q <= 8106479329266892 # 9007199254740992)%Q).
    { apply binary64_round_le; [vm_compute; reflexivity|].
      apply (Hle 8106479329266892%positive 9007199254740992%positive).
      change (2 ^ 50) with 1125899906842624 in Hb. lia. }
    pose proof (Qle_trans _ _ _ E Hr) as F. revert F. vm_compute. intros F. apply F. reflexivity.
  - intros ->. split; apply not_true_is_false; intros E.
    + apply Qeq_bool_iff in E.
      assert (Hr : (Binary64.round q <= 0)%Q).
      { apply binary64_round_nonpos. unfold q, Qdiv. rewrite Qmult_0_l. apply Qle_refl. }
      rewrite E in Hr. revert Hr. vm_compute. intros H. apply H. reflexivity.
    + apply Qle_bool_iff in E.
      assert (Hr : (Binary64.round q <= 0)%Q).
      { apply binary64_round_nonpos. unfold q, Qdiv. rewrite Qmult_0_l. apply Qle_refl. }
      pose proof (Qle_trans _ _ _ E Hr) as F. revert F. vm_compute. intros F. apply F. reflexivity.
Qed.

(** Beyond the integers that binary64 tells apart, one incorrect move in
    2^54 is lost in the quotient. *)
Lemma accuracy_rounds_to_one :
  Binary64.eq (Binary64.div (inject_Z (2 ^ 54)) (inject_Z (2 ^ 54 + 1))) 1 = true.
Proof. vm_compute. reflexivity. Qed.

(** [completeGame] never takes points away. *)
Lemma completeGame_score now g : GM.score g <= GM.score (GM.completeGame now g).
Proof.
  unfold GM.completeGame. cbv zeta. cbn [GM.score].
  match goal with |- context [Qlt_le_dec ?t ?o] => set (tt := t); set (opt := o) end.
  assert (Hb : GM.score g <=
               (if Qlt_le_dec tt opt
                then match Binary64.div tt opt with
                     | Binary64.Finite ratio =>
                         GM.score g + Math_round (Binary64.mul 200 (Binary64.sub 1 ratio))
                     | _ => GM.score g
                     end
                else GM.score g)).
  { destruct (Qlt_le_dec tt opt) as [Hlt|Hle]; [|lia].
    destruct (Binary64.div tt opt) as [ratio| | |] eqn:Ed; try lia.
    assert (H0 : 0 <= len (GM.steps g) * 2) by (pose proof (len_nonneg (GM.steps g)); lia).
    destruct (timeBonus_bounds tt ratio _ H0 Hlt Ed) as (H & _). lia. }
  destruct (Binary64.eq _ 1); [lia|].
  destruct (Binary64.ge _ _); lia.
Qed.

(** ** Claims on the game session *)

Lemma advance_spec n : forall cnt g,
  Forall (fun s => len (arrayState s) = n) (GM.steps g) ->
  len (GM.currentArray g) = n ->
  let g' := GM.advance cnt g in
  GM.steps g' = GM.steps g /\ len (GM.currentArray g') = n /\
  GM.currentAlgorithm g' = GM.currentAlgorithm g /\
  GM.correctMoves g' = GM.correctMoves g /\
  GM.incorrectMoves g' = GM.incorrectMoves g /\
  GM.score g' = GM.score g /\ GM.streak g' = GM.streak g /\
  GM.difficulty g' = GM.difficulty g /\
  GM.isGameActive g' = GM.isGameActive g /\
  GM.isGameComplete g' = GM.isGameComplete g.
Proof.
  induction cnt as [|cnt IH]; intros g Hw Hl; cbn [GM.advance]; cbv zeta.
  - repeat split; auto.
  - destruct (GM.currentStepIndex g <? len (GM.steps g)); [|repeat split; auto].
    destruct (js_get (GM.steps g) (GM.currentStepIndex g)) as [step|] eqn:Ek;
      [|repeat split; auto].
    destruct (isUserAction step); [repeat split; auto|].
    apply (IH (GM.with_cursor g (map Some (arrayState step)) (GM.currentStepIndex g + 1)));
      simpl; auto.
    unfold len. rewrite length_map.
    eapply (proj1 (Forall_forall _ _) Hw). eapply js_get_In; eauto.
Qed.

Lemma len_numbers (a : list Z) : len (map Some a) = len a.
Proof. unfold len. now rewrite length_map. Qed.

Lemma wf_step_len sel n t :
  Forall (wf_step sel n) t -> Forall (fun s => len (arrayState s) = n) t.
Proof. apply Forall_impl. intros s (_ & H & _); exact H. Qed.

Lemma len_exchange a i j a' : GM.exchange a i j = Some a' -> len a' = len a.
Proof.
  unfold GM.exchange. destruct (js_get a i), (js_get a j); try discriminate.
  intros [= <-]. unfold len. now rewrite !length_upd.
Qed.

Lemma exchange_defined (a : list Z) i j :
  0 <= i < len a -> 0 <= j < len a -> exists a', GM.exchange a i j = Some a'.
Proof.
  intros Hi Hj. unfold GM.exchange. rewrite !js_get_in by auto. eauto.
Qed.

(** The engines judge a move valid at a user-action step only. *)
Lemma verdict_true_at_user_step g action :
  verdict g action true -> at_user_step g.
Proof.
  intros (e & _ & Hv). unfold at_user_step.
  assert (H : forall ok wrong,
            valid (fst (validateSwapMove ok wrong (GM.steps g)
                          (GM.currentStepIndex g) action)) = true ->
            exists step, js_get (GM.steps g) (GM.currentStepIndex g) = Some step /\
                         isUserAction step = true).
  { intros ok wrong. unfold validateSwapMove.
    destruct (js_get (GM.steps g) (GM.currentStepIndex g)) as [step|];
      [|discriminate].
    destruct (isUserAction step) eqn:Eu; [eauto|discriminate]. }
  destruct e; simpl in Hv; try (eapply H; exact Hv).
  unfold validateSelectMove in Hv.
  destruct (js_get (GM.steps g) (GM.currentStepIndex g)) as [step|];
    [|discriminate].
  destruct (isUserAction step) eqn:Eu; [eauto|discriminate].
Qed.

(** [advanceToNextUserAction] changes the array and the cursor only. *)
Lemma advance_fields : forall cnt g,
  GM.advance cnt g =
  GM.with_cursor g (GM.currentArray (GM.advance cnt g))
                   (GM.currentStepIndex (GM.advance cnt g)).
Proof.
  induction cnt as [|cnt IH]; intros g; cbn [GM.advance].
  - destruct g; reflexivity.
  - destruct (GM.currentStepIndex g <? len (GM.steps g)); [|destruct g; reflexivity].
    destruct (js_get (GM.steps g) (GM.currentStepIndex g)) as [step|];
      [|destruct g; reflexivity].
    destruct (isUserAction step); [destruct g; reflexivity|].
    rewrite IH at 1. reflexivity.
Qed.

(** The points of a correct move are whole numbers: the product with the
    multiplier is exact. *)
Lemma correct_move_points (d : Difficulty) (streak' : Z) :
  Math_round (inject_Z (100 + (if streak' >=? 5 then 50 else 0)) * GM.bonus d)%Q
  = ScoringSystem.calculateCorrectMoveScore d streak' /\
  Math_round (inject_Z (100 + (if streak' >=? 5 then 50 else 0)) * GM.bonus d)%Q
  = match d with
    | easy => 100 + (if streak' >=? 5 then 50 else 0)
    | medium => 3 * (100 + (if streak' >=? 5 then 50 else 0)) / 2
    | hard => 200 + 2 * (if streak' >=? 5 then 50 else 0)
    | expert => 300 + 3 * (if streak' >=? 5 then 50 else 0)
    end.
Proof.
  unfold ScoringSystem.calculateCorrectMoveScore, ScoringSystem.streakThreshold,
    ScoringSystem.streakBonus, ScoringSystem.correctSwap.
  destruct d; destruct (streak' >=? 5); split; reflexivity.
Qed.

(** C4: a correct move is awarded round((100 + streakBonus) x multiplier)
    points, where the bonus is 50 exactly when the streak that counts this
    move has reached 5, and the multiplier is 1, 1.5, 2, 3 for easy, medium,
    hard, expert.  The move is counted, it lengthens the streak by one, and
    its points are added to the score; if it is the last move of the game,
    [completeGame] then adds its bonuses on top, and the result reports the
    score with them. *)
Theorem C4_correct_move_points (now : Z) (action : UserAction) (g : GM.t) :
  active g -> verdict g action true ->
  exists r g',
    GM.processMove now action g = Some (r, g') /\
    GM.rvalid r = Some true /\
    GM.rstreak r = Some (GM.streak g + 1) /\
    GM.streak g' = GM.streak g + 1 /\
    GM.maxStreak g' = Z.max (GM.maxStreak g) (GM.streak g + 1) /\
    GM.correctMoves g' = GM.correctMoves g + 1 /\
    GM.incorrectMoves g' = GM.incorrectMoves g /\
    GM.rscore r = Some (GM.score g') /\
    GM.isComplete r = Some (GM.isGameComplete g') /\
    exists streakBonus multiplier pts,
      (streakBonus = 50 /\ 5 <= GM.streak g + 1 \/
       streakBonus = 0 /\ GM.streak g + 1 < 5) /\
      multiplier = match GM.difficulty g with
                   | easy => 1 | medium => 3 # 2 | hard => 2 | expert => 3
                   end%Q /\
      GM.points r = Some pts /\
      pts = Math_round (inject_Z (100 + streakBonus) * multiplier)%Q /\
      pts = match GM.difficulty g with
            | easy => 100 + streakBonus
            | medium => 3 * (100 + streakBonus) / 2
            | hard => 200 + 2 * streakBonus
            | expert => 300 + 3 * streakBonus
            end /\
      pts = ScoringSystem.calculateCorrectMoveScore (GM.difficulty g) (GM.streak g + 1) /\
      GM.score g + pts <= GM.score g' /\
      (GM.isGameComplete g' = false -> GM.score g' = GM.score g + pts) /\
      exists g2,
        GM.score g2 = GM.score g + pts /\
        GM.correctMoves g2 = GM.correctMoves g + 1 /\
        GM.incorrectMoves g2 = GM.incorrectMoves g /\
        GM.startTime g2 = GM.startTime g /\
        (g' = g2 \/ g' = GM.completeGame now g2).
Proof.
  intros (Ha & Hc) Hv.
  destruct (verdict_true_at_user_step g action Hv) as (step & Ek & Eu).
  destruct Hv as (e & He & Hv).
  unfold GM.processMove. rewrite Ha, Hc, Ek, Eu, He. cbn [negb orb].
  destruct (validateMove e (GM.steps g) (GM.currentStepIndex g) action)
    as [validation steps'] eqn:EV.
  cbn [fst] in Hv. rewrite Hv. cbv zeta.
  unfold GM.advanceToNextUserAction.
  match goal with |- context [GM.advance ?c ?g1] =>
    set (g2 := GM.advance c g1); pose proof (advance_fields c g1) as Hf; fold g2 in Hf
  end.
  set (pts := Math_round (inject_Z (100 + (if GM.streak g + 1 >=? 5 then 50 else 0))
                          * GM.bonus (GM.difficulty g))%Q) in *.
  assert (Hg2 : GM.streak g2 = GM.streak g + 1 /\
                GM.maxStreak g2 = Z.max (GM.maxStreak g) (GM.streak g + 1) /\
                GM.correctMoves g2 = GM.correctMoves g + 1 /\
                GM.incorrectMoves g2 = GM.incorrectMoves g /\
                GM.score g2 = GM.score g + pts /\
                GM.isGameComplete g2 = false /\
                GM.startTime g2 = GM.startTime g).
  { rewrite Hf. cbn. repeat split; reflexivity. }
  destruct Hg2 as (H1 & H2 & H3 & H4 & H5 & H6 & H7).
  pose proof (completeGame_score now g2) as Hs.
  eexists _, _. split; [reflexivity|].
  cbn [GM.rvalid GM.rstreak GM.rscore GM.points GM.isComplete].
  assert (Hg3 : forall b : bool,
            let g3 := if b then GM.completeGame now g2 else g2 in
            GM.streak g3 = GM.streak g + 1 /\
            GM.maxStreak g3 = Z.max (GM.maxStreak g) (GM.streak g + 1) /\
            GM.correctMoves g3 = GM.correctMoves g + 1 /\
            GM.incorrectMoves g3 = GM.incorrectMoves g /\
            GM.score g + pts <= GM.score g3 /\
            (GM.isGameComplete g3 = false -> GM.score g3 = GM.score g + pts) /\
            (g3 = g2 \/ g3 = GM.completeGame now g2)).
  { intros [|]; cbv zeta.
    - cbn [GM.completeGame GM.streak GM.maxStreak GM.correctMoves GM.incorrectMoves
           GM.isGameComplete].
      repeat (split; [assumption|]). split; [lia|]. split; [discriminate|now right].
    - repeat (split; [assumption|]). split; [lia|]. split; [auto|now left]. }
  match goal with |- context [if ?b then GM.completeGame now g2 else g2] =>
    destruct (Hg3 b) as (G1 & G2 & G3 & G4 & G5 & G6 & G7);
    set (g3 := if b then GM.completeGame now g2 else g2) in *
  end.
  split; [reflexivity|]. split; [f_equal; exact G1|].
  split; [exact G1|]. split; [exact G2|]. split; [exact G3|]. split; [exact G4|].
  split; [reflexivity|]. split; [reflexivity|].
  exists (if GM.streak g + 1 >=? 5 then 50 else 0), (GM.bonus (GM.difficulty g)), pts.
  destruct (correct_move_points (GM.difficulty g) (GM.streak g + 1)) as (P1 & P2).
  split; [destruct (Z.geb_spec (GM.streak g + 1) 5); lia|].
  split; [destruct (GM.difficulty g); reflexivity|].
  split; [reflexivity|]. split; [reflexivity|].
  split; [exact P2|]. split; [exact P1|]. split; [exact G5|]. split; [exact G6|].
  exists g2. auto.
Qed.

Lemma startGame_ok e d it generated now g :
  GM.startGame e d it generated now = Some g -> session_ok g /\ active g.
Proof.
  unfold GM.startGame.
  destruct (generateSteps_ok e generated) as (t & E & final & (_ & Hw & _) & _).
  simpl in Hw. rewrite E. intros [= <-]. split; [|split; reflexivity].
  exists e. unfold GM.advanceToNextUserAction. rewrite advance_fields.
  cbn. split; [reflexivity|exact Hw].
Qed.

Lemma demo_session_started :
  GM.startGame heap easy GM.reversed [50; 40; 30; 20; 10] 0 = Some demo_session.
Proof. vm_compute. reflexivity. Qed.

(** C4 at the first move of the game of [demo_session]. *)
Lemma C4_correct_move_points_witness :
  exists r g',
    GM.processMove 1000 (mkAction "swap" [4; 0] None) demo_session = Some (r, g') /\
    GM.rvalid r = Some true /\
    GM.rstreak r = Some (GM.streak demo_session + 1) /\
    GM.streak g' = GM.streak demo_session + 1 /\
    GM.maxStreak g' = Z.max (GM.maxStreak demo_session) (GM.streak demo_session + 1) /\
    GM.correctMoves g' = GM.correctMoves demo_session + 1 /\
    GM.incorrectMoves g' = GM.incorrectMoves demo_session /\
    GM.rscore r = Some (GM.score g') /\
    GM.isComplete r = Some (GM.isGameComplete g') /\
    exists streakBonus multiplier pts,
      (streakBonus = 50 /\ 5 <= GM.streak demo_session + 1 \/
       streakBonus = 0 /\ GM.streak demo_session + 1 < 5) /\
      multiplier = match GM.difficulty demo_session with
                   | easy => 1 | medium => 3 # 2 | hard => 2 | expert => 3
                   end%Q /\
      GM.points r = Some pts /\
      pts = Math_round (inject_Z (100 + streakBonus) * multiplier)%Q /\
      pts = match GM.difficulty demo_session with
            | easy => 100 + streakBonus
            | medium => 3 * (100 + streakBonus) / 2
            | hard => 200 + 2 * streakBonus
            | expert => 300 + 3 * streakBonus
            end /\
      pts = ScoringSystem.calculateCorrectMoveScore (GM.difficulty demo_session)
              (GM.streak demo_session + 1) /\
      GM.score demo_session + pts <= GM.score g' /\
      (GM.isGameComplete g' = false -> GM.score g' = GM.score demo_session + pts) /\
      exists g2,
        GM.score g2 = GM.score demo_session + pts /\
        GM.correctMoves g2 = GM.correctMoves demo_session + 1 /\
        GM.incorrectMoves g2 = GM.incorrectMoves demo_session /\
        GM.startTime g2 = GM.startTime demo_session /\
        (g' = g2 \/ g' = GM.completeGame 1000 g2).
Proof.
  apply (C4_correct_move_points 1000 (mkAction "swap" [4; 0] None) demo_session).
  - split; reflexivity.
  - exists heap. split; [reflexivity|vm_compute; reflexivity].
Defined.

(** C5: a move that the engine judges invalid is counted as incorrect,
    resets the streak, costs 50 points but never takes the score below 0,
    and leaves the cursor, the array and the active state as they are. *)
Theorem C5_incorrect_move (now : Z) (action : UserAction) (g : GM.t) :
  active g -> at_user_step g -> verdict g action false ->
  exists r g',
    GM.processMove now action g = Some (r, g') /\
    GM.rvalid r = Some false /\
    GM.incorrectMoves g' = GM.incorrectMoves g + 1 /\
    GM.correctMoves g' = GM.correctMoves g /\
    GM.streak g' = 0 /\
    GM.score g' = Z.max 0 (GM.score g - 50) /\
    (50 <= GM.score g -> GM.score g' = GM.score g - 50) /\
    0 <= GM.score g' /\
    GM.currentStepIndex g' = GM.currentStepIndex g /\
    GM.currentArray g' = GM.currentArray g /\
    active g'.
Proof.
  intros (Ha & Hc) (step & Ek & Eu) (e & He & Hv).
  unfold GM.processMove. rewrite Ha, Hc, Ek, Eu, He. cbn [negb orb].
  destruct (validateMove e (GM.steps g) (GM.currentStepIndex g) action)
    as [validation steps'] eqn:EV.
  cbn [fst] in Hv. rewrite Hv. cbv zeta.
  eexists _, _. split; [reflexivity|].
  cbn [GM.rvalid GM.incorrectMoves GM.correctMoves GM.streak GM.score
       GM.currentStepIndex GM.currentArray].
  repeat (split; [reflexivity|]).
  split; [intros; lia|]. split; [lia|]. split; [reflexivity|]. split; [reflexivity|].
  split; reflexivity.
Qed.

(** C5 at a wrong first move of the game of [demo_session]. *)
Lemma C5_incorrect_move_witness :
  exists r g',
    GM.processMove 1000 (mkAction "swap" [3; 0] None) demo_session = Some (r, g') /\
    GM.rvalid r = Some false /\
    GM.incorrectMoves g' = GM.incorrectMoves demo_session + 1 /\
    GM.correctMoves g' = GM.correctMoves demo_session /\
    GM.streak g' = 0 /\
    GM.score g' = Z.max 0 (GM.score demo_session - 50) /\
    (50 <= GM.score demo_session -> GM.score g' = GM.score demo_session - 50) /\
    0 <= GM.score g' /\
    GM.currentStepIndex g' = GM.currentStepIndex demo_session /\
    GM.currentArray g' = GM.currentArray demo_session /\
    active g'.
Proof.
  apply (C5_incorrect_move 1000 (mkAction "swap" [3; 0] None) demo_session).
  - split; reflexivity.
  - eexists. split; [vm_compute; reflexivity|reflexivity].
  - exists heap. split; [reflexivity|vm_compute; reflexivity].
Defined.

(** C6: [skipStep] at the swap step of the cells 1 and 3 of the array
    [40; 10; 30; 20; 50] leaves that array as it is, since the copy of the
    step's snapshot replaces the array on which the exchange was made, and
    the next step is a user action too; the correct move at the same step
    leaves [40; 20; 30; 10; 50], at the same cursor. *)
Theorem C6_skipStep_loses_exchange :
  option_map snd (GM.processMove 1 (mkAction "swap" [0; 4] None) demo_session)
    = Some second_session /\
  option_map snd (GM.processMove 2 (mkAction "swap" [0; 1] None) second_session)
    = Some skip_session /\
  active skip_session /\
  option_map (fun s => (type s, isUserAction s, indices s))
    (js_get (GM.steps skip_session) (GM.currentStepIndex skip_session))
    = Some (SWAP, true, [1; 3]) /\
  GM.currentArray skip_session = map Some [40; 10; 30; 20; 50] /\
  GM.exchangeCells (GM.currentArray skip_session) (Some 1) (Some 3)
    = map Some [40; 20; 30; 10; 50] /\
  array_and_cursor (Some (GM.skipStep 3 skip_session))
    = Some (map Some [40; 10; 30; 20; 50], 12) /\
  GM.correctMoves (snd (GM.skipStep 3 skip_session)) = GM.correctMoves skip_session /\
  GM.incorrectMoves (snd (GM.skipStep 3 skip_session)) = GM.incorrectMoves skip_session /\
  array_and_cursor (GM.processMove 3 (mkAction "swap" [1; 3] None) skip_session)
    = Some (map Some [40; 20; 30; 10; 50], 12).
Proof.
  split; [vm_compute; reflexivity|]. split; [vm_compute; reflexivity|].
  split; [split; reflexivity|].
  repeat (split; [vm_compute; reflexivity|]).
  vm_compute; reflexivity.
Qed.

(** ** The moves keep the session well formed *)

(** A call that keeps the engine, the original array and the trace keeps
    the session well formed. *)
Lemma session_ok_same g g' :
  GM.currentAlgorithm g' = GM.currentAlgorithm g ->
  GM.originalArray g' = GM.originalArray g ->
  GM.steps g' = GM.steps g ->
  session_ok g -> session_ok g'.
Proof.
  intros H1 H2 H3 (e & He & Hw). exists e. rewrite H1, H2, H3. auto.
Qed.

Lemma move_on_same now g1 :
  let g3 := if GM.currentStepIndex (GM.advanceToNextUserAction g1)
               >=? len (GM.steps (GM.advanceToNextUserAction g1))
            then GM.completeGame now (GM.advanceToNextUserAction g1)
            else GM.advanceToNextUserAction g1 in
  GM.currentAlgorithm g3 = GM.currentAlgorithm g1 /\
  GM.originalArray g3 = GM.originalArray g1 /\
  GM.steps g3 = GM.steps g1.
Proof.
  cbv zeta. unfold GM.advanceToNextUserAction.
  set (g2 := GM.advance _ g1).
  assert (H : GM.currentAlgorithm g2 = GM.currentAlgorithm g1 /\
              GM.originalArray g2 = GM.originalArray g1 /\
              GM.steps g2 = GM.steps g1).
  { unfold g2. rewrite advance_fields. cbn. auto. }
  destruct (GM.currentStepIndex g2 >=? len (GM.steps g2)); [|exact H].
  cbn [GM.completeGame GM.currentAlgorithm GM.originalArray GM.steps]. exact H.
Qed.

Lemma processMove_session_ok now action g r g' :
  session_ok g -> GM.processMove now action g = Some (r, g') -> session_ok g'.
Proof.
  intros Hok. pose proof Hok as (e & He & Hw). unfold GM.processMove.
  destruct (negb (GM.isGameActive g) || GM.isGameComplete g); [intros [= _ <-]; exact Hok|].
  destruct (js_get (GM.steps g) (GM.currentStepIndex g)) as [step|];
    [|intros [= _ <-]; exact Hok].
  destruct (negb (isUserAction step)); [intros [= _ <-]; exact Hok|].
  rewrite He.
  pose proof (validateMove_steps e (GM.steps g) _ (GM.currentStepIndex g) action Hw) as Hst.
  destruct (validateMove e (GM.steps g) (GM.currentStepIndex g) action)
    as [validation steps'].
  cbn [snd] in Hst. subst steps'.
  destruct (valid validation); cbv zeta; intros [= _ <-].
  - match goal with |- session_ok (if _ >=? _ then GM.completeGame now (GM.advanceToNextUserAction ?g1) else _) =>
      destruct (move_on_same now g1) as (H1 & H2 & H3) end.
    cbv zeta in H1, H2, H3.
    eapply session_ok_same; [exact H1|exact H2|exact H3|].
    exists e. split; [reflexivity|exact Hw].
  - exists e. split; [reflexivity|exact Hw].
Qed.

Lemma skipStep_session_ok now g : session_ok g -> session_ok (snd (GM.skipStep now g)).
Proof.
  intros Hok. unfold GM.skipStep.
  destruct (negb (GM.isGameActive g) || GM.isGameComplete g); [exact Hok|].
  cbv zeta. cbn [snd].
  match goal with |- session_ok (if _ >=? _ then GM.completeGame now (GM.advanceToNextUserAction ?g1) else _) =>
    destruct (move_on_same now g1) as (H1 & H2 & H3) end.
  cbv zeta in H1, H2, H3.
  eapply session_ok_same; [exact H1|exact H2|exact H3|].
  destruct Hok as (e & He & Hw). exists e. split; [exact He|exact Hw].
Qed.

(** Every session of the program is well formed. *)
Lemma reachable_session_ok g : reachable g -> session_ok g.
Proof.
  induction 1 as [e d it generated now g H|now action g r g' _ IH H|now g _ IH].
  - exact (proj1 (startGame_ok _ _ _ _ _ _ H)).
  - eapply processMove_session_ok; eauto.
  - now apply skipStep_session_ok.
Qed.

(** ** The two defects, on every trace and session *)

(** On every merge trace, [validateMove] at a user-action step accepts the
    value that the cell of the step holds before the placement. *)
Lemma merge_validateMove_accepts_cell_before input :
  exists t, generateSteps merge input = Some t /\
    forall k s, js_get t k = Some s -> isUserAction s = true ->
      exists p, type s = SELECT /\ indices s = [p] /\
        forall ty idx v,
          valid (fst (validateMove merge t k (mkAction ty idx v))) = true <->
          (ty = "select" /\ strict_eq v (js_get (arrayState s) p) = true).
Proof.
  destruct (generateSteps_ok merge input) as (t & E & final & (_ & Hw & _) & _).
  exists t. split; [auto|]. simpl in Hw.
  intros k s Ek Eu.
  destruct (proj1 (Forall_forall _ _) Hw s (js_get_In _ _ _ Ek)) as (Hv & _ & H3 & H4).
  destruct (H4 Eu) as [Hty|(_ & Hty & p & Ei & Hp)].
  { destruct (H3 Hty) as (Hf & _). discriminate. }
  exists p. split; [auto|]. split; [auto|]. intros ty idx v.
  simpl. unfold validateSelectMove. rewrite Ek, Eu. cbn [negb atype avalue].
  rewrite Hv, Ei. cbn [map].
  destruct (String.eqb_spec ty "select") as [->|Hne]; cbn [negb].
  - destruct (strict_eq v (js_get (arrayState s) p)); cbn [fst valid]; split; auto.
    intros (_ & H); discriminate.
  - cbn [fst valid]. split; [discriminate|]. intros (H & _); contradiction.
Qed.

(** [skipStep] at a user-action step that another user-action step follows
    leaves the snapshot of the skipped step, the array before its event, as
    the array of the session. *)
Lemma skipStep_keeps_snapshot now g s s' :
  active g ->
  js_get (GM.steps g) (GM.currentStepIndex g) = Some s -> isUserAction s = true ->
  js_get (GM.steps g) (GM.currentStepIndex g + 1) = Some s' -> isUserAction s' = true ->
  GM.currentArray (snd (GM.skipStep now g)) = map Some (arrayState s) /\
  GM.currentStepIndex (snd (GM.skipStep now g)) = GM.currentStepIndex g + 1.
Proof.
  intros (Ha & Hc) Ek Eu Ek' Eu'. unfold GM.skipStep. rewrite Ha, Hc, Ek, Eu.
  cbn [negb orb]. cbv zeta. unfold GM.advanceToNextUserAction.
  pose proof (js_get_Some _ _ _ Ek') as Hin.
  cbn [GM.with_cursor GM.steps GM.currentStepIndex].
  destruct (Z.to_nat (len (GM.steps g) - (GM.currentStepIndex g + 1))) as [|c] eqn:Ec; [lia|].
  cbn [GM.advance GM.with_cursor GM.steps GM.currentStepIndex].
  destruct (Z.ltb_spec (GM.currentStepIndex g + 1) (len (GM.steps g))); [|lia].
  rewrite Ek', Eu'.
  unfold GM.with_cursor. cbn [GM.steps GM.currentStepIndex].
  destruct (Z.geb_spec (GM.currentStepIndex g + 1) (len (GM.steps g))); [lia|].
  cbn [snd GM.currentArray GM.currentStepIndex]. split; reflexivity.
Qed.

(** ** The session between the calls *)

(** Where [advanceToNextUserAction] stops, and with which array. *)
Lemma advance_rest : forall cnt g,
  0 <= GM.currentStepIndex g ->
  let g' := GM.advance cnt g in
  (GM.currentStepIndex g' = GM.currentStepIndex g /\
   GM.currentArray g' = GM.currentArray g \/
   GM.currentStepIndex g < GM.currentStepIndex g' /\
   exists s, js_get (GM.steps g) (GM.currentStepIndex g' - 1) = Some s /\
             isUserAction s = false /\ GM.currentArray g' = map Some (arrayState s)) /\
  GM.currentStepIndex g' <= Z.max (GM.currentStepIndex g) (len (GM.steps g)) /\
  (len (GM.steps g) - GM.currentStepIndex g <= Z.of_nat cnt ->
   forall s, js_get (GM.steps g) (GM.currentStepIndex g') = Some s ->
             isUserAction s = true).
Proof.
  induction cnt as [|cnt IH]; intros g H0; cbv zeta; cbn [GM.advance].
  - split; [left; split; reflexivity|]. split; [lia|].
    intros Hc s Hs. apply js_get_Some in Hs. lia.
  - destruct (Z.ltb_spec (GM.currentStepIndex g) (len (GM.steps g))) as [Hlt|Hge].
    2:{ split; [left; split; reflexivity|]. split; [lia|].
        intros _ s Hs. apply js_get_Some in Hs. lia. }
    destruct (js_get (GM.steps g) (GM.currentStepIndex g)) as [step|] eqn:Ek.
    2:{ split; [left; split; reflexivity|]. split; [lia|].
        intros _ s Hs. congruence. }
    destruct (isUserAction step) eqn:Eu.
    { split; [left; split; reflexivity|]. split; [lia|].
      intros _ s Hs. congruence. }
    specialize (IH (GM.with_cursor g (map Some (arrayState step)) (GM.currentStepIndex g + 1))).
    cbv zeta in IH. cbn [GM.with_cursor GM.steps GM.currentStepIndex GM.currentArray] in IH.
    destruct IH as (IH1 & IH2 & IH3); [lia|].
    split; [|split].
    + right. destruct IH1 as [(E1 & E2)|(Hlt' & s & Hs & Hu & Ea)].
      * split; [lia|]. exists step. rewrite E1, E2.
        replace (GM.currentStepIndex g + 1 - 1) with (GM.currentStepIndex g) by lia.
        auto.
      * split; [lia|]. exists s. auto.
    + lia.
    + intros Hc. apply IH3. lia.
Qed.

(** A user-action step is never the last step of a trace. *)
Lemma user_step_has_next sel input t k s :
  engine_post sel input t -> js_get t k = Some s -> isUserAction s = true ->
  k + 1 < len t.
Proof.
  intros (final & _ & _ & _ & HQ) Ek Eu.
  pose proof (js_get_Some _ _ _ Ek) as Hk.
  destruct (Z.eq_dec (k + 1) (len t)) as [E|]; [|lia].
  apply js_get_nth_error in Ek.
  destruct (nth_error_last t (Z.to_nat k) s Ek) as (t' & Et).
  { apply nth_error_None. unfold len in E. lia. }
  destruct (HQ t' s Et) as (_ & H). congruence.
Qed.

(** The snapshot of the last step is the input in ascending order. *)
Lemma last_snapshot_sorted e input t s :
  engine_post (is_merge e) input t -> js_get t (len t - 1) = Some s ->
  is_sort_of input (arrayState s).
Proof.
  intros H Ek. destruct (engine_post_final e input t H) as (final & HT & Hs & HQ).
  pose proof (js_get_Some _ _ _ Ek) as Hk.
  apply js_get_nth_error in Ek.
  destruct (nth_error_last t (Z.to_nat (len t - 1)) s Ek) as (t' & Et).
  { apply nth_error_None. unfold len in *. lia. }
  destruct (HQ t' s Et) as (Hty & Hu).
  destruct HT as (_ & _ & Hl). cbn [arr steps] in Hl. rewrite Et in Hl.
  now rewrite (linked_last _ _ _ _ Hl Hty Hu).
Qed.

(** A trace without steps comes from an input in ascending order. *)
Lemma empty_trace_sorted e input :
  engine_post (is_merge e) input [] -> is_sort_of input input.
Proof.
  intros H. destruct (engine_post_final e input [] H) as (final & HT & Hs & _).
  destruct HT as (_ & _ & Hl). cbn [arr steps linked] in Hl. now subst final.
Qed.

(** The cursor comes to rest on a user-action step, or past the last step
    with the array in ascending order. *)
Lemma advanceToNextUserAction_rest e g1 :
  GM.currentAlgorithm g1 = Some e ->
  generateSteps e (GM.originalArray g1) = Some (GM.steps g1) ->
  0 <= GM.currentStepIndex g1 ->
  (len (GM.steps g1) <= GM.currentStepIndex g1 ->
     sorted_numbers (GM.originalArray g1) (GM.currentArray g1)) ->
  let g2 := GM.advanceToNextUserAction g1 in
  g2 = GM.with_cursor g1 (GM.currentArray g2) (GM.currentStepIndex g2) /\
  GM.currentStepIndex g1 <= GM.currentStepIndex g2 /\
  (forall s, js_get (GM.steps g1) (GM.currentStepIndex g2) = Some s ->
             isUserAction s = true) /\
  (len (GM.steps g1) <= GM.currentStepIndex g2 ->
     sorted_numbers (GM.originalArray g1) (GM.currentArray g2)).
Proof.
  intros He Ht H0 Hs. cbv zeta. unfold GM.advanceToNextUserAction.
  set (cnt := Z.to_nat (len (GM.steps g1) - GM.currentStepIndex g1)).
  destruct (advance_rest cnt g1 H0) as (H1 & H2 & H3). cbv zeta in H1, H2, H3.
  split; [apply advance_fields|].
  split; [destruct H1 as [(E & _)|(Hlt & _)]; lia|].
  split; [apply H3; unfold cnt; lia|].
  intros Hend.
  destruct H1 as [(E1 & E2)|(Hlt & s & Ek & Eu & Ea)].
  - rewrite E2. apply Hs. lia.
  - rewrite Ea. exists (arrayState s). split; [reflexivity|].
    destruct (generateSteps_ok e (GM.originalArray g1)) as (t & E & Hpost).
    rewrite Ht in E. injection E as <-.
    apply (last_snapshot_sorted e _ _ _ Hpost).
    replace (len (GM.steps g1) - 1) with (GM.currentStepIndex (GM.advance cnt g1) - 1) by lia.
    exact Ek.
Qed.

(** The end of a move establishes what holds between the calls. *)
Lemma move_on_inv now g1 :
  (exists e, GM.currentAlgorithm g1 = Some e /\
             generateSteps e (GM.originalArray g1) = Some (GM.steps g1)) ->
  GM.isGameActive g1 = true -> GM.isGameComplete g1 = false ->
  0 <= GM.currentStepIndex g1 ->
  (len (GM.steps g1) <= GM.currentStepIndex g1 ->
     sorted_numbers (GM.originalArray g1) (GM.currentArray g1)) ->
  0 <= GM.score g1 -> 0 <= GM.incorrectMoves g1 ->
  0 <= GM.streak g1 <= GM.maxStreak g1 -> GM.maxStreak g1 <= GM.correctMoves g1 ->
  session_inv (move_on now g1).
Proof.
  intros (e & He & Ht) Ha Hc H0 Hs Hsc Hi Hst Hm.
  destruct (advanceToNextUserAction_rest e g1 He Ht H0 Hs) as (E & Hle & Hu & Hs').
  cbv zeta in E, Hle, Hu, Hs'. unfold move_on. cbv zeta.
  set (g2 := GM.advanceToNextUserAction g1) in *.
  assert (F : GM.currentAlgorithm g2 = GM.currentAlgorithm g1 /\
              GM.originalArray g2 = GM.originalArray g1 /\
              GM.steps g2 = GM.steps g1 /\ GM.score g2 = GM.score g1 /\
              GM.correctMoves g2 = GM.correctMoves g1 /\
              GM.incorrectMoves g2 = GM.incorrectMoves g1 /\
              GM.streak g2 = GM.streak g1 /\ GM.maxStreak g2 = GM.maxStreak g1 /\
              GM.isGameActive g2 = GM.isGameActive g1 /\
              GM.isGameComplete g2 = GM.isGameComplete g1).
  { rewrite E. cbn. repeat split. }
  destruct F as (F1 & F2 & F3 & F4 & F5 & F6 & F7 & F8 & F9 & F10).
  destruct (Z.geb_spec (GM.currentStepIndex g2) (len (GM.steps g2))) as [Hend|Hin].
  - pose proof (completeGame_score now g2) as Hcs.
    unfold session_inv.
    cbn [GM.completeGame GM.currentAlgorithm GM.originalArray GM.steps
         GM.isGameActive GM.isGameComplete GM.currentStepIndex GM.currentArray
         GM.incorrectMoves GM.streak GM.maxStreak GM.correctMoves negb].
    rewrite F1, F2, F3, F5, F6, F7, F8 in *.
    split; [eauto|]. split; [reflexivity|]. split; [lia|]. split; [exact Hu|].
    split; [exact Hs'|]. split; [intros _; lia|].
    split; [lia|]. split; [lia|]. split; lia.
  - unfold session_inv. rewrite F1, F2, F3, F4, F5, F6, F7, F8, F9, F10 in *.
    rewrite Ha, Hc. split; [eauto|]. split; [reflexivity|]. split; [lia|].
    split; [exact Hu|]. split; [exact Hs'|]. split; [discriminate|].
    split; [lia|]. split; [lia|]. split; lia.
Qed.

(** The three outcomes of [processMove]: refused, counted as incorrect, or
    counted as correct, applied, and the cursor moved on. *)
Lemma processMove_outcome now action g r g' :
  (exists e n, GM.currentAlgorithm g = Some e /\
               Forall (wf_step (is_merge e) n) (GM.steps g)) ->
  GM.processMove now action g = Some (r, g') ->
  (GM.success r = false /\ g' = g) \/
  (GM.isGameActive g = true /\ GM.isGameComplete g = false /\ at_user_step g /\
   ((GM.rvalid r = Some false /\ verdict g action false /\ g' = after_incorrect g) \/
    (GM.rvalid r = Some true /\ verdict g action true /\
     g' = move_on now (after_correct g (GM.applyAction action (GM.currentArray g)))))).
Proof.
  intros (e & n & He & Hw). unfold GM.processMove.
  destruct (negb (GM.isGameActive g) || GM.isGameComplete g) eqn:Hact;
    [intros [= <- <-]; left; split; reflexivity|].
  apply orb_false_elim in Hact. destruct Hact as (Ha & Hc).
  apply negb_false_iff in Ha.
  destruct (js_get (GM.steps g) (GM.currentStepIndex g)) as [step|] eqn:Ek;
    [|intros [= <- <-]; left; split; reflexivity].
  destruct (isUserAction step) eqn:Eu; cbn [negb];
    [|intros [= <- <-]; left; split; reflexivity].
  rewrite He.
  pose proof (validateMove_steps e (GM.steps g) _ (GM.currentStepIndex g) action Hw) as Hst.
  destruct (validateMove e (GM.steps g) (GM.currentStepIndex g) action)
    as [validation steps'] eqn:EV.
  cbn [snd] in Hst. subst steps'.
  assert (Hver : forall b, valid validation = b -> verdict g action b).
  { intros b Hb. exists e. split; [exact He|]. rewrite EV. exact Hb. }
  assert (Hu : at_user_step g) by (exists step; auto).
  destruct (valid validation) eqn:Ev.
  - cbv zeta. intros [= <- <-]. right. split; [exact Ha|]. split; [exact Hc|].
    split; [exact Hu|]. right. split; [reflexivity|]. split; [apply Hver; reflexivity|].
    unfold move_on, after_correct. cbv zeta. rewrite He, Ha, Hc. reflexivity.
  - cbv zeta. intros [= <- <-]. right. split; [exact Ha|]. split; [exact Hc|].
    split; [exact Hu|]. left. split; [reflexivity|]. split; [apply Hver; reflexivity|].
    unfold after_incorrect. rewrite He, Ha, Hc. reflexivity.
Qed.

(** The points of a correct move are positive. *)
Lemma correct_points_pos (d : Difficulty) (streak' : Z) :
  0 < Math_round (inject_Z (100 + (if streak' >=? 5 then 50 else 0)) * GM.bonus d)%Q.
Proof. destruct d, (streak' >=? 5); vm_compute; reflexivity. Qed.

(** The trace that a session plays is well formed. *)
Lemma session_inv_wf g :
  session_inv g ->
  exists e n, GM.currentAlgorithm g = Some e /\
              Forall (wf_step (is_merge e) n) (GM.steps g).
Proof.
  intros ((e & He & Ht) & _).
  destruct (generateSteps_ok e (GM.originalArray g)) as (t & E & final & (_ & Hw & _) & _).
  rewrite Ht in E. injection E as <-. cbn [arr steps] in Hw. eauto.
Qed.

Lemma startGame_inv e d it generated now g :
  GM.startGame e d it generated now = Some g -> session_inv g.
Proof.
  unfold GM.startGame.
  destruct (generateSteps e generated) as [t|] eqn:Et; [|discriminate].
  intros [= <-].
  match goal with |- context [GM.advanceToNextUserAction ?g0] =>
    destruct (advanceToNextUserAction_rest e g0) as (E & Hle & Hu & Hs);
      [reflexivity|exact Et|cbn; lia| | set (g2 := GM.advanceToNextUserAction g0) in * ] end.
  { cbn [GM.steps GM.currentStepIndex GM.originalArray GM.currentArray].
    intros Hlen. pose proof (len_nonneg t).
    destruct (generateSteps_ok e generated) as (t' & E' & Hpost).
    rewrite Et in E'. injection E' as <-.
    destruct t as [|x t]; [|unfold len in Hlen; simpl in Hlen; lia].
    exists generated. split; [reflexivity|]. eapply empty_trace_sorted; eauto. }
  cbv zeta in E, Hle, Hu, Hs.
  cbn [GM.steps GM.currentStepIndex GM.originalArray GM.currentArray] in Hle, Hu, Hs.
  unfold session_inv.
  cbn [GM.currentAlgorithm GM.originalArray GM.steps GM.isGameActive
       GM.isGameComplete GM.currentStepIndex GM.currentArray GM.score
       GM.incorrectMoves GM.streak GM.maxStreak GM.correctMoves negb].
  rewrite E.
  cbn [GM.with_cursor GM.currentAlgorithm GM.originalArray GM.steps GM.isGameActive
       GM.isGameComplete GM.currentStepIndex GM.currentArray GM.score
       GM.incorrectMoves GM.streak GM.maxStreak GM.correctMoves].
  split; [eauto|]. split; [reflexivity|]. split; [exact Hle|]. split; [exact Hu|].
  split; [exact Hs|]. split; [discriminate|]. lia.
Qed.

Lemma processMove_inv now action g r g' :
  session_inv g -> GM.processMove now action g = Some (r, g') -> session_inv g'.
Proof.
  intros Hinv H.
  destruct (processMove_outcome now action g r g' (session_inv_wf g Hinv) H)
    as [(_ & ->)|(Ha & Hc & (step & Ek & Eu) & [(_ & _ & ->)|(_ & _ & ->)])];
    [exact Hinv| |].
  - destruct Hinv as (Hp & Hf & H0 & Hu & Hs & Hd & Hsc & Hi & Hst & Hm).
    unfold session_inv, after_incorrect.
    cbn [GM.currentAlgorithm GM.originalArray GM.steps GM.isGameActive
         GM.isGameComplete GM.currentStepIndex GM.currentArray GM.score
         GM.incorrectMoves GM.streak GM.maxStreak GM.correctMoves].
    repeat (split; [first [assumption|lia]|]). lia.
  - destruct Hinv as ((e & He & Ht) & Hf & H0 & Hu & Hs & Hd & Hsc & Hi & Hst & Hm).
    apply move_on_inv; unfold after_correct;
      cbn [GM.currentAlgorithm GM.originalArray GM.steps GM.isGameActive
           GM.isGameComplete GM.currentStepIndex GM.currentArray GM.score
           GM.incorrectMoves GM.streak GM.maxStreak GM.correctMoves];
      try assumption; try lia.
    + eauto.
    + intros Hend.
      destruct (generateSteps_ok e (GM.originalArray g)) as (t & E & Hpost).
      rewrite Ht in E. injection E as <-.
      pose proof (user_step_has_next _ _ _ _ _ Hpost Ek Eu). lia.
    + pose proof (correct_points_pos (GM.difficulty g) (GM.streak g + 1)). lia.
Qed.

Lemma skipStep_inv now g : session_inv g -> session_inv (snd (GM.skipStep now g)).
Proof.
  intros Hinv. unfold GM.skipStep.
  destruct (negb (GM.isGameActive g) || GM.isGameComplete g) eqn:Hact; [exact Hinv|].
  apply orb_false_elim in Hact. destruct Hact as (Ha & Hc).
  apply negb_false_iff in Ha.
  cbv zeta. cbn [snd]. fold (move_on now
    (GM.with_cursor g
       match js_get (GM.steps g) (GM.currentStepIndex g) with
       | Some currentStep =>
           if isUserAction currentStep then map Some (arrayState currentStep)
           else GM.currentArray g
       | None => GM.currentArray g
       end (GM.currentStepIndex g + 1))).
  destruct Hinv as ((e & He & Ht) & Hf & H0 & Hu & Hs & Hd & Hsc & Hi & Hst & Hm).
  apply move_on_inv;
    cbn [GM.with_cursor GM.currentAlgorithm GM.originalArray GM.steps GM.isGameActive
         GM.isGameComplete GM.currentStepIndex GM.currentArray GM.score
         GM.incorrectMoves GM.streak GM.maxStreak GM.correctMoves];
    try assumption; try lia.
  - eauto.
  - intros Hend.
    destruct (js_get (GM.steps g) (GM.currentStepIndex g)) as [step|] eqn:Ek.
    + destruct (generateSteps_ok e (GM.originalArray g)) as (t & E & Hpost).
      rewrite Ht in E. injection E as <-.
      pose proof (user_step_has_next _ _ _ _ _ Hpost Ek (Hu _ eq_refl)). lia.
    + apply Hs. destruct (Z.le_gt_cases (len (GM.steps g)) (GM.currentStepIndex g)); [auto|].
      exfalso. unfold js_get in Ek.
      destruct (Z.ltb_spec (GM.currentStepIndex g) 0); [lia|].
      apply nth_error_None in Ek. unfold len in *. lia.
Qed.

(** What holds between the calls holds of every session of the program. *)
Lemma reachable_inv g : reachable g -> session_inv g.
Proof.
  induction 1 as [e d it generated now g H|now action g r g' _ IH H|now g _ IH].
  - eapply startGame_inv; eauto.
  - eapply processMove_inv; eauto.
  - now apply skipStep_inv.
Qed.

Lemma played_reachable g : played g -> reachable g.
Proof.
  induction 1 as [e d it generated now g H|now i j g r g' _ IH H].
  - eapply reach_start; eauto.
  - eapply reach_move; eauto.
Qed.

(** In the trace of a swap engine, a step that is no user action is
    followed by an equal snapshot. *)
Lemma quiet_step_next e input t k s s' :
  is_merge e = false -> engine_post (is_merge e) input t ->
  js_get t (k - 1) = Some s -> isUserAction s = false -> js_get t k = Some s' ->
  arrayState s' = arrayState s.
Proof.
  intros Hm (final & (_ & Hw & Hl) & _) Ek Eu Ek'. cbn [arr steps] in *.
  pose proof (js_get_Some _ _ _ Ek) as Hk.
  apply js_get_nth_error in Ek. apply js_get_nth_error in Ek'.
  replace (Z.to_nat k) with (S (Z.to_nat (k - 1))) in Ek' by lia.
  pose proof (linked_next _ _ _ _ _ _ Hl Ek Ek') as He.
  pose proof (proj1 (Forall_forall _ _) Hw s (nth_error_In _ _ Ek)) as Hs.
  destruct (effect_cases _ _ _ _ _ Hs He) as (_ & _ & H3).
  apply H3; [|exact Eu].
  intros Hty. destruct Hs as (_ & _ & H & _). destruct (H Hty) as (_ & Hu' & _). congruence.
Qed.

(** If the array is the snapshot under the cursor, it still is after the
    cursor has moved on. *)
Lemma move_on_shows now e g1 :
  is_merge e = false -> GM.currentAlgorithm g1 = Some e ->
  generateSteps e (GM.originalArray g1) = Some (GM.steps g1) ->
  0 <= GM.currentStepIndex g1 -> shows_snapshot g1 ->
  shows_snapshot (GM.advanceToNextUserAction g1) /\ shows_snapshot (move_on now g1).
Proof.
  intros Hm He Ht H0 Hsh.
  assert (Hadv : shows_snapshot (GM.advanceToNextUserAction g1)).
  { unfold GM.advanceToNextUserAction.
    set (cnt := Z.to_nat (len (GM.steps g1) - GM.currentStepIndex g1)).
    destruct (advance_rest cnt g1 H0) as (H1 & _). cbv zeta in H1.
    rewrite (advance_fields cnt g1). unfold shows_snapshot.
    cbn [GM.with_cursor GM.steps GM.currentStepIndex GM.currentArray].
    intros s' Ek'.
    destruct H1 as [(E1 & E2)|(Hlt & s & Ek & Eu & Ea)].
    - rewrite E2. apply Hsh. now rewrite <- E1.
    - rewrite Ea. f_equal. symmetry.
      destruct (generateSteps_ok e (GM.originalArray g1)) as (t & E & Hpost).
      rewrite Ht in E. injection E as <-.
      eapply quiet_step_next; eauto. }
  split; [exact Hadv|].
  unfold move_on. cbv zeta.
  destruct (_ >=? _); [|exact Hadv].
  exact Hadv.
Qed.

Lemma exchange_zswap (a : list Z) i j :
  0 <= i < len a -> 0 <= j < len a -> GM.exchange a i j = Some (zswap a i j).
Proof.
  intros Hi Hj. unfold GM.exchange. rewrite !js_get_in by auto. reflexivity.
Qed.

Lemma upd_map {A B} (f : A -> B) (a : list A) k v :
  upd (map f a) k (f v) = map f (upd a k v).
Proof.
  revert k; induction a as [|x a IH]; intros [|k]; cbn; auto. now rewrite IH.
Qed.

Lemma readCell_numbers (a : list Z) i :
  0 <= i < len a -> GM.readCell (map Some a) (Some i) = Some (zget a i).
Proof.
  intros Hi. unfold GM.readCell, js_get.
  destruct (Z.ltb_spec i 0); [lia|].
  rewrite nth_error_map. pose proof (js_get_in a i Hi) as E. unfold js_get in E.
  destruct (Z.ltb_spec i 0); [lia|]. now rewrite E.
Qed.

Lemma writeCell_numbers (a : list Z) i v :
  0 <= i < len a -> GM.writeCell (map Some a) (Some i) (Some v) = map Some (zset a i v).
Proof.
  intros Hi. unfold GM.writeCell. rewrite len_numbers.
  destruct (Z.ltb_spec i 0); [lia|]. destruct (Z.ltb_spec i (len a)); [|lia].
  apply upd_map.
Qed.

Lemma exchangeCells_zswap (a : list Z) i j :
  0 <= i < len a -> 0 <= j < len a ->
  GM.exchangeCells (map Some a) (Some i) (Some j) = map Some (zswap a i j).
Proof.
  intros Hi Hj. unfold GM.exchangeCells. cbv zeta.
  rewrite !readCell_numbers by auto.
  rewrite writeCell_numbers by auto.
  rewrite writeCell_numbers by (rewrite len_zset; auto). reflexivity.
Qed.

Lemma zswap_comm a i j :
  0 <= i < len a -> 0 <= j < len a -> zswap a i j = zswap a j i.
Proof.
  intros Hi Hj. apply zget_ext.
  - now rewrite !len_zswap.
  - rewrite len_zswap. intros k Hk. rewrite !zget_zswap by lia.
    destruct (Z.eqb_spec k i), (Z.eqb_spec k j); subst; auto.
Qed.

(** In a game played by moves alone, the array of a swap engine's session
    is the snapshot of the step under the cursor.  *)
Lemma played_shows g :
  played g -> forall e, GM.currentAlgorithm g = Some e -> is_merge e = false ->
  shows_snapshot g.
Proof.
  induction 1 as [e0 d it generated now g H|now i j g r g' Hp IH H]; intros e He Hm.
  - pose proof (startGame_inv _ _ _ _ _ _ H) as Hinv.
    revert He H. unfold GM.startGame.
    destruct (generateSteps e0 generated) as [t|] eqn:Et; [|discriminate].
    intros He [= <-]. cbn [GM.currentAlgorithm] in He.
    match type of He with context [GM.advanceToNextUserAction ?g0] =>
      destruct (move_on_shows 0 e0 g0) as (Hsh & _);
        [ | reflexivity | exact Et | cbn; lia | | ] end.
    + unfold GM.advanceToNextUserAction in He. rewrite advance_fields in He.
      cbn in He. congruence.
    + unfold shows_snapshot. cbn [GM.steps GM.currentStepIndex GM.currentArray].
      intros s Ek.
      destruct (generateSteps_ok e0 generated) as (t' & E' & final & (_ & _ & Hl) & _).
      rewrite Et in E'. injection E' as <-. cbn [arr steps] in Hl.
      f_equal. symmetry. eapply linked_head; [exact Hl|]. now apply js_get_nth_error in Ek.
    + unfold shows_snapshot in *.
      cbn [GM.steps GM.currentStepIndex GM.currentArray]. exact Hsh.
  - pose proof (reachable_inv g (played_reachable g Hp)) as Hinv.
    unfold attemptSwap in H.
    destruct (processMove_outcome _ _ g r g' (session_inv_wf g Hinv) H)
      as [(_ & ->)|(Ha & Hc & (step & Ek & Eu) &
                    [(_ & _ & ->)|(_ & (e1 & He1 & Hv) & ->)])].
    all: try set (array' := GM.applyAction _ (GM.currentArray g)) in *.
    + apply (IH e); auto.
    + unfold shows_snapshot, after_incorrect.
      cbn [GM.steps GM.currentStepIndex GM.currentArray]. apply (IH e); auto.
    + destruct Hinv as ((e2 & He2 & Ht) & _ & H0 & _).
      assert (e2 = e1) by congruence. subst e2.
      assert (Ee : GM.currentAlgorithm (move_on now (after_correct g array')) = Some e1).
      { unfold move_on. cbv zeta. unfold GM.advanceToNextUserAction.
        rewrite advance_fields. destruct (_ >=? _); cbn; exact He1. }
      rewrite Ee in He. injection He as <-.
      destruct (generateSteps_ok e1 (GM.originalArray g)) as (t & E & Hpost).
      rewrite Ht in E. injection E as <-.
      apply (move_on_shows now e1 (after_correct g array')); auto.
      { cbn. lia. }
      unfold shows_snapshot, after_correct.
      cbn [GM.steps GM.currentStepIndex GM.currentArray].
      intros s' Ek'.
      pose proof Hpost as (final & (_ & Hw & Hl) & _). cbn [arr steps] in Hw, Hl.
      pose proof (proj1 (Forall_forall _ _) Hw step (js_get_In _ _ _ Ek)) as Hstep.
      pose proof Hstep as (_ & Hlen & H3 & H4). rewrite Hm in *.
      destruct (H4 Eu) as [Hty|(Hx & _)]; [|discriminate].
      destruct (H3 Hty) as (_ & _ & p & q & Ei & Hp' & Hq).
      assert (Hpair : "swap" = "swap" /\ ((i = p /\ j = q) \/ (i = q /\ j = p))).
      { destruct e1; try discriminate; simpl in Hv;
          exact (proj1 (validateSwapMove_pair _ _ _ _ _ p q "swap" i j None
                         Ek Eu Ei (proj2 Hp')) Hv). }
      pose proof (js_get_Some _ _ _ Ek) as Hk.
      apply js_get_nth_error in Ek. apply js_get_nth_error in Ek'.
      replace (Z.to_nat (GM.currentStepIndex g + 1))
        with (S (Z.to_nat (GM.currentStepIndex g))) in Ek' by lia.
      pose proof (linked_next _ _ _ _ _ _ Hl Ek Ek') as Heff.
      destruct (effect_cases _ _ _ _ _ Hstep Heff) as (Hsw & _).
      destruct (Hsw Hty) as (p' & q' & Ei' & Es').
      rewrite Ei in Ei'. injection Ei' as <- <-.
      assert (Hcur : GM.currentArray g = map Some (arrayState step)).
      { apply (IH e1 He1 Hm). unfold js_get.
        destruct (Z.ltb_spec (GM.currentStepIndex g) 0); [lia|exact Ek]. }
      subst array'. unfold GM.applyAction.
      cbn [atype aindices nth_error].
      rewrite String.eqb_refl, Hcur, Es'.
      destruct Hpair as (_ & [(-> & ->)|(-> & ->)]).
      * now rewrite exchangeCells_zswap by lia.
      * rewrite exchangeCells_zswap by lia. now rewrite (zswap_comm _ p q) by lia.
Qed.

(** No move that the interface sends is counted as correct in a game of
    merge sort. *)
Lemma played_merge g :
  played g -> GM.currentAlgorithm g = Some merge ->
  GM.correctMoves g = 0 /\ GM.score g = 0 /\ GM.streak g = 0 /\
  GM.isGameActive g = true /\ GM.isGameComplete g = false.
Proof.
  induction 1 as [e0 d it generated now g H|now i j g r g' Hp IH H]; intros He.
  - revert He H. unfold GM.startGame.
    destruct (generateSteps e0 generated) as [t|] eqn:Et; [|discriminate].
    intros He [= <-].
    cbn [GM.correctMoves GM.score GM.streak GM.isGameActive GM.isGameComplete].
    unfold GM.advanceToNextUserAction. rewrite advance_fields.
    cbn [GM.with_cursor GM.correctMoves GM.score GM.streak]. repeat split.
  - pose proof (reachable_inv g (played_reachable g Hp)) as Hinv.
    unfold attemptSwap in H.
    destruct (processMove_outcome _ _ g r g' (session_inv_wf g Hinv) H)
      as [(_ & ->)|(Ha & Hc & (step & Ek & Eu) &
                    [(_ & _ & ->)|(_ & (e1 & He1 & Hv) & ->)])].
    all: try set (array' := GM.applyAction _ (GM.currentArray g)) in *.
    + auto.
    + unfold after_incorrect in *. cbn in *.
      destruct (IH He) as (H1 & H2 & H3 & H4 & H5). rewrite H2. repeat split; auto.
    + exfalso.
      assert (Ee : GM.currentAlgorithm (move_on now (after_correct g array')) = Some e1).
      { unfold move_on. cbv zeta. unfold GM.advanceToNextUserAction.
        rewrite advance_fields. destruct (_ >=? _); cbn; exact He1. }
      rewrite Ee in He. injection He as ->.
      simpl in Hv. unfold validateSelectMove in Hv. rewrite Ek, Eu in Hv.
      discriminate.
Qed.

Lemma played_play now : forall moves g g',
  played g -> play now moves g = Some g' -> played g'.
Proof.
  induction moves as [|[i j] rest IH]; intros g g' Hp; cbn [play].
  - now intros [= <-].
  - destruct (attemptSwap now i j g) as [[r g1]|] eqn:E; [|discriminate].
    apply IH. eapply played_move; eauto.
Qed.

Lemma demo_session_played : played demo_session.
Proof. eapply played_start. exact demo_session_started. Qed.

Lemma won_session_played : played won_session.
Proof.
  apply (played_play 1000 (expected_swaps (GM.steps demo_session)) demo_session);
    [exact demo_session_played|vm_compute; reflexivity].
Qed.

Lemma midgame_session_played : played midgame_session.
Proof.
  apply (played_play 1000 [(1, 2); (0, 4); (1, 0); (1, 3)] demo_session);
    [exact demo_session_played|vm_compute; reflexivity].
Qed.

Lemma merge_session_played : played merge_session.
Proof.
  destruct (GM.startGame merge easy GM.reversed [50; 40; 30; 20; 10] 0) as [g|] eqn:E;
    [|vm_compute in E; discriminate].
  apply (played_play 1000 [(0, 1); (3, 4)] g).
  - eapply played_start. exact E.
  - vm_compute in E. injection E as <-. vm_compute. reflexivity.
Qed.

(** The score and the count of incorrect moves of a session are never
    negative, and the streak is at most the longest streak, which is at
    most the count of correct moves. *)
Theorem session_score_and_counters (g : GM.t) :
  reachable g ->
  0 <= GM.score g /\ 0 <= GM.incorrectMoves g /\
  0 <= GM.streak g <= GM.maxStreak g /\ GM.maxStreak g <= GM.correctMoves g.
Proof.
  intros H. destruct (reachable_inv g H) as (_ & _ & _ & _ & _ & _ & H1 & H2 & H3 & H4).
  auto.
Qed.

Lemma session_score_and_counters_witness :
  0 <= GM.score midgame_session /\ 0 <= GM.incorrectMoves midgame_session /\
  0 <= GM.streak midgame_session <= GM.maxStreak midgame_session /\
  GM.maxStreak midgame_session <= GM.correctMoves midgame_session.
Proof.
  apply (session_score_and_counters midgame_session).
  exact (played_reachable _ midgame_session_played).
Defined.

(** Between two calls the cursor rests on a user-action step or past the
    last step; the session is active exactly as long as it is not complete,
    and the cursor of a complete session is past the last step. *)
Theorem session_cursor_rests_on_user_action (g : GM.t) :
  reachable g ->
  0 <= GM.currentStepIndex g /\
  (forall s, js_get (GM.steps g) (GM.currentStepIndex g) = Some s ->
             isUserAction s = true) /\
  GM.isGameActive g = negb (GM.isGameComplete g) /\
  (GM.isGameComplete g = true -> len (GM.steps g) <= GM.currentStepIndex g).
Proof.
  intros H. destruct (reachable_inv g H) as (_ & H1 & H2 & H3 & _ & H4 & _).
  auto.
Qed.

Lemma session_cursor_rests_on_user_action_witness :
  0 <= GM.currentStepIndex midgame_session /\
  (forall s, js_get (GM.steps midgame_session) (GM.currentStepIndex midgame_session) = Some s ->
             isUserAction s = true) /\
  GM.isGameActive midgame_session = negb (GM.isGameComplete midgame_session) /\
  (GM.isGameComplete midgame_session = true ->
   len (GM.steps midgame_session) <= GM.currentStepIndex midgame_session).
Proof.
  apply (session_cursor_rests_on_user_action midgame_session).
  exact (played_reachable _ midgame_session_played).
Defined.

(** The steps of a session are, at every moment, the trace that its engine
    generates from the original array: neither the moves nor the in-place
    sort of [validateMove] change them. *)
Theorem session_plays_its_trace (g : GM.t) :
  reachable g ->
  exists e, GM.currentAlgorithm g = Some e /\
            generateSteps e (GM.originalArray g) = Some (GM.steps g).
Proof. intros H. exact (proj1 (reachable_inv g H)). Qed.

Lemma session_plays_its_trace_witness :
  exists e, GM.currentAlgorithm midgame_session = Some e /\
            generateSteps e (GM.originalArray midgame_session)
              = Some (GM.steps midgame_session).
Proof.
  apply (session_plays_its_trace midgame_session).
  exact (played_reachable _ midgame_session_played).
Defined.

(** The array of a complete session is the original array in ascending
    order, whichever way the game was played or skipped through: every
    cell holds a number, and the numbers are the sorted original. *)
Theorem complete_session_sorted (g : GM.t) :
  reachable g -> GM.isGameComplete g = true ->
  exists sorted, GM.currentArray g = map Some sorted /\
                 is_sort_of (GM.originalArray g) sorted.
Proof.
  intros H Hc. destruct (reachable_inv g H) as (_ & _ & _ & _ & H1 & H2 & _).
  exact (H1 (H2 Hc)).
Qed.

Lemma complete_session_sorted_witness :
  exists sorted, GM.currentArray won_session = map Some sorted /\
                 is_sort_of (GM.originalArray won_session) sorted.
Proof.
  apply (complete_session_sorted won_session).
  - exact (played_reachable _ won_session_played).
  - reflexivity.
Defined.

(** In a game of one of the five swap engines that is played by the moves
    of the interface, without skipping a step, the array of the session is
    always the snapshot of the step under the cursor. *)
Theorem played_session_shows_snapshot (g : GM.t) (e : Algorithm) :
  played g -> GM.currentAlgorithm g = Some e -> e <> merge ->
  forall s, js_get (GM.steps g) (GM.currentStepIndex g) = Some s ->
            GM.currentArray g = map Some (arrayState s).
Proof.
  intros Hp He Hm. apply (played_shows g Hp e He).
  destruct e; try reflexivity. contradiction.
Qed.

Lemma played_session_shows_snapshot_witness :
  exists s, js_get (GM.steps midgame_session) (GM.currentStepIndex midgame_session) = Some s /\
            GM.currentArray midgame_session = map Some (arrayState s).
Proof.
  eexists. split; [vm_compute; reflexivity|].
  apply (played_session_shows_snapshot midgame_session heap).
  - exact midgame_session_played.
  - reflexivity.
  - discriminate.
  - vm_compute. reflexivity.
Defined.

(** The interface sends swap moves only, which a game of merge sort never
    accepts: no move is counted as correct, no point is scored, and no
    move completes the game. *)
Theorem merge_game_never_scores (g : GM.t) :
  played g -> GM.currentAlgorithm g = Some merge ->
  GM.correctMoves g = 0 /\ GM.score g = 0 /\ GM.streak g = 0 /\
  GM.isGameActive g = true /\ GM.isGameComplete g = false.
Proof. exact (played_merge g). Qed.

Lemma merge_game_never_scores_witness :
  GM.correctMoves merge_session = 0 /\ GM.score merge_session = 0 /\
  GM.streak merge_session = 0 /\
  GM.isGameActive merge_session = true /\ GM.isGameComplete merge_session = false.
Proof.
  apply (merge_game_never_scores merge_session).
  - exact merge_session_played.
  - reflexivity.
Defined.

(** [getExpectedAction] answers exactly at the user-action steps; the
    action it names is accepted by [validateMove] of the five swap engines
    and, having no value, refused by that of merge sort. *)
Theorem expected_action_verdict (e : Algorithm) (input : list Z) :
  exists t, generateSteps e input = Some t /\
    forall k,
      (getExpectedAction t k = None <->
       ~ exists s, js_get t k = Some s /\ isUserAction s = true) /\
      (forall action, getExpectedAction t k = Some action ->
         valid (fst (validateMove e t k action)) = negb (is_merge e)).
Proof.
  destruct (generateSteps_ok e input) as (t & E & final & (_ & Hw & _) & _).
  exists t. split; [exact E|]. cbn [arr steps] in Hw. intros k. split.
  - unfold getExpectedAction. destruct (js_get t k) as [s|] eqn:Ek.
    + destruct (isUserAction s) eqn:Eu; cbn [negb]; split.
      * discriminate.
      * intros Hn. exfalso. apply Hn. eauto.
      * intros _ (s' & [= <-] & Eu'). congruence.
      * reflexivity.
    + split; [|reflexivity]. intros _ (s' & Hs & _). discriminate.
  - intros action. unfold getExpectedAction.
    destruct (js_get t k) as [s|] eqn:Ek; [|discriminate].
    destruct (isUserAction s) eqn:Eu; cbn [negb]; [|discriminate].
    intros [= <-].
    destruct (proj1 (Forall_forall _ _) Hw s (js_get_In _ _ _ Ek)) as (Hv & Hlen & H3 & H4).
    destruct (H4 Eu) as [Hty|(Hm & Hty & p & Ei & Hp)].
    + destruct (H3 Hty) as (Hm & _ & p & q & Ei & Hp & Hq).
      rewrite Hm, Hty, Ei. cbn [negb StepType_name].
      destruct e; try discriminate; simpl;
        apply (proj2 (validateSwapMove_pair _ _ _ _ _ p q "swap" p q None
                         Ek Eu Ei (proj2 Hp))); auto.
    + rewrite Hm. cbn [negb]. destruct e; try discriminate.
      simpl. unfold validateSelectMove. rewrite Ek, Eu, Hty, Hv, Ei.
      cbn [negb StepType_name atype avalue map].
      rewrite js_get_in by lia. reflexivity.
Qed.

(** ** The arrays of the game *)

Lemma exchange_perm (a a' : list Z) i j :
  GM.exchange a i j = Some a' -> Permutation a a' /\ len a' = len a.
Proof.
  intros H. pose proof H as H'. unfold GM.exchange in H'.
  destruct (js_get a i) as [x|] eqn:Ei; [|discriminate].
  destruct (js_get a j) as [y|] eqn:Ej; [|discriminate].
  apply js_get_Some in Ei. apply js_get_Some in Ej.
  rewrite exchange_zswap in H by lia. injection H as <-.
  split; [now apply zswap_perm|apply len_zswap].
Qed.

Lemma fair_next src k : fair src -> fair (snd (random_index k src)).
Proof. intros H. exact H. Qed.

Lemma random_index_range src k :
  fair src -> 0 < k -> 0 <= fst (random_index k src) < k.
Proof. intros H Hk. apply H, Hk. Qed.

(** The loop of [shuffleArray] rearranges the array. *)
Lemma shuffle_loop_perm : forall i a src,
  fair src -> (i < List.length a)%nat ->
  exists a' src', shuffle_loop i a src = Some (a', src') /\
                  Permutation a a' /\ fair src' /\ drawn src' = (drawn src + i)%nat.
Proof.
  induction i as [|i IH]; intros a src Hf Hi; cbn [shuffle_loop].
  - exists a, src. split; [reflexivity|]. split; [apply Permutation_refl|].
    split; [exact Hf|lia].
  - pose proof (random_index_range src (Z.of_nat (S i) + 1) Hf ltac:(lia)) as Hj.
    destruct (random_index (Z.of_nat (S i) + 1) src) as [j src1] eqn:Er.
    cbn [fst] in Hj.
    assert (Hf1 : fair src1 /\ drawn src1 = S (drawn src)).
    { unfold random_index in Er. injection Er as _ <-. split; [exact Hf|reflexivity]. }
    destruct (exchange_defined a (Z.of_nat (S i)) j) as (a1 & Ea);
      [unfold len; lia|unfold len; lia|].
    rewrite Ea. destruct (exchange_perm _ _ _ _ Ea) as (Hp & Hl).
    destruct (IH a1 src1 (proj1 Hf1)) as (a' & src' & E & Hp' & Hf' & Hd).
    { unfold len in Hl. lia. }
    exists a', src'. split; [exact E|]. split; [eapply Permutation_trans; eauto|].
    split; [exact Hf'|]. destruct Hf1 as (_ & Hd1). lia.
Qed.

Lemma push_up_spec f : forall cnt i arr,
  push_up cnt i f arr = (arr ++ map (fun k => f (i + Z.of_nat k)) (seq 0 cnt))%list.
Proof.
  induction cnt as [|cnt IH]; intros i arr; cbn [push_up].
  - simpl. now rewrite app_nil_r.
  - rewrite IH. rewrite <- app_assoc. f_equal. cbn [seq map app].
    rewrite Z.add_0_r. f_equal. rewrite <- seq_shift, map_map.
    apply map_ext. intros k. f_equal. lia.
Qed.

Lemma push_down_spec : forall i arr,
  push_down i arr = (arr ++ rev (map (fun k => (Z.of_nat k + 1) * 10) (seq 0 i)))%list.
Proof.
  induction i as [|i IH]; intros arr; cbn [push_down].
  - simpl. now rewrite app_nil_r.
  - rewrite IH, <- app_assoc. f_equal.
    rewrite seq_S, map_app, rev_app_distr. cbn [map rev app plus]. f_equal. f_equal. lia.
Qed.

Lemma push_up_tens n : push_up (Z.to_nat n) 1 (fun i => i * 10) [] = tens n.
Proof.
  rewrite push_up_spec. cbn [app]. unfold tens. apply map_ext. intros k. f_equal. lia.
Qed.

Lemma push_down_tens n : push_down (Z.to_nat n) [] = rev (tens n).
Proof. rewrite push_down_spec. reflexivity. Qed.

Lemma random_swaps_perm size : forall cnt a src,
  fair src -> 0 < size -> len a = size ->
  exists a' src', random_swaps cnt size a src = Some (a', src') /\
                  Permutation a a' /\ fair src'.
Proof.
  induction cnt as [|cnt IH]; intros a src Hf Hs Hl; cbn [random_swaps].
  - exists a, src. split; [reflexivity|]. split; [apply Permutation_refl|exact Hf].
  - pose proof (random_index_range src size Hf Hs) as H1.
    destruct (random_index size src) as [idx1 src1] eqn:E1. cbn [fst] in H1.
    assert (Hf1 : fair src1) by (unfold random_index in E1; injection E1 as _ <-; exact Hf).
    pose proof (random_index_range src1 size Hf1 Hs) as H2.
    destruct (random_index size src1) as [idx2 src2] eqn:E2. cbn [fst] in H2.
    assert (Hf2 : fair src2) by (unfold random_index in E2; injection E2 as _ <-; exact Hf1).
    destruct (exchange_defined a idx1 idx2) as (a1 & Ea); [lia|lia|].
    rewrite Ea. destruct (exchange_perm _ _ _ _ Ea) as (Hp & Hl1).
    destruct (IH a1 src2 Hf2 Hs) as (a' & src' & E & Hp' & Hf'); [lia|].
    exists a', src'. split; [exact E|]. split; [eapply Permutation_trans; eauto|exact Hf'].
Qed.

Lemma random_picks_spec values u : forall cnt arr src,
  fair src -> 0 < u -> len values = u ->
  exists arr' src', random_picks cnt values u arr src = Some (arr', src') /\
                    fair src' /\ List.length arr' = (List.length arr + cnt)%nat /\
                    (forall v, In v arr' -> In v arr \/ In v values).
Proof.
  induction cnt as [|cnt IH]; intros arr src Hf Hu Hl; cbn [random_picks].
  - exists arr, src. split; [reflexivity|]. split; [exact Hf|]. split; [lia|auto].
  - pose proof (random_index_range src u Hf Hu) as H1.
    destruct (random_index u src) as [k src1] eqn:E1. cbn [fst] in H1.
    assert (Hf1 : fair src1) by (unfold random_index in E1; injection E1 as _ <-; exact Hf).
    rewrite js_get_in by lia.
    destruct (IH (arr ++ [zget values k])%list src1 Hf1 Hu Hl) as (arr' & src' & E & Hf' & Hn & Hin).
    exists arr', src'. split; [exact E|]. split; [exact Hf'|].
    split; [rewrite Hn, length_app; simpl; lia|].
    intros v Hv. destruct (Hin v Hv) as [H|H]; [|auto].
    apply in_app_or in H. destruct H as [H|[<-|[]]]; [auto|].
    right. unfold zget. apply nth_In. unfold len in *. lia.
Qed.

Lemma round_source_fair : fair round_source.
Proof.
  intros n k Hk. cbn [round_source floor_random].
  destruct (Z.ltb_spec 0 k); [|lia]. apply Z.mod_pos_bound. lia.
Qed.

Lemma tens_range n v : In v (tens n) -> 10 <= v <= 10 * n /\ exists u, 1 <= u <= n /\ v = 10 * u.
Proof.
  unfold tens. intros H. apply in_map_iff in H. destruct H as (k & <- & Hk).
  apply in_seq in Hk. split; [lia|]. exists (Z.of_nat k + 1). lia.
Qed.

Lemma tens_length n : List.length (tens n) = Z.to_nat n.
Proof. unfold tens. now rewrite length_map, length_seq. Qed.

Lemma tens_NoDup n : NoDup (tens n).
Proof.
  unfold tens. apply Finite.Injective_map_NoDup; [|apply seq_NoDup].
  intros x y H. lia.
Qed.

Lemma size_pos d : 0 < GM.size d.
Proof. destruct d; reflexivity. Qed.

(** The five shapes of the result of [generateArray]. *)
Lemma generateArray_cases d it src :
  fair src ->
  exists arr src', generateArray d it src = Some (arr, src') /\ fair src' /\
    match it with
    | GM.reversed => arr = rev (tens (GM.size d)) /\ src' = src
    | GM.nearlySorted => Permutation (tens (GM.size d)) arr
    | GM.duplicates =>
        List.length arr = Z.to_nat (GM.size d) /\
        incl arr (tens (Qceiling (inject_Z (GM.size d) / 2)))
    | GM.random =>
        exists rest, Permutation (map (fun k => 1 + Z.of_nat k)
                                      (seq 0 (Z.to_nat (GM.size d * 10))))
                                 (arr ++ rest) /\
                     List.length arr = Z.to_nat (GM.size d)
    end.
Proof.
  intros Hf. pose proof (size_pos d) as Hs. unfold generateArray. cbv zeta.
  destruct it.
  - (* random *)
    rewrite push_up_spec. cbn [app].
    set (all := map (fun k => 1 + Z.of_nat k) (seq 0 (Z.to_nat (GM.size d * 10)))).
    assert (Hall : List.length all = Z.to_nat (GM.size d * 10)).
    { unfold all. now rewrite length_map, length_seq. }
    destruct (shuffle_loop_perm (List.length all - 1) all src Hf) as (a' & src' & E & Hp & Hf' & _);
      [lia|].
    rewrite E. exists (slice a' 0 (GM.size d)), src'.
    split; [reflexivity|]. split; [exact Hf'|].
    exists (skipn (Z.to_nat (GM.size d)) a'). unfold slice.
    rewrite Z.sub_0_r. cbn [Z.to_nat skipn]. rewrite firstn_skipn.
    split; [exact Hp|]. rewrite length_firstn.
    apply Permutation_length in Hp. lia.
  - (* reversed *)
    exists (rev (tens (GM.size d))), src. rewrite push_down_tens. auto.
  - (* nearlySorted *)
    rewrite push_up_tens.
    destruct (random_swaps_perm (GM.size d)
                (Z.to_nat (Z.max 1 (Qfloor (inject_Z (GM.size d) / 4))))
                (tens (GM.size d)) src Hf Hs) as (a' & src' & E & Hp & Hf').
    { unfold len. rewrite tens_length. lia. }
    exists a', src'. auto.
  - (* duplicates *)
    set (u := Qceiling (inject_Z (GM.size d) / 2)).
    assert (Hu : 0 < u) by (destruct d; reflexivity).
    assert (Ev : push_up (Z.to_nat u) 0 (fun i => (i + 1) * 10) [] = tens u).
    { rewrite push_up_spec. cbn [app]. unfold tens. apply map_ext. intros k. f_equal. }
    rewrite Ev.
    destruct (random_picks_spec (tens u) u (Z.to_nat (GM.size d)) [] src Hf Hu)
      as (arr & src1 & E & Hf1 & Hn & Hin).
    { unfold len. rewrite tens_length. lia. }
    rewrite E. unfold shuffleArray.
    destruct (Nat.eq_dec (List.length arr) 0) as [E0|Hne].
    { cbn [List.length plus] in Hn. lia. }
    destruct (shuffle_loop_perm (List.length arr - 1) arr src1 Hf1) as (a' & src' & E' & Hp & Hf' & _);
      [lia|].
    exists a', src'. split; [exact E'|]. split; [exact Hf'|].
    split; [apply Permutation_length in Hp; cbn [List.length plus] in Hn; lia|].
    intros v Hv. apply Permutation_sym in Hp.
    destruct (Hin v (Permutation_in _ Hp Hv)) as [[]|H]. exact H.
Qed.

(** [shuffleArray] rearranges its argument, drawing one number for each
    cell but the first. *)
Theorem shuffleArray_permutes (arr : list Z) (src : Source) :
  fair src ->
  exists arr' src', shuffleArray arr src = Some (arr', src') /\
    Permutation arr arr' /\ len arr' = len arr /\
    drawn src' = (drawn src + (List.length arr - 1))%nat.
Proof.
  intros Hf. unfold shuffleArray.
  destruct arr as [|x arr].
  - exists [], src. cbn. split; [reflexivity|]. split; [constructor|]. split; [reflexivity|lia].
  - destruct (shuffle_loop_perm (List.length (x :: arr) - 1) (x :: arr) src Hf)
      as (a' & src' & E & Hp & _ & Hd); [simpl; lia|].
    exists a', src'. split; [exact E|]. split; [exact Hp|].
    split; [unfold len; now rewrite (Permutation_length Hp)|exact Hd].
Qed.

Lemma shuffleArray_permutes_witness :
  exists arr' src', shuffleArray [1; 2; 3; 4; 5; 6] round_source = Some (arr', src') /\
    Permutation [1; 2; 3; 4; 5; 6] arr' /\ len arr' = len [1; 2; 3; 4; 5; 6] /\
    drawn src' = (drawn round_source + (List.length [1; 2; 3; 4; 5; 6] - 1))%nat.
Proof. apply (shuffleArray_permutes [1; 2; 3; 4; 5; 6] round_source round_source_fair). Defined.

Lemma generateArray_size (d : Difficulty) (it : GM.InputType) (src : Source) :
  fair src ->
  exists arr src', generateArray d it src = Some (arr, src') /\
    len arr = GM.size d /\ Forall (fun v => 1 <= v <= 10 * GM.size d) arr.
Proof.
  intros Hf. destruct (generateArray_cases d it src Hf) as (arr & src' & E & _ & H).
  exists arr, src'. split; [exact E|].
  pose proof (size_pos d) as Hs. destruct it.
  - destruct H as (rest & Hp & Hn). split; [unfold len; lia|].
    apply Forall_forall. intros v Hv.
    assert (Hin : In v (arr ++ rest)%list) by (apply in_or_app; auto).
    apply (Permutation_in _ (Permutation_sym Hp)) in Hin.
    apply in_map_iff in Hin. destruct Hin as (k & <- & Hk). apply in_seq in Hk. lia.
  - destruct H as (-> & _). split.
    + unfold len. rewrite length_rev, tens_length. lia.
    + apply Forall_forall. intros v Hv. apply in_rev in Hv.
      destruct (tens_range _ _ Hv). lia.
  - split.
    + unfold len. rewrite <- (Permutation_length H), tens_length. lia.
    + apply Forall_forall. intros v Hv.
      apply (Permutation_in _ (Permutation_sym H)) in Hv.
      destruct (tens_range _ _ Hv). lia.
  - destruct H as (Hn & Hi). split; [unfold len; lia|].
    apply Forall_forall. intros v Hv. destruct (tens_range _ _ (Hi v Hv)) as (H1 & _).
    assert (Qceiling (inject_Z (GM.size d) / 2) <= GM.size d) by (destruct d; discriminate).
    lia.
Qed.

(** [generateArray] gives an array of the size of the difficulty, of
    values from 1 to ten times that size, whatever the input type. *)
Theorem generateArray_size_and_range (d : Difficulty) (it : GM.InputType) (src : Source) :
  fair src ->
  exists arr src', generateArray d it src = Some (arr, src') /\
    len arr = GM.size d /\ Forall (fun v => 1 <= v <= 10 * GM.size d) arr.
Proof. exact (generateArray_size d it src). Qed.

Lemma generateArray_size_and_range_witness :
  exists arr src', generateArray hard GM.duplicates round_source = Some (arr, src') /\
    len arr = GM.size hard /\ Forall (fun v => 1 <= v <= 10 * GM.size hard) arr.
Proof. apply (generateArray_size_and_range hard GM.duplicates round_source round_source_fair). Defined.

(** The reversed and the nearly sorted array hold each of 10, 20, ...,
    10 * size once; the reversed one holds them in descending order and
    draws no random number. *)
Theorem generateArray_multiples_of_ten (d : Difficulty) (it : GM.InputType) (src : Source) :
  fair src -> it = GM.reversed \/ it = GM.nearlySorted ->
  exists arr src', generateArray d it src = Some (arr, src') /\
    Permutation (tens (GM.size d)) arr /\ NoDup arr /\
    (it = GM.reversed ->
       src' = src /\
       forall k, 0 <= k < GM.size d -> zget arr k = (GM.size d - k) * 10).
Proof.
  intros Hf Hit. destruct (generateArray_cases d it src Hf) as (arr & src' & E & _ & H).
  exists arr, src'. split; [exact E|].
  destruct Hit as [-> | ->].
  - destruct H as (-> & ->).
    split; [apply Permutation_rev|].
    split; [apply (Permutation_NoDup (Permutation_rev _)), tens_NoDup|].
    intros _. split; [reflexivity|]. intros k Hk.
    unfold zget. rewrite rev_nth by (rewrite tens_length; lia).
    rewrite tens_length. unfold tens.
    rewrite nth_indep with (d' := (fun k => (Z.of_nat k + 1) * 10) 0%nat)
      by (rewrite length_map, length_seq; lia).
    rewrite (map_nth (fun k0 => (Z.of_nat k0 + 1) * 10)), seq_nth by lia. lia.
  - split; [exact H|]. split; [apply (Permutation_NoDup H), tens_NoDup|discriminate].
Qed.

Lemma generateArray_multiples_of_ten_witness :
  exists arr src', generateArray hard GM.nearlySorted round_source = Some (arr, src') /\
    Permutation (tens (GM.size hard)) arr /\ NoDup arr /\
    (GM.nearlySorted = GM.reversed ->
       src' = round_source /\
       forall k, 0 <= k < GM.size hard -> zget arr k = (GM.size hard - k) * 10).
Proof.
  apply (generateArray_multiples_of_ten hard GM.nearlySorted round_source round_source_fair).
  right. reflexivity.
Defined.

(** The array with duplicates is made of the multiples of 10 up to
    10 * ceil(size / 2), and some value occurs in it more than once. *)
Theorem generateArray_duplicates_repeat (d : Difficulty) (src : Source) :
  fair src ->
  exists arr src', generateArray d GM.duplicates src = Some (arr, src') /\
    Forall (fun v => exists u, 1 <= u <= Qceiling (inject_Z (GM.size d) / 2) /\
                               v = 10 * u) arr /\
    ~ NoDup arr.
Proof.
  intros Hf.
  destruct (generateArray_cases d GM.duplicates src Hf) as (arr & src' & E & _ & Hn & Hi).
  exists arr, src'. split; [exact E|]. split.
  - apply Forall_forall. intros v Hv. destruct (tens_range _ _ (Hi v Hv)) as (_ & H). exact H.
  - intros Hnd. pose proof (NoDup_incl_length Hnd Hi) as Hlen.
    rewrite Hn, tens_length in Hlen.
    assert (Qceiling (inject_Z (GM.size d) / 2) < GM.size d) by (destruct d; reflexivity).
    assert (0 < Qceiling (inject_Z (GM.size d) / 2)) by (destruct d; reflexivity).
    lia.
Qed.

Lemma generateArray_duplicates_repeat_witness :
  exists arr src', generateArray easy GM.duplicates round_source = Some (arr, src') /\
    Forall (fun v => exists u, 1 <= u <= Qceiling (inject_Z (GM.size easy) / 2) /\
                               v = 10 * u) arr /\
    ~ NoDup arr.
Proof. apply (generateArray_duplicates_repeat easy round_source round_source_fair). Defined.

(** The random array holds pairwise different values. *)
Theorem generateArray_random_distinct (d : Difficulty) (src : Source) :
  fair src ->
  exists arr src', generateArray d GM.random src = Some (arr, src') /\ NoDup arr.
Proof.
  intros Hf.
  destruct (generateArray_cases d GM.random src Hf) as (arr & src' & E & _ & rest & Hp & _).
  exists arr, src'. split; [exact E|].
  apply (NoDup_app_remove_r arr rest).
  apply (Permutation_NoDup Hp).
  apply Finite.Injective_map_NoDup; [|apply seq_NoDup]. intros x y H. lia.
Qed.

Lemma generateArray_random_distinct_witness :
  exists arr src', generateArray expert GM.random round_source = Some (arr, src') /\ NoDup arr.
Proof. apply (generateArray_random_distinct expert round_source round_source_fair). Defined.

(** A game can always be started: [startGame] with the array it draws
    gives an active session on an array of the size of the difficulty. *)
Theorem newGame_starts (e : Algorithm) (d : Difficulty) (it : GM.InputType)
    (src : Source) (now : Z) :
  fair src ->
  exists g src', newGame e d it src now = Some (g, src') /\
    played g /\ active g /\
    GM.currentAlgorithm g = Some e /\ GM.difficulty g = d /\
    len (GM.originalArray g) = GM.size d /\
    len (GM.currentArray g) = GM.size d /\
    GM.score g = 0 /\ GM.startTime g = Some now.
Proof.
  intros Hf. destruct (generateArray_cases d it src Hf) as (generated & src' & E & _ & _).
  destruct (generateArray_size d it src Hf) as (arr2 & src2 & E2 & Hl & _).
  rewrite E in E2. injection E2 as <- <-.
  unfold newGame. rewrite E.
  destruct (GM.startGame e d it generated now) as [g|] eqn:Eg.
  - exists g, src'. split; [reflexivity|]. split; [eapply played_start; eauto|].
    destruct (startGame_ok _ _ _ _ _ _ Eg) as (Hok & Hact). split; [exact Hact|].
    revert Eg. unfold GM.startGame.
    destruct (generateSteps_ok e generated) as (t & Et & final & (_ & Hw & _) & _).
    cbn [arr steps] in Hw. rewrite Et. intros [= <-].
    cbn [GM.currentAlgorithm GM.difficulty GM.originalArray GM.currentArray
         GM.score GM.startTime].
    match goal with |- context [GM.advanceToNextUserAction ?g0] =>
      destruct (advance_spec (len generated)
                  (Z.to_nat (len (GM.steps g0) - GM.currentStepIndex g0)) g0)
        as (Hs' & Hl' & Ha' & _);
        [cbn; eapply wf_step_len; eauto|apply len_numbers|] end.
    unfold GM.advanceToNextUserAction. rewrite advance_fields.
    cbn [GM.with_cursor GM.currentAlgorithm GM.difficulty GM.originalArray
         GM.currentArray GM.score GM.startTime].
    rewrite Hl', Hl. repeat split; reflexivity.
  - exfalso. unfold GM.startGame in Eg.
    destruct (generateSteps_ok e generated) as (t & Et & _). rewrite Et in Eg. discriminate.
Qed.

Lemma newGame_starts_witness :
  exists g src', newGame quick medium GM.random round_source 0 = Some (g, src') /\
    played g /\ active g /\
    GM.currentAlgorithm g = Some quick /\ GM.difficulty g = medium /\
    len (GM.originalArray g) = GM.size medium /\
    len (GM.currentArray g) = GM.size medium /\
    GM.score g = 0 /\ GM.startTime g = Some 0.
Proof. apply (newGame_starts quick medium GM.random round_source 0 round_source_fair). Defined.

(** ** Merge sort, the pure implementation *)

Lemma is_sort_of_unique input a b : is_sort_of input a -> is_sort_of input b -> a = b.
Proof.
  intros (Sa & Pa) (Sb & Pb).
  assert (P : Permutation a b) by (eapply Permutation_trans; [apply Permutation_sym|]; eauto).
  clear Pa Pb. revert b Sb P.
  induction Sa as [|x a Sa IH Hx]; intros b Sb P.
  - apply Permutation_nil in P. now subst.
  - destruct Sb as [|y b Sb Hy]; [apply Permutation_sym, Permutation_nil in P; discriminate|].
    assert (Exy : x = y).
    { assert (In x (y :: b)) by (eapply Permutation_in; [exact P|left; reflexivity]).
      assert (In y (x :: a)) by (eapply Permutation_in; [apply Permutation_sym; exact P|left; reflexivity]).
      rewrite Forall_forall in Hx, Hy.
      destruct H as [->|H]; [reflexivity|]. destruct H0 as [->|H0]; [reflexivity|].
      specialize (Hx _ H0). specialize (Hy _ H). lia. }
    subst y. f_equal. apply IH; [exact Sb|]. eapply Permutation_cons_inv; eauto.
Qed.

Lemma insert_asc_perm x : forall l, Permutation (x :: l) (insert_asc x l).
Proof.
  induction l as [|y l IH]; cbn [insert_asc]; [constructor; constructor|].
  destruct (x <=? y); [apply Permutation_refl|].
  eapply Permutation_trans; [apply perm_swap|]. now constructor.
Qed.

Lemma insert_asc_sorted x : forall l,
  StronglySorted Z.le l -> StronglySorted Z.le (insert_asc x l).
Proof.
  induction l as [|y l IH]; intros Hs; cbn [insert_asc].
  - constructor; constructor.
  - inversion Hs as [|? ? Hs' Hy]; subst.
    destruct (Z.leb_spec x y).
    + constructor; [exact Hs|]. constructor; [lia|].
      eapply Forall_impl; [|exact Hy]. intros; cbv beta in *; lia.
    + constructor; [apply IH, Hs'|].
      apply (Permutation_Forall (insert_asc_perm x l)).
      constructor; [lia|exact Hy].
Qed.

(** The sort of the language, with the numeric comparison. *)
Lemma sort_asc_sorts l : is_sort_of l (sort_asc l).
Proof.
  induction l as [|x l (Hs & Hp)]; cbn [sort_asc].
  - split; constructor.
  - split; [now apply insert_asc_sorted|].
    eapply Permutation_trans; [|apply insert_asc_perm]. now constructor.
Qed.

Lemma StronglySorted_snoc (l : list Z) x :
  StronglySorted Z.le l -> Forall (fun y => y <= x) l -> StronglySorted Z.le (l ++ [x]).
Proof.
  induction 1 as [|y l Hs IH Hy]; intros Hb; cbn [app].
  - constructor; constructor.
  - inversion Hb; subst. constructor; [apply IH; assumption|].
    apply Forall_app. split; [exact Hy|]. constructor; [assumption|constructor].
Qed.

Lemma sorted_zget (l : list Z) i j :
  StronglySorted Z.le l -> 0 <= i -> i <= j -> j < len l -> zget l i <= zget l j.
Proof.
  intros Hs. revert i j. induction Hs as [|x l Hs IH Hx]; intros i j Hi Hij Hj.
  - unfold len in Hj. simpl in Hj. lia.
  - unfold zget, len in *. cbn [List.length] in Hj.
    destruct (Z.to_nat i) as [|i'] eqn:Ei, (Z.to_nat j) as [|j'] eqn:Ej; cbn [nth]; try lia.
    + rewrite Forall_forall in Hx. apply Hx, nth_In. lia.
    + specialize (IH (Z.of_nat i') (Z.of_nat j')). rewrite !Nat2Z.id in IH.
      apply IH; lia.
Qed.

Section PureMerge.

Variables left right : list Z.

(* What holds of [result] when [i] cells of [left] and [j] of [right] have
   been pushed. *)
Let pushed (result : list Z) (i j : Z) : Prop :=
  0 <= i <= len left /\ 0 <= j <= len right /\
  Permutation (slice left 0 i ++ slice right 0 j) result /\
  (StronglySorted Z.le left -> StronglySorted Z.le right ->
   StronglySorted Z.le result /\
   Forall (fun x => (i < len left -> x <= zget left i) /\
                    (j < len right -> x <= zget right j)) result).

Lemma pushed_left result i j :
  pushed result i j -> i < len left ->
  (j < len right -> zget left i <= zget right j) ->
  pushed (result ++ [zget left i]) (i + 1) j.
Proof.
  intros (Hi & Hj & Hp & Hs) Hlt Hle. unfold pushed.
  split; [lia|]. split; [lia|]. split.
  - replace (0 + (i + 1)) with (0 + i + 1) by lia. rewrite slice_snoc by lia.
    now apply perm_snoc_l.
  - intros Sl Sr. destruct (Hs Sl Sr) as (Hss & Hb). split.
    + apply StronglySorted_snoc; [exact Hss|].
      eapply Forall_impl; [|exact Hb]. intros x (H1 & _). now apply H1.
    + apply Forall_app. split.
      * eapply Forall_impl; [|exact Hb]. intros x (H1 & H2). split; [|exact H2].
        intros Hi1. specialize (H1 Hlt).
        pose proof (sorted_zget left i (i + 1) Sl). lia.
      * constructor; [|constructor]. split; [|exact Hle].
        intros Hi1. apply sorted_zget; auto; lia.
Qed.

Lemma pushed_right result i j :
  pushed result i j -> j < len right ->
  (i < len left -> zget right j <= zget left i) ->
  pushed (result ++ [zget right j]) i (j + 1).
Proof.
  intros (Hi & Hj & Hp & Hs) Hlt Hle. unfold pushed.
  split; [lia|]. split; [lia|]. split.
  - replace (0 + (j + 1)) with (0 + j + 1) by lia. rewrite (slice_snoc right) by lia.
    now apply perm_snoc_r.
  - intros Sl Sr. destruct (Hs Sl Sr) as (Hss & Hb). split.
    + apply StronglySorted_snoc; [exact Hss|].
      eapply Forall_impl; [|exact Hb]. intros x (_ & H2). now apply H2.
    + apply Forall_app. split.
      * eapply Forall_impl; [|exact Hb]. intros x (H1 & H2). split; [exact H1|].
        intros Hj1. specialize (H2 Hlt).
        pose proof (sorted_zget right j (j + 1) Sr). lia.
      * constructor; [|constructor]. split; [exact Hle|].
        intros Hj1. apply sorted_zget; auto; lia.
Qed.

Lemma merge_while_spec : forall fuel result i j,
  pushed result i j -> (len left - i) + (len right - j) <= Z.of_nat fuel ->
  exists result' i' j',
    Pure.merge_while fuel left right result i j = Some (result', i', j') /\
    pushed result' i' j' /\ (i' = len left \/ j' = len right).
Proof.
  induction fuel as [|fuel IH]; intros result i j HP Hf;
    cbn [Pure.merge_while]; pose proof HP as (Hi & Hj & _);
    destruct (Z.ltb_spec i (len left)) as [Hi'|Hi'];
    destruct (Z.ltb_spec j (len right)) as [Hj'|Hj'];
    cbn [andb]; try lia;
    try (exists result, i, j; split; [reflexivity|]; split; [exact HP|lia]).
  rewrite !js_get_in by lia.
  destruct (Z.leb_spec (zget left i) (zget right j)).
  - apply IH; [apply pushed_left; auto|lia].
  - apply IH; [apply pushed_right; auto; intros; lia|lia].
Qed.

Lemma push_rest_left_spec : forall fuel result i j,
  pushed result i j -> j = len right \/ i = len left -> len left - i <= Z.of_nat fuel ->
  exists result', Pure.push_rest fuel left result i = Some result' /\
                  pushed result' (len left) j.
Proof.
  induction fuel as [|fuel IH]; intros result i j HP Hor Hf;
    cbn [Pure.push_rest]; pose proof HP as (Hi & Hj & _);
    destruct (Z.ltb_spec i (len left)) as [Hi'|Hi']; try lia;
    try (exists result; split; [reflexivity|]; replace (len left) with i by lia; exact HP).
  rewrite js_get_in by lia.
  apply IH; [apply pushed_left; auto; intros; lia|left; lia|lia].
Qed.

Lemma push_rest_right_spec : forall fuel result j,
  pushed result (len left) j -> len right - j <= Z.of_nat fuel ->
  exists result', Pure.push_rest fuel right result j = Some result' /\
                  pushed result' (len left) (len right).
Proof.
  induction fuel as [|fuel IH]; intros result j HP Hf;
    cbn [Pure.push_rest]; pose proof HP as (Hi & Hj & _);
    destruct (Z.ltb_spec j (len right)) as [Hj'|Hj']; try lia;
    try (exists result; split; [reflexivity|]; replace (len right) with j by lia; exact HP).
  rewrite js_get_in by lia.
  apply IH; [apply pushed_right; auto; intros; lia|lia].
Qed.

Lemma pure_merge_spec :
  exists result, Pure.merge left right = Some result /\
    Permutation (left ++ right) result /\
    (StronglySorted Z.le left -> StronglySorted Z.le right ->
     StronglySorted Z.le result).
Proof.
  unfold Pure.merge.
  assert (H0 : pushed [] 0 0).
  { unfold pushed. pose proof (len_nonneg left). pose proof (len_nonneg right).
    split; [lia|]. split; [lia|]. split; [constructor|]. intros _ _. split; constructor. }
  destruct (merge_while_spec (List.length left + List.length right) [] 0 0 H0)
    as (r1 & i & j & E1 & H1 & Hor); [unfold len; lia|].
  rewrite E1.
  destruct (push_rest_left_spec (List.length left) r1 i j H1) as (r2 & E2 & H2);
    [lia|destruct H1 as (? & _); unfold len in *; lia|].
  rewrite E2.
  destruct (push_rest_right_spec (List.length right) r2 j H2) as (r3 & E3 & H3);
    [destruct H2 as (_ & ? & _); unfold len in *; lia|].
  exists r3. split; [exact E3|].
  destruct H3 as (_ & _ & Hp & Hs). rewrite !slice_full in Hp.
  split; [exact Hp|]. intros Sl Sr. apply (Hs Sl Sr).
Qed.

End PureMerge.

Lemma mergeSort_rec_spec : forall fuel arr,
  (List.length arr <= fuel)%nat ->
  exists result, Pure.mergeSort_rec fuel arr = Some result /\ is_sort_of arr result.
Proof.
  induction fuel as [|fuel IH]; intros arr Hf; cbn [Pure.mergeSort_rec].
  - destruct arr; [|simpl in Hf; lia]. exists []. split; [reflexivity|]. split; constructor.
  - destruct (Z.leb_spec (len arr) 1) as [Hle|Hgt].
    + exists arr. split; [reflexivity|]. split; [|apply Permutation_refl].
      destruct arr as [|x [|y arr]]; [constructor|repeat constructor|].
      unfold len in Hle. simpl in Hle. lia.
    + cbv zeta.
      pose proof (Z.div_mod (len arr) 2 ltac:(lia)) as Hdm.
      pose proof (Z.mod_pos_bound (len arr) 2 ltac:(lia)) as Hmb.
      set (mid := len arr / 2) in *.
      assert (Hmid : 0 < mid < len arr) by lia. clearbody mid. clear Hdm Hmb.
      destruct (IH (slice arr 0 mid)) as (sl & El & Sl & Pl).
      { pose proof (len_slice arr 0 mid ltac:(lia) ltac:(lia)). unfold len in *. lia. }
      destruct (IH (slice arr mid (len arr))) as (sr & Er & Sr & Pr).
      { pose proof (len_slice arr mid (len arr) ltac:(lia) ltac:(lia)). unfold len in *. lia. }
      rewrite El, Er.
      destruct (pure_merge_spec sl sr) as (result & E & Hp & Hs).
      exists result. split; [exact E|]. split; [apply Hs; auto|].
      rewrite <- (slice_full arr) at 1. rewrite (slice_app arr 0 mid (len arr)) by lia.
      eapply Permutation_trans; [|exact Hp]. now apply Permutation_app.
Qed.

(** The in-place merge, on the invariant of the merge of the engine. *)
Section PureMergeInPlace.

Variables (a0 : list Z) (left mid right : Z).
Hypothesis Hrange : 0 <= left <= mid /\ mid < right /\ right < len a0.
Hypothesis HsortL : sorted_range a0 left (mid + 1).
Hypothesis HsortR : sorted_range a0 (mid + 1) (right + 1).

Let Lt := slice a0 left (mid + 1).
Let Rt := slice a0 (mid + 1) (right + 1).
Let m1 := mid - left + 1.
Let m2 := right - mid.

Lemma pure_lenL : len Lt = m1.
Proof. unfold Lt, m1. rewrite len_slice; lia. Qed.

Lemma pure_lenR : len Rt = m2.
Proof. unfold Rt, m2. rewrite len_slice; lia. Qed.

Lemma pure_getL_at i : 0 <= i < m1 -> zget Lt i = zget a0 (left + i).
Proof. intros. unfold Lt. apply zget_slice; unfold m1 in *; lia. Qed.

Lemma pure_getR_at j : 0 <= j < m2 -> zget Rt j = zget a0 (mid + 1 + j).
Proof. intros. unfold Rt. apply zget_slice; unfold m2 in *; lia. Qed.

Lemma pure_copy_spec a st base cnt :
  0 <= base -> 0 <= cnt -> base + cnt <= len a ->
  wp (for_up 0 cnt (fun i L => x <- readA (base + i) ;; MergeSort.setL L i x) [])
     (fun L s' => s' = mkSt a st /\ L = slice a base (base + cnt))
     (mkSt a st).
Proof.
  intros Hb Hc Hl.
  apply (wp_for_up (fun i L s' => s' = mkSt a st /\ L = slice a base (base + i))); [lia| |].
  - split; [reflexivity|]. unfold slice. rewrite Z.add_0_r, Z.sub_diag. reflexivity.
  - intros i L0 s' Hi (-> & ->).
    apply wp_bind, wp_readA; [lia|].
    apply wp_setL_end; [rewrite len_slice; lia|].
    split; [reflexivity|].
    replace (base + (i + 1)) with (base + i + 1) by lia.
    rewrite slice_snoc by lia. reflexivity.
Qed.

Lemma pure_mergeLoop_spec : forall cnt i j k a st,
  MInv a0 left mid right i j k a ->
  (m1 - i) + (m2 - j) <= Z.of_nat cnt ->
  wp (Pure.mergeLoop cnt Lt Rt m1 m2 i j k)
     (fun r s' =>
        steps s' = st /\
        MInv a0 left mid right (fst (fst r)) (snd (fst r)) (snd r) (arr s') /\
        (fst (fst r) = m1 \/ snd (fst r) = m2))
     (mkSt a st).
Proof.
  induction cnt as [|cnt IH]; intros i j k a st HM Hcnt;
    cbn [Pure.mergeLoop];
    pose proof HM as (Hi & Hj & Hk & Hl & _); fold m1 m2 in Hi, Hj;
    destruct (Z.ltb_spec i m1) as [Hi'|Hi']; destruct (Z.ltb_spec j m2) as [Hj'|Hj'];
    cbn [andb]; try lia;
    try (apply wp_ret; cbn [fst snd arr steps]; split; [auto|]; split; [auto|]; lia).
  apply wp_bind, wp_getL; [rewrite pure_lenL; lia|].
  apply wp_bind, wp_getL; [rewrite pure_lenR; lia|].
  rewrite pure_getL_at, pure_getR_at by lia.
  destruct (Z.leb_spec (zget a0 (left + i)) (zget a0 (mid + 1 + j))) as [Hle|Hgt].
  - apply wp_bind, wp_writeA; [lia|].
    apply IH; [|lia]. apply MInv_takeL; auto.
  - apply wp_bind, wp_writeA; [lia|].
    apply IH; [|lia]. apply MInv_takeR; auto. intros; lia.
Qed.

Lemma pure_copyRestL_spec i j k a st :
  MInv a0 left mid right i j k a -> i = m1 \/ j = m2 ->
  wp (Pure.copyRest Lt i m1 k)
     (fun k' s' => steps s' = st /\ MInv a0 left mid right m1 j k' (arr s'))
     (mkSt a st).
Proof.
  intros HM Hor. unfold Pure.copyRest.
  pose proof HM as (Hi & _). fold m1 in Hi.
  apply (wp_for_up (fun i' k' s' =>
           steps s' = st /\ MInv a0 left mid right i' j k' (arr s'))); [lia|auto|].
  intros i' k' [a' st'] Hi' (HT' & HM'). cbn [arr steps] in *.
  assert (Hj2 : j = m2) by lia. subst j.
  pose proof HM' as (_ & _ & Hk & Hl & _).
  apply wp_bind, wp_getL; [rewrite pure_lenL; lia|]. rewrite pure_getL_at by lia.
  apply wp_bind, wp_writeA; [unfold m1, m2 in *; lia|].
  apply wp_ret. cbn [arr steps]. split; [auto|].
  apply MInv_takeL; auto; unfold m1, m2 in *; lia.
Qed.

Lemma pure_copyRestR_spec j k a st :
  MInv a0 left mid right m1 j k a ->
  wp (Pure.copyRest Rt j m2 k)
     (fun k' s' => steps s' = st /\ MInv a0 left mid right m1 m2 k' (arr s'))
     (mkSt a st).
Proof.
  intros HM. unfold Pure.copyRest.
  pose proof HM as (_ & Hj & _). fold m2 in Hj.
  apply (wp_for_up (fun j' k' s' =>
           steps s' = st /\ MInv a0 left mid right m1 j' k' (arr s'))); [lia|auto|].
  intros j' k' [a' st'] Hj' (HT' & HM'). cbn [arr steps] in *.
  pose proof HM' as (_ & _ & Hk & Hl & _). fold m1 in Hk.
  apply wp_bind, wp_getL; [rewrite pure_lenR; lia|]. rewrite pure_getR_at by lia.
  apply wp_bind, wp_writeA; [unfold m1 in *; lia|].
  apply wp_ret. cbn [arr steps]. split; [auto|].
  apply MInv_takeR; auto; unfold m1, m2 in *; lia.
Qed.

Lemma pure_mergeInPlace_spec st :
  wp (Pure.mergeInPlace left mid right)
     (fun _ s' =>
        steps s' = st /\ seg_perm a0 (arr s') left (right + 1) /\
        sorted_range (arr s') left (right + 1))
     (mkSt a0 st).
Proof.
  unfold Pure.mergeInPlace. cbv zeta. fold m1 m2.
  destruct (Z.ltb_spec m1 0); [unfold m1 in *; lia|].
  destruct (Z.ltb_spec m2 0); [unfold m2 in *; lia|]. cbn [orb].
  apply wp_bind. eapply wp_conseq.
  { apply (pure_copy_spec a0 st left m1); unfold m1; lia. }
  intros Lt' s' (-> & ->).
  replace (left + m1) with (mid + 1) by (unfold m1; lia). fold Lt.
  apply wp_bind. eapply wp_conseq.
  { apply (pure_copy_spec a0 st (mid + 1) m2); unfold m2; lia. }
  intros Rt' s' (-> & ->).
  replace (mid + 1 + m2) with (right + 1) by (unfold m2; lia). fold Rt.
  apply wp_bind. eapply wp_conseq.
  { apply (pure_mergeLoop_spec (Z.to_nat (m1 + m2)) 0 0 left).
    - apply MInv_init; auto.
    - unfold m1, m2; lia. }
  intros [[i j] k] [a1 st1] (HT1 & HM1 & Hor). cbn [fst snd arr steps] in *. subst st1.
  apply wp_bind. eapply wp_conseq.
  { apply (pure_copyRestL_spec i j k); eauto. }
  intros k1 [a2 st2] (HT2 & HM2). cbn [arr steps] in *. subst st2.
  apply wp_bind. eapply wp_conseq.
  { apply pure_copyRestR_spec; eauto. }
  intros k2 [a3 st3] (HT3 & HM3). cbn [arr steps] in *.
  apply wp_ret. cbn [arr steps].
  pose proof HM3 as (_ & _ & Hk3 & _). unfold m1, m2 in Hk3.
  replace k2 with (right + 1) in HM3 by lia.
  destruct (MInv_done a0 left mid right Hrange a3 HM3) as (HP & HS). auto.
Qed.

End PureMergeInPlace.

Lemma pure_mergeSortInPlace_spec : forall fuel left right a st,
  0 <= left -> right < len a -> left <= right + 1 ->
  right - left <= Z.of_nat fuel ->
  wp (Pure.mergeSortInPlace_rec fuel left right)
     (fun _ s' =>
        steps s' = st /\ seg_perm a (arr s') left (right + 1) /\
        sorted_range (arr s') left (right + 1))
     (mkSt a st).
Proof.
  induction fuel as [|fuel IH]; intros left right a st Hl Hr Hlr Hf;
    cbn [Pure.mergeSortInPlace_rec];
    destruct (Z.geb_spec left right) as [Hge|Hlt]; try lia;
    try (apply wp_ret; cbn [arr steps]; split; [auto|]; split; [apply seg_perm_refl|];
         intros p q Hp Hpq Hq; replace p with q by lia; lia).
  cbv zeta.
  pose proof (Z.div_mod (right - left) 2 ltac:(lia)) as Hdm.
  pose proof (Z.mod_pos_bound (right - left) 2 ltac:(lia)) as Hmb.
  set (mid := left + (right - left) / 2) in *.
  assert (Hmid : left <= mid < right) by (unfold mid; lia).
  clearbody mid. clear Hdm Hmb.
  apply wp_bind. eapply wp_conseq.
  { apply (IH left mid a st); lia. }
  intros [] [a1 st1] (E1 & HP1 & HS1). cbn [arr steps] in *. subst st1.
  assert (Hn1 : len a1 = len a) by (destruct HP1 as (H & _); exact H).
  apply wp_bind. eapply wp_conseq.
  { apply (IH (mid + 1) right a1 st); lia. }
  intros [] [a2 st2] (E2 & HP2 & HS2). cbn [arr steps] in *. subst st2.
  assert (Hn2 : len a2 = len a1) by (destruct HP2 as (H & _); exact H).
  eapply wp_conseq.
  { apply (pure_mergeInPlace_spec a2 left mid right); auto; try lia.
    apply (seg_perm_sorted_outside a1 a2 (mid + 1) (right + 1)); auto; lia. }
  intros [] [a3 st3] (E3 & HP3 & HS3). cbn [arr steps] in *. subst st3.
  split; [auto|]. split; [|auto].
  eapply seg_perm_trans; [|eapply seg_perm_trans; [|exact HP3]].
  - apply (seg_perm_mono a a1 left (mid + 1)); auto; lia.
  - apply (seg_perm_mono a1 a2 (mid + 1) (right + 1)); auto; lia.
Qed.

Lemma mergeSortInPlace_spec input left right :
  0 <= left -> right < len input -> left <= right + 1 ->
  exists result, Pure.mergeSortInPlace input left right = Some result /\
    seg_perm input result left (right + 1) /\ sorted_range result left (right + 1).
Proof.
  intros Hl Hr Hlr. unfold Pure.mergeSortInPlace.
  destruct (pure_mergeSortInPlace_spec (Z.to_nat (right - left)) left right input [])
    as ([] & [a st] & E & _ & HP & HS); try lia.
  rewrite E. exists a. auto.
Qed.

(** Without cells between the bounds nothing is read or written. *)
Lemma mergeSortInPlace_empty_range input left right :
  right <= left -> Pure.mergeSortInPlace input left right = Some input.
Proof.
  intros H. unfold Pure.mergeSortInPlace.
  destruct (Z.to_nat (right - left)); cbn [Pure.mergeSortInPlace_rec];
    destruct (Z.geb_spec left right); try lia; reflexivity.
Qed.

Lemma push_rest_all (a : list Z) : forall fuel result i,
  0 <= i <= len a -> len a - i <= Z.of_nat fuel ->
  Pure.push_rest fuel a result i = Some (result ++ slice a i (len a))%list.
Proof.
  induction fuel as [|fuel IH]; intros result i Hi Hf; cbn [Pure.push_rest];
    destruct (Z.ltb_spec i (len a)) as [Hlt|Hge]; try lia;
    try (unfold slice; replace (Z.to_nat (len a - i)) with 0%nat by lia;
         cbn [firstn]; now rewrite app_nil_r).
  rewrite js_get_in by lia. rewrite IH by lia.
  rewrite <- app_assoc. f_equal. cbn [app].
  rewrite (slice_app a i (i + 1) (len a)) by lia.
  f_equal. replace (i + 1) with (i + 0 + 1) at 1 by lia.
  rewrite slice_snoc by lia. unfold slice. rewrite Z.add_0_r, Z.sub_diag. reflexivity.
Qed.

Lemma merge_while_stop fuel (left right result : list Z) i j :
  (i <? len left) && (j <? len right) = false ->
  Pure.merge_while fuel left right result i j = Some (result, i, j).
Proof. intros H. destruct fuel; cbn [Pure.merge_while]; now rewrite H. Qed.

Lemma merge_nil_l (right : list Z) : Pure.merge [] right = Some right.
Proof.
  unfold Pure.merge. rewrite merge_while_stop by reflexivity.
  replace (Pure.push_rest (List.length (@nil Z)) [] [] 0) with (Some (@nil Z)) by reflexivity.
  rewrite push_rest_all by (unfold len; lia). now rewrite slice_full.
Qed.

Lemma merge_nil_r (left : list Z) : Pure.merge left [] = Some left.
Proof.
  unfold Pure.merge. rewrite merge_while_stop by apply andb_false_r.
  rewrite push_rest_all by (unfold len; lia). rewrite slice_full. reflexivity.
Qed.

(** [merge] joins two arrays into a rearrangement of their cells, which is
    in ascending order if the two arrays are; an empty array is joined to
    the other array as it is. *)
Theorem pure_merge_joins (left right : list Z) :
  exists result, Pure.merge left right = Some result /\
    Permutation (left ++ right) result /\
    len result = len left + len right /\
    (StronglySorted Z.le left -> StronglySorted Z.le right ->
     StronglySorted Z.le result) /\
    (left = [] -> result = right) /\ (right = [] -> result = left).
Proof.
  destruct (pure_merge_spec left right) as (result & E & Hp & Hs).
  exists result. split; [exact E|]. split; [exact Hp|].
  split; [unfold len; rewrite <- (Permutation_length Hp), length_app; lia|].
  split; [exact Hs|]. split; intros ->.
  - rewrite merge_nil_l in E. congruence.
  - rewrite merge_nil_r in E. congruence.
Qed.

(** [mergeSort] returns the array in ascending order; an array of at most
    one cell is returned as it is. *)
Theorem pure_mergeSort_sorts (arr : list Z) :
  exists result, Pure.mergeSort arr = Some result /\ is_sort_of arr result /\
                 (len arr <= 1 -> result = arr).
Proof.
  destruct (mergeSort_rec_spec (List.length arr) arr (Nat.le_refl _)) as (result & E & H).
  exists result. split; [exact E|]. split; [exact H|].
  intros Hle. unfold Pure.mergeSort in E.
  destruct (List.length arr); cbn [Pure.mergeSort_rec] in E;
    destruct (Z.leb_spec (len arr) 1); try lia; congruence.
Qed.

(** [mergeSortInPlace] puts the cells from [left] to [right] in ascending
    order and leaves the other cells alone; with [right <= left] it leaves
    the whole array alone, whatever the bounds. *)
Theorem pure_mergeSortInPlace_sorts_range (arr : list Z) (left right : Z) :
  0 <= left -> right < len arr ->
  exists result, Pure.mergeSortInPlace arr left right = Some result /\
    len result = len arr /\
    (forall k, 0 <= k < len arr -> ~ (left <= k <= right) -> zget result k = zget arr k) /\
    Permutation (slice arr left (right + 1)) (slice result left (right + 1)) /\
    sorted_range result left (right + 1) /\
    (right <= left -> result = arr).
Proof.
  intros Hl Hr. destruct (Z.le_gt_cases right left) as [Hle|Hgt].
  - exists arr. rewrite mergeSortInPlace_empty_range by lia.
    split; [reflexivity|]. split; [reflexivity|]. split; [auto|]. split; [apply Permutation_refl|].
    split; [|auto]. intros p q Hp Hpq Hq. replace p with q by lia. lia.
  - destruct (mergeSortInPlace_spec arr left right Hl Hr ltac:(lia))
      as (result & E & (Hlen & Hout & Hp) & Hs).
    exists result. split; [exact E|]. split; [exact Hlen|].
    split; [intros k Hk Hn; apply Hout; [lia|lia]|]. split; [exact Hp|].
    split; [exact Hs|]. intros; lia.
Qed.

Lemma pure_mergeSortInPlace_sorts_range_witness :
  exists result, Pure.mergeSortInPlace [9; 38; 27; 43; 10; 1] 1 4 = Some result /\
    len result = len [9; 38; 27; 43; 10; 1] /\
    (forall k, 0 <= k < len [9; 38; 27; 43; 10; 1] -> ~ (1 <= k <= 4) ->
               zget result k = zget [9; 38; 27; 43; 10; 1] k) /\
    Permutation (slice [9; 38; 27; 43; 10; 1] 1 (4 + 1)) (slice result 1 (4 + 1)) /\
    sorted_range result 1 (4 + 1) /\
    (4 <= 1 -> result = [9; 38; 27; 43; 10; 1]).
Proof.
  apply (pure_mergeSortInPlace_sorts_range [9; 38; 27; 43; 10; 1] 1 4);
    [lia|vm_compute; reflexivity].
Defined.

(** The pure merge sort, the in-place merge sort with its default bounds
    and the sort of the language give the same array: the answer of the
    sorting tool does not depend on the algorithm that is selected. *)
Theorem sorts_agree (numbers : list Z) :
  Pure.mergeSort numbers = Some (sort_asc numbers) /\
  Pure.mergeSortInPlace numbers 0 (len numbers - 1) = Some (sort_asc numbers) /\
  (forall selectedAlgorithm, toolSort selectedAlgorithm numbers = Some (sort_asc numbers)) /\
  is_sort_of numbers (sort_asc numbers).
Proof.
  pose proof (sort_asc_sorts numbers) as Hs.
  assert (Hm : Pure.mergeSort numbers = Some (sort_asc numbers)).
  { destruct (mergeSort_rec_spec (List.length numbers) numbers (Nat.le_refl _)) as (r & E & H).
    unfold Pure.mergeSort. rewrite E. f_equal. eapply is_sort_of_unique; eauto. }
  split; [exact Hm|]. split; [|split; [|exact Hs]].
  - pose proof (len_nonneg numbers) as Hn.
    destruct (mergeSortInPlace_spec numbers 0 (len numbers - 1)) as (r & E & HP & HS);
      [lia|lia|lia|].
    rewrite E. f_equal. apply (is_sort_of_unique numbers); [|exact Hs].
    replace (len numbers - 1 + 1) with (len numbers) in * by lia.
    split; [|now apply seg_perm_all].
    apply sorted_range_all. destruct HP as (Hl & _). now rewrite Hl.
  - intros e. destruct e; cbn [toolSort]; auto.
Qed.

(** The six engines end on the same array, the one that the sorting tool
    gives: the snapshot of the last step of a trace is the input as the
    pure merge sort and the sort of the language order it. *)
Theorem engines_end_on_the_sorted_array (e : Algorithm) (input : list Z) :
  exists t, generateSteps e input = Some t /\
    forall s, last_step t = Some s ->
      arrayState s = sort_asc input /\ Pure.mergeSort input = Some (arrayState s).
Proof.
  destruct (generateSteps_ok e input) as (t & E & Hpost).
  exists t. split; [exact E|]. intros s Hs.
  destruct (last_step_inv t s Hs) as (t' & Et).
  assert (Ek : js_get t (len t - 1) = Some s).
  { subst t. unfold js_get, len. rewrite length_app. cbn [List.length].
    destruct (Z.ltb_spec (Z.of_nat (List.length t' + 1) - 1) 0); [lia|].
    replace (Z.to_nat (Z.of_nat (List.length t' + 1) - 1)) with (List.length t') by lia.
    rewrite nth_error_app2 by lia. now rewrite Nat.sub_diag. }
  pose proof (last_snapshot_sorted e input t s Hpost Ek) as Hsorted.
  assert (Es : arrayState s = sort_asc input).
  { eapply is_sort_of_unique; [exact Hsorted|apply sort_asc_sorts]. }
  split; [exact Es|]. rewrite Es.
  destruct (mergeSort_rec_spec (List.length input) input (Nat.le_refl _)) as (r & Er & H).
  unfold Pure.mergeSort. rewrite Er. f_equal.
  eapply is_sort_of_unique; [exact H|apply sort_asc_sorts].
Qed.

(** ** Helpers *)

Lemma every_equal_spec : forall arr1 arr2 idx,
  0 <= idx ->
  every_equal idx arr1 arr2 = true <->
  firstn (List.length arr1) (skipn (Z.to_nat idx) arr2) = arr1 /\
  (List.length arr1 <= List.length (skipn (Z.to_nat idx) arr2))%nat.
Proof.
  induction arr1 as [|val rest IH]; intros arr2 idx Hidx; cbn [every_equal List.length firstn].
  - split; [intros _; split; [reflexivity|lia]|reflexivity].
  - unfold js_get. destruct (Z.ltb_spec idx 0); [lia|].
    destruct (nth_error arr2 (Z.to_nat idx)) as [y|] eqn:En; cbn [strict_eq].
    + apply nth_error_split in En. destruct En as (l1 & l2 & E & Hl).
      assert (Es : skipn (Z.to_nat idx) arr2 = y :: l2).
      { rewrite E, <- Hl. rewrite skipn_app, Nat.sub_diag, skipn_all. reflexivity. }
      assert (Es' : skipn (Z.to_nat (idx + 1)) arr2 = l2).
      { replace (Z.to_nat (idx + 1)) with (S (Z.to_nat idx)) by lia.
        rewrite E, <- Hl. rewrite skipn_app.
        replace (S (List.length l1) - List.length l1)%nat with 1%nat by lia.
        rewrite skipn_all2 by lia. reflexivity. }
      rewrite Es. cbn [firstn List.length].
      destruct (Z.eqb_spec val y) as [->|Hne].
      * rewrite IH by lia. rewrite Es'. split.
        -- intros (H1 & H2). split; [now rewrite H1|lia].
        -- intros (H1 & H2). injection H1 as H1. split; [exact H1|lia].
      * split; [discriminate|]. intros (H1 & _). congruence.
    + apply nth_error_None in En. rewrite skipn_all2 by lia.
      cbn [firstn]. split; [discriminate|]. intros (H1 & _). discriminate.
Qed.

(** [arraysEqual] tells whether two arrays of integers are the same array,
    cell by cell. *)
Theorem arraysEqual_decides_equality (arr1 arr2 : list Z) :
  arraysEqual arr1 arr2 = true <-> arr1 = arr2.
Proof.
  unfold arraysEqual. destruct (Z.eqb_spec (len arr1) (len arr2)) as [El|Hne]; cbn [negb].
  - rewrite every_equal_spec by lia. cbn [Z.to_nat skipn]. unfold len in El. split.
    + intros (H & _). rewrite <- H. replace (List.length arr1) with (List.length arr2) by lia.
      now rewrite firstn_all.
    + intros ->. split; [apply firstn_all|lia].
  - split; [discriminate|]. intros ->. contradiction.
Qed.

Lemma show_Z_inj a b : show_Z a = show_Z b -> a = b.
Proof.
  unfold show_Z. intros H.
  assert (N : forall z, Z.to_int z <> Decimal.Pos Decimal.Nil /\
                        Z.to_int z <> Decimal.Neg Decimal.Nil).
  { intros [|p|p]; cbn [Z.to_int]; split; try discriminate;
      intros [= E]; now apply DecimalPos.Unsigned.to_uint_nonnil in E. }
  apply (f_equal NilZero.int_of_string) in H.
  rewrite !NilZero.isi in H by apply N.
  injection H as H. apply (f_equal Z.of_int) in H.
  now rewrite !DecimalZ.of_to in H.
Qed.

Lemma string_length_append (s t : string) :
  String.length (s ++ t) = (String.length s + String.length t)%nat.
Proof. induction s as [|c s IH]; cbn; [reflexivity|now rewrite IH]. Qed.

Lemma string_append_inj (s1 s2 t1 t2 : string) :
  String.length t1 = String.length t2 -> (s1 ++ t1 = s2 ++ t2)%string ->
  s1 = s2 /\ t1 = t2.
Proof.
  intros Hl. revert s2. induction s1 as [|c s1 IH]; intros [|c2 s2] H; cbn in H.
  - auto.
  - exfalso. apply (f_equal String.length) in H. cbn in H.
    rewrite string_length_append in H. lia.
  - exfalso. apply (f_equal String.length) in H. cbn in H.
    rewrite string_length_append in H. lia.
  - injection H as -> H. destruct (IH _ H) as (-> & ->). auto.
Qed.

(** The seconds are shown with two digits. *)
Lemma padStart2_two_digits (s : Z) :
  0 <= s < 60 ->
  padStart2 (show_Z s) =
  String (ascii_of_nat (48 + Z.to_nat (s / 10)))
         (String (ascii_of_nat (48 + Z.to_nat (s mod 10))) "").
Proof.
  intros H. rewrite <- (Z2Nat.id s) by lia.
  assert (Hn : (Z.to_nat s < 60)%nat) by lia.
  generalize dependent (Z.to_nat s). clear. intros n Hn.
  do 60 (destruct n as [|n]; [reflexivity|]). lia.
Qed.

(** [formatTime] shows the whole seconds of a time that is not negative,
    the seconds with two digits, and shows two times alike only if they are
    in the same second. *)
Theorem formatTime_shows_whole_seconds (a b : Z) :
  0 <= a -> 0 <= b ->
  formatTime a =
    (show_Z (a / 60000) ++ ":" ++
     String (ascii_of_nat (48 + Z.to_nat (a / 1000 mod 60 / 10)))
            (String (ascii_of_nat (48 + Z.to_nat (a / 1000 mod 60 mod 10))) ""))%string /\
  (formatTime a = formatTime b <-> a / 1000 = b / 1000).
Proof.
  intros Ha Hb.
  assert (F : forall x, 0 <= x ->
            formatTime x =
            (show_Z (x / 1000 / 60) ++ ":" ++
             String (ascii_of_nat (48 + Z.to_nat (x / 1000 mod 60 / 10)))
                    (String (ascii_of_nat (48 + Z.to_nat (x / 1000 mod 60 mod 10))) ""))%string).
  { intros x Hx. unfold formatTime. cbv zeta.
    assert (0 <= x / 1000) by (apply Z.div_pos; lia).
    rewrite Z.rem_mod_nonneg by lia.
    rewrite padStart2_two_digits by (apply Z.mod_pos_bound; lia). reflexivity. }
  split.
  - rewrite F by lia. rewrite Z.div_div by lia. reflexivity.
  - split; [|intros H; unfold formatTime; now rewrite H].
    rewrite !F by lia. intros H.
    apply string_append_inj in H; [|reflexivity].
    destruct H as (Hm & Hs). apply show_Z_inj in Hm.
    injection Hs as H1 H2.
    pose proof (Z.mod_pos_bound (a / 1000) 60 ltac:(lia)) as Ba.
    pose proof (Z.mod_pos_bound (b / 1000) 60 ltac:(lia)) as Bb.
    set (sa := a / 1000 mod 60) in *. set (sb := b / 1000 mod 60) in *.
    assert (D1 : sa / 10 = sb / 10).
    { apply (f_equal nat_of_ascii) in H1.
      assert (0 <= sa / 10 < 6) by (split; [apply Z.div_pos; lia|apply Z.div_lt_upper_bound; lia]).
      assert (0 <= sb / 10 < 6) by (split; [apply Z.div_pos; lia|apply Z.div_lt_upper_bound; lia]).
      rewrite !nat_ascii_embedding in H1 by lia. lia. }
    assert (D2 : sa mod 10 = sb mod 10).
    { apply (f_equal nat_of_ascii) in H2.
      pose proof (Z.mod_pos_bound sa 10 ltac:(lia)).
      pose proof (Z.mod_pos_bound sb 10 ltac:(lia)).
      rewrite !nat_ascii_embedding in H2 by lia. lia. }
    assert (Es : sa = sb).
    { rewrite (Z.div_mod sa 10), (Z.div_mod sb 10) by lia. lia. }
    rewrite (Z.div_mod (a / 1000) 60), (Z.div_mod (b / 1000) 60) by lia.
    fold sa sb. lia.
Qed.

Lemma formatTime_shows_whole_seconds_witness :
  formatTime 61500 =
    (show_Z (61500 / 60000) ++ ":" ++
     String (ascii_of_nat (48 + Z.to_nat (61500 / 1000 mod 60 / 10)))
            (String (ascii_of_nat (48 + Z.to_nat (61500 / 1000 mod 60 mod 10))) ""))%string /\
  (formatTime 61500 = formatTime 61999 <-> 61500 / 1000 = 61999 / 1000).
Proof. apply (formatTime_shows_whole_seconds 61500 61999); lia. Defined.

(** ** The end of a game *)

(** [completeGame] closes the session and adds the bonuses for time and
    accuracy: at least nothing and, unless the clock ran backwards, at most
    350 points, of which 150 for a game without incorrect move or 100 for
    nine correct moves in ten.  The quotient of the counts is a rounded
    one: with 2^54 correct moves it is 1 in spite of an incorrect move
    ([accuracy_rounds_to_one]), so that the bounds that depend on it are
    given for at most 2^53 moves, and a game of more than 2^50 moves can get
    the 100 points with a little less than nine correct moves in ten. *)
Theorem completeGame_bonus_bounds (now start : Z) (g : GM.t) :
  GM.startTime g = Some start -> start <= now ->
  0 <= GM.correctMoves g -> 0 <= GM.incorrectMoves g ->
  let g' := GM.completeGame now g in
  GM.isGameComplete g' = true /\ GM.isGameActive g' = false /\
  GM.endTime g' = Some now /\ GM.currentArray g' = GM.currentArray g /\
  GM.score g <= GM.score g' <= GM.score g + 350 /\
  (GM.incorrectMoves g = 0 -> 0 < GM.correctMoves g -> GM.score g + 150 <= GM.score g') /\
  (0 < GM.incorrectMoves g ->
   GM.correctMoves g + GM.incorrectMoves g <= 2 ^ 53 ->
   GM.score g' <= GM.score g + 300) /\
  (GM.correctMoves g = 0 -> GM.score g' <= GM.score g + 200) /\
  (0 < GM.correctMoves g + GM.incorrectMoves g <= 2 ^ 53 ->
   9 * (GM.correctMoves g + GM.incorrectMoves g) <= 10 * GM.correctMoves g ->
   GM.score g + 100 <= GM.score g') /\
  (10 * GM.correctMoves g < 9 * (GM.correctMoves g + GM.incorrectMoves g) ->
   GM.correctMoves g + GM.incorrectMoves g <= 2 ^ 50 ->
   GM.score g' <= GM.score g + 200).
Proof.
  intros Hst Hnow Hc Hi. cbv zeta.
  destruct (accuracy_tests _ _ Hc Hi) as (A1 & A2 & A3 & A4 & A5). cbv zeta in *.
  unfold GM.completeGame. cbv zeta. cbn [GM.score GM.isGameComplete
    GM.isGameActive GM.endTime GM.currentArray]. rewrite Hst.
  match goal with |- context [Qlt_le_dec ?t ?o] => set (tt := t); set (opt := o) end.
  set (score1 := if Qlt_le_dec tt opt
                 then match Binary64.div tt opt with
                      | Binary64.Finite ratio =>
                          GM.score g + Math_round (Binary64.mul 200 (Binary64.sub 1 ratio))
                      | _ => GM.score g
                      end
                 else GM.score g).
  assert (H1 : GM.score g <= score1 <= GM.score g + 200).
  { unfold score1. destruct (Qlt_le_dec tt opt) as [Hlt|Hle]; [|lia].
    destruct (Binary64.div tt opt) as [ratio| | |] eqn:Ed; try lia.
    assert (H0 : 0 <= len (GM.steps g) * 2) by (pose proof (len_nonneg (GM.steps g)); lia).
    destruct (timeBonus_bounds tt ratio _ H0 Hlt Ed) as (Hlo & Hhi).
    assert (Ht : (0 <= tt)%Q).
    { unfold tt. apply binary64_round_nonneg.
      apply Qle_shift_div_l; [reflexivity|]. rewrite Qmult_0_l.
      change 0%Q with (inject_Z 0). rewrite <- Zle_Qle. lia. }
    specialize (Hhi Ht). lia. }
  clearbody score1.
  split; [reflexivity|]. split; [reflexivity|]. split; [reflexivity|]. split; [reflexivity|].
  set (accuracy := Binary64.div (inject_Z (GM.correctMoves g))
                     (inject_Z (GM.correctMoves g + GM.incorrectMoves g))) in *.
  destruct (Binary64.eq accuracy 1) eqn:E1;
    [|destruct (Binary64.ge accuracy (Binary64.round (9 # 10))) eqn:E9].
  - split; [lia|]. split; [lia|].
    split.
    { intros Hp Hb. exfalso.
      assert (Hlt : GM.correctMoves g < (2 ^ 54 - 1) * GM.incorrectMoves g)
        by (change (2 ^ 54) with 18014398509481984;
            change (2 ^ 53) with 9007199254740992 in Hb; lia).
      discriminate (A2 Hlt). }
    split; [intros H; destruct (A5 H); discriminate|]. split; [lia|].
    intros H Hb. exfalso.
    assert (Hlt : GM.correctMoves g < (2 ^ 54 - 1) * GM.incorrectMoves g)
      by (change (2 ^ 54) with 18014398509481984;
          change (2 ^ 50) with 1125899906842624 in Hb; lia).
    discriminate (A2 Hlt).
  - split; [lia|].
    split; [intros H H'; discriminate (A1 H H')|].
    split; [lia|].
    split; [intros H; destruct (A5 H); discriminate|]. split; [lia|].
    intros H Hb. discriminate (A4 H Hb).
  - split; [lia|].
    split; [intros H H'; discriminate (A1 H H')|].
    split; [lia|]. split; [lia|].
    split; [intros (H & _) H'; discriminate (A3 H H')|lia].
Qed.

Lemma completeGame_bonus_bounds_witness :
  let g' := GM.completeGame 2000 midgame_session in
  GM.isGameComplete g' = true /\ GM.isGameActive g' = false /\
  GM.endTime g' = Some 2000 /\ GM.currentArray g' = GM.currentArray midgame_session /\
  GM.score midgame_session <= GM.score g' <= GM.score midgame_session + 350 /\
  (GM.incorrectMoves midgame_session = 0 -> 0 < GM.correctMoves midgame_session ->
   GM.score midgame_session + 150 <= GM.score g') /\
  (0 < GM.incorrectMoves midgame_session ->
   GM.correctMoves midgame_session + GM.incorrectMoves midgame_session <= 2 ^ 53 ->
   GM.score g' <= GM.score midgame_session + 300) /\
  (GM.correctMoves midgame_session = 0 -> GM.score g' <= GM.score midgame_session + 200) /\
  (0 < GM.correctMoves midgame_session + GM.incorrectMoves midgame_session <= 2 ^ 53 ->
   9 * (GM.correctMoves midgame_session + GM.incorrectMoves midgame_session)
     <= 10 * GM.correctMoves midgame_session ->
   GM.score midgame_session + 100 <= GM.score g') /\
  (10 * GM.correctMoves midgame_session
     < 9 * (GM.correctMoves midgame_session + GM.incorrectMoves midgame_session) ->
   GM.correctMoves midgame_session + GM.incorrectMoves midgame_session <= 2 ^ 50 ->
   GM.score g' <= GM.score midgame_session + 200).
Proof.
  apply (completeGame_bonus_bounds 2000 0 midgame_session);
    [reflexivity|lia|vm_compute; discriminate|vm_compute; discriminate].
Defined.

(** ** Scoring policy: bonuses, grades and achievements *)

(** The average time of a move is less than 2 when the exact quotient is
    less than 2 - 2^-53, the middle of the way from the last binary64 number
    before 2. *)
Lemma average_test (t : Q) (c : Z) :
  0 < c ->
  Binary64.lt (Binary64.div t (inject_Z c)) 2
  = negb (Qle_bool ((18014398509481983 # 9007199254740992) * inject_Z c) t).
Proof.
  intros Hc. unfold Binary64.div. rewrite Qeq_bool_inject_Z.
  destruct (Z.eqb_spec c 0); [lia|]. cbn [Binary64.lt]. f_equal.
  assert (Hp : (0 < inject_Z c)%Q) by (change 0%Q with (inject_Z 0); now rewrite <- Zlt_Qlt).
  apply eq_true_iff_eq. rewrite !Qle_bool_iff. split; intros H.
  - (* below the middle the quotient is rounded down *)
    apply Qnot_lt_le. intros Hlt.
    assert (Hq : (t / inject_Z c < 18014398509481983 # 9007199254740992)%Q)
      by (apply Qlt_shift_div_r; [exact Hp|exact Hlt]).
    assert (Hr : (Binary64.round (t / inject_Z c)
                  <= 9007199254740991 # 4503599627370496)%Q).
    { destruct (Qlt_le_dec (9007199254740991 # 4503599627370496) (t / inject_Z c))
        as [Hb|Hs].
      - rewrite (binary64_round_down 9007199254740991 (-52) (t / inject_Z c)).
        + vm_compute. discriminate.
        + lia.
        + apply Qlt_le_weak. revert Hb. apply Qle_lt_trans. vm_compute. discriminate.
        + apply Qlt_le_trans with (1 := Hq). vm_compute. discriminate.
      - apply binary64_round_le; [vm_compute; reflexivity|exact Hs]. }
    pose proof (Qle_trans _ _ _ H Hr) as F. revert F. vm_compute. intros F. apply F. reflexivity.
  - (* the middle itself is a tie, and the even neighbour is 2 *)
    apply Qle_trans with (Binary64.round (18014398509481983 # 9007199254740992)).
    + vm_compute. discriminate.
    + apply binary64_round_mono. apply Qle_shift_div_l; [exact Hp|exact H].
Qed.

(** The bonuses of a game whose counts and time are not negative: 150 for a
    game without incorrect move, or else 100 for at least nine correct
    moves in ten, never both; 200 for less than two seconds a correct move;
    nothing at all for a game without moves.  The two quotients are rounded
    ones: the 100 points are given for at most 2^53 moves, beyond 2^50
    moves a little less than nine correct moves in ten can get them too,
    and an average time within 2^-53 of 2 seconds counts as 2 seconds. *)
Theorem calculateGameBonuses_table (c i : Z) (t : Q) :
  0 <= c -> 0 <= i -> (0 <= t)%Q ->
  let b := Scoring.calculateGameBonuses (Scoring.mkGameStats c i t) in
  Scoring.total b = Scoring.perfect b + Scoring.accuracy b + Scoring.speed b /\
  Scoring.perfect b = (if (i =? 0) && (0 <? c) then 150 else 0) /\
  (c + i <= 2 ^ 50 ->
   Scoring.accuracy b = (if (0 <? i) && (9 * (c + i) <=? 10 * c) then 100 else 0)) /\
  (0 < i -> c + i <= 2 ^ 53 -> 9 * (c + i) <= 10 * c -> Scoring.accuracy b = 100) /\
  (i = 0 -> Scoring.accuracy b = 0) /\
  Scoring.speed b
    = (if (0 <? c) &&
          negb (Qle_bool ((18014398509481983 # 9007199254740992) * inject_Z c) t)
       then 200 else 0) /\
  ((2 * inject_Z c <= t)%Q -> Scoring.speed b = 0) /\
  (Scoring.perfect b = 0 \/ Scoring.accuracy b = 0) /\
  0 <= Scoring.total b <= 350 /\
  (c = 0 -> i = 0 -> Scoring.total b = 0).
Proof.
  intros Hc Hi Ht. cbv zeta. unfold Scoring.calculateGameBonuses. cbv zeta.
  cbn [Scoring.correctMoves Scoring.incorrectMoves Scoring.timeTaken
       Scoring.total Scoring.perfect Scoring.accuracy Scoring.speed].
  unfold Scoring.perfectGameBonus, Scoring.highAccuracyBonus, Scoring.fastCompletionBonus.
  rewrite Z.gtb_ltb.
  destruct (accuracy_tests c i Hc Hi) as (_ & _ & A3 & A4 & A5). cbv zeta in A3, A4, A5.
  set (ge9 := Binary64.ge (Binary64.div (inject_Z c) (inject_Z (c + i)))
                (Binary64.round (9 # 10))) in *.
  assert (Es : Binary64.lt (Binary64.div t (inject_Z c)) 2
               = (0 <? c) &&
                 negb (Qle_bool ((18014398509481983 # 9007199254740992) * inject_Z c) t)).
  { destruct (Z.ltb_spec 0 c) as [Hp|Hz]; cbn [andb].
    - now apply average_test.
    - assert (c = 0) as -> by lia. unfold Binary64.div.
      change (Qeq_bool (inject_Z 0) 0) with true. cbv iota.
      destruct (Qeq_bool t 0); [reflexivity|].
      assert (Qle_bool 0 t = true) as -> by (now apply Qle_bool_iff). reflexivity. }
  rewrite Es.
  assert (Hs : (2 * inject_Z c <= t)%Q -> 0 < c ->
               Qle_bool ((18014398509481983 # 9007199254740992) * inject_Z c) t = true).
  { intros H Hp. apply Qle_bool_iff. apply Qle_trans with (2 := H).
    apply Qmult_le_compat_r; [discriminate|].
    change 0%Q with (inject_Z 0). rewrite <- Zle_Qle. lia. }
  split; [reflexivity|]. split; [reflexivity|].
  split; [|split; [|split; [|split; [reflexivity|split; [|split; [|split]]]]]].
  - intros Hb.
    destruct (Z.eqb_spec i 0) as [Ei|Ni], (Z.ltb_spec 0 c) as [Pc|Zc],
             (Z.ltb_spec 0 i) as [Pi|Zi],
             (Z.leb_spec (9 * (c + i)) (10 * c)) as [Hr|Hr];
      cbn [andb negb Z.eqb]; try lia;
      try (rewrite A3 by lia); try (rewrite A4 by lia);
      try (destruct A5 as (_ & ->); [lia|]); try reflexivity;
      destruct ge9; reflexivity.
  - intros Pi _ Hr. rewrite A3 by lia.
    destruct (Z.eqb_spec i 0); [lia|]. reflexivity.
  - intros ->. destruct (Z.ltb_spec 0 c) as [Pc|Zc]; cbn [andb Z.eqb].
    + rewrite andb_false_r. reflexivity.
    + destruct A5 as (_ & ->); [lia|]. reflexivity.
  - intros H. destruct (Z.ltb_spec 0 c) as [Pc|Zc]; cbn [andb]; [|reflexivity].
    rewrite (Hs H Pc). reflexivity.
  - destruct ((i =? 0) && (0 <? c)); cbn [Z.eqb]; [right|left; reflexivity].
    rewrite andb_false_r. reflexivity.
  - destruct ((i =? 0) && (0 <? c)); cbn [Z.eqb]; rewrite ?andb_false_r, ?andb_true_r;
      destruct ge9;
      destruct ((0 <? c) &&
                negb (Qle_bool ((18014398509481983 # 9007199254740992) * inject_Z c) t));
      lia.
  - intros -> ->. cbn [Z.ltb Z.eqb andb Z.compare]. cbn [Z.add] in *.
    destruct A5 as (_ & E); [reflexivity|]. unfold ge9 in *. cbn [Z.add] in E.
    rewrite E. reflexivity.
Qed.

Lemma calculateGameBonuses_table_witness :
  let b := Scoring.calculateGameBonuses (Scoring.mkGameStats 19 1 (30 # 1)) in
  Scoring.total b = Scoring.perfect b + Scoring.accuracy b + Scoring.speed b /\
  Scoring.perfect b = (if (1 =? 0) && (0 <? 19) then 150 else 0) /\
  (19 + 1 <= 2 ^ 50 ->
   Scoring.accuracy b = (if (0 <? 1) && (9 * (19 + 1) <=? 10 * 19) then 100 else 0)) /\
  (0 < 1 -> 19 + 1 <= 2 ^ 53 -> 9 * (19 + 1) <= 10 * 19 -> Scoring.accuracy b = 100) /\
  (1 = 0 -> Scoring.accuracy b = 0) /\
  Scoring.speed b
    = (if (0 <? 19) &&
          negb (Qle_bool ((18014398509481983 # 9007199254740992) * inject_Z 19) (30 # 1))
       then 200 else 0) /\
  ((2 * inject_Z 19 <= 30 # 1)%Q -> Scoring.speed b = 0) /\
  (Scoring.perfect b = 0 \/ Scoring.accuracy b = 0) /\
  0 <= Scoring.total b <= 350 /\
  (19 = 0 -> 1 = 0 -> Scoring.total b = 0).
Proof.
  apply (calculateGameBonuses_table 19 1 (30 # 1)); [lia|lia|discriminate].
Defined.

Lemma grade_test (k s : Z) (difficulty : option Difficulty) :
  let m := match difficulty with
           | Some d => ScoringSystem.difficultyMultipliers d
           | None => 1%Q
           end in
  Qle_bool (inject_Z k) (inject_Z s / m) = (k * Qnum m <=? s * Z.pos (Qden m)) /\
  ((inject_Z k * m <= inject_Z s)%Q <-> k * Qnum m <= s * Z.pos (Qden m)).
Proof.
  cbv zeta.
  set (m := match difficulty with
            | Some d => ScoringSystem.difficultyMultipliers d
            | None => 1%Q
            end).
  assert (Hm : (0 < m)%Q) by (unfold m; destruct difficulty as [[]|]; reflexivity).
  assert (E : (inject_Z k * m <= inject_Z s)%Q <-> k * Qnum m <= s * Z.pos (Qden m)).
  { unfold Qle. cbn [Qnum Qden Qmult inject_Z]. rewrite Z.mul_1_r.
    rewrite Pos.mul_1_l. reflexivity. }
  split; [|exact E].
  apply eq_true_iff_eq. rewrite Qle_bool_iff, Z.leb_le, <- E. split; intros H.
  - apply (Qmult_le_r _ _ _ Hm) in H.
    unfold Qdiv in H. rewrite <- Qmult_assoc, (Qmult_comm (/ _)), Qmult_inv_r, Qmult_1_r in H
      by (intros E'; rewrite E' in Hm; discriminate).
    exact H.
  - apply Qle_shift_div_l; [exact Hm|exact H].
Qed.

(** The products of the points and the multipliers, and the halves and
    quarters of the sizes, are binary64 numbers: rounding leaves them as
    they are. *)
Lemma points_product_exact (d : Difficulty) (streakBonus : Z) :
  streakBonus = 0 \/ streakBonus = 50 ->
  (Binary64.mul (inject_Z (100 + streakBonus)) (GM.bonus d)
   == inject_Z (100 + streakBonus) * GM.bonus d)%Q /\
  (Binary64.mul (inject_Z (100 + streakBonus)) (ScoringSystem.difficultyMultipliers d)
   == inject_Z (100 + streakBonus) * ScoringSystem.difficultyMultipliers d)%Q.
Proof. intros [->| ->]; destruct d; split; vm_compute; reflexivity. Qed.

Lemma size_quotients_exact (d : Difficulty) :
  (Binary64.round (inject_Z (GM.size d) / 4) == inject_Z (GM.size d) / 4)%Q /\
  (Binary64.round (inject_Z (GM.size d) / 2) == inject_Z (GM.size d) / 2)%Q.
Proof. destruct d; split; vm_compute; reflexivity. Qed.

(** The quotient of [calculateGrade] is compared with the thresholds of the
    table only: the rounded quotient reaches a threshold exactly when the
    exact one does, whatever the score. *)
Lemma grade_quotient_test (k s : Z) (difficulty : option Difficulty) :
  In k (map Scoring.min Scoring.grades) ->
  let m := match difficulty with
           | Some d => ScoringSystem.difficultyMultipliers d
           | None => 1%Q
           end in
  Binary64.ge (Binary64.div (inject_Z s) m) (inject_Z k)
  = Qle_bool (inject_Z k) (inject_Z s / m).
Proof.
  intros Hk. cbv zeta.
  set (m := match difficulty with
            | Some d => ScoringSystem.difficultyMultipliers d
            | None => 1%Q
            end).
  assert (Hm : (0 < m)%Q) by (unfold m; destruct difficulty as [[]|]; reflexivity).
  assert (Hn : 1 <= Qnum m <= 3 /\ 1 <= Z.pos (Qden m))
    by (unfold m; destruct difficulty as [[]|]; cbn; lia).
  unfold Binary64.div.
  assert (Qeq_bool m 0 = false) as -> by (unfold m; destruct difficulty as [[]|]; reflexivity).
  cbn [Binary64.ge].
  assert (Hr : (Binary64.round (inject_Z k) == inject_Z k)%Q /\
               (Binary64.round (inject_Z k - (1 # 4)) == inject_Z k - (1 # 4))%Q).
  { cbn in Hk. repeat (destruct Hk as [<-|Hk]; [split; vm_compute; reflexivity|]).
    destruct Hk. }
  destruct Hr as (Hr1 & Hr2).
  apply eq_true_iff_eq. rewrite !Qle_bool_iff. split; intros H.
  - apply Qnot_lt_le. intros Hlt.
    assert (Hq : (inject_Z s / m <= inject_Z k - (1 # 4))%Q).
    { apply Qle_shift_div_r; [exact Hm|].
      destruct (proj2 (grade_test k s difficulty)) as (_ & Hz). fold m in Hz.
      assert (Hlt' : s * Z.pos (Qden m) < k * Qnum m).
      { apply Z.lt_nge. intros Hge.
        apply (Qlt_not_le _ _ Hlt). apply Qle_shift_div_l; [exact Hm|]. now apply Hz. }
      unfold Qle, Qminus, Qplus, Qopp, Qmult, inject_Z. cbn [Qnum Qden].
      rewrite !Pos2Z.inj_mul. change (Z.pos 4) with 4. change (Z.pos 1) with 1. nia. }
    pose proof (binary64_round_le _ _ Hr2 Hq) as Hle.
    pose proof (Qle_trans _ _ _ H Hle) as F.
    revert F. unfold Qle, Qminus, Qplus, Qopp, inject_Z. cbn [Qnum Qden]. lia.
  - now apply binary64_round_ge.
Qed.

(** [calculateGrade] gives the best grade of the table whose threshold,
    times the multiplier of the difficulty, the score reaches, and the
    last grade, F, to a negative score; a higher score never gets a lower
    grade. *)
Theorem calculateGrade_thresholds (score : Z) (difficulty : option Difficulty) :
  let m := match difficulty with
           | Some d => ScoringSystem.difficultyMultipliers d
           | None => 1%Q
           end in
  let g := Scoring.calculateGrade score difficulty in
  In g Scoring.grades /\
  (forall g', In g' Scoring.grades ->
     (inject_Z (Scoring.min g') * m <= inject_Z score)%Q ->
     Scoring.min g' <= Scoring.min g) /\
  (0 <= score -> (inject_Z (Scoring.min g) * m <= inject_Z score)%Q) /\
  (score < 0 -> Scoring.grade g = "F") /\
  (forall score', score <= score' ->
     Scoring.min g <= Scoring.min (Scoring.calculateGrade score' difficulty)).
Proof.
  cbv zeta.
  assert (T : forall s k,
            Qle_bool (inject_Z k)
              (inject_Z s / match difficulty with
                            | Some d => ScoringSystem.difficultyMultipliers d
                            | None => 1%Q
                            end)
            = (k * Qnum match difficulty with
                        | Some d => ScoringSystem.difficultyMultipliers d
                        | None => 1%Q
                        end
               <=? s * Z.pos (Qden match difficulty with
                                   | Some d => ScoringSystem.difficultyMultipliers d
                                   | None => 1%Q
                                   end))).
  { intros s k. apply (grade_test k s difficulty). }
  assert (Q : forall k,
            (inject_Z k * match difficulty with
                          | Some d => ScoringSystem.difficultyMultipliers d
                          | None => 1%Q
                          end <= inject_Z score)%Q <->
            k * Qnum match difficulty with
                     | Some d => ScoringSystem.difficultyMultipliers d
                     | None => 1%Q
                     end
            <= score * Z.pos (Qden match difficulty with
                                   | Some d => ScoringSystem.difficultyMultipliers d
                                   | None => 1%Q
                                   end)).
  { intros k. apply (grade_test k score difficulty). }
  unfold Scoring.calculateGrade, Scoring.grades. cbv zeta.
  cbn [find last Scoring.min]. rewrite !T.
  split; [|split; [|split; [|split]]].
  - destruct difficulty as [[]|]; cbn [ScoringSystem.difficultyMultipliers Qnum Qden];
      repeat match goal with
             | |- context [if ?a <=? ?b then _ else _] => destruct (Z.leb_spec a b)
             end; cbn [In]; auto 10.
  - intros g' Hin. rewrite Q.
    destruct difficulty as [[]|]; cbn [ScoringSystem.difficultyMultipliers Qnum Qden];
      repeat match goal with
             | |- context [if ?a <=? ?b then _ else _] => destruct (Z.leb_spec a b)
             end; cbn [In] in Hin;
      repeat (destruct Hin as [<-|Hin]; [cbn [Scoring.min]; lia|]);
      destruct Hin.
  - intros Hs. rewrite Q.
    destruct difficulty as [[]|]; cbn [ScoringSystem.difficultyMultipliers Qnum Qden];
      repeat match goal with
             | |- context [if ?a <=? ?b then _ else _] => destruct (Z.leb_spec a b)
             end; cbn [Scoring.min]; lia.
  - intros Hs.
    destruct difficulty as [[]|]; cbn [ScoringSystem.difficultyMultipliers Qnum Qden];
      repeat match goal with
             | |- context [if ?a <=? ?b then _ else _] => destruct (Z.leb_spec a b)
             end; cbn [Scoring.grade]; try reflexivity; lia.
  - intros score' Hs. rewrite !T.
    destruct difficulty as [[]|]; cbn [ScoringSystem.difficultyMultipliers Qnum Qden];
      repeat match goal with
             | |- context [if ?a <=? ?b then _ else _] => destruct (Z.leb_spec a b)
             end; cbn [Scoring.min]; lia.
Qed.

(** ** The stored statistics, achievements and high scores *)

Lemma has_In (set : list string) (x : string) : Scoring.has set x = true <-> In x set.
Proof.
  unfold Scoring.has. rewrite existsb_exists. split.
  - intros (y & Hy & E). apply String.eqb_eq in E. now subst.
  - intros H. exists x. split; [exact H|apply String.eqb_refl].
Qed.

Lemma set_of_In : forall array members x,
  In x (Scoring.set_of array members) <-> In x members \/ In x array.
Proof.
  induction array as [|y rest IH]; intros members x; cbn [Scoring.set_of].
  - cbn [In]. tauto.
  - destruct (Scoring.has members y) eqn:Eh.
    + rewrite IH. apply has_In in Eh. cbn [In]. split; [tauto|].
      intros [H|[<-|H]]; auto.
    + rewrite IH, in_app_iff. cbn [In]. tauto.
Qed.

Lemma set_of_NoDup : forall array members,
  NoDup members -> NoDup (Scoring.set_of array members).
Proof.
  induction array as [|y rest IH]; intros members Hn; cbn [Scoring.set_of]; [exact Hn|].
  destruct (Scoring.has members y) eqn:Eh; [now apply IH|].
  apply IH. apply NoDup_app; [exact Hn|repeat constructor; auto|].
  intros z Hz [<-|[]]. apply has_In in Hz. congruence.
Qed.

Lemma getAchievements_In st x :
  In x (Storage.getAchievements st) <->
  In x (match Storage.achievements st with Some l => l | None => [] end).
Proof. unfold Storage.getAchievements. rewrite set_of_In. cbn [In]. tauto. Qed.

Lemma addAchievements_In ids st x :
  In x (Storage.getAchievements (Storage.addAchievements ids st)) <->
  In x (Storage.getAchievements st) \/ In x ids.
Proof.
  rewrite !getAchievements_In. unfold Storage.addAchievements.
  cbn [Storage.achievements]. rewrite set_of_In, in_app_iff. cbn [In]. tauto.
Qed.

Lemma updateStats_achievements results st :
  Storage.achievements (snd (Storage.updateStats results st)) = Storage.achievements st /\
  Storage.highScores (snd (Storage.updateStats results st)) = Storage.highScores st /\
  Storage.stats (snd (Storage.updateStats results st))
    = Some (fst (Storage.updateStats results st)).
Proof. unfold Storage.updateStats. cbv zeta. cbn. auto. Qed.

Lemma checkAchievements_In stats earned a :
  In a (Scoring.checkAchievements stats earned) <->
  In a Scoring.achievements /\ ~ In (Scoring.id a) earned /\ Scoring.check a stats = true.
Proof.
  unfold Scoring.checkAchievements. rewrite filter_In, andb_true_iff, negb_true_iff.
  split.
  - intros (H1 & H2 & H3). split; [exact H1|]. split; [|exact H3].
    intros Hin. apply has_In in Hin. congruence.
  - intros (H1 & H2 & H3). split; [exact H1|]. split; [|exact H3].
    destruct (Scoring.has earned (Scoring.id a)) eqn:E; [|reflexivity].
    exfalso. apply H2. now apply has_In.
Qed.

(** What the award of the achievements does to the storage. *)
Lemma awardAchievements_spec results st :
  let stats := fst (Storage.updateStats results st) in
  let new := fst (awardAchievements results st) in
  let st' := snd (awardAchievements results st) in
  new = Scoring.checkAchievements stats (Storage.getAchievements st) /\
  Storage.stats st' = Some stats /\
  Storage.highScores st' = Storage.highScores st /\
  (forall x, In x (Storage.getAchievements st') <->
             In x (Storage.getAchievements st) \/ In x (map Scoring.id new)).
Proof.
  cbv zeta. unfold awardAchievements.
  destruct (Storage.updateStats results st) as [stats st1] eqn:Eu.
  destruct (updateStats_achievements results st) as (Ha & Hh & Hs). rewrite Eu in Ha, Hh, Hs.
  cbn [fst snd] in *.
  assert (Eg : Storage.getAchievements st1 = Storage.getAchievements st).
  { unfold Storage.getAchievements. now rewrite Ha. }
  rewrite Eg.
  destruct (Z.ltb_spec 0 (len (Scoring.checkAchievements stats (Storage.getAchievements st))))
    as [Hpos|Hzero]; cbn [fst snd].
  - split; [reflexivity|]. split; [exact Hs|]. split; [exact Hh|].
    intros x. rewrite addAchievements_In, Eg. tauto.
  - split; [reflexivity|]. split; [exact Hs|]. split; [exact Hh|].
    intros x. rewrite Eg.
    destruct (Scoring.checkAchievements stats (Storage.getAchievements st));
      [cbn [map In]; tauto|].
    unfold len in Hzero. cbn [List.length] in Hzero. lia.
Qed.

Lemma addHighScore_achievements entry st :
  Storage.getAchievements (Storage.addHighScore entry st) = Storage.getAchievements st /\
  Storage.stats (Storage.addHighScore entry st) = Storage.stats st.
Proof. unfold Storage.addHighScore, Storage.getAchievements. cbn. auto. Qed.

(** The achievements that are earned stay earned. *)
Lemma follows_earned st st' x :
  follows st st' -> In x (Storage.getAchievements st) -> In x (Storage.getAchievements st').
Proof.
  induction 1 as [|results st1 _ IH|entry st1 _ IH]; intros Hx.
  - exact Hx.
  - destruct (awardAchievements_spec results st1) as (_ & _ & _ & H).
    apply H. left. auto.
  - destruct (addHighScore_achievements entry st1) as (E & _). rewrite E. auto.
Qed.

(** An achievement is awarded once: what the end of a game awards was not
    earned before, is earned from then on, and is not awarded again by the
    end of any later game. *)
Theorem achievements_are_awarded_once (results results' : Storage.GameResults)
    (st st' : Storage.t) (a : Scoring.Achievement) :
  In a (fst (awardAchievements results st)) ->
  follows (snd (awardAchievements results st)) st' ->
  In a Scoring.achievements /\
  ~ In (Scoring.id a) (Storage.getAchievements st) /\
  In (Scoring.id a) (Storage.getAchievements st') /\
  ~ In (Scoring.id a) (map Scoring.id (fst (awardAchievements results' st'))).
Proof.
  intros Ha Hf.
  destruct (awardAchievements_spec results st) as (En & _ & _ & He). cbv zeta in *.
  rewrite En in Ha. apply checkAchievements_In in Ha. destruct Ha as (H1 & H2 & H3).
  assert (Hin : In (Scoring.id a) (Storage.getAchievements st')).
  { apply (follows_earned _ _ _ Hf). apply He. right.
    apply in_map. rewrite En. apply checkAchievements_In. auto. }
  split; [exact H1|]. split; [exact H2|]. split; [exact Hin|].
  destruct (awardAchievements_spec results' st') as (En' & _). cbv zeta in En'.
  rewrite En'. intros Hc. apply in_map_iff in Hc. destruct Hc as (b & Eb & Hb).
  apply checkAchievements_In in Hb. destruct Hb as (_ & Hb & _).
  apply Hb. now rewrite Eb.
Qed.

Lemma achievements_are_awarded_once_witness :
  In (nth 0 Scoring.achievements (Scoring.mkAchievement "" "" "" "" (fun _ => false)))
     Scoring.achievements /\
  ~ In "first_sort" (Storage.getAchievements Storage.clear) /\
  In "first_sort" (Storage.getAchievements sample_storage) /\
  ~ In "first_sort"
       (map Scoring.id
          (fst (awardAchievements
                  (Storage.mkResults "Heap Sort" "Expert" 100 50 (90 # 1) 2)
                  sample_storage))).
Proof.
  apply (achievements_are_awarded_once
           (Storage.mkResults "Quick Sort" "Hard" 3200 100 (25 # 1) 12)
           (Storage.mkResults "Heap Sort" "Expert" 100 50 (90 # 1) 2)
           Storage.clear sample_storage
           (nth 0 Scoring.achievements (Scoring.mkAchievement "" "" "" "" (fun _ => false)))).
  - left. reflexivity.
  - change sample_storage
      with (snd (awardAchievements
                   (Storage.mkResults "Bubble Sort" "Easy" 700 80 (45 # 1) 4)
                   (snd (awardAchievements
                           (Storage.mkResults "Quick Sort" "Hard" 3200 100 (25 # 1) 12)
                           Storage.clear)))).
    apply follows_game, follows_now.
Defined.

Lemma lookup_None key object :
  (forall v, ~ In (key, v) object) -> Scoring.lookup key object = None.
Proof.
  induction object as [|[k v] rest IH]; intros H; cbn [Scoring.lookup]; [reflexivity|].
  destruct (String.eqb_spec k key) as [->|Hne].
  - exfalso. apply (H v). left. reflexivity.
  - apply IH. intros v' Hv. apply (H v'). right. exact Hv.
Qed.

Lemma assign_keys key value : forall object k v,
  In (k, v) (Storage.assign key value object) ->
  k = key \/ exists v', In (k, v') object.
Proof.
  induction object as [|[k0 v0] rest IH]; intros k v; cbn [Storage.assign].
  - intros [[= <- <-]|[]]. auto.
  - destruct (String.eqb_spec k0 key) as [->|Hne].
    + intros [[= <- <-]|H]; [auto|]. right. exists v. right. exact H.
    + intros [[= <- <-]|H].
      * right. exists v0. left. reflexivity.
      * destruct (IH _ _ H) as [->|(v' & Hv')]; [auto|]. right. exists v'. right. exact Hv'.
Qed.

Lemma assign_sum key : forall object,
  sum_counts (Storage.assign key (Scoring.count_of key object + 1) object)
  = sum_counts object + 1.
Proof.
  unfold Scoring.count_of.
  induction object as [|[k v] rest IH]; cbn [Storage.assign Scoring.lookup sum_counts fold_right snd].
  - lia.
  - destruct (String.eqb_spec k key) as [->|Hne];
      cbn [sum_counts fold_right snd]; [lia|].
    unfold sum_counts in IH. rewrite IH. lia.
Qed.

(** The keys under which [updateStats] counts the games of the engines. *)
Lemma algoKey_cases e :
  In (replace_space (toLowerCase (algorithm_name e)))
     ["bubble_sort"; "selection_sort"; "insertion_sort"; "merge_sort";
      "quick_sort"; "heap_sort"].
Proof. destruct e; cbn; auto 10. Qed.

(** What holds of the storage of a player. *)
Lemma stored_inv st :
  stored st ->
  let stats := Storage.getStats st in
  (forall k v, In (k, v) (Scoring.algorithmGames stats) ->
     In k ["bubble_sort"; "selection_sort"; "insertion_sort"; "merge_sort";
           "quick_sort"; "heap_sort"]) /\
  (forall x, In x (Storage.getAchievements st) ->
     exists a, In a Scoring.achievements /\ Scoring.id a = x /\
               x <> "bubble_master" /\ x <> "quick_professional") /\
  Scoring.gamesCompleted stats = sum_counts (Scoring.algorithmGames stats) /\
  0 <= Scoring.perfectGames stats <= Scoring.gamesCompleted stats /\
  0 <= Scoring.hardGamesCompleted stats /\ 0 <= Scoring.expertGamesCompleted stats /\
  Scoring.hardGamesCompleted stats + Scoring.expertGamesCompleted stats
    <= Scoring.gamesCompleted stats /\
  NoDup (Scoring.algorithmsUsed stats) /\
  (forall x, In x (Scoring.algorithmsUsed stats) -> exists e, x = algorithm_name e) /\
  (Scoring.fastestTime stats = None <-> Scoring.gamesCompleted stats = 0).
Proof.
  induction 1 as [|e d finalScore accuracy timeTaken maxStreak st Hst IH|entry st Hst IH];
    cbv zeta.
  - cbn. split; [intros k v []|]. split; [intros x []|].
    split; [reflexivity|]. split; [lia|]. split; [lia|]. split; [lia|]. split; [lia|].
    split; [constructor|]. split; [intros x []|]. split; reflexivity.
  - cbv zeta in IH.
    destruct IH as (Hk & He & Hg & Hp & Hh & Hx & Hhx & Hn & Hu & Hf).
    set (results := Storage.mkResults (algorithm_name e) (difficulty_name d)
                      finalScore accuracy timeTaken maxStreak).
    destruct (awardAchievements_spec results st) as (En & Es & _ & Hin). cbv zeta in *.
    set (st' := snd (awardAchievements results st)) in *.
    assert (Egs : Storage.getStats st' = fst (Storage.updateStats results st))
      by (unfold Storage.getStats; now rewrite Es).
    rewrite !Egs.
    set (old := Storage.getStats st) in *.
    unfold Storage.updateStats. cbv zeta. fold old.
    cbn [fst Scoring.algorithmGames Scoring.gamesCompleted Scoring.perfectGames
         Scoring.hardGamesCompleted Scoring.expertGamesCompleted
         Scoring.algorithmsUsed Scoring.fastestTime Storage.algorithm
         Storage.difficulty Storage.accuracy Storage.timeTaken results].
    assert (Hkeys : forall k v,
              In (k, v) (Storage.assign (replace_space (toLowerCase (algorithm_name e)))
                           (Scoring.count_of (replace_space (toLowerCase (algorithm_name e)))
                              (Scoring.algorithmGames old) + 1)
                           (Scoring.algorithmGames old)) ->
              In k ["bubble_sort"; "selection_sort"; "insertion_sort"; "merge_sort";
                    "quick_sort"; "heap_sort"]).
    { intros k v Hin'. destruct (assign_keys _ _ _ _ _ Hin') as [->|(v' & Hv')].
      - apply algoKey_cases.
      - eapply Hk; eauto. }
    split; [exact Hkeys|]. split; [|split; [|split; [|split; [|split; [|split; [|split; [|split]]]]]]].
    + intros x Hx'. apply Hin in Hx'. destruct Hx' as [Hx'|Hx']; [now apply He|].
      apply in_map_iff in Hx'. destruct Hx' as (a & <- & Ha).
      rewrite En in Ha. apply checkAchievements_In in Ha. destruct Ha as (H1 & _ & H3).
      exists a. split; [exact H1|]. split; [reflexivity|].
      assert (Hc : forall key,
                In key ["bubble"; "quick"] ->
                Scoring.count_of key
                  (Scoring.algorithmGames (fst (Storage.updateStats results st))) = 0).
      { intros key Hkey. unfold Scoring.count_of. rewrite lookup_None; [reflexivity|].
        intros v Hv. unfold Storage.updateStats in Hv. cbv zeta in Hv.
        fold old in Hv. cbn [fst Scoring.algorithmGames Storage.algorithm results] in Hv.
        apply Hkeys in Hv. cbn [In] in Hkey, Hv.
        destruct Hkey as [<-|[<-|[]]];
          repeat (destruct Hv as [Hv|Hv]; [discriminate|]); destruct Hv. }
      cbn [In] in H1.
      repeat (destruct H1 as [<-|H1];
              [cbn [Scoring.id Scoring.check] in *; split; try discriminate|]);
        try destruct H1;
        exfalso; rewrite Hc in H3 by (cbn [In]; auto); discriminate.
    + rewrite assign_sum. lia.
    + destruct (accuracy =? 100); lia.
    + destruct (_ =? "Hard")%string; lia.
    + destruct (_ =? "Hard")%string; [lia|]. destruct (_ =? "Expert")%string; lia.
    + destruct (_ =? "Hard")%string; [lia|]. destruct (_ =? "Expert")%string; lia.
    + destruct (Scoring.has (Scoring.algorithmsUsed old) (algorithm_name e)) eqn:Eh; [exact Hn|].
      apply NoDup_app; [exact Hn|repeat constructor; auto|].
      intros z Hz [<-|[]]. apply has_In in Hz. congruence.
    + intros x Hx'.
      destruct (Scoring.has (Scoring.algorithmsUsed old) (algorithm_name e)); [now apply Hu|].
      apply in_app_or in Hx'. destruct Hx' as [Hx'|[<-|[]]]; [now apply Hu|eauto].
    + split; [|lia].
      destruct (Scoring.fastestTime old) as [t|]; [|discriminate].
      destruct (Qle_bool t timeTaken); discriminate.
  - cbv zeta in IH. destruct (addHighScore_achievements entry st) as (E1 & E2).
    unfold Storage.getStats in *. rewrite E1, E2. exact IH.
Qed.

Lemma sample_storage_stored : stored sample_storage.
Proof.
  change sample_storage
    with (snd (awardAchievements
                 (Storage.mkResults (algorithm_name bubble) (difficulty_name easy)
                    700 80 (45 # 1) 4)
                 (snd (awardAchievements
                         (Storage.mkResults (algorithm_name quick) (difficulty_name hard)
                            3200 100 (25 # 1) 12)
                         Storage.clear)))).
  apply stored_game, stored_game, stored_clear.
Qed.

Lemma five_bubble_games_stored : stored five_bubble_games.
Proof.
  change five_bubble_games
    with (Nat.iter 5
            (fun st => snd (awardAchievements
                              (Storage.mkResults (algorithm_name bubble)
                                 (difficulty_name medium) 900 90 (40 # 1) 6) st))
            Storage.clear).
  cbn [Nat.iter]. repeat apply stored_game. apply stored_clear.
Qed.

(** The games are counted under the keys [bubble_sort], [quick_sort] and
    the like, and the achievements Bubble Master and Quick Professional
    look for the keys [bubble] and [quick]: after any number of games,
    neither of the two is earned, and the counts that they read are 0. *)
Theorem bubble_master_is_never_awarded (st : Storage.t) :
  stored st ->
  ~ In "bubble_master" (Storage.getAchievements st) /\
  ~ In "quick_professional" (Storage.getAchievements st) /\
  Scoring.count_of "bubble" (Scoring.algorithmGames (Storage.getStats st)) = 0 /\
  Scoring.count_of "quick" (Scoring.algorithmGames (Storage.getStats st)) = 0.
Proof.
  intros H. destruct (stored_inv st H) as (Hk & He & _). cbv zeta in *.
  split; [|split; [|split]].
  - intros Hin. destruct (He _ Hin) as (a & _ & _ & Hn & _). now apply Hn.
  - intros Hin. destruct (He _ Hin) as (a & _ & _ & _ & Hn). now apply Hn.
  - unfold Scoring.count_of. rewrite lookup_None; [reflexivity|].
    intros v Hv. apply Hk in Hv. cbn [In] in Hv.
    repeat (destruct Hv as [Hv|Hv]; [discriminate|]). destruct Hv.
  - unfold Scoring.count_of. rewrite lookup_None; [reflexivity|].
    intros v Hv. apply Hk in Hv. cbn [In] in Hv.
    repeat (destruct Hv as [Hv|Hv]; [discriminate|]). destruct Hv.
Qed.

Lemma bubble_master_is_never_awarded_witness :
  ~ In "bubble_master" (Storage.getAchievements five_bubble_games) /\
  ~ In "quick_professional" (Storage.getAchievements five_bubble_games) /\
  Scoring.count_of "bubble" (Scoring.algorithmGames (Storage.getStats five_bubble_games)) = 0 /\
  Scoring.count_of "quick" (Scoring.algorithmGames (Storage.getStats five_bubble_games)) = 0.
Proof. apply (bubble_master_is_never_awarded five_bubble_games five_bubble_games_stored). Defined.

Lemma set_of_fresh : forall array members,
  NoDup (members ++ array) -> Scoring.set_of array members = (members ++ array)%list.
Proof.
  induction array as [|x rest IH]; intros members Hn; cbn [Scoring.set_of].
  - now rewrite app_nil_r.
  - destruct (Scoring.has members x) eqn:Eh.
    + exfalso. apply has_In in Eh. apply NoDup_remove_2 in Hn.
      apply Hn. apply in_or_app. auto.
    + rewrite IH; rewrite <- app_assoc; [reflexivity|exact Hn].
Qed.

(** The statistics of a player add up: the games completed are the sum of
    the counts by algorithm; the perfect games and the games on the hard
    and expert difficulties are among them; no algorithm is listed twice
    as used, so that the size of the set of the algorithms used is the
    length of the list, at most six; and the fastest time is unknown only
    as long as no game is completed. *)
Theorem stored_statistics_add_up (st : Storage.t) :
  stored st ->
  let stats := Storage.getStats st in
  Scoring.gamesCompleted stats = sum_counts (Scoring.algorithmGames stats) /\
  0 <= Scoring.perfectGames stats <= Scoring.gamesCompleted stats /\
  0 <= Scoring.hardGamesCompleted stats /\ 0 <= Scoring.expertGamesCompleted stats /\
  Scoring.hardGamesCompleted stats + Scoring.expertGamesCompleted stats
    <= Scoring.gamesCompleted stats /\
  NoDup (Scoring.algorithmsUsed stats) /\
  Scoring.set_size (Scoring.algorithmsUsed stats) = len (Scoring.algorithmsUsed stats) /\
  len (Scoring.algorithmsUsed stats) <= 6 /\
  (Scoring.fastestTime stats = None <-> Scoring.gamesCompleted stats = 0).
Proof.
  intros H. destruct (stored_inv st H) as (_ & _ & Hg & Hp & Hh & Hx & Hhx & Hn & Hu & Hf).
  cbv zeta in *.
  split; [exact Hg|]. split; [exact Hp|]. split; [exact Hh|]. split; [exact Hx|].
  split; [exact Hhx|]. split; [exact Hn|]. split; [|split; [|exact Hf]].
  - unfold Scoring.set_size. now rewrite set_of_fresh.
  - assert (Hi : incl (Scoring.algorithmsUsed (Storage.getStats st))
                      (map algorithm_name [bubble; selection; insertion; merge; quick; heap])).
    { intros x Hx'. destruct (Hu x Hx') as (e & ->). apply in_map.
      destruct e; cbn [In]; auto 10. }
    pose proof (NoDup_incl_length Hn Hi) as Hl. cbn [map List.length] in Hl.
    unfold len. lia.
Qed.

Lemma stored_statistics_add_up_witness :
  let stats := Storage.getStats sample_storage in
  Scoring.gamesCompleted stats = sum_counts (Scoring.algorithmGames stats) /\
  0 <= Scoring.perfectGames stats <= Scoring.gamesCompleted stats /\
  0 <= Scoring.hardGamesCompleted stats /\ 0 <= Scoring.expertGamesCompleted stats /\
  Scoring.hardGamesCompleted stats + Scoring.expertGamesCompleted stats
    <= Scoring.gamesCompleted stats /\
  NoDup (Scoring.algorithmsUsed stats) /\
  Scoring.set_size (Scoring.algorithmsUsed stats) = len (Scoring.algorithmsUsed stats) /\
  len (Scoring.algorithmsUsed stats) <= 6 /\
  (Scoring.fastestTime stats = None <-> Scoring.gamesCompleted stats = 0).
Proof. apply (stored_statistics_add_up sample_storage sample_storage_stored). Defined.

Lemma insert_desc_perm x : forall l, Permutation (x :: l) (Storage.insert_desc x l).
Proof.
  induction l as [|y l IH]; cbn [Storage.insert_desc]; [apply Permutation_refl|].
  destruct (Storage.score x <? Storage.score y); [|apply Permutation_refl].
  eapply Permutation_trans; [apply perm_swap|]. now constructor.
Qed.

Lemma insert_desc_descending x : forall l,
  descending l -> descending (Storage.insert_desc x l).
Proof.
  unfold descending.
  induction l as [|y l IH]; intros Hs; cbn [Storage.insert_desc].
  - constructor; constructor.
  - inversion Hs as [|? ? Hs' Hy]; subst.
    destruct (Z.ltb_spec (Storage.score x) (Storage.score y)).
    + constructor; [apply IH, Hs'|].
      apply (Permutation_Forall (insert_desc_perm x l)).
      constructor; [lia|exact Hy].
    + constructor; [exact Hs|]. constructor; [lia|].
      eapply Forall_impl; [|exact Hy]. intros; cbv beta in *; lia.
Qed.

Lemma sort_desc_spec l :
  Permutation l (Storage.sort_desc l) /\ descending (Storage.sort_desc l).
Proof.
  induction l as [|x l (Hp & Hs)]; cbn [Storage.sort_desc].
  - split; constructor.
  - split; [|now apply insert_desc_descending].
    eapply Permutation_trans; [|apply insert_desc_perm]. now constructor.
Qed.

Lemma descending_split n : forall l,
  descending l ->
  descending (firstn n l) /\
  forall d k, In d (skipn n l) -> In k (firstn n l) -> Storage.score d <= Storage.score k.
Proof.
  unfold descending.
  induction n as [|n IH]; intros l Hs; cbn [firstn skipn].
  - split; [constructor|]. intros d k _ [].
  - destruct l as [|x l]; [split; [constructor|intros d k []]|].
    inversion Hs as [|? ? Hs' Hx]; subst.
    destruct (IH l Hs') as (H1 & H2). split.
    + constructor; [exact H1|].
      rewrite Forall_forall in *. intros y Hy. apply Hx.
      rewrite <- (firstn_skipn n l). apply in_or_app. auto.
    + intros d k Hd [<-|Hk]; [|now apply H2].
      rewrite Forall_forall in Hx. apply Hx.
      rewrite <- (firstn_skipn n l). apply in_or_app. auto.
Qed.

(** [addHighScore] keeps the ten best entries, the best one first: the
    list that it stores is in descending order, holds the old entries and
    the new one but for those that it drops, and drops none that is better
    than one that it keeps; the statistics and the achievements stay as
    they are. *)
Theorem addHighScore_keeps_the_ten_best (entry : Storage.HighScore) (st : Storage.t) :
  let st' := Storage.addHighScore entry st in
  let kept := Storage.getHighScores st' in
  len kept = Z.min 10 (len (Storage.getHighScores st) + 1) /\
  descending kept /\
  (exists dropped,
     Permutation (Storage.getHighScores st ++ [entry]) (kept ++ dropped) /\
     forall d k, In d dropped -> In k kept -> Storage.score d <= Storage.score k) /\
  Storage.stats st' = Storage.stats st /\
  Storage.achievements st' = Storage.achievements st.
Proof.
  cbv zeta. unfold Storage.addHighScore. cbv zeta.
  cbn [Storage.getHighScores Storage.highScores Storage.stats Storage.achievements].
  fold (Storage.getHighScores st).
  set (all := (Storage.getHighScores st ++ [entry])%list).
  destruct (sort_desc_spec all) as (Hp & Hs).
  destruct (descending_split 10 _ Hs) as (H1 & H2).
  split; [|split; [exact H1|split; [|split; reflexivity]]].
  - unfold len. rewrite length_firstn, <- (Permutation_length Hp).
    unfold all. rewrite length_app. cbn [List.length]. lia.
  - exists (skipn 10 (Storage.sort_desc all)). split; [|exact H2].
    now rewrite firstn_skipn.
Qed.

(** ** The moves of a game and the user actions of its trace *)

(** [advanceToNextUserAction] passes steps that are no user actions. *)
Lemma advance_passes : forall cnt g p,
  0 <= GM.currentStepIndex g ->
  GM.currentStepIndex g <= p < GM.currentStepIndex (GM.advance cnt g) ->
  exists s, js_get (GM.steps g) p = Some s /\ isUserAction s = false.
Proof.
  induction cnt as [|cnt IH]; intros g p H0; cbn [GM.advance]; [lia|].
  destruct (Z.ltb_spec (GM.currentStepIndex g) (len (GM.steps g))); [|lia].
  destruct (js_get (GM.steps g) (GM.currentStepIndex g)) as [step|] eqn:Ek; [|lia].
  destruct (isUserAction step) eqn:Eu; [lia|].
  intros Hp. destruct (Z.eq_dec p (GM.currentStepIndex g)) as [->|Hne]; [eauto|].
  apply (IH (GM.with_cursor g (map Some (arrayState step)) (GM.currentStepIndex g + 1)) p);
    cbn [GM.with_cursor GM.currentStepIndex]; lia.
Qed.

Lemma user_actions_before_next t c s :
  js_get t c = Some s ->
  user_actions_before t (c + 1)
  = user_actions_before t c + (if isUserAction s then 1 else 0).
Proof.
  intros Ek. pose proof (js_get_Some _ _ _ Ek) as Hc. apply js_get_nth_error in Ek.
  unfold user_actions_before, getUserActionCount.
  replace (Z.to_nat (c + 1)) with (S (Z.to_nat c)) by lia.
  revert Ek. generalize (Z.to_nat c). clear. intros k. revert t.
  induction k as [|k IH]; intros [|x t] Ek; cbn [nth_error] in Ek; try discriminate.
  - injection Ek as ->. cbn [firstn filter]. destruct (isUserAction s); reflexivity.
  - specialize (IH t Ek). cbn [firstn filter] in *.
    destruct (isUserAction x); unfold len in *; cbn [List.length] in *; lia.
Qed.

Lemma user_actions_before_quiet t : forall k c,
  0 <= c ->
  (forall p, c <= p < c + Z.of_nat k ->
     exists s, js_get t p = Some s /\ isUserAction s = false) ->
  user_actions_before t (c + Z.of_nat k) = user_actions_before t c.
Proof.
  induction k as [|k IH]; intros c Hc H.
  - f_equal. lia.
  - replace (c + Z.of_nat (S k)) with (c + Z.of_nat k + 1) by lia.
    destruct (H (c + Z.of_nat k)) as (s & Ek & Eu); [lia|].
    rewrite (user_actions_before_next _ _ _ Ek), Eu, IH; [lia|lia|].
    intros p Hp. apply H. lia.
Qed.

Lemma user_actions_before_all t c :
  len t <= c -> user_actions_before t c = getUserActionCount t.
Proof.
  intros H. unfold user_actions_before. rewrite firstn_all2; [reflexivity|].
  unfold len in H. lia.
Qed.

Lemma advanceToNextUserAction_count g1 :
  0 <= GM.currentStepIndex g1 ->
  user_actions_before (GM.steps g1)
    (GM.currentStepIndex (GM.advanceToNextUserAction g1))
  = user_actions_before (GM.steps g1) (GM.currentStepIndex g1).
Proof.
  intros H0. unfold GM.advanceToNextUserAction.
  set (cnt := Z.to_nat (len (GM.steps g1) - GM.currentStepIndex g1)).
  destruct (advance_rest cnt g1 H0) as (H1 & _). cbv zeta in H1.
  assert (Hle : GM.currentStepIndex g1 <= GM.currentStepIndex (GM.advance cnt g1))
    by (destruct H1 as [(E & _)|(Hlt & _)]; lia).
  replace (GM.currentStepIndex (GM.advance cnt g1))
    with (GM.currentStepIndex g1
          + Z.of_nat (Z.to_nat (GM.currentStepIndex (GM.advance cnt g1)
                                - GM.currentStepIndex g1))) by lia.
  apply user_actions_before_quiet; [exact H0|].
  intros p Hp. apply (advance_passes cnt g1 p H0). lia.
Qed.

(** In the trace of a swap engine the user actions are the swaps; the
    trace of merge sort has no swap. *)
Lemma user_actions_are_swaps e input t :
  generateSteps e input = Some t ->
  (is_merge e = false -> getUserActionCount t = getOptimalSwapCount t) /\
  (is_merge e = true -> getOptimalSwapCount t = 0).
Proof.
  intros E. destruct (generateSteps_ok e input) as (t' & E' & final & (_ & Hw & _) & _).
  rewrite E in E'. injection E' as <-. cbn [arr steps] in Hw. clear E.
  unfold getUserActionCount, getOptimalSwapCount. split; intros Hm; rewrite Hm in Hw.
  - f_equal. induction Hw as [|s t0 (_ & _ & H3 & H4) _ IH]; cbn [filter]; [reflexivity|].
    destruct (isUserAction s) eqn:Eu.
    + destruct (H4 eq_refl) as [Hty|(Hx & _)]; [|discriminate].
      rewrite Hty. cbn [StepType_eqb]. now rewrite IH.
    + destruct (type s) eqn:Ety; cbn [StepType_eqb]; try exact IH.
      destruct (H3 eq_refl) as (_ & Hu & _). congruence.
  - induction Hw as [|s t0 (_ & _ & H3 & _) _ IH]; cbn [filter]; [reflexivity|].
    destruct (type s) eqn:Ety; cbn [StepType_eqb]; try exact IH.
    destruct (H3 eq_refl) as (Hx & _). discriminate.
Qed.

Lemma played_count g :
  played g -> GM.correctMoves g = user_actions_before (GM.steps g) (GM.currentStepIndex g).
Proof.
  induction 1 as [e0 d it generated now g H|now i j g r g' Hp IH H].
  - revert H. unfold GM.startGame.
    destruct (generateSteps e0 generated) as [t|] eqn:Et; [|discriminate].
    intros [= <-]. cbn [GM.correctMoves GM.steps GM.currentStepIndex].
    match goal with |- context [GM.advanceToNextUserAction ?g0] =>
      pose proof (advanceToNextUserAction_count g0) as Hc;
      unfold GM.advanceToNextUserAction in *;
      rewrite (advance_fields _ g0) in *;
      cbn [GM.with_cursor GM.correctMoves GM.steps GM.currentStepIndex] in * end.
    rewrite Hc by lia. reflexivity.
  - pose proof (reachable_inv g (played_reachable g Hp)) as Hinv.
    unfold attemptSwap in H.
    destruct (processMove_outcome _ _ g r g' (session_inv_wf g Hinv) H)
      as [(_ & ->)|(Ha & Hc & (step & Ek & Eu) &
                    [(_ & _ & ->)|(_ & _ & ->)])].
    all: try set (array' := GM.applyAction _ (GM.currentArray g)) in *.
    + exact IH.
    + unfold after_incorrect. cbn [GM.correctMoves GM.steps GM.currentStepIndex]. exact IH.
    + destruct Hinv as (_ & _ & H0 & _).
      pose proof (advanceToNextUserAction_count (after_correct g array')) as Hcnt.
      unfold move_on. cbv zeta.
      assert (F : forall g2, GM.correctMoves (if GM.currentStepIndex g2 >=? len (GM.steps g2)
                                              then GM.completeGame 0 g2 else g2)
                             = GM.correctMoves g2) by (intros; destruct (_ >=? _); reflexivity).
      destruct (GM.currentStepIndex (GM.advanceToNextUserAction (after_correct g array'))
                >=? len (GM.steps (GM.advanceToNextUserAction (after_correct g array'))));
        cbn [GM.completeGame GM.correctMoves GM.steps GM.currentStepIndex];
        unfold GM.advanceToNextUserAction in *;
        rewrite (advance_fields _ (after_correct g array')) in *;
        cbn [GM.with_cursor after_correct GM.correctMoves GM.steps GM.currentStepIndex] in *;
        (rewrite Hcnt by lia);
        rewrite (user_actions_before_next _ _ _ Ek), Eu; lia.
Qed.

(** In a game played by the moves of the interface, without skipping a
    step, the correct moves so far are as many as the user actions of the
    trace before the cursor; when the
    game is complete they are all the user actions of the trace, which for
    the five swap engines is the count that [getOptimalSwapCount] gives. *)
Theorem correct_moves_are_the_user_actions (g : GM.t) (e : Algorithm) :
  played g -> GM.currentAlgorithm g = Some e ->
  GM.correctMoves g = user_actions_before (GM.steps g) (GM.currentStepIndex g) /\
  (GM.isGameComplete g = true ->
   GM.correctMoves g = getUserActionCount (GM.steps g) /\
   (e <> merge -> GM.correctMoves g = getOptimalSwapCount (GM.steps g))).
Proof.
  intros Hp He. pose proof (played_count g Hp) as Hc. split; [exact Hc|].
  intros Hd. destruct (reachable_inv g (played_reachable g Hp))
    as ((e' & He' & Ht) & _ & _ & _ & _ & Hend & _).
  rewrite He in He'. injection He' as <-.
  rewrite user_actions_before_all in Hc by auto. split; [exact Hc|].
  intros Hm. rewrite Hc. apply (user_actions_are_swaps e _ _ Ht).
  destruct e; try reflexivity. contradiction.
Qed.

Lemma correct_moves_are_the_user_actions_witness :
  GM.correctMoves won_session
    = user_actions_before (GM.steps won_session) (GM.currentStepIndex won_session) /\
  (GM.isGameComplete won_session = true ->
   GM.correctMoves won_session = getUserActionCount (GM.steps won_session) /\
   (heap <> merge -> GM.correctMoves won_session = getOptimalSwapCount (GM.steps won_session))).
Proof.
  apply (correct_moves_are_the_user_actions won_session heap);
    [exact won_session_played|reflexivity].
Defined.

(** ** Bubble sort and insertion sort undo one inversion with each swap *)

Lemma inversions_sorted a : StronglySorted Z.le a -> inversions a = 0.
Proof.
  induction 1 as [|x a Hs IH Hx]; cbn [inversions]; [reflexivity|].
  rewrite IH. replace (filter (fun y => y <? x) a) with (@nil Z); [reflexivity|].
  symmetry. clear Hs IH. induction Hx as [|y a Hy _ IH]; cbn [filter]; [reflexivity|].
  destruct (Z.ltb_spec y x); [lia|exact IH].
Qed.

Lemma inversions_adjacent x y : forall l1 l2,
  y < x ->
  inversions (l1 ++ x :: y :: l2) = inversions (l1 ++ y :: x :: l2) + 1.
Proof.
  induction l1 as [|z l1 IH]; intros l2 Hxy; cbn [app inversions filter].
  - destruct (Z.ltb_spec y x); [|lia]. destruct (Z.ltb_spec x y); [lia|].
    unfold len. cbn [List.length]. lia.
  - rewrite IH by exact Hxy.
    assert (E : len (filter (fun v => v <? z) (l1 ++ x :: y :: l2))
                = len (filter (fun v => v <? z) (l1 ++ y :: x :: l2))).
    { unfold len. rewrite !filter_app, !length_app. cbn [filter].
      destruct (x <? z), (y <? z); cbn [List.length]; lia. }
    lia.
Qed.

Lemma zswap_adjacent (a : list Z) j :
  0 <= j -> j + 1 < len a ->
  exists l1 l2,
    a = (l1 ++ zget a j :: zget a (j + 1) :: l2)%list /\
    zswap a j (j + 1) = (l1 ++ zget a (j + 1) :: zget a j :: l2)%list.
Proof.
  intros H0 H1.
  exists (firstn (Z.to_nat j) a), (skipn (Z.to_nat j + 2) a).
  assert (E : a = (firstn (Z.to_nat j) a ++ zget a j :: zget a (j + 1)
                   :: skipn (Z.to_nat j + 2) a)%list).
  { rewrite <- (firstn_skipn (Z.to_nat j) a) at 1. f_equal.
    unfold zget, len in *.
    assert (Hl : (Z.to_nat j + 1 < List.length a)%nat) by lia.
    replace (Z.to_nat (j + 1)) with (S (Z.to_nat j)) by lia.
    revert Hl. generalize (Z.to_nat j). clear. intros k. revert a.
    induction k as [|k IH]; intros [|x [|y a]] Hl; cbn [List.length] in Hl; try lia.
    - reflexivity.
    - cbn [skipn nth plus]. specialize (IH (y :: a)). cbn [skipn nth plus] in IH.
      apply IH. cbn [List.length]. lia. }
  split; [exact E|].
  apply zget_ext.
  - rewrite len_zswap. rewrite E at 1. unfold len. rewrite !length_app. reflexivity.
  - rewrite len_zswap. intros k Hk. rewrite zget_zswap by lia.
    assert (Hf : len (firstn (Z.to_nat j) a) = j)
      by (unfold len in *; rewrite length_firstn; lia).
    destruct (Z.eqb_spec k (j + 1)) as [->|N1]; [|destruct (Z.eqb_spec k j) as [->|N2]].
    + rewrite zget_app_r by lia. rewrite Hf. replace (j + 1 - j) with 1 by lia. reflexivity.
    + rewrite zget_app_r by lia. rewrite Hf, Z.sub_diag. reflexivity.
    + rewrite E at 1.
      destruct (Z.lt_ge_cases k j).
      * rewrite !zget_app_l by lia. reflexivity.
      * rewrite !zget_app_r by lia. rewrite Hf.
        unfold zget. replace (Z.to_nat (k - j)) with (S (S (Z.to_nat (k - j - 2)))) by lia.
        reflexivity.
Qed.

(** Along a trace whose swaps exchange inverted neighbours, each swap
    undoes one inversion. *)
Lemma linked_inversions n : forall t a0 a,
  Forall (wf_step false n) t -> Forall adjacent_inverted t ->
  linked a0 t a -> len a0 = n ->
  inversions a0 = inversions a + getOptimalSwapCount t.
Proof.
  unfold getOptimalSwapCount.
  induction t as [|s t IH]; intros a0 a Hw Ha Hl Hn; cbn [linked filter] in *.
  - subst a. unfold len. cbn [List.length]. lia.
  - pose proof (Forall_inv Hw) as Hs. pose proof (Forall_inv_tail Hw) as Hw'.
    pose proof (Forall_inv Ha) as Hadj. pose proof (Forall_inv_tail Ha) as Ha'.
    destruct Hl as (Es & a1 & He & Hl).
    destruct (effect_cases _ _ _ _ _ Hs He) as (H1 & _ & H3).
    destruct (StepType_eqb (type s) SWAP) eqn:Ety.
    + assert (Ety' : type s = SWAP) by (destruct (type s); try discriminate; reflexivity).
      destruct (H1 Ety') as (i & j & Ei & ->).
      destruct (Hadj Ety') as (j' & Ej & Hlt). rewrite Ei in Ej. injection Ej as -> ->.
      destruct Hs as (_ & Hlen & H3' & _).
      destruct (H3' Ety') as (_ & _ & p & q & Ep & Hp & Hq). rewrite Ei in Ep.
      injection Ep as <- <-. rewrite Es in *.
      destruct (zswap_adjacent a0 j') as (l1 & l2 & E1 & E2); [lia|lia|].
      assert (Hrec := IH (zswap a0 j' (j' + 1)) a Hw' Ha' Hl).
      rewrite len_zswap in Hrec. specialize (Hrec Hn).
      rewrite E2 in Hrec. rewrite E1 at 1.
      rewrite (inversions_adjacent _ _ l1 l2 Hlt), Hrec.
      unfold len. cbn [List.length]. lia.
    + assert (Ety' : type s <> SWAP) by (intros E; rewrite E in Ety; discriminate).
      assert (Eu : isUserAction s = false).
      { destruct (isUserAction s) eqn:Eu; [|reflexivity].
        destruct Hs as (_ & _ & _ & H4).
        destruct (H4 Eu) as [?|(? & _)]; congruence. }
      rewrite (H3 Ety' Eu) in Hl. apply IH; auto.
Qed.

Section BubbleSwaps.

Variable input : list Z.
Let n := len input.

(* The array keeps its length, and the swaps so far exchange inverted
   neighbours. *)
Let keeps (s : EngineState) : Prop :=
  len (arr s) = n /\ Forall adjacent_inverted (steps s).

Lemma keeps_emit a st ty idx d u :
  keeps (mkSt a st) -> ty <> SWAP -> keeps (mkSt a (st ++ [createStep ty idx a d u])).
Proof.
  intros (Hl & Hf) Hty. split; [exact Hl|]. cbn [arr steps] in *.
  apply Forall_app. split; [exact Hf|]. constructor; [|constructor].
  intros E. cbn in E. congruence.
Qed.

Lemma keeps_swap a st j d u :
  keeps (mkSt a st) -> zget a (j + 1) < zget a j ->
  keeps (mkSt (zswap a j (j + 1)) (st ++ [createStep SWAP [j; j + 1] a d u])).
Proof.
  intros (Hl & Hf) Hlt. split; [cbn [arr] in *; now rewrite len_zswap|].
  cbn [arr steps] in *. apply Forall_app. split; [exact Hf|]. constructor; [|constructor].
  intros _. exists j. split; [reflexivity|exact Hlt].
Qed.

Lemma bubble_pass_swaps i a st :
  keeps (mkSt a st) -> 0 <= i ->
  wp (BubbleSort.pass n i) (fun _ s' => keeps s') (mkSt a st).
Proof.
  intros HK Hi. unfold BubbleSort.pass.
  destruct (Z_le_dec 0 (n - i - 1)) as [Hle|Hgt].
  - eapply wp_conseq.
    + apply (wp_for_up (fun _ (_ : bool) s' => keeps s')); [lia|exact HK|].
      intros j swapped [a' st'] Hj HK'.
      assert (Hn' : len a' = n) by (destruct HK' as (H & _); exact H).
      apply wp_bind, wp_emit.
      apply wp_bind, wp_readA; [lia|].
      apply wp_bind, wp_readA; [lia|].
      destruct (Z.gtb_spec (zget a' j) (zget a' (j + 1))) as [Hgt|Hle'].
      * apply wp_bind, wp_emit. apply wp_bind, wp_swapA; [lia|lia|].
        apply wp_ret. apply keeps_swap; [|lia]. apply keeps_emit; [exact HK'|discriminate].
      * apply wp_ret. apply keeps_emit; [exact HK'|discriminate].
    + intros swapped s' H. exact H.
  - apply wp_for_up_none; [lia|exact HK].
Qed.

Lemma keeps_marks lo hi (d : Z -> list Z -> string) a st :
  keeps (mkSt a st) ->
  wp (for_up lo hi (fun k (_ : unit) => emit SORTED [k] (d k) false) tt)
     (fun _ s' => keeps s') (mkSt a st).
Proof.
  intros HK. destruct (Z_le_dec lo hi) as [Hle|Hgt].
  - eapply wp_conseq.
    + apply (wp_for_up (fun _ (_ : unit) s' => keeps s')); [lia|exact HK|].
      intros j [] [a' st'] Hj HK'. apply wp_emit. apply keeps_emit; [exact HK'|discriminate].
    + intros [] s' H. exact H.
  - apply wp_for_up_none; [lia|exact HK].
Qed.

Lemma bubble_passes_swaps : forall cnt i a st,
  keeps (mkSt a st) -> 0 <= i ->
  wp (BubbleSort.passes cnt n i) (fun _ s' => keeps s') (mkSt a st).
Proof.
  induction cnt as [|cnt IH]; intros i a st HK Hi; cbn [BubbleSort.passes].
  - apply wp_ret. exact HK.
  - apply wp_bind. eapply wp_conseq; [apply bubble_pass_swaps; auto|].
    intros swapped [a1 st1] HK1.
    apply wp_bind, wp_emit.
    destruct swapped; cbn [negb].
    + apply IH; [|lia]. apply keeps_emit; [exact HK1|discriminate].
    + apply keeps_marks. apply keeps_emit; [exact HK1|discriminate].
Qed.

Lemma bubble_swaps_adjacent :
  exists t, BubbleSort.generateSteps input = Some t /\ Forall adjacent_inverted t.
Proof.
  unfold BubbleSort.generateSteps. apply wp_run. cbv zeta.
  apply wp_bind. eapply wp_conseq.
  - apply (bubble_passes_swaps (Z.to_nat (len input - 1)) 0 input []); [|lia].
    split; [reflexivity|constructor].
  - intros [] [a st] HK. apply wp_bind, wp_getSteps.
    destruct (last (map Some st) None) as [final|].
    + destruct (negb (strict_eq (js_get (indices final) 0) (Some 0))).
      * apply wp_emit. apply (keeps_emit a st); [exact HK|discriminate].
      * apply wp_ret. apply HK.
    + apply wp_ret. apply HK.
Qed.

Lemma insertion_shift_swaps key : forall k a st,
  keeps (mkSt a st) -> Z.of_nat k < n -> zget a (Z.of_nat k) = key ->
  wp (InsertionSort.shift k key) (fun _ s' => keeps s') (mkSt a st).
Proof.
  induction k as [|k IH]; intros a st HK Hk Hkey; cbn [InsertionSort.shift].
  - apply wp_ret. exact HK.
  - assert (Hn : len a = n) by (destruct HK as (H & _); exact H).
    cbv zeta. set (j := Z.of_nat k) in *.
    assert (Ek : Z.of_nat (S k) = j + 1) by lia. rewrite Ek in *.
    apply wp_bind, wp_readA; [lia|].
    destruct (Z.gtb_spec (zget a j) key) as [Hgt|Hle].
    + apply wp_bind, wp_emit. apply wp_bind, wp_emit.
      apply wp_bind, wp_readA; [lia|].
      apply wp_bind, wp_writeA; [lia|].
      apply wp_bind, wp_writeA; [rewrite len_zset; lia|].
      assert (E : zset (zset a (j + 1) (zget a j)) j key = zswap a j (j + 1)).
      { rewrite <- Hkey. apply zset_zset_swap; lia. }
      rewrite E. apply IH.
      * apply keeps_swap; [|lia]. apply keeps_emit; [exact HK|discriminate].
      * lia.
      * fold j. rewrite zget_zswap by lia.
        destruct (Z.eqb_spec j (j + 1)); [lia|]. rewrite Z.eqb_refl. exact Hkey.
    + apply wp_ret. exact HK.
Qed.

Lemma insertion_swaps_adjacent :
  exists t, InsertionSort.generateSteps input = Some t /\ Forall adjacent_inverted t.
Proof.
  unfold InsertionSort.generateSteps. apply wp_run. cbv zeta. fold n.
  apply wp_bind, wp_emit.
  assert (HK0 : forall d, keeps (mkSt input ([] ++ [createStep SORTED [0] input d false]))).
  { intros d. apply keeps_emit; [split; [reflexivity|constructor]|discriminate]. }
  apply wp_bind.
  destruct (Z_le_dec 1 n) as [Hle|Hgt].
  - eapply wp_conseq.
    + apply (wp_for_up (fun _ (_ : unit) s => keeps s)); [lia|apply HK0|].
      intros i [] [a st] Hi HK.
      assert (Hn : len a = n) by (destruct HK as (H & _); exact H).
      apply wp_bind, wp_readA; [lia|].
      apply wp_bind, wp_emit.
      apply wp_bind. eapply wp_conseq.
      { apply (insertion_shift_swaps (zget a i) (Z.to_nat i)).
        - apply keeps_emit; [exact HK|discriminate].
        - lia.
        - f_equal. lia. }
      intros j [a' st'] HK'.
      apply wp_bind. destruct (j =? i - 1).
      * apply wp_emit. apply wp_emit.
        apply keeps_emit; [|discriminate]. apply keeps_emit; [exact HK'|discriminate].
      * apply wp_ret. apply wp_emit. apply keeps_emit; [exact HK'|discriminate].
    + intros [] [a st] HK. eapply wp_conseq; [apply keeps_marks; exact HK|].
      intros [] s' (_ & H). exact H.
  - apply wp_for_up_none; [lia|].
    eapply wp_conseq; [apply keeps_marks; apply HK0|].
    intros [] s' (_ & H). exact H.
Qed.

End BubbleSwaps.

(** The user actions of a game of bubble sort or of insertion sort are as
    many as the inversions of the array: every swap of the trace exchanges
    two neighbours that are in the wrong order, and so undoes exactly one
    inversion. *)
Theorem swaps_count_the_inversions (e : Algorithm) (input : list Z) :
  e = bubble \/ e = insertion ->
  exists t, generateSteps e input = Some t /\
    Forall adjacent_inverted t /\
    getOptimalSwapCount t = inversions input /\
    getUserActionCount t = inversions input.
Proof.
  intros He.
  assert (Ha : exists t, generateSteps e input = Some t /\ Forall adjacent_inverted t).
  { destruct He as [-> | ->]; cbn [generateSteps];
      [apply bubble_swaps_adjacent|apply insertion_swaps_adjacent]. }
  destruct Ha as (t & E & Hadj). exists t. split; [exact E|]. split; [exact Hadj|].
  assert (Hm : is_merge e = false) by (destruct He as [-> | ->]; reflexivity).
  destruct (generateSteps_ok e input) as (t' & E' & Hpost).
  rewrite E in E'. injection E' as <-.
  destruct (engine_post_final e input t Hpost) as (final & (_ & Hw & Hl) & (Hs & _) & _).
  cbn [arr steps] in Hw, Hl. rewrite Hm in Hw.
  pose proof (linked_inversions _ t input final Hw Hadj Hl eq_refl) as Hi.
  rewrite (inversions_sorted final Hs) in Hi.
  assert (Eo : getOptimalSwapCount t = inversions input) by lia.
  split; [exact Eo|].
  rewrite (proj1 (user_actions_are_swaps e input t E) Hm). exact Eo.
Qed.

Lemma swaps_count_the_inversions_witness :
  exists t, generateSteps insertion [3; 1; 2; 1] = Some t /\
    Forall adjacent_inverted t /\
    getOptimalSwapCount t = inversions [3; 1; 2; 1] /\
    getUserActionCount t = inversions [3; 1; 2; 1].
Proof. apply (swaps_count_the_inversions insertion [3; 1; 2; 1]). right. reflexivity. Defined.

(** ** Selection sort swaps at most once for each position *)

Lemma swap_count_snoc st ty idx a d u :
  getOptimalSwapCount (st ++ [createStep ty idx a d u])
  = getOptimalSwapCount st + (if StepType_eqb ty SWAP then 1 else 0).
Proof.
  unfold getOptimalSwapCount, len. rewrite filter_app, length_app.
  cbn [filter type createStep]. destruct (StepType_eqb ty SWAP); cbn [List.length]; lia.
Qed.

Section SelectionSwaps.

Variable input : list Z.
Let n := len input.

Lemma selection_findMin_swaps i a st :
  len a = n -> 0 <= i < n ->
  wp (SelectionSort.findMin n i)
     (fun m s' => i <= m < n /\ arr s' = a /\
                  getOptimalSwapCount (steps s') = getOptimalSwapCount st)
     (mkSt a st).
Proof.
  intros Hn Hi. unfold SelectionSort.findMin.
  eapply wp_conseq.
  - apply (wp_for_up (fun j m s' => i <= m < n /\ arr s' = a /\
             getOptimalSwapCount (steps s') = getOptimalSwapCount st)); [lia| |].
    + cbn [arr steps]. repeat split; lia.
    + intros j m [a' st'] Hj (Hm & Ha & Hc). cbn [arr steps] in *. subst a'.
      apply wp_bind, wp_emit.
      apply wp_bind, wp_readA; [lia|].
      apply wp_bind, wp_readA; [lia|].
      destruct (zget a j <? zget a m).
      * apply wp_bind, wp_emit. apply wp_ret. cbn [arr steps].
        rewrite !swap_count_snoc. cbn [StepType_eqb]. repeat split; try lia.
      * apply wp_ret. cbn [arr steps].
        rewrite !swap_count_snoc. cbn [StepType_eqb]. repeat split; try lia.
  - intros m s' H. exact H.
Qed.

Lemma selection_swaps_bounded :
  exists t, SelectionSort.generateSteps input = Some t /\
            getOptimalSwapCount t <= Z.max 0 (n - 1).
Proof.
  unfold SelectionSort.generateSteps. apply wp_run. cbv zeta. fold n.
  apply wp_bind.
  destruct (Z_le_dec 0 (n - 1)) as [Hle|Hgt].
  - eapply wp_conseq.
    + apply (wp_for_up (fun i (_ : unit) s =>
               len (arr s) = n /\ getOptimalSwapCount (steps s) <= i)); [lia| |].
      * cbn [arr steps]. split; [reflexivity|]. unfold getOptimalSwapCount, len.
        cbn [filter List.length]. lia.
      * intros i [] [a st] Hi (Hn & Hc). cbn [arr steps] in *.
        apply wp_bind, wp_emit.
        apply wp_bind. eapply wp_conseq; [apply selection_findMin_swaps; [exact Hn|lia]|].
        intros m [a' st'] (Hm & Ha & Hc'). cbn [arr steps] in *. subst a'.
        rewrite swap_count_snoc in Hc'. cbn [StepType_eqb] in Hc'.
        apply wp_bind.
        destruct (m =? i); cbn [negb].
        -- apply wp_ret. apply wp_emit. cbn [arr steps].
           rewrite swap_count_snoc. cbn [StepType_eqb]. split; [exact Hn|lia].
        -- apply wp_bind, wp_emit. apply wp_swapA; [lia|lia|].
           apply wp_emit. cbn [arr steps].
           rewrite !swap_count_snoc. cbn [StepType_eqb].
           split; [rewrite len_zswap; exact Hn|lia].
    + intros [] [a st] (Hn & Hc). apply wp_emit. cbn [arr steps] in *.
      rewrite swap_count_snoc. cbn [StepType_eqb]. lia.
  - apply wp_for_up_none; [lia|]. apply wp_emit. cbn [arr steps].
    unfold getOptimalSwapCount, len. cbn [filter app createStep type StepType_eqb List.length].
    lia.
Qed.

End SelectionSwaps.

(** A game of selection sort asks for at most one swap for each position
    but the last: on an array of n numbers the trace holds at most n - 1
    swaps, and they are all of its user actions. *)
Theorem selection_needs_fewer_swaps_than_cells (input : list Z) :
  exists t, generateSteps selection input = Some t /\
    getOptimalSwapCount t <= Z.max 0 (len input - 1) /\
    getUserActionCount t = getOptimalSwapCount t.
Proof.
  destruct (selection_swaps_bounded input) as (t & E & Hc).
  exists t. split; [exact E|]. split; [exact Hc|].
  apply (proj1 (user_actions_are_swaps selection input t E)). reflexivity.
Qed.
